(** * go-collection/trie: a shallow embedding of the trie engine

    The Go package [trie] is a pointer structure: nodes carry a parent
    back-reference and an array of child slots, leaves are additionally
    threaded on a doubly-linked list between two sentinels.  The embedding
    keeps that shape: every Go object lives in a store ([heap]) and is
    addressed by its location, a [nil] interface value is [None], and the
    methods are functions that read and update the store.

    - A run-time panic (nil dereference, slice index out of range, failed
      type assertion, [make] with a negative length) is the result [Panic].
    - Loops without a syntactic bound take a [fuel] argument; [OutOfFuel]
      says that the run did not finish within it.
    - Go's [int] is modelled by [Z]; no counter of the package can reach the
      64-bit limits before memory is exhausted.
    - Elements are [interface{}] values in the source.  The string digitizer
      accepts strings only (its type assertion panics otherwise), so the
      public operations of the model take a [string], and a stored value is
      an [option string] ([None] for the [nil] interface). *)

From Stdlib Require Import ZArith Lia Bool Ascii.
From stdpp Require Import base tactics option list strings sorting.

Local Open Scope string_scope.
Local Open Scope list_scope.
Local Open Scope Z_scope.

(** ** Results and errors *)

Inductive result (A : Type) : Type :=
| Ok (a : A)
| Panic
| OutOfFuel.
Arguments Ok {A} a.
Arguments Panic {A}.
Arguments OutOfFuel {A}.

Definition rbind {A B : Type} (m : result A) (f : A -> result B) : result B :=
  match m with
  | Ok a => f a
  | Panic => Panic
  | OutOfFuel => OutOfFuel
  end.

Notation "'let*' p ':=' m 'in' k" := (rbind m (fun p => k))
  (at level 10, p pattern, m at level 100, k at level 200).

(** The values built by [errors.Errorf] / [errors.New] in the package. *)
Inductive error : Type :=
| NodeIndexOutOfBounds (cap index : Z)
| ChildExists (index : Z)
| PrefixViolation (element : string)
| TrieIndexOutOfBounds (index : Z).

(** ** Nodes and the store *)

Abbreviation loc := nat (only parsing).
Abbreviation ptr := (option nat) (only parsing).

Record node : Type := mkNode {
  parent : ptr;
  children : list ptr;
  numChildren : Z;
  element : option string;
  isRoot : bool
}.

(** [leafNode] embeds a [Node]; the embedded node is created by
    [newNode(0)] and only ever reached through its leaf, so both live in one
    store cell. *)
Record leafNode : Type := mkLeafNode {
  Node : node;
  next : ptr;
  previous : ptr;
  isHead : bool;
  isTail : bool
}.

(** The two implementations of the [Node] interface. *)
Inductive object : Type :=
| ONode (n : node)
| OLeaf (l : leafNode).

Abbreviation heap := (list object).

Definition node_of (o : object) : node :=
  match o with
  | ONode n => n
  | OLeaf l => Node l
  end.

Definition map_node (f : node -> node) (o : object) : object :=
  match o with
  | ONode n => ONode (f n)
  | OLeaf l => OLeaf (mkLeafNode (f (Node l)) (next l) (previous l) (isHead l) (isTail l))
  end.

(** Dereferencing: a method call through a nil interface panics. *)
Definition deref (h : heap) (p : ptr) : result object :=
  match p with
  | None => Panic
  | Some l => match h !! l with
              | Some o => Ok o
              | None => Panic
              end
  end.

(** A leaf method called through a [LeafNode] value; on a value of static
    type [Node] this is the type assertion [.(LeafNode)]. *)
Definition deref_leaf (h : heap) (p : ptr) : result leafNode :=
  let* o := deref h p in
  match o with
  | OLeaf l => Ok l
  | ONode _ => Panic
  end.

Definition store (h : heap) (p : ptr) (f : object -> object) : result heap :=
  match p with
  | None => Panic
  | Some l => match h !! l with
              | Some o => Ok (<[l := f o]> h)
              | None => Panic
              end
  end.

Definition store_leaf (h : heap) (p : ptr) (f : leafNode -> leafNode) : result heap :=
  match p with
  | None => Panic
  | Some l => match h !! l with
              | Some (OLeaf lf) => Ok (<[l := OLeaf (f lf)]> h)
              | _ => Panic
              end
  end.

(** Allocation: Go never frees a cell that is still referenced, so the store
    only grows. *)
Definition alloc (h : heap) (o : object) : loc * heap := (length h, h ++ [o]).

Definition newNode (capacity : Z) : node :=
  if capacity <=? 0 then mkNode None [] 0 None false
  else mkNode None (replicate (Z.to_nat capacity) None) 0 None false.

(** [make([]Node, capacity)] panics on a negative length. *)
Definition newRootNode (capacity : Z) : result node :=
  if capacity <? 0 then Panic
  else Ok (mkNode None (replicate (Z.to_nat capacity) None) 0 None true).

Definition set_parent (p : ptr) (n : node) : node :=
  mkNode p (children n) (numChildren n) (element n) (isRoot n).
Definition set_children (cs : list ptr) (k : Z) (n : node) : node :=
  mkNode (parent n) cs k (element n) (isRoot n).
Definition set_element (e : option string) (n : node) : node :=
  mkNode (parent n) (children n) (numChildren n) e (isRoot n).

Definition SetParent (h : heap) (n : ptr) (p : ptr) : result heap :=
  store h n (map_node (set_parent p)).

Definition Parent (h : heap) (n : ptr) : result ptr :=
  let* o := deref h n in Ok (parent (node_of o)).

Definition len {A} (l : list A) : Z := Z.of_nat (length l).

(** Slice indexing [s[i]]: out of range is a run-time panic. *)
Definition index {A} (l : list A) (i : Z) : result A :=
  if (i <? 0) || (len l <=? i) then Panic
  else match l !! Z.to_nat i with
       | Some a => Ok a
       | None => Panic
       end.

Definition AddChildWithIndexOf (h : heap) (n : ptr) (i : Z) (child : ptr)
  : result (option error * heap) :=
  let* o := deref h n in
  let nd := node_of o in
  if (i <? 0) || (i >=? len (children nd)) then
    Ok (Some (NodeIndexOutOfBounds (len (children nd)) i), h)
  else
    let* c := index (children nd) i in
    match c with
    | Some _ => Ok (Some (ChildExists i), h)
    | None =>
        let* h1 := store h n (map_node (set_children (<[Z.to_nat i := child]> (children nd))
                                                (numChildren nd + 1))) in
        let* h2 := SetParent h1 child n in
        Ok (None, h2)
    end.

Definition checkBounds (n : node) (i : Z) : option error :=
  if (i <? 0) || (i >? len (children n)) then
    Some (NodeIndexOutOfBounds (len (children n)) i)
  else None.

Definition ChildWithIndexOf (h : heap) (n : ptr) (i : Z) : result (ptr * option error) :=
  let* o := deref h n in
  let nd := node_of o in
  match checkBounds nd i with
  | Some err => Ok (None, Some err)
  | None => let* c := index (children nd) i in Ok (c, None)
  end.

Definition RemoveChildWithIndexOf (h : heap) (n : ptr) (i : Z) : result (bool * heap) :=
  let* o := deref h n in
  let nd := node_of o in
  match checkBounds nd i with
  | Some _ => Ok (false, h)
  | None =>
      let* c := index (children nd) i in
      match c with
      | Some _ =>
          let* h1 := store h n (map_node (set_children (<[Z.to_nat i := None]> (children nd))
                                                  (numChildren nd - 1))) in
          Ok (true, h1)
      | None => Ok (false, h)
      end
  end.

Definition HasChildren (h : heap) (n : ptr) : result bool :=
  let* o := deref h n in Ok (numChildren (node_of o) >? 0).

Definition SetValue (h : heap) (n : ptr) (e : option string) : result heap :=
  store h n (map_node (set_element e)).

Definition Value (h : heap) (n : ptr) : result (option string) :=
  let* o := deref h n in Ok (element (node_of o)).

Definition IsRoot (h : heap) (n : ptr) : result bool :=
  let* o := deref h n in Ok (isRoot (node_of o)).

Definition IsLeaf (h : heap) (n : ptr) : result bool :=
  let* o := deref h n in
  match o with
  | ONode _ => Ok false
  | OLeaf _ => Ok true
  end.

(** ** Leaf nodes and the order list *)

Definition newLeafNode : leafNode := mkLeafNode (newNode 0) None None false false.
Definition newHeadNode : leafNode := mkLeafNode (newNode 0) None None true false.
Definition newTailNode : leafNode := mkLeafNode (newNode 0) None None false true.

Definition set_next (p : ptr) (l : leafNode) : leafNode :=
  mkLeafNode (Node l) p (previous l) (isHead l) (isTail l).
Definition set_previous (p : ptr) (l : leafNode) : leafNode :=
  mkLeafNode (Node l) (next l) p (isHead l) (isTail l).

Definition SetNext (h : heap) (l : ptr) (p : ptr) : result heap := store_leaf h l (set_next p).
Definition Next (h : heap) (l : ptr) : result ptr := let* lf := deref_leaf h l in Ok (next lf).
Definition SetPrevious (h : heap) (l : ptr) (p : ptr) : result heap :=
  store_leaf h l (set_previous p).
Definition Previous (h : heap) (l : ptr) : result ptr :=
  let* lf := deref_leaf h l in Ok (previous lf).
Definition IsHead (h : heap) (l : ptr) : result bool := let* lf := deref_leaf h l in Ok (isHead lf).
Definition IsTail (h : heap) (l : ptr) : result bool := let* lf := deref_leaf h l in Ok (isTail lf).

Definition is_nil (p : ptr) : bool :=
  match p with
  | None => true
  | Some _ => false
  end.

Definition IsDeleted (h : heap) (l : ptr) : result bool :=
  let* lf := deref_leaf h l in Ok (is_nil (previous lf)).

Definition AddAfter (h : heap) (l : ptr) (leaf : ptr) : result heap :=
  let* n := Next h leaf in
  let* h1 := SetNext h l n in
  let* h2 := SetNext h1 leaf l in
  let* h3 := SetPrevious h2 l leaf in
  let* ln := Next h3 l in
  SetPrevious h3 ln l.

Definition markDeleted (h : heap) (l : ptr) : result heap := store_leaf h l (set_previous None).

Definition LeafNode_Remove (h : heap) (l : ptr) : result heap :=
  let* lf := deref_leaf h l in
  let* h1 := SetNext h (previous lf) (next lf) in
  let* lf1 := deref_leaf h1 l in
  let* h2 := SetPrevious h1 (next lf1) (previous lf1) in
  markDeleted h2 l.

(** ** Digitizers *)

(** The [Digitizer] interface as a record of its methods ([FormatDigit] only
    serves display and is left out).  [DigitOf] indexes a string, which
    panics on a negative place. *)
Record Digitizer : Type := mkDigitizer {
  Base : Z;
  IsPrefixFree : bool;
  NumDigitsOf : string -> Z;
  DigitOf : string -> Z -> result Z
}.

Definition byte_of (c : ascii) : Z := Z.of_nat (nat_of_ascii c).

(** [strings.ToLower] on one byte.  This is what Go computes on ASCII
    strings; a byte above 127 is kept as it is. *)
Definition toLower (c : ascii) : ascii :=
  if (65 <=? byte_of c) && (byte_of c <=? 90)
  then ascii_of_nat (nat_of_ascii c + 32)
  else c.

Definition strlen (s : string) : Z := Z.of_nat (String.length s).

(** [s[place]] on a string: a byte, or a panic out of range. *)
Definition byteAt (s : string) (place : Z) : result ascii :=
  if (place <? 0) || (strlen s <=? place) then Panic
  else match String.get (Z.to_nat place) s with
       | Some c => Ok c
       | None => Panic
       end.

(** [int(c - 'a' + 1)] in [uint8] arithmetic. *)
Definition letter_digit (c : ascii) : Z := (byte_of (toLower c) - 97 + 1) mod 256.

Definition stringDigitizer_NumDigitsOf (s : string) : Z := strlen s + 1.

Definition stringDigitizer_DigitOf (s : string) (place : Z) : result Z :=
  if place >=? strlen s then Ok 0
  else let* c := byteAt s place in Ok (letter_digit c).

Definition NewStringDigitizer (alphabetSize : Z) : Digitizer :=
  mkDigitizer (alphabetSize + 1) true stringDigitizer_NumDigitsOf stringDigitizer_DigitOf.

(** ** Search contexts *)

Inductive searchResult : Type :=
| Extension
| Greater
| Less
| Matched
| Prefix
| Unmatched.

Definition searchResult_eqb (a b : searchResult) : bool :=
  match a, b with
  | Extension, Extension | Greater, Greater | Less, Less
  | Matched, Matched | Prefix, Prefix | Unmatched, Unmatched => true
  | _, _ => false
  end.

Definition childNotFound : Z := -1.

Record searchContext : Type := mkSearchContext {
  pointer : ptr;
  sdigitizer : Digitizer;
  branchPosition : Z;
  numMatches : Z
}.

Definition set_pointer (p : ptr) (s : searchContext) : searchContext :=
  mkSearchContext p (sdigitizer s) (branchPosition s) (numMatches s).
Definition set_position (p : ptr) (b : Z) (s : searchContext) : searchContext :=
  mkSearchContext p (sdigitizer s) b (numMatches s).
Definition set_numMatches (k : Z) (s : searchContext) : searchContext :=
  mkSearchContext (pointer s) (sdigitizer s) (branchPosition s) k.

(** [_, ok := s.pointer.(LeafNode)]: false on a nil pointer. *)
Definition atLeaf (h : heap) (s : searchContext) : bool :=
  match pointer s with
  | None => false
  | Some l => match h !! l with
              | Some (OLeaf _) => true
              | _ => false
              end
  end.

Definition atRoot (h : heap) (s : searchContext) : result bool :=
  let* p := Parent h (pointer s) in Ok (is_nil p).

Definition childBranchPosition (s : searchContext) (i : Z) : Z := branchPosition s + 1.
Definition parentBranchPosition (s : searchContext) : Z := branchPosition s - 1.

Definition childIndexOf (s : searchContext) (e : string) : result Z :=
  DigitOf (sdigitizer s) e (branchPosition s).

Definition descendToIndex (h : heap) (s : searchContext) (i : Z) : result (searchContext * Z) :=
  let* (child, err) := ChildWithIndexOf h (pointer s) i in
  match err, child with
  | None, Some c => Ok (set_position (Some c) (childBranchPosition s i) s, i)
  | _, _ => Ok (s, childNotFound)
  end.

Definition descendTo (h : heap) (s : searchContext) (e : string) : result (searchContext * Z) :=
  let* i := DigitOf (sdigitizer s) e (branchPosition s) in
  descendToIndex h s i.

Definition ascend (h : heap) (s : searchContext) : result (searchContext * Z) :=
  let b := parentBranchPosition s in
  let* p := Parent h (pointer s) in
  Ok (set_position p b s, b).

(** The inner loop of [moveToMaxDescendant]:
    [for s.descendToIndex(index) == childNotFound { index-- }]. *)
Fixpoint descendToMaxIndex (fuel : nat) (h : heap) (s : searchContext) (i : Z)
  : result searchContext :=
  match fuel with
  | O => OutOfFuel
  | S f =>
      let* (s1, r) := descendToIndex h s i in
      if r =? childNotFound then descendToMaxIndex f h s1 (i - 1) else Ok s1
  end.

Fixpoint moveToMaxDescendant_loop (fuel0 fuel : nat) (h : heap) (s : searchContext)
  : result searchContext :=
  match fuel with
  | O => OutOfFuel
  | S f =>
      if atLeaf h s then Ok s
      else
        let* s1 := descendToMaxIndex fuel0 h s (Base (sdigitizer s) - 1) in
        moveToMaxDescendant_loop fuel0 f h s1
  end.

Definition moveToMaxDescendant (fuel : nat) (h : heap) (s : searchContext)
  : result searchContext :=
  moveToMaxDescendant_loop fuel fuel h s.

(** The inner loop of [retraceToLastLeftFork], [for i := index - 1; i >= 0; i--],
    entered with [n = index]; the flag tells whether the loop returned from
    the function. *)
Fixpoint descendToLeftSibling (n : nat) (h : heap) (s : searchContext)
  : result (searchContext * bool) :=
  match n with
  | O => Ok (s, false)
  | S i =>
      let* (s1, r) := descendToIndex h s (Z.of_nat i) in
      if negb (r =? childNotFound) then Ok (s1, true)
      else descendToLeftSibling i h s1
  end.

Fixpoint retraceToLastLeftFork (fuel : nat) (h : heap) (s : searchContext) (e : string)
  : result searchContext :=
  match fuel with
  | O => OutOfFuel
  | S f =>
      let* (s1, found) :=
        (if negb (atLeaf h s) then
           let* i := DigitOf (sdigitizer s) e (branchPosition s) in
           descendToLeftSibling (Z.to_nat i) h s
         else Ok (s, false)) in
      if found then Ok s1
      else
        let* r := atRoot h s1 in
        if r then Ok s1
        else
          let* (s2, _) := ascend h s1 in
          retraceToLastLeftFork f h s2 e
  end.

(** [reflect.DeepEqual] on two [Node] values.  Two equal pointers are deeply
    equal; the model takes two different cells as different, which is what
    [DeepEqual] answers whenever they differ in dynamic type or in their
    stored element. *)
Definition DeepEqual (p q : ptr) : bool :=
  match p, q with
  | None, None => true
  | Some a, Some b => Nat.eqb a b
  | _, _ => false
  end.

Definition processedEndOfString (h : heap) (s : searchContext) (e : string) : result bool :=
  let* p := Parent h (pointer s) in
  let* (childNode, _) := ChildWithIndexOf h p 0 in
  if IsPrefixFree (sdigitizer s) then
    let* r := IsRoot h (pointer s) in
    Ok (negb r && DeepEqual childNode (pointer s))
  else Ok false.

(** A counted loop [for i := i0; i < i0 + n; i++] over a state. *)
Fixpoint for_range {St : Type} (n : nat) (i : Z) (body : Z -> St -> result St) (st : St)
  : result St :=
  match n with
  | O => Ok st
  | S k => let* st1 := body i st in for_range k (i + 1) body st1
  end.

(** The output collection of the prefix queries is the package's array list,
    whose [Add] appends and never fails. *)
Fixpoint elementsInSubtree (fuel : nat) (h : heap) (s : searchContext)
  (collection : list (option string)) : result (searchContext * list (option string)) :=
  match fuel with
  | O => OutOfFuel
  | S f =>
      if atLeaf h s then
        let* v := Value h (pointer s) in
        Ok (s, collection ++ [v])
      else
        for_range (Z.to_nat (Base (sdigitizer s))) 0
          (fun i st =>
             let* (s1, r) := descendToIndex h (fst st) i in
             if negb (r =? childNotFound) then
               let* (s2, c2) := elementsInSubtree f h s1 (snd st) in
               let* (s3, _) := ascend h s2 in
               Ok (s3, c2)
             else Ok (s1, snd st))
          (s, collection)
  end.

(** ** The trie *)

Record trie : Type := mkTrie {
  root : ptr;
  head : ptr;
  tail : ptr;
  digitizer : Digitizer;
  capacity : Z;
  base : Z;
  size : Z
}.

Definition set_root (r : ptr) (t : trie) : trie :=
  mkTrie r (head t) (tail t) (digitizer t) (capacity t) (base t) (size t).
Definition set_size (n : Z) (t : trie) : trie :=
  mkTrie (root t) (head t) (tail t) (digitizer t) (capacity t) (base t) n.

Definition newTrieWithDigitizer (h : heap) (d : Digitizer) : result (heap * trie) :=
  let capacity := Base d in
  let '(hd, h1) := alloc h (OLeaf newHeadNode) in
  let '(tl, h2) := alloc h1 (OLeaf newTailNode) in
  let* h3 := SetNext h2 (Some hd) (Some tl) in
  let* h4 := SetNext h3 (Some tl) (Some hd) in
  Ok (h4, mkTrie None (Some hd) (Some tl) d capacity 0 0).

Definition newTrie (h : heap) (capacity : Z) : result (heap * trie) :=
  newTrieWithDigitizer h (NewStringDigitizer capacity).

Definition NewTrie := newTrie.
Definition NewTrieWithDigitizer := newTrieWithDigitizer.

Definition Size (t : trie) : Z := size t.
Definition IsEmpty (t : trie) : bool := Size t =? 0.

(** A search context comes from a pool and may hold the fields of an earlier
    search; [prepareSearch] overwrites every field the trie reads, and
    [numMatches] is written before it is read, so the model starts every
    search from the context built here. *)
Definition prepareSearch (t : trie) : searchContext :=
  mkSearchContext (root t) (digitizer t) 0 0.

Fixpoint find_loop (fuel : nat) (h : heap) (e : string) (numDigitsInElement : Z)
  (s : searchContext) : result (option searchResult * searchContext) :=
  match fuel with
  | O => OutOfFuel
  | S f =>
      if negb (is_nil (pointer s)) && negb (atLeaf h s) then
        if branchPosition s =? numDigitsInElement then Ok (Some Prefix, s)
        else
          let* (s1, r) := descendTo h s e in
          if r =? childNotFound then Ok (Some Unmatched, s1)
          else find_loop f h e numDigitsInElement s1
      else Ok (None, s)
  end.

Definition find (fuel : nat) (h : heap) (t : trie) (e : string)
  : result (searchResult * searchContext) :=
  let s := prepareSearch t in
  if IsEmpty t then Ok (Unmatched, s)
  else
    let numDigitsInElement := NumDigitsOf (digitizer t) e in
    let* (r, s1) := find_loop fuel h e numDigitsInElement s in
    match r with
    | Some res => Ok (res, s1)
    | None =>
        if negb (is_nil (pointer s1)) && negb (branchPosition s1 =? numDigitsInElement)
        then Ok (Extension, s1)
        else Ok (Matched, s1)
    end.

Fixpoint addNode_loop (fuel : nat) (h : heap) (t : trie) (e : string) (s : searchContext)
  : result (heap * searchContext) :=
  match fuel with
  | O => OutOfFuel
  | S f =>
      if branchPosition s <? NumDigitsOf (digitizer t) e - 1 then
        let* i := DigitOf (digitizer t) e (branchPosition s) in
        let '(childNode, h1) := alloc h (ONode (newNode (capacity t))) in
        let* (_, h2) := AddChildWithIndexOf h1 (pointer s) i (Some childNode) in
        addNode_loop f h2 t e (set_position (Some childNode) (branchPosition s + 1) s)
      else Ok (h, s)
  end.

Definition addNode (fuel : nat) (h : heap) (t : trie) (n : ptr) (s : searchContext)
  : result (heap * trie * searchContext) :=
  let* (h0, t0, s0) :=
    (if is_nil (pointer s) then
       let* r := newRootNode (capacity t) in
       let '(l, h1) := alloc h (ONode r) in
       Ok (h1, set_root (Some l) t, set_pointer (Some l) s)
     else Ok (h, t, s)) in
  let* v := Value h0 n in
  match v with
  | None => Panic
  | Some e =>
      let* (h1, s1) := addNode_loop fuel h0 t0 e s0 in
      let* i := DigitOf (digitizer t0) e (branchPosition s1) in
      let* (_, h2) := AddChildWithIndexOf h1 (pointer s1) i n in
      Ok (h2, t0, set_position n (branchPosition s1 + 1) s1)
  end.

Definition moveToPredecessor (fuel : nat) (h : heap) (e : string) (s : searchContext)
  (r : searchResult) : result (bool * searchContext) :=
  if atLeaf h s && (searchResult_eqb r Greater || searchResult_eqb r Extension) then
    Ok (true, s)
  else
    let* s1 := (if negb (searchResult_eqb r Greater)
                then retraceToLastLeftFork fuel h s e
                else Ok s) in
    let* b := atRoot h s1 in
    if b then Ok (false, s1)
    else if negb (atLeaf h s1) then
      let* s2 := moveToMaxDescendant fuel h s1 in
      Ok (true, s2)
    else Ok (true, s1).

Definition insert (fuel : nat) (h : heap) (t : trie) (e : string)
  : result (heap * trie * ptr * option error) :=
  let* (r, s) := find fuel h t e in
  if searchResult_eqb r Matched
     || (negb (IsPrefixFree (digitizer t))
         && (searchResult_eqb r Prefix || searchResult_eqb r Extension))
  then Ok (h, t, None, Some (PrefixViolation e))
  else
    let '(leaf, h1) := alloc h (OLeaf newLeafNode) in
    let* h2 := SetValue h1 (Some leaf) (Some e) in
    let* (h3, t1, s1) := addNode fuel h2 t (Some leaf) s in
    let* (b, s2) := moveToPredecessor fuel h3 e s1 Matched in
    let* h4 := (if b then AddAfter h3 (Some leaf) (pointer s2)
                else AddAfter h3 (Some leaf) (head t1)) in
    Ok (h4, set_size (size t1 + 1) t1, Some leaf, None).

Definition Add (fuel : nat) (h : heap) (t : trie) (e : string)
  : result (heap * trie * option error) :=
  let* (h1, t1, _, err) := insert fuel h t e in
  Ok (h1, t1, err).

(** [AddAll] over the values of the given collection. *)
Fixpoint AddAll (fuel : nat) (h : heap) (t : trie) (values : list string)
  : result (heap * trie * option error) :=
  match values with
  | [] => Ok (h, t, None)
  | v :: rest =>
      let* (h1, t1, err) := Add fuel h t v in
      match err with
      | Some _ => Ok (h1, t1, err)
      | None => AddAll fuel h1 t1 rest
      end
  end.

Fixpoint remove_loop (fuel : nat) (h : heap) (t : trie) (e : string) (level : Z) (n : ptr)
  : result heap :=
  match fuel with
  | O => OutOfFuel
  | S f =>
      let* r := IsRoot h n in
      if r then Ok h
      else
        let* c := HasChildren h n in
        if c then Ok h
        else
          let* p := Parent h n in
          let level1 := level - 1 in
          let* i := DigitOf (digitizer t) e level1 in
          let* (_, h1) := RemoveChildWithIndexOf h p i in
          remove_loop f h1 t e level1 p
  end.

Definition remove (fuel : nat) (h : heap) (t : trie) (n : ptr) : result (heap * trie) :=
  let* o := deref h n in
  let* h1 := (match o with
              | OLeaf _ => LeafNode_Remove h n
              | ONode _ => Ok h
              end) in
  let* v := Value h1 n in
  match v with
  | None => Panic
  | Some e =>
      let level := NumDigitsOf (digitizer t) e in
      let* h2 := remove_loop fuel h1 t e level n in
      Ok (h2, set_size (size t - 1) t)
  end.

Definition Remove (fuel : nat) (h : heap) (t : trie) (e : string)
  : result (heap * trie * bool) :=
  if IsEmpty t then Ok (h, t, false)
  else
    let* (r, s) := find fuel h t e in
    if negb (searchResult_eqb r Matched) then Ok (h, t, false)
    else
      let* (h1, t1) := remove fuel h t (pointer s) in
      Ok (h1, t1, true).

Definition Min (h : heap) (t : trie) : result (option string) :=
  if negb (IsEmpty t) then
    let* n := Next h (head t) in
    Value h n
  else Ok None.

Definition Max (h : heap) (t : trie) : result (option string) :=
  if negb (IsEmpty t) then
    let* p := Previous h (tail t) in
    Value h p
  else Ok None.

Definition Predecessor (fuel : nat) (h : heap) (t : trie) (e : string)
  : result (option string) :=
  if negb (IsEmpty t) then
    let* (r, s) := find fuel h t e in
    let* (b, s1) := moveToPredecessor fuel h e s r in
    if b then Value h (pointer s1) else Ok None
  else Ok None.

Definition Successor (fuel : nat) (h : heap) (t : trie) (e : string)
  : result (option string) :=
  if negb (IsEmpty t) then
    let* (r, s) := find fuel h t e in
    let* successor :=
      (if searchResult_eqb r Matched then Next h (pointer s)
       else
         let* (r1, s1) := find fuel h t e in
         let* (b, s2) := moveToPredecessor fuel h e s1 r1 in
         if b then Next h (pointer s2) else Ok (tail t)) in
    let* tl := IsTail h successor in
    if negb tl then Value h successor else Ok None
  else Ok None.

Definition Completions (fuel : nat) (h : heap) (t : trie) (prefix : string)
  (collection : list (option string)) : result (list (option string)) :=
  if negb (IsEmpty t) then
    let* (r, s) := find fuel h t prefix in
    let numDigits := NumDigitsOf (digitizer t) prefix in
    let* (numDigits1, s1) :=
      (if IsPrefixFree (digitizer t) then
         let* b := processedEndOfString h s prefix in
         if b then let* (s0, _) := ascend h s in Ok (numDigits - 1, s0)
         else Ok (numDigits - 1, s)
       else Ok (numDigits, s)) in
    if searchResult_eqb r Prefix || searchResult_eqb r Matched
       || (branchPosition s1 =? numDigits1)
    then let* (_, c) := elementsInSubtree fuel h s1 collection in Ok c
    else Ok collection
  else Ok collection.

Definition LongestCommonPrefix (fuel : nat) (h : heap) (t : trie) (prefix : string)
  (collection : list (option string)) : result (list (option string)) :=
  if negb (IsEmpty t) then
    let* (_, s) := find fuel h t prefix in
    let* b := processedEndOfString h s prefix in
    let* s1 := (if b then let* (s0, _) := ascend h s in Ok s0 else Ok s) in
    let* (_, c) := elementsInSubtree fuel h s1 collection in
    Ok c
  else Ok collection.

Definition Contains (fuel : nat) (h : heap) (t : trie) (e : string) : result bool :=
  if IsEmpty t then Ok false
  else
    let* (r, _) := find fuel h t e in
    Ok (searchResult_eqb r Matched).

Definition trie_checkBounds (t : trie) (i : Z) : option error :=
  if (i <? 0) || (i >=? Size t) then Some (TrieIndexOutOfBounds i) else None.

(** ** Iterators

    An iterator is its [pointer]; the trie it belongs to is passed along. *)

Definition inCollection (h : heap) (i : ptr) : result bool :=
  let* hd := IsHead h i in
  if hd then Ok false
  else
    let* tl := IsTail h i in
    if tl then Ok false
    else let* d := IsDeleted h i in Ok (negb d).

Definition iterator_get (h : heap) (i : ptr) : result (option string) :=
  let* b := inCollection h i in
  if b then Value h i else Ok None.

Fixpoint skipRemovedElements (fuel : nat) (h : heap) (leaf : ptr) : result (heap * ptr) :=
  match fuel with
  | O => OutOfFuel
  | S f =>
      let* hd := IsHead h leaf in
      if hd then Ok (h, leaf)
      else
        let* tl := IsTail h leaf in
        if tl then Ok (h, leaf)
        else
          let* d := IsDeleted h leaf in
          if negb d then Ok (h, leaf)
          else
            let* n := Next h leaf in
            let* (h1, r) := skipRemovedElements f h n in
            let* h2 := SetNext h1 leaf r in
            let* n2 := Next h2 leaf in
            Ok (h2, n2)
  end.

Definition advance (fuel : nat) (h : heap) (i : ptr) : result (heap * ptr * bool) :=
  let* tl := IsTail h i in
  if tl then Ok (h, i, false)
  else
    let* hd := IsHead h i in
    let* skip := (if negb hd then IsDeleted h i else Ok false) in
    let* (h1, i1) := (if skip then skipRemovedElements fuel h i
                      else let* n := Next h i in Ok (h, n)) in
    let* tl1 := IsTail h1 i1 in
    Ok (h1, i1, negb tl1).

Definition iterator_remove (fuel : nat) (h : heap) (t : trie) (i : ptr)
  : result (heap * trie) :=
  let* b := inCollection h i in
  if b then remove fuel h t i else Ok (h, t).

Fixpoint Values_loop (fuel0 fuel : nat) (h : heap) (i : ptr) (elements : list (option string))
  : result (heap * list (option string)) :=
  match fuel with
  | O => OutOfFuel
  | S f =>
      let* (h1, i1, b) := advance fuel0 h i in
      if b then
        let* v := iterator_get h1 i1 in
        Values_loop fuel0 f h1 i1 (elements ++ [v])
      else Ok (h1, elements)
  end.

Definition Values (fuel : nat) (h : heap) (t : trie) : result (heap * list (option string)) :=
  Values_loop fuel fuel h (head t) [].

(** The loop of [ValueWithIndex], [for i := 0; i < index + 1; i++], runs
    [index + 1] times. *)
Fixpoint advance_times (n : nat) (fuel : nat) (h : heap) (i : ptr) : result (heap * ptr) :=
  match n with
  | O => Ok (h, i)
  | S k =>
      let* (h1, i1, _) := advance fuel h i in
      advance_times k fuel h1 i1
  end.

Definition ValueWithIndex (fuel : nat) (h : heap) (t : trie) (i : Z)
  : result (heap * option string * option error) :=
  match trie_checkBounds t i with
  | Some err => Ok (h, None, Some err)
  | None =>
      let* (h1, it) := advance_times (Z.to_nat (i + 1)) fuel h (head t) in
      let* v := iterator_get h1 it in
      Ok (h1, v, None)
  end.

Fixpoint Clear_loop (fuel0 fuel : nat) (h : heap) (t : trie) (i : ptr) : result (heap * trie) :=
  match fuel with
  | O => OutOfFuel
  | S f =>
      let* (h1, i1, b) := advance fuel0 h i in
      if b then
        let* (h2, t2) := iterator_remove fuel0 h1 t i1 in
        Clear_loop fuel0 f h2 t2 i1
      else Ok (h1, t)
  end.

Definition Clear (fuel : nat) (h : heap) (t : trie) : result (heap * trie) :=
  Clear_loop fuel fuel h t (head t).

(** ** The radix tree

    [radixTree] embeds a [*trie].  It declares [find], [addNode] and [remove]
    of its own, and inherits every exported method by promotion: the
    promoted [Add], [Contains], [Remove], ... run with the embedded [*trie]
    as receiver, so the [t.find], [t.addNode] and [t.remove] they call are
    those of [trie]. *)

Record radixTree : Type := mkRadixTree { embedded : trie }.

Definition NewRadixTreeWithDigitizer (h : heap) (d : Digitizer) : result (heap * radixTree) :=
  let* (h1, t) := newTrieWithDigitizer h d in
  Ok (h1, mkRadixTree t).

Definition NewRadixTree (h : heap) (capacity : Z) : result (heap * radixTree) :=
  NewRadixTreeWithDigitizer h (NewStringDigitizer capacity).

(** A digitizer applied to an [interface{}] value: the type assertion to
    [string] panics on nil. *)
Definition as_string (v : option string) : result string :=
  match v with
  | Some e => Ok e
  | None => Panic
  end.

Definition extendPath (h : heap) (s : searchContext) (e : string) (n : ptr)
  : result (heap * searchContext * Z) :=
  let* i := DigitOf (sdigitizer s) e (branchPosition s) in
  let* (_, h1) := AddChildWithIndexOf h n i n in
  let* (s1, r) := descendToIndex h1 s i in
  Ok (h1, s1, r).

(** The loop of [checkMatchFromLeaf]; [None] when it runs to its end.  The
    bound [stop] is computed through [math.Min] on [float64], which is exact
    on digit counts. *)
Fixpoint checkMatchFromLeaf_loop (fuel : nat) (d : Digitizer) (e leafData : string)
  (stop : Z) (s : searchContext) : result (option searchResult * searchContext) :=
  match fuel with
  | O => OutOfFuel
  | S f =>
      if numMatches s <? stop then
        let* targetDigit := DigitOf d e (numMatches s) in
        let* leafDigit := DigitOf d leafData (numMatches s) in
        let comparison := targetDigit - leafDigit in
        if comparison <? 0 then
          if IsPrefixFree d && (targetDigit =? 0) then Ok (Some Prefix, s)
          else Ok (Some Less, s)
        else if comparison >? 0 then Ok (Some Greater, s)
        else checkMatchFromLeaf_loop f d e leafData stop (set_numMatches (numMatches s + 1) s)
      else Ok (None, s)
  end.

Definition checkMatchFromLeaf (fuel : nat) (h : heap) (rt : radixTree) (e : string)
  (s : searchContext) : result (searchResult * searchContext) :=
  let d := digitizer (embedded rt) in
  let* v := Value h (pointer s) in
  let* leafData := as_string v in
  let stop := Z.min (NumDigitsOf d e) (NumDigitsOf d leafData) in
  let* (r, s1) := checkMatchFromLeaf_loop fuel d e leafData stop s in
  match r with
  | Some res => Ok (res, s1)
  | None =>
      if numMatches s1 =? NumDigitsOf d e then
        if numMatches s1 =? NumDigitsOf d leafData then Ok (Matched, s1)
        else Ok (Prefix, s1)
      else Ok (Extension, s1)
  end.

Fixpoint radix_find_loop (fuel : nat) (h : heap) (e : string) (numDigitsInElement : Z)
  (s : searchContext) : result (option searchResult * searchContext) :=
  match fuel with
  | O => OutOfFuel
  | S f =>
      if (branchPosition s <? numDigitsInElement) && negb (atLeaf h s) then
        let* (s1, r) := descendTo h s e in
        if r =? childNotFound then Ok (Some Unmatched, s1)
        else radix_find_loop f h e numDigitsInElement s1
      else Ok (None, s)
  end.

Definition radix_find (fuel : nat) (h : heap) (rt : radixTree) (e : string)
  : result (searchResult * searchContext) :=
  let t := embedded rt in
  let s := prepareSearch t in
  if IsEmpty t then Ok (Unmatched, s)
  else
    let numDigitsInElement := NumDigitsOf (digitizer t) e in
    let* (r, s1) := radix_find_loop fuel h e numDigitsInElement s in
    match r with
    | Some res => Ok (res, s1)
    | None =>
        if branchPosition s1 =? numDigitsInElement then
          if atLeaf h s1 then Ok (Matched, s1) else Ok (Prefix, s1)
        else checkMatchFromLeaf fuel h rt e (set_numMatches (branchPosition s1) s1)
    end.

Fixpoint radix_addNode_loop (fuel : nat) (h : heap) (rt : radixTree) (e : string)
  (leaf : ptr) (s : searchContext) : result (heap * searchContext) :=
  match fuel with
  | O => OutOfFuel
  | S f =>
      let* i := childIndexOf s e in
      let* v := Value h leaf in
      let* lv := as_string v in
      let* j := childIndexOf s lv in
      if i =? j then
        let '(n, h1) := alloc h (ONode (newNode (capacity (embedded rt)))) in
        let* (h2, s1, _) := extendPath h1 s e (Some n) in
        radix_addNode_loop f h2 rt e leaf s1
      else Ok (h, s)
  end.

Definition radix_addNode (fuel : nat) (h : heap) (rt : radixTree) (n : ptr) (s : searchContext)
  : result (heap * radixTree * searchContext) :=
  let* (h0, rt0, s0) :=
    (if is_nil (pointer s) then
       let* r := newRootNode (capacity (embedded rt)) in
       let '(l, h1) := alloc h (ONode r) in
       Ok (h1, mkRadixTree (set_root (Some l) (embedded rt)), set_pointer (Some l) s)
     else Ok (h, rt, s)) in
  let* v := Value h0 n in
  let* e := as_string v in
  let* (h3, s3) :=
    (if atLeaf h0 s0 then
       let leaf := pointer s0 in
       let* (sa, _) := ascend h0 s0 in
       let* (h1, s1) := radix_addNode_loop fuel h0 rt0 e leaf sa in
       let* lv1 := Value h1 leaf in
       let* lvs := as_string lv1 in
       let* (h2, s2, _) := extendPath h1 s1 lvs leaf in
       let* (sb, _) := ascend h2 s2 in
       Ok (h2, sb)
     else Ok (h0, s0)) in
  let* (h4, s4, _) := extendPath h3 s3 e n in
  Ok (h4, rt0, s4).

(** [// TODO: implement] *)
Definition radix_remove (h : heap) (rt : radixTree) (n : ptr) : heap * radixTree := (h, rt).

(** The promoted methods. *)
Definition RadixTree_Add (fuel : nat) (h : heap) (rt : radixTree) (e : string)
  : result (heap * radixTree * option error) :=
  let* (h1, t1, err) := Add fuel h (embedded rt) e in
  Ok (h1, mkRadixTree t1, err).

Definition RadixTree_Contains (fuel : nat) (h : heap) (rt : radixTree) (e : string)
  : result bool :=
  Contains fuel h (embedded rt) e.

Definition RadixTree_Remove (fuel : nat) (h : heap) (rt : radixTree) (e : string)
  : result (heap * radixTree * bool) :=
  let* (h1, t1, b) := Remove fuel h (embedded rt) e in
  Ok (h1, mkRadixTree t1, b).

Definition RadixTree_Size (rt : radixTree) : Z := Size (embedded rt).

Definition RadixTree_Values (fuel : nat) (h : heap) (rt : radixTree)
  : result (heap * list (option string)) :=
  Values fuel h (embedded rt).

(** ** Reference notions used by the statements *)

(** Number of occupied child slots. *)
Fixpoint occupied (cs : list ptr) : Z :=
  match cs with
  | [] => 0
  | None :: r => occupied r
  | Some _ :: r => 1 + occupied r
  end.

Definition counter_ok (o : object) : Prop :=
  numChildren (node_of o) = occupied (children (node_of o)).

Inductive node_call : Type :=
| Call_AddChildWithIndexOf (n : ptr) (i : Z) (child : ptr)
| Call_RemoveChildWithIndexOf (n : ptr) (i : Z).

Fixpoint run_calls (h : heap) (calls : list node_call) : result heap :=
  match calls with
  | [] => Ok h
  | Call_AddChildWithIndexOf n i child :: rest =>
      let* (_, h1) := AddChildWithIndexOf h n i child in run_calls h1 rest
  | Call_RemoveChildWithIndexOf n i :: rest =>
      let* (_, h1) := RemoveChildWithIndexOf h n i in run_calls h1 rest
  end.

(** Case-insensitive lexicographic order on strings, byte by byte on the
    lower-cased strings, and the insertion sort for it. *)
Fixpoint ci_ltb (a b : string) : bool :=
  match a, b with
  | EmptyString, EmptyString => false
  | EmptyString, String _ _ => true
  | String _ _, EmptyString => false
  | String x a1, String y b1 =>
      if byte_of (toLower x) <? byte_of (toLower y) then true
      else if byte_of (toLower x) =? byte_of (toLower y) then ci_ltb a1 b1
      else false
  end.

Fixpoint sort_insert (s : string) (l : list string) : list string :=
  match l with
  | [] => [s]
  | x :: r => if ci_ltb s x then s :: l else x :: sort_insert s r
  end.

Definition ci_sort (l : list string) : list string :=
  fold_left (fun acc s => sort_insert s acc) l [].

(** A fresh trie filled by [AddAll], then queried. *)
Definition filled {A : Type} (fuel : nat) (alphabetSize : Z) (values : list string)
  (query : heap -> trie -> option error -> result A) : result A :=
  let* (h, t) := NewTrie [] alphabetSize in
  let* (h1, t1, err) := AddAll fuel h t values in
  query h1 t1 err.

(** ** The representation invariant and the notions of the proofs *)

Definition tombstone_example : heap :=
  [OLeaf (mkLeafNode (newNode 0) (Some 2%nat) None true false);
   OLeaf (mkLeafNode (newNode 0) (Some 0%nat) (Some 2%nat) false true);
   OLeaf (mkLeafNode (set_element (Some "a") (newNode 0)) (Some 1%nat) (Some 0%nat) false false)].

Definition scenario4 : list string := ["bac"; "dab"; "dabb"; "dac"; "daca"; "dabba"; "ab"].

Fixpoint bytes (s : string) : list ascii :=
  match s with
  | EmptyString => []
  | String c r => c :: bytes r
  end.

(** The digit sequence the string digitizer assigns to a string: one digit
    per byte, then the terminator. *)
Definition digits (s : string) : list Z := map letter_digit (bytes s) ++ [0].

(** Digit [k] of a sequence, [0] past its end. *)
Definition digit_at (ds : list Z) (k : nat) : Z := default 0 (ds !! k).

(** The strings a trie of the given alphabet size is made for: ASCII
    bytes that are, in lower case, one of the first [alphabetSize] bytes
    from 'a' on, so that their digit lies in [1 .. alphabetSize]. *)
Definition letter_ok (alphabetSize : Z) (c : ascii) : bool :=
  (byte_of c <? 128) && (97 <=? byte_of (toLower c)) && (letter_digit c <=? alphabetSize).

Definition in_alphabet (alphabetSize : Z) (s : string) : bool :=
  forallb (letter_ok alphabetSize) (bytes s).

(** Equality of strings up to the case of their letters. *)
Definition ci_eq (a b : string) : Prop :=
  map toLower (bytes a) = map toLower (bytes b).

(** Lexicographic order on digit sequences. *)
Fixpoint lex_ltb (p q : list Z) : bool :=
  match p, q with
  | _, [] => false
  | [], _ :: _ => true
  | x :: p1, y :: q1 => (x <? y) || ((x =? y) && lex_ltb p1 q1)
  end.

(** The child of cell [n] in slot [d], if any. *)
Definition child_at (h : heap) (n : nat) (d : Z) : option nat :=
  match h !! n with
  | Some o => if d <? 0 then None else default None (children (node_of o) !! Z.to_nat d)
  | None => None
  end.

(** The cell reached from [n] along the digits [p]. *)
Fixpoint walk (h : heap) (n : nat) (p : list Z) : option nat :=
  match p with
  | [] => Some n
  | d :: r => match child_at h n d with
              | Some c => walk h c r
              | None => None
              end
  end.

Definition strict_prefix (p q : list Z) : Prop := exists d r, q = p ++ d :: r.

(** [returns run a]: the run finishes with [a] once it is given enough fuel. *)
Definition returns {A : Type} (run : nat -> result A) (a : A) : Prop :=
  exists n, forall fuel, (n <= fuel)%nat -> run fuel = Ok a.

(** Two neighbours of the order list.  The tail's [previous] link is only
    set by the first insertion, so it may still be nil next to the head. *)
Definition link (h : heap) (x y : nat) : Prop :=
  exists xl yl,
    h !! x = Some (OLeaf xl) /\ h !! y = Some (OLeaf yl) /\
    next xl = Some y /\
    (previous yl = Some x \/ (isHead xl = true /\ isTail yl = true)).

Fixpoint linked (h : heap) (ls : list nat) : Prop :=
  match ls with
  | [] => True
  | x :: r => match r with
              | [] => True
              | y :: _ => link h x y /\ linked h r
              end
  end.

(** The cell of a stored element. *)
Definition leaf_cell (h : heap) (l : nat) (s : string) : Prop :=
  exists lf,
    h !! l = Some (OLeaf lf) /\ element (Node lf) = Some s /\
    children (Node lf) = [] /\ numChildren (Node lf) = 0 /\ isRoot (Node lf) = false /\
    isHead lf = false /\ isTail lf = false.

Definition key (x : nat * string) : list Z := digits x.2.

(** The order list: [L] lists the stored elements with their cells, from
    the head sentinel to the tail sentinel, in increasing digit order. *)
Record list_ok (a : Z) (h : heap) (hd tl : nat) (L : list (nat * string)) : Prop := mk_list_ok {
  list_head : exists hl, h !! hd = Some (OLeaf hl) /\ isHead hl = true /\ isTail hl = false;
  list_tail : exists tll, h !! tl = Some (OLeaf tll) /\ isHead tll = false /\ isTail tll = true;
  list_linked : linked h (hd :: L.*1 ++ [tl]);
  list_nodup : NoDup (hd :: L.*1 ++ [tl]);
  list_leaves : Forall (fun x => leaf_cell h x.1 x.2 /\ in_alphabet a x.2 = true) L;
  list_sorted : StronglySorted (fun x y => lex_ltb (key x) (key y) = true) L
}.

(** What the cell [n] reached along [p] must look like: an inner node with
    all its slots, whose path is justified by a sequence of [P], or the leaf
    of the element whose digit sequence is [p]. *)
Definition node_ok (a : Z) (h : heap) (L : list (nat * string)) (P : list (list Z))
  (p : list Z) (n : nat) : Prop :=
  match h !! n with
  | Some (ONode nd) =>
      len (children nd) = a + 1 /\ numChildren nd = occupied (children nd) /\
      (isRoot nd = true <-> p = []) /\
      (p = [] \/ exists q, q ∈ P /\ strict_prefix p q)
  | Some (OLeaf lf) => exists s, (n, s) ∈ L /\ p = digits s
  | None => False
  end.

Record tree_ok (a : Z) (h : heap) (r : nat) (L : list (nat * string)) (P : list (list Z))
  : Prop := mk_tree_ok {
  tree_stored : forall l s, (l, s) ∈ L -> walk h r (digits s) = Some l;
  tree_nodes : forall p n, walk h r p = Some n -> node_ok a h L P p n;
  tree_parent : forall p d n, walk h r (p ++ [d]) = Some n ->
    exists o m, h !! n = Some o /\ parent (node_of o) = Some m /\ walk h r p = Some m;
  tree_root : exists o, h !! r = Some o /\ parent (node_of o) = None;
  tree_inj : forall p q n, walk h r p = Some n -> walk h r q = Some n -> p = q
}.

Record trie_inv (a : Z) (h : heap) (t : trie) (L : list (nat * string)) : Prop := mk_trie_inv {
  inv_alphabet : 0 <= a;
  inv_digitizer : digitizer t = NewStringDigitizer a;
  inv_capacity : capacity t = a + 1;
  inv_size : size t = len L;
  inv_list : exists hd tl, head t = Some hd /\ tail t = Some tl /\ list_ok a h hd tl L;
  inv_tree : match root t with
             | Some r => tree_ok a h r L (key <$> L)
             | None => L = []
             end
}.

(** The states of a trie of alphabet size [a]: made by [NewTrie], then
    changed by [Add] and [Remove] of strings over the alphabet, and by
    [Clear]. *)
Inductive reachable (a : Z) : heap -> trie -> Prop :=
| reachable_NewTrie h0 h t :
    0 <= a -> NewTrie h0 a = Ok (h, t) -> reachable a h t
| reachable_Add h t e h' t' err :
    reachable a h t -> in_alphabet a e = true ->
    returns (fun fuel => Add fuel h t e) (h', t', err) -> reachable a h' t'
| reachable_Remove h t e h' t' b :
    reachable a h t -> in_alphabet a e = true ->
    returns (fun fuel => Remove fuel h t e) (h', t', b) -> reachable a h' t'
| reachable_Clear h t h' t' :
    reachable a h t ->
    returns (fun fuel => Clear fuel h t) (h', t') -> reachable a h' t'.

(** Where an unsuccessful search leaves the context: on the inner node at
    depth [k] of the element's path whose slot for digit [k] is empty (or
    on the nil root of a trie that never held an element). *)
Definition at_gap (a : Z) (h : heap) (t : trie) (e : string) (s : searchContext) : Prop :=
  sdigitizer s = NewStringDigitizer a /\
  exists k, branchPosition s = Z.of_nat k /\ (k < length (digits e))%nat /\
    match root t with
    | None => pointer s = None /\ k = 0%nat
    | Some r => exists n nd,
        pointer s = Some n /\ walk h r (take k (digits e)) = Some n /\
        h !! n = Some (ONode nd) /\ child_at h n (digit_at (digits e) k) = None
    end.

(** Two cells of the same kind with the same node part. *)
Definition same_node (o o' : object) : Prop :=
  node_of o = node_of o' /\
  match o, o' with
  | ONode _, ONode _ | OLeaf _, OLeaf _ => True
  | _, _ => False
  end.

Definition attach (h : heap) (cur : nat) (nd : node) (d : Z) (c : nat) (co : object) : heap :=
  <[c := map_node (set_parent (Some cur)) co]>
    (<[cur := ONode (set_children (<[Z.to_nat d := Some c]> (children nd))
                                  (numChildren nd + 1) nd)]> h).

(** The situation in which a child is attached: [cur] is the inner node at
    path [pc], its slot [d] is empty, and [c] is a cell without children
    that the tree does not reach yet. *)
Record attachable (a : Z) (h : heap) (r : nat) (L : list (nat * string)) (P : list (list Z))
  (pc : list Z) (cur : nat) (nd : node) (d : Z) (c : nat) (co : object) : Prop := mk_attachable {
  att_ok : tree_ok a h r L P;
  att_pc : walk h r pc = Some cur;
  att_cur : h !! cur = Some (ONode nd);
  att_gap : child_at h cur d = None;
  att_d : 0 <= d <= a;
  att_c : h !! c = Some co;
  att_fresh : forall p, walk h r p <> Some c;
  att_childless : forall i x, children (node_of co) !! i = Some x -> x = None
}.

(** Two cells that differ at most in their [next] / [previous] links. *)
Definition same_but_links (o o' : object) : Prop :=
  match o, o' with
  | ONode n, ONode n' => n = n'
  | OLeaf l, OLeaf l' => Node l = Node l' /\ isHead l = isHead l' /\ isTail l = isTail l'
  | _, _ => False
  end.

Definition links_changed (h h' : heap) : Prop :=
  forall x o, h !! x = Some o -> exists o', h' !! x = Some o' /\ same_but_links o o'.

(** Cells that keep what a link reads of its left / right end. *)
Definition fwd_same (h h' : heap) (x : nat) : Prop :=
  forall xl, h !! x = Some (OLeaf xl) ->
    exists xl', h' !! x = Some (OLeaf xl') /\ next xl' = next xl /\ isHead xl' = isHead xl.

Definition bwd_same (h h' : heap) (y : nat) : Prop :=
  forall yl, h !! y = Some (OLeaf yl) ->
    exists yl', h' !! y = Some (OLeaf yl') /\ previous yl' = previous yl /\ isTail yl' = isTail yl.

(** Enough fuel for one operation on a trie holding [L] with element [e]. *)
Definition fuel_for (a : Z) (L : list (nat * string)) (e : string) : nat :=
  length (digits e) + max_list (length ∘ key <$> L) + Z.to_nat a + length L + 2.

Definition detach (h : heap) (cur : nat) (nd : node) (d : Z) : heap :=
  <[cur := ONode (set_children (<[Z.to_nat d := None]> (children nd)) (numChildren nd - 1) nd)]> h.

(** The situation in which a child is detached: the slot [d] of the inner
    node [cur] at path [pc] holds [c], and [c] has no children. *)
Record detachable (a : Z) (h : heap) (r : nat) (L : list (nat * string)) (P : list (list Z))
  (pc : list Z) (cur : nat) (nd : node) (d : Z) (c : nat) : Prop := mk_detachable {
  det_ok : tree_ok a h r L P;
  det_pc : walk h r pc = Some cur;
  det_cur : h !! cur = Some (ONode nd);
  det_child : child_at h cur d = Some c;
  det_childless : forall x, child_at h c x = None
}.

(** A removed cell: its [previous] link is nil, its [next] link still leads
    into the list. *)
Definition tombstone (h : heap) (l : nat) (nx : ptr) : Prop :=
  exists lf, h !! l = Some (OLeaf lf) /\
             previous lf = None /\ next lf = nx /\ isHead lf = false /\ isTail lf = false.

(** Where the iterator of [Clear] stands before it advances: on the head,
    or on the cell it has just removed; in both cases the [next] link leads
    to the first cell of the list. *)
Definition at_front (h : heap) (i : nat) (n : nat) : Prop :=
  exists il, h !! i = Some (OLeaf il) /\ isTail il = false /\ next il = Some n /\
             (isHead il = true \/ (isHead il = false /\ previous il = None)).

(** A state to try the properties on: "ab", "ba" and "abc" are inserted into
    a fresh trie of alphabet size 4, then "ba" is removed. *)
Definition sample_run (fuel : nat) : result (heap * trie) :=
  let* (h, t) := NewTrie [] 4 in
  let* (h1, t1, _) := Add fuel h t "ab" in
  let* (h2, t2, _) := Add fuel h1 t1 "ba" in
  let* (h3, t3, _) := Add fuel h2 t2 "abc" in
  let* (h4, t4, _) := Remove fuel h3 t3 "ba" in
  Ok (h4, t4).

(** A query on that state. *)
Definition sample_query {A : Type} (q : heap -> trie -> result A) : result A :=
  let* (h, t) := sample_run 32 in q h t.

(** A node with five free slots and a fresh leaf, to try the node operations
    on. *)
Definition node_example : heap := [ONode (newNode 5); OLeaf newLeafNode].

(** The order list of [tombstone_example] and a fresh leaf. *)
Definition link_example : heap := tombstone_example ++ [OLeaf newLeafNode].

(** No stored element lies to the left of the path of [e] at depth [j]. *)
Definition no_left_fork (h : heap) (r : nat) (e : string) (j : nat) : Prop :=
  forall i, 0 <= i < digit_at (digits e) j -> walk h r (take j (digits e) ++ [i]) = None.

(** The stored elements whose digit sequence goes through the path [q], and
    those of them whose next digit is below [j]. *)
Definition below (L : list (nat * string)) (q : list Z) : list (nat * string) :=
  filter (fun x => q `prefix_of` key x) L.

Definition below_upto (L : list (nat * string)) (q : list Z) (j : Z) : list (nat * string) :=
  filter (fun x => q `prefix_of` key x /\ digit_at (key x) (length q) < j) L.

(** The bytes of a string in lower case. *)
Definition lower (s : string) : list ascii := map toLower (bytes s).

(** [s] begins with the first [k] bytes of [p], up to the case of letters;
    with [k] the length of [p], [s] is a completion of [p]. *)
Definition shares_prefix (k : nat) (p s : string) : Prop :=
  take k (lower p) `prefix_of` lower s.

#[global] Instance shares_prefix_dec k p s : Decision (shares_prefix k p s) :=
  decide_rel prefix (take k (lower p)) (lower s).

(** Both strings are empty, or they begin with the same letter up to case. *)
Definition same_first_letter (s p : string) : Prop :=
  lower s !! 0%nat = lower p !! 0%nat.

(** * Properties *)

(** ** Basic facts on results and the store *)

Lemma rbind_Ok {A B : Type} (m : result A) (f : A -> result B) (b : B) :
  rbind m f = Ok b -> exists a, m = Ok a /\ f a = Ok b.
Proof. destruct m; simpl; intros H; try discriminate. eauto. Qed.

Ltac inv_bind H :=
  let a := fresh "a" in
  let Ha := fresh "Ha" in
  apply rbind_Ok in H; destruct H as (a & Ha & H).

Lemma deref_Ok h p o : deref h p = Ok o <-> exists l, p = Some l /\ h !! l = Some o.
Proof.
  unfold deref. split.
  - destruct p as [l|]; [|discriminate]. destruct (h !! l) eqn:E; [|discriminate].
    intros [= <-]. eauto.
  - intros (l & -> & ->). reflexivity.
Qed.

Lemma store_Ok h p f h' :
  store h p f = Ok h' <-> exists l o, p = Some l /\ h !! l = Some o /\ h' = <[l := f o]> h.
Proof.
  unfold store. split.
  - destruct p as [l|]; [|discriminate]. destruct (h !! l) eqn:E; [|discriminate].
    intros [= <-]. eauto.
  - intros (l & o & -> & -> & ->). reflexivity.
Qed.

Lemma store_leaf_Ok h p f h' :
  store_leaf h p f = Ok h' <->
  exists l lf, p = Some l /\ h !! l = Some (OLeaf lf) /\ h' = <[l := OLeaf (f lf)]> h.
Proof.
  unfold store_leaf. split.
  - destruct p as [l|]; [|discriminate]. destruct (h !! l) as [[n|lf]|] eqn:E; try discriminate.
    intros [= <-]. eauto.
  - intros (l & lf & -> & -> & ->). reflexivity.
Qed.

Lemma deref_leaf_Ok h p lf :
  deref_leaf h p = Ok lf <-> exists l, p = Some l /\ h !! l = Some (OLeaf lf).
Proof.
  unfold deref_leaf. split.
  - intros H. inv_bind H. apply deref_Ok in Ha as (l & -> & Hl).
    destruct a; [discriminate|]. injection H as ->. eauto.
  - intros (l & -> & Hl). unfold deref. rewrite Hl. reflexivity.
Qed.

Lemma index_Ok {A} (l : list A) i a :
  index l i = Ok a <-> 0 <= i < len l /\ l !! Z.to_nat i = Some a.
Proof.
  unfold index, len. split.
  - destruct (i <? 0) eqn:E1; [discriminate|].
    destruct (Z.of_nat (length l) <=? i) eqn:E2; [discriminate|]. simpl.
    destruct (l !! Z.to_nat i) eqn:E3; [|discriminate]. intros [= ->]. split; [lia|done].
  - intros [[H1 H2] H3].
    destruct (i <? 0) eqn:E1; [lia|].
    destruct (Z.of_nat (length l) <=? i) eqn:E2; [lia|]. simpl. rewrite H3. done.
Qed.

Lemma index_at_len {A} (l : list A) : index l (len l) = Panic.
Proof.
  unfold index. rewrite Z.leb_refl, orb_true_r. done.
Qed.

Lemma lookup_lt_len {A} (l : list A) i a : l !! i = Some a -> Z.of_nat i < len l.
Proof. intros H. apply lookup_lt_Some in H. unfold len. lia. Qed.

(** Reading and writing an allocated cell. *)
Section Access.
Context (h : heap) (l : nat).

Lemma deref_eq o : h !! l = Some o -> deref h (Some l) = Ok o.
Proof. unfold deref. by intros ->. Qed.

Lemma deref_leaf_eq lf : h !! l = Some (OLeaf lf) -> deref_leaf h (Some l) = Ok lf.
Proof. unfold deref_leaf, deref. by intros ->. Qed.

Lemma store_eq o f : h !! l = Some o -> store h (Some l) f = Ok (<[l := f o]> h).
Proof. unfold store. by intros ->. Qed.

Lemma store_leaf_eq lf f :
  h !! l = Some (OLeaf lf) -> store_leaf h (Some l) f = Ok (<[l := OLeaf (f lf)]> h).
Proof. unfold store_leaf. by intros ->. Qed.

Lemma Parent_eq o : h !! l = Some o -> Parent h (Some l) = Ok (parent (node_of o)).
Proof. unfold Parent, deref. by intros ->. Qed.

Lemma Value_eq o : h !! l = Some o -> Value h (Some l) = Ok (element (node_of o)).
Proof. unfold Value, deref. by intros ->. Qed.

Lemma IsRoot_eq o : h !! l = Some o -> IsRoot h (Some l) = Ok (isRoot (node_of o)).
Proof. unfold IsRoot, deref. by intros ->. Qed.

Lemma HasChildren_eq o :
  h !! l = Some o -> HasChildren h (Some l) = Ok (numChildren (node_of o) >? 0).
Proof. unfold HasChildren, deref. by intros ->. Qed.

Lemma Next_eq lf : h !! l = Some (OLeaf lf) -> Next h (Some l) = Ok (next lf).
Proof. unfold Next, deref_leaf, deref. by intros ->. Qed.

Lemma Previous_eq lf : h !! l = Some (OLeaf lf) -> Previous h (Some l) = Ok (previous lf).
Proof. unfold Previous, deref_leaf, deref. by intros ->. Qed.

Lemma IsHead_eq lf : h !! l = Some (OLeaf lf) -> IsHead h (Some l) = Ok (isHead lf).
Proof. unfold IsHead, deref_leaf, deref. by intros ->. Qed.

Lemma IsTail_eq lf : h !! l = Some (OLeaf lf) -> IsTail h (Some l) = Ok (isTail lf).
Proof. unfold IsTail, deref_leaf, deref. by intros ->. Qed.

Lemma IsDeleted_eq lf :
  h !! l = Some (OLeaf lf) -> IsDeleted h (Some l) = Ok (is_nil (previous lf)).
Proof. unfold IsDeleted, deref_leaf, deref. by intros ->. Qed.

Lemma SetNext_eq lf p :
  h !! l = Some (OLeaf lf) -> SetNext h (Some l) p = Ok (<[l := OLeaf (set_next p lf)]> h).
Proof. apply store_leaf_eq. Qed.

Lemma SetPrevious_eq lf p :
  h !! l = Some (OLeaf lf) ->
  SetPrevious h (Some l) p = Ok (<[l := OLeaf (set_previous p lf)]> h).
Proof. apply store_leaf_eq. Qed.

Lemma markDeleted_eq lf :
  h !! l = Some (OLeaf lf) -> markDeleted h (Some l) = Ok (<[l := OLeaf (set_previous None lf)]> h).
Proof. apply store_leaf_eq. Qed.

Lemma atLeaf_leaf s lf : pointer s = Some l -> h !! l = Some (OLeaf lf) -> atLeaf h s = true.
Proof. unfold atLeaf. by intros -> ->. Qed.

Lemma atLeaf_node s nd : pointer s = Some l -> h !! l = Some (ONode nd) -> atLeaf h s = false.
Proof. unfold atLeaf. by intros -> ->. Qed.
End Access.

Ltac rsimpl :=
  cbn [rbind fst snd negb andb orb is_nil
       parent children numChildren element isRoot
       Node next previous isHead isTail node_of map_node
       set_parent set_children set_element set_next set_previous
       pointer sdigitizer branchPosition numMatches set_pointer set_position set_numMatches
       root head tail digitizer capacity base size set_root set_size] in *.

Lemma rbind_eq {A B : Type} (m : result A) (a : A) (f : A -> result B) :
  m = Ok a -> rbind m f = f a.
Proof. by intros ->. Qed.

(** ** C4: the bounds check of [ChildWithIndexOf] / [RemoveChildWithIndexOf] *)

(** C4 (the defect): [checkBounds] rejects an index only when it is greater
    than the number of slots, so for every node the index equal to the
    number of slots passes the check and both [ChildWithIndexOf] and
    [RemoveChildWithIndexOf] then index the slice out of range and panic. *)
Theorem ChildWithIndexOf_panics_at_capacity (nd : node) :
  ChildWithIndexOf [ONode nd] (Some 0%nat) (len (children nd)) = Panic /\
  RemoveChildWithIndexOf [ONode nd] (Some 0%nat) (len (children nd)) = Panic /\
  AddChildWithIndexOf [ONode nd] (Some 0%nat) (len (children nd)) (Some 0%nat)
  = Ok (Some (NodeIndexOutOfBounds (len (children nd)) (len (children nd))), [ONode nd]).
Proof.
  unfold ChildWithIndexOf, RemoveChildWithIndexOf, AddChildWithIndexOf, checkBounds. simpl.
  assert (H0 : (len (children nd) <? 0) = false) by (apply Z.ltb_ge; unfold len; lia).
  rewrite H0, Z.gtb_ltb, Z.geb_leb, Z.ltb_irrefl, Z.leb_refl. simpl.
  rewrite index_at_len. done.
Qed.

(** ** C6: the counter of occupied slots *)

Lemma occupied_nonneg cs : 0 <= occupied cs.
Proof. induction cs as [|[c|] cs IH]; simpl; lia. Qed.

Lemma occupied_replicate n : occupied (replicate n None) = 0.
Proof. induction n; simpl; auto. Qed.

Lemma occupied_fill cs i c :
  cs !! i = Some None -> occupied (<[i := Some c]> cs) = occupied cs + 1.
Proof.
  revert i. induction cs as [|[x|] cs IH]; intros [|i] H; simpl in *; try discriminate.
  - rewrite (IH i H). lia.
  - lia.
  - apply IH, H.
Qed.

Lemma occupied_clear cs i c :
  cs !! i = Some (Some c) -> occupied (<[i := None]> cs) = occupied cs - 1.
Proof.
  revert i. induction cs as [|[x|] cs IH]; intros [|i] H; simpl in *; try discriminate.
  - lia.
  - rewrite (IH i H). lia.
  - apply IH, H.
Qed.

Lemma occupied_pos cs : 0 < occupied cs <-> exists i c, cs !! i = Some (Some c).
Proof.
  induction cs as [|[x|] cs IH]; simpl.
  - split; [lia|]. intros (i & c & H). destruct i; discriminate.
  - split; [|pose proof (occupied_nonneg cs); lia]. intros _. exists 0%nat, x. done.
  - rewrite IH. split.
    + intros (i & c & H). exists (S i), c. done.
    + intros ([|i] & c & H); [discriminate|]. eauto.
Qed.

Lemma newNode_counter_ok capacity : counter_ok (ONode (newNode capacity)).
Proof.
  unfold counter_ok, newNode. destruct (capacity <=? 0); simpl; [done|].
  by rewrite occupied_replicate.
Qed.

Lemma newRootNode_counter_ok capacity r : newRootNode capacity = Ok r -> counter_ok (ONode r).
Proof.
  unfold newRootNode. destruct (capacity <? 0); [discriminate|]. intros [= <-].
  unfold counter_ok. simpl. by rewrite occupied_replicate.
Qed.

Lemma counter_ok_map_node f o :
  (forall n, children (f n) = children n /\ numChildren (f n) = numChildren n) ->
  counter_ok o -> counter_ok (map_node f o).
Proof.
  unfold counter_ok. intros Hf. destruct o as [n|l]; simpl; destruct (Hf n) as [-> ->] || idtac.
  - done.
  - destruct (Hf (Node l)) as [-> ->]. done.
Qed.

Lemma AddChildWithIndexOf_counter_ok h n i child r h' :
  Forall counter_ok h -> AddChildWithIndexOf h n i child = Ok (r, h') -> Forall counter_ok h'.
Proof.
  intros Hall H. unfold AddChildWithIndexOf in H.
  inv_bind H. apply deref_Ok in Ha as (l & -> & Hl).
  destruct (_ || _); [by injection H as _ <-|].
  inv_bind H. apply index_Ok in Ha as [Hi Hc].
  destruct a0 as [c|]; [by injection H as _ <-|].
  inv_bind H. apply store_Ok in Ha as (l' & o & [= <-] & Hl' & ->).
  rewrite Hl in Hl'. injection Hl' as <-.
  inv_bind H. injection H as _ <-.
  unfold SetParent in Ha. apply store_Ok in Ha as (k & o & -> & Hk & ->).
  assert (H1 : Forall counter_ok
    (<[l:=map_node (set_children (<[Z.to_nat i:=Some k]> (children (node_of a)))
                                 (numChildren (node_of a) + 1)) a]> h)).
  { apply Forall_insert; [done|].
    pose proof (Forall_lookup_1 _ _ _ _ Hall Hl) as Ha.
    unfold counter_ok in *. destruct a as [nd|lf]; simpl in *;
      rewrite (occupied_fill _ _ _ Hc); lia. }
  apply Forall_insert; [done|].
  apply counter_ok_map_node; [by intros []|].
  apply (Forall_lookup_1 _ _ _ _ H1 Hk).
Qed.

Lemma RemoveChildWithIndexOf_counter_ok h n i r h' :
  Forall counter_ok h -> RemoveChildWithIndexOf h n i = Ok (r, h') -> Forall counter_ok h'.
Proof.
  intros Hall H. unfold RemoveChildWithIndexOf in H.
  inv_bind H. apply deref_Ok in Ha as (l & -> & Hl).
  destruct (checkBounds _ _); [by injection H as _ <-|].
  inv_bind H. apply index_Ok in Ha as [Hi Hc].
  destruct a0 as [c|]; [|by injection H as _ <-].
  inv_bind H. apply store_Ok in Ha as (l' & o & [= <-] & Hl' & ->).
  rewrite Hl in Hl'. injection Hl' as <-. injection H as _ <-.
  apply Forall_insert; [done|].
  pose proof (Forall_lookup_1 _ _ _ _ Hall Hl) as Ha.
  unfold counter_ok in *. destruct a as [nd|lf]; simpl in *;
    rewrite (occupied_clear _ _ _ Hc); lia.
Qed.

(** C6: starting from a store in which every node's [numChildren] equals its
    number of non-nil child slots (as it does for the nodes made by
    [newNode] and [newRootNode]), any sequence of [AddChildWithIndexOf] and
    [RemoveChildWithIndexOf] calls that return leaves a store with the same
    property, and then [HasChildren] answers true exactly for the nodes
    with an occupied slot. *)
Theorem numChildren_counts_occupied_slots (h h' : heap) (calls : list node_call) :
  Forall counter_ok h ->
  run_calls h calls = Ok h' ->
  Forall counter_ok h' /\
  forall n o, h' !! n = Some o ->
    (HasChildren h' (Some n) = Ok true <->
     exists i c, children (node_of o) !! i = Some (Some c)).
Proof.
  intros Hall Hrun.
  assert (Hall' : Forall counter_ok h').
  { revert h Hall Hrun. induction calls as [|[n i child|n i] calls IH]; intros h Hall Hrun.
    - simpl in Hrun. by injection Hrun as <-.
    - simpl in Hrun. inv_bind Hrun. destruct a as [r h1].
      eapply IH; [|exact Hrun]. eapply AddChildWithIndexOf_counter_ok; eauto.
    - simpl in Hrun. inv_bind Hrun. destruct a as [r h1].
      eapply IH; [|exact Hrun]. eapply RemoveChildWithIndexOf_counter_ok; eauto. }
  split; [done|]. intros n o Hn.
  unfold HasChildren, deref. rewrite Hn. simpl.
  pose proof (Forall_lookup_1 _ _ _ _ Hall' Hn) as Hc. unfold counter_ok in Hc.
  rewrite <- occupied_pos, <- Hc. split.
  - intros [= H]. apply Z.gtb_lt in H. lia.
  - intros H. f_equal. apply Z.gtb_lt. lia.
Qed.

Lemma numChildren_counts_occupied_slots_witness :
  exists h',
    run_calls [ONode (newNode 3); OLeaf newLeafNode; ONode (newNode 3)]
      [Call_AddChildWithIndexOf (Some 0%nat) 1 (Some 1%nat);
       Call_AddChildWithIndexOf (Some 0%nat) 2 (Some 2%nat);
       Call_AddChildWithIndexOf (Some 0%nat) 2 (Some 1%nat);
       Call_RemoveChildWithIndexOf (Some 0%nat) 1;
       Call_RemoveChildWithIndexOf (Some 0%nat) 7] = Ok h' /\
    Forall counter_ok h' /\ HasChildren h' (Some 0%nat) = Ok true.
Proof.
  eexists. split; [reflexivity|].
  match goal with
  | |- Forall counter_ok ?T /\ _ =>
      destruct (numChildren_counts_occupied_slots
        [ONode (newNode 3); OLeaf newLeafNode; ONode (newNode 3)] T
        [Call_AddChildWithIndexOf (Some 0%nat) 1 (Some 1%nat);
         Call_AddChildWithIndexOf (Some 0%nat) 2 (Some 2%nat);
         Call_AddChildWithIndexOf (Some 0%nat) 2 (Some 1%nat);
         Call_RemoveChildWithIndexOf (Some 0%nat) 1;
         Call_RemoveChildWithIndexOf (Some 0%nat) 7]) as [H1 H2]
  end.
  - repeat constructor.
  - reflexivity.
  - split; [exact H1|]. reflexivity.
Defined.

(** ** C7: tombstones *)

Lemma skipRemovedElements_S f h leaf :
  skipRemovedElements (S f) h leaf =
  let* hd := IsHead h leaf in
  if hd then Ok (h, leaf)
  else
    let* tl := IsTail h leaf in
    if tl then Ok (h, leaf)
    else
      let* d := IsDeleted h leaf in
      if negb d then Ok (h, leaf)
      else
        let* n := Next h leaf in
        let* (h1, r) := skipRemovedElements f h n in
        let* h2 := SetNext h1 leaf r in
        let* n2 := Next h2 leaf in
        Ok (h2, n2).
Proof. reflexivity. Qed.

Lemma set_next_same lf p : next lf = p -> set_next p lf = lf.
Proof. intros <-. by destruct lf. Qed.

(** C7: on every leaf of every store, sentinels included, [IsDeleted]
    returns, and returns true exactly when the [previous] link of the leaf
    is nil.  Removing a linked leaf [l] with predecessor [p] and successor
    [n] makes [n] the [next] of [p] and [p] the [previous] of [n], as [Next]
    and [Previous] read them afterwards, clears the [previous] link of [l]
    and changes nothing else: the other link of [p] and of [n] and the
    value of [l] are as before, the [next] link of [l] still leads to [n],
    and an iterator standing on [l] advances to [n]. *)
Theorem LeafNode_Remove_leaves_tombstone (h : heap) (l p n : nat) (lf pl nl : leafNode)
  (fuel : nat) :
  h !! l = Some (OLeaf lf) ->
  h !! p = Some (OLeaf pl) ->
  h !! n = Some (OLeaf nl) ->
  previous lf = Some p -> next lf = Some n ->
  isHead lf = false -> isTail lf = false ->
  p <> l -> n <> l -> p <> n ->
  (forall h0 x xl, h0 !! x = Some (OLeaf xl) ->
     exists b, IsDeleted h0 (Some x) = Ok b /\ (b = true <-> previous xl = None)) /\
  IsDeleted h (Some l) = Ok false /\
  exists h',
    LeafNode_Remove h (Some l) = Ok h' /\
    Next h' (Some p) = Ok (Some n) /\ Previous h' (Some p) = Previous h (Some p) /\
    Previous h' (Some n) = Ok (Some p) /\ Next h' (Some n) = Next h (Some n) /\
    Previous h' (Some l) = Ok None /\ Value h' (Some l) = Value h (Some l) /\
    h' !! p = Some (OLeaf (set_next (Some n) pl)) /\
    h' !! n = Some (OLeaf (set_previous (Some p) nl)) /\
    h' !! l = Some (OLeaf (set_previous None lf)) /\
    (forall k, k <> l -> k <> p -> k <> n -> h' !! k = h !! k) /\
    IsDeleted h' (Some l) = Ok true /\
    Next h' (Some l) = Ok (Some n) /\
    advance (S (S fuel)) h' (Some l) = Ok (h', Some n, negb (isTail nl)).
Proof.
  intros Hl Hp Hn Hprev Hnext Hhd Htl Hpl Hnl Hpn.
  assert (Hlt : (l < length h)%nat) by (eapply lookup_lt_Some; eauto).
  assert (Hpt : (p < length h)%nat) by (eapply lookup_lt_Some; eauto).
  assert (Hnt : (n < length h)%nat) by (eapply lookup_lt_Some; eauto).
  split.
  { intros h0 x xl Hx. exists (is_nil (previous xl)).
    split; [by apply IsDeleted_eq|]. by destruct (previous xl). }
  split.
  { by rewrite (IsDeleted_eq _ _ _ Hl), Hprev. }
  set (h1 := <[p := OLeaf (set_next (Some n) pl)]> h).
  set (h2 := <[n := OLeaf (set_previous (Some p) nl)]> h1).
  set (h3 := <[l := OLeaf (set_previous None lf)]> h2).
  assert (Hl1 : h1 !! l = Some (OLeaf lf)).
  { unfold h1. by rewrite list_lookup_insert_ne. }
  assert (Hn1 : h1 !! n = Some (OLeaf nl)).
  { unfold h1. by rewrite list_lookup_insert_ne. }
  assert (Hl2 : h2 !! l = Some (OLeaf lf)).
  { unfold h2. by rewrite list_lookup_insert_ne. }
  assert (Hl3 : h3 !! l = Some (OLeaf (set_previous None lf))).
  { unfold h3. rewrite list_lookup_insert_eq; [done|]. unfold h2, h1.
    by rewrite !length_insert. }
  assert (Hn3 : h3 !! n = Some (OLeaf (set_previous (Some p) nl))).
  { unfold h3. rewrite list_lookup_insert_ne by done. unfold h2.
    rewrite list_lookup_insert_eq; [done|]. unfold h1. by rewrite length_insert. }
  assert (Hp3 : h3 !! p = Some (OLeaf (set_next (Some n) pl))).
  { unfold h3, h2. rewrite !list_lookup_insert_ne by done. unfold h1.
    by rewrite list_lookup_insert_eq. }
  exists h3.
  split; [|split; [|split; [|split; [|split; [|split; [|split; [|
    split; [done|split; [done|split; [done|split; [|split; [|split]]]]]]]]]]]].
  2:{ by rewrite (Next_eq _ _ _ Hp3). }
  2:{ by rewrite (Previous_eq _ _ _ Hp3), (Previous_eq _ _ _ Hp). }
  2:{ by rewrite (Previous_eq _ _ _ Hn3). }
  2:{ by rewrite (Next_eq _ _ _ Hn3), (Next_eq _ _ _ Hn). }
  2:{ by rewrite (Previous_eq _ _ _ Hl3). }
  2:{ by rewrite (Value_eq _ _ _ Hl3), (Value_eq _ _ _ Hl). }
  - unfold LeafNode_Remove. rewrite (deref_leaf_eq _ _ _ Hl). rsimpl.
    rewrite Hprev, Hnext, (SetNext_eq _ _ _ _ Hp). rsimpl. fold h1.
    rewrite (deref_leaf_eq _ _ _ Hl1). rsimpl.
    rewrite Hprev, Hnext, (SetPrevious_eq _ _ _ _ Hn1). rsimpl. fold h2.
    by rewrite (markDeleted_eq _ _ _ Hl2).
  - intros k H1 H2 H3. unfold h3, h2, h1. by rewrite !list_lookup_insert_ne.
  - by rewrite (IsDeleted_eq _ _ _ Hl3).
  - rewrite (Next_eq _ _ _ Hl3). rsimpl. by rewrite Hnext.
  - assert (Hskip : skipRemovedElements (S fuel) h3 (Some n) = Ok (h3, Some n)).
    { rewrite skipRemovedElements_S.
      rewrite (IsHead_eq _ _ _ Hn3), (IsTail_eq _ _ _ Hn3), (IsDeleted_eq _ _ _ Hn3).
      rsimpl. destruct (isHead nl); [done|]. by destruct (isTail nl). }
    assert (Hid : <[l := OLeaf (set_next (Some n) (set_previous None lf))]> h3 = h3).
    { apply list_insert_id. rewrite Hl3. do 2 f_equal. symmetry. by apply set_next_same. }
    unfold advance.
    rewrite (IsTail_eq _ _ _ Hl3), (IsHead_eq _ _ _ Hl3), (IsDeleted_eq _ _ _ Hl3).
    rsimpl. rewrite Htl, Hhd. rsimpl. rewrite skipRemovedElements_S.
    rewrite (IsHead_eq _ _ _ Hl3), (IsTail_eq _ _ _ Hl3), (IsDeleted_eq _ _ _ Hl3).
    rsimpl. rewrite Htl, Hhd. rsimpl.
    rewrite (Next_eq _ _ _ Hl3). rsimpl. rewrite Hnext.
    rewrite (rbind_eq _ _ _ Hskip).
    rewrite (SetNext_eq _ _ _ _ Hl3). rsimpl. rewrite Hid.
    rewrite (Next_eq _ _ _ Hl3). rsimpl. rewrite Hnext.
    by rewrite (IsTail_eq _ _ _ Hn3).
Qed.

Lemma LeafNode_Remove_leaves_tombstone_witness :
  IsDeleted tombstone_example (Some 2%nat) = Ok false /\
  exists h',
    LeafNode_Remove tombstone_example (Some 2%nat) = Ok h' /\
    Next h' (Some 0%nat) = Ok (Some 1%nat) /\
    Previous h' (Some 1%nat) = Ok (Some 0%nat) /\
    Previous h' (Some 2%nat) = Ok None /\
    IsDeleted h' (Some 2%nat) = Ok true /\
    Next h' (Some 2%nat) = Ok (Some 1%nat) /\
    advance 2 h' (Some 2%nat) = Ok (h', Some 1%nat, false).
Proof.
  destruct (LeafNode_Remove_leaves_tombstone tombstone_example 2 0 1 _ _ _ 0
              eq_refl eq_refl eq_refl eq_refl eq_refl eq_refl eq_refl)
    as (_ & H0 & h' & H1 & H2 & _ & H3 & _ & H4 & _ & _ & _ & _ & _ & H5 & H6 & H7);
    [lia|lia|lia|].
  split; [exact H0|]. exists h'. repeat split; assumption.
Defined.

(** ** C3: [Completions] when the search stops at the root *)

(** C3 (the defect): on the trie holding ["ab"], the search for the prefix
    ["c"] stops at the root; [processedEndOfString] then calls
    [ChildWithIndexOf] on the root's nil parent before it tests [IsRoot],
    and [Completions] panics.  [LongestCommonPrefix] shares the call and
    panics as well. *)
Theorem Completions_panics_when_search_stops_at_root :
  filled 16 4 ["ab"] (fun h t err => Ok (err, Size t)) = Ok (None, 1) /\
  filled 16 4 ["ab"] (fun h t _ => let* (r, s) := find 16 h t "c" in Ok (r, pointer s, root t))
  = Ok (Unmatched, Some 3%nat, Some 3%nat) /\
  filled 16 4 ["ab"] (fun h t _ => Completions 16 h t "c" []) = Panic /\
  filled 16 4 ["ab"] (fun h t _ => LongestCommonPrefix 16 h t "c" []) = Panic.
Proof. repeat split; vm_compute; reflexivity. Qed.

(** ** C5: the radix tree's own methods are never reached *)

(** C5 (the defect): on a tree made by [NewRadixTree], [Add] builds the
    one-node-per-digit path of the plain trie (six cells: two sentinels, the
    leaf, the root and two inner nodes for ["ab"]) and [Contains] finds it,
    where the radix tree's [addNode] would have attached nothing to the
    root; [Remove] unlinks the element and decrements the size, where the
    radix tree's [remove] does nothing. *)
Theorem RadixTree_operations_run_trie_methods :
  (let* (h, rt) := NewRadixTree [] 4 in
   let* (h1, rt1, err) := RadixTree_Add 16 h rt "ab" in
   let* c := RadixTree_Contains 16 h1 rt1 "ab" in
   let* (h2, rt2, b) := RadixTree_Remove 16 h1 rt1 "ab" in
   let* (_, vs) := RadixTree_Values 16 h2 rt2 in
   Ok (err, length h1, c, b, RadixTree_Size rt2, vs))
  = Ok (None, 6%nat, true, true, 0, []) /\
  (let* (h, rt) := NewRadixTree [] 4 in
   let* (_, s) := radix_find 16 h rt "ab" in
   let '(leaf, h1) := alloc h (OLeaf newLeafNode) in
   let* h2 := SetValue h1 (Some leaf) (Some "ab") in
   let* (h3, rt1, s1) := radix_addNode 16 h2 rt (Some leaf) s in
   let* o := deref h3 (root (embedded rt1)) in
   Ok (length h3, occupied (children (node_of o))))
  = Ok (4%nat, 0) /\
  (let* (h, rt) := NewRadixTree [] 4 in
   let* (h1, rt1, _) := RadixTree_Add 16 h rt "ab" in
   let* (_, s) := find 16 h1 (embedded rt1) "ab" in
   let '(h2, rt2) := radix_remove h1 rt1 (pointer s) in
   let* (_, vs) := RadixTree_Values 16 h2 rt2 in
   Ok (RadixTree_Size rt2, vs))
  = Ok (1, [Some "ab"]).
Proof. repeat split; vm_compute; reflexivity. Qed.

(** ** C8: the predecessor / successor scenario *)

(** C8: after inserting "bac", "dab", "dabb", "dac", "daca", "dabba", "ab"
    into a fresh trie (alphabet size 4 as in the package's test, or 26), the
    predecessor of "dabba" is "dabb", the predecessor of "bac" is "ab", the
    successor of "dabba" is "dac" and the successor of "bac" is "dab". *)
Theorem Predecessor_Successor_scenario :
  Forall (fun alphabetSize =>
    filled 32 alphabetSize scenario4 (fun h t err => Ok (err, Size t)) = Ok (None, 7) /\
    filled 32 alphabetSize scenario4 (fun h t _ => Predecessor 32 h t "dabba") = Ok (Some "dabb") /\
    filled 32 alphabetSize scenario4 (fun h t _ => Predecessor 32 h t "bac") = Ok (Some "ab") /\
    filled 32 alphabetSize scenario4 (fun h t _ => Successor 32 h t "dabba") = Ok (Some "dac") /\
    filled 32 alphabetSize scenario4 (fun h t _ => Successor 32 h t "bac") = Ok (Some "dab"))
    [4; 26].
Proof. repeat constructor; vm_compute; reflexivity. Qed.

(** ** C1, C2: the claims as stated fail *)

(** C1 (as stated) fails: ["z"] is outside the alphabet of a trie of
    alphabet size 4; [addNode] ignores the error of [AddChildWithIndexOf],
    so both insertions return no error, and the values are not in order. *)
Lemma Values_unsorted_outside_alphabet :
  filled 16 4 ["ab"; "z"] (fun h t err => let* (_, vs) := Values 16 h t in Ok (err, Size t, vs))
  = Ok (None, 2, [Some "z"; Some "ab"]) /\
  [Some "z"; Some "ab"] <> Some <$> ci_sort ["ab"; "z"].
Proof. split; [vm_compute; reflexivity|]. vm_compute. discriminate. Qed.

(** C2 (as stated) fails: with the string digitizer a strict prefix and a
    strict extension of a stored string are both accepted. *)
Lemma Add_accepts_prefix_and_extension :
  filled 16 4 ["ab"; "a"] (fun h t err => let* (_, vs) := Values 16 h t in Ok (err, Size t, vs))
  = Ok (None, 2, [Some "a"; Some "ab"]) /\
  filled 16 4 ["ab"; "abc"] (fun h t err => let* (_, vs) := Values 16 h t in Ok (err, Size t, vs))
  = Ok (None, 2, [Some "ab"; Some "abc"]).
Proof. split; vm_compute; reflexivity. Qed.

(** * The representation invariant of a string trie *)

(** ** Digit sequences and their order *)

Lemma bytes_length s : length (bytes s) = String.length s.
Proof. induction s; simpl; auto. Qed.

Lemma get_bytes s n : String.get n s = bytes s !! n.
Proof. revert n. induction s as [|c s IH]; intros [|n]; simpl; auto. Qed.

Lemma digits_length s : len (digits s) = strlen s + 1.
Proof.
  unfold digits, len, strlen. rewrite length_app, length_map, bytes_length. simpl. lia.
Qed.

Lemma NumDigitsOf_digits a s : NumDigitsOf (NewStringDigitizer a) s = len (digits s).
Proof. simpl. unfold stringDigitizer_NumDigitsOf. by rewrite digits_length. Qed.

Lemma DigitOf_digits a s (k : nat) :
  DigitOf (NewStringDigitizer a) s (Z.of_nat k) = Ok (digit_at (digits s) k).
Proof.
  simpl. unfold stringDigitizer_DigitOf, digit_at, digits, byteAt, strlen.
  rewrite <- bytes_length.
  destruct (Z.of_nat k >=? Z.of_nat (length (bytes s))) eqn:E.
  - apply Z.geb_le in E.
    destruct (decide (k = length (bytes s))) as [->|Hne].
    + rewrite lookup_app_r by (rewrite length_map; lia).
      rewrite length_map, Nat.sub_diag. done.
    + rewrite lookup_ge_None_2; [done|]. rewrite length_app, length_map. simpl. lia.
  - rewrite Z.geb_leb in E. apply Z.leb_gt in E.
    replace (Z.of_nat k <? 0) with false by (symmetry; apply Z.ltb_ge; lia).
    replace (Z.of_nat (length (bytes s)) <=? Z.of_nat k) with false
      by (symmetry; apply Z.leb_gt; lia).
    simpl. rewrite Nat2Z.id, get_bytes.
    rewrite lookup_app_l by (rewrite length_map; lia).
    rewrite list_lookup_fmap.
    destruct (bytes s !! k) eqn:Hk; [done|].
    apply lookup_ge_None in Hk. lia.
Qed.

Lemma lex_ltb_irrefl p : lex_ltb p p = false.
Proof.
  induction p as [|x p IH]; simpl; [done|].
  rewrite Z.ltb_irrefl, Z.eqb_refl, IH. done.
Qed.

Lemma lex_ltb_trans p q r : lex_ltb p q = true -> lex_ltb q r = true -> lex_ltb p r = true.
Proof.
  revert q r. induction p as [|x p IH]; intros [|y q] [|z r]; simpl; try done.
  intros H1 H2.
  apply orb_true_iff in H1 as [H1|H1], H2 as [H2|H2]; apply orb_true_iff.
  - left. lia.
  - left. apply andb_true_iff in H2 as [H2 _]. lia.
  - left. apply andb_true_iff in H1 as [H1 _]. lia.
  - apply andb_true_iff in H1 as [H1 H1'], H2 as [H2 H2'].
    right. apply andb_true_iff. split; [lia|]. eapply IH; eauto.
Qed.

Lemma lex_ltb_asym p q : lex_ltb p q = true -> lex_ltb q p = false.
Proof.
  intros H. destruct (lex_ltb q p) eqn:E; [|done].
  pose proof (lex_ltb_trans _ _ _ H E) as Hpp. by rewrite lex_ltb_irrefl in Hpp.
Qed.

Lemma lex_ltb_total p q : lex_ltb p q = true \/ p = q \/ lex_ltb q p = true.
Proof.
  revert q. induction p as [|x p IH]; intros [|y q]; simpl; auto.
  destruct (Z.lt_total x y) as [H|[H|H]].
  - left. apply orb_true_iff. left. lia.
  - subst y. destruct (IH q) as [H|[H|H]].
    + left. rewrite H, Z.eqb_refl. apply orb_true_r.
    + right; left. by subst.
    + right; right. rewrite H, Z.eqb_refl. apply orb_true_r.
  - right; right. apply orb_true_iff. left. lia.
Qed.

(** Two sequences that part at position [length c]. *)
Lemma lex_ltb_diverge c x y p q : x < y -> lex_ltb (c ++ x :: p) (c ++ y :: q) = true.
Proof.
  intros H. induction c as [|z c IH]; simpl.
  - apply orb_true_iff. left. lia.
  - rewrite IH, Z.eqb_refl. apply orb_true_r.
Qed.

(** Two in-alphabet strings whose digit sequences are prefix-related have the
    same digit sequence: the terminator occurs only at the end. *)
Lemma byte_of_range c : 0 <= byte_of c < 256.
Proof. unfold byte_of. pose proof (nat_ascii_bounded c). lia. Qed.

Lemma letter_ok_byte a c :
  letter_ok a c = true ->
  letter_digit c = byte_of (toLower c) - 96 /\ 1 <= letter_digit c <= a.
Proof.
  unfold letter_ok. intros H. apply andb_true_iff in H as [H1 H2].
  apply andb_true_iff in H1 as [_ H1].
  pose proof (byte_of_range (toLower c)) as Hr.
  assert (E : letter_digit c = byte_of (toLower c) - 96).
  { unfold letter_digit. rewrite Z.mod_small; lia. }
  split; [done|]. lia.
Qed.

Lemma letter_ok_digit a c : letter_ok a c = true -> 1 <= letter_digit c <= a.
Proof. intros H. by apply letter_ok_byte in H as [_ H]. Qed.

Lemma in_alphabet_digits a s :
  in_alphabet a s = true -> Forall (fun d => 1 <= d <= a) (map letter_digit (bytes s)).
Proof.
  unfold in_alphabet. induction (bytes s) as [|c l IH]; simpl; intros H; [constructor|].
  apply andb_true_iff in H as [H1 H2]. constructor; [by apply letter_ok_digit|auto].
Qed.

Lemma digits_range a s k :
  in_alphabet a s = true -> 0 <= a -> 0 <= digit_at (digits s) k <= a.
Proof.
  intros H Ha. unfold digit_at, digits.
  destruct ((map letter_digit (bytes s) ++ [0]) !! k) as [d|] eqn:E; simpl; [|lia].
  apply lookup_app_Some in E as [E|[_ E]].
  - pose proof (Forall_lookup_1 _ _ _ _ (in_alphabet_digits _ _ H) E). simpl in *. lia.
  - destruct (k - _)%nat; [|done]. injection E as <-. lia.
Qed.

Lemma digits_prefix_free a s1 s2 :
  in_alphabet a s1 = true -> in_alphabet a s2 = true ->
  digits s1 `prefix_of` digits s2 -> digits s1 = digits s2.
Proof.
  intros H1 H2 [k Hk]. destruct k as [|d k]; [by rewrite app_nil_r in Hk|].
  exfalso. unfold digits in Hk.
  pose proof (in_alphabet_digits _ _ H2) as F2.
  set (m1 := map letter_digit (bytes s1)) in *.
  set (m2 := map letter_digit (bytes s2)) in *.
  assert (Hlen : (length m1 < length m2)%nat).
  { apply (f_equal length) in Hk. rewrite !length_app in Hk. simpl in Hk. lia. }
  assert (E : (m2 ++ [0]) !! length m1 = Some 0).
  { rewrite Hk, <- app_assoc. rewrite lookup_app_r by lia. by rewrite Nat.sub_diag. }
  rewrite lookup_app_l in E by lia.
  pose proof (Forall_lookup_1 _ _ _ _ F2 E). simpl in *. lia.
Qed.

(** ** Paths in the store *)

Lemma walk_app h n p q :
  walk h n (p ++ q) = match walk h n p with Some m => walk h m q | None => None end.
Proof.
  revert n. induction p as [|d p IH]; intros n; simpl; [done|].
  destruct (child_at h n d); [apply IH|done].
Qed.

Lemma walk_snoc h n p d :
  walk h n (p ++ [d]) = match walk h n p with Some m => child_at h m d | None => None end.
Proof.
  rewrite walk_app. destruct (walk h n p) as [m|]; [|done]. simpl.
  by destruct (child_at h m d).
Qed.

Lemma walk_prefix h n p q m : walk h n (p ++ q) = Some m -> exists k, walk h n p = Some k.
Proof. rewrite walk_app. destruct (walk h n p); [eauto|done]. Qed.

Lemma child_at_Some h n d c :
  child_at h n d = Some c <->
  exists o, h !! n = Some o /\ 0 <= d /\ children (node_of o) !! Z.to_nat d = Some (Some c).
Proof.
  unfold child_at. split.
  - destruct (h !! n) as [o|]; [|done]. destruct (d <? 0) eqn:E; [done|].
    apply Z.ltb_ge in E.
    destruct (children (node_of o) !! Z.to_nat d) as [x|] eqn:E2; simpl; [|done].
    intros ->. eauto.
  - intros (o & -> & Hd & ->). replace (d <? 0) with false; [done|].
    symmetry. by apply Z.ltb_ge.
Qed.

Lemma child_at_cell h h' n d :
  children ∘ node_of <$> h' !! n = children ∘ node_of <$> h !! n ->
  child_at h' n d = child_at h n d.
Proof.
  unfold child_at. destruct (h' !! n) as [o'|], (h !! n) as [o|]; simpl; try done.
  by intros [= ->].
Qed.

(** Walking only reads the child slots of the cells it passes. *)
Lemma walk_frame h h' r :
  (forall q n, walk h r q = Some n ->
     children ∘ node_of <$> h' !! n = children ∘ node_of <$> h !! n) ->
  forall p, walk h' r p = walk h r p.
Proof.
  intros Hsame p. induction p as [|d p IH] using rev_ind; [done|].
  rewrite !walk_snoc, IH. destruct (walk h r p) as [m|] eqn:E; [|done].
  apply child_at_cell. eapply Hsame, E.
Qed.

Lemma descendToIndex_spec h s n o i :
  pointer s = Some n -> h !! n = Some o -> i <> len (children (node_of o)) ->
  descendToIndex h s i =
  Ok (match child_at h n i with
      | Some c => (set_position (Some c) (branchPosition s + 1) s, i)
      | None => (s, childNotFound)
      end).
Proof.
  intros Hp Hn Hi. unfold descendToIndex, ChildWithIndexOf, child_at, checkBounds.
  rewrite Hp, (deref_eq _ _ _ Hn), Hn. rsimpl.
  destruct (i <? 0) eqn:E1; [done|]. apply Z.ltb_ge in E1.
  rewrite Z.gtb_ltb. simpl.
  destruct (len (children (node_of o)) <? i) eqn:E2.
  - apply Z.ltb_lt in E2. rsimpl.
    rewrite lookup_ge_None_2; [done|]. unfold len in E2. lia.
  - apply Z.ltb_ge in E2.
    assert (Hlt : (Z.to_nat i < length (children (node_of o)))%nat) by (unfold len in *; lia).
    destruct (lookup_lt_is_Some_2 _ _ Hlt) as [c Hc].
    assert (Hidx : index (children (node_of o)) i = Ok c).
    { apply index_Ok. split; [unfold len in *; lia|done]. }
    rewrite Hidx, Hc. rsimpl. destruct c; done.
Qed.

(** ** The invariant *)

(** ** Reading the order list *)

Lemma linked_cons h x r : linked h (x :: r) -> linked h r.
Proof. destruct r as [|y r]; simpl; [done|]. by intros [_ H]. Qed.

Lemma linked_app_r h l1 l2 : linked h (l1 ++ l2) -> linked h l2.
Proof. induction l1 as [|x l1 IH]; [done|]. intros H. apply IH. eapply linked_cons, H. Qed.

Lemma linked_link h l1 x y l2 : linked h (l1 ++ x :: y :: l2) -> link h x y.
Proof. intros H. apply linked_app_r in H. by destruct H. Qed.

Lemma leaf_cell_lookup h l s :
  leaf_cell h l s ->
  exists lf, h !! l = Some (OLeaf lf) /\ element (Node lf) = Some s /\
             isHead lf = false /\ isTail lf = false.
Proof. intros (lf & H1 & H2 & _ & _ & _ & H3 & H4). eauto. Qed.

(** An iterator on the head or on a linked leaf steps to the next cell and
    leaves the store as it is. *)
Lemma advance_link fuel h x y xl :
  link h x y -> h !! x = Some (OLeaf xl) -> isTail xl = false ->
  (isHead xl = true \/ previous xl <> None) ->
  exists yl, h !! y = Some (OLeaf yl) /\
             advance fuel h (Some x) = Ok (h, Some y, negb (isTail yl)).
Proof.
  intros (xl' & yl & Hx & Hy & Hn & _) Hx' Ht Hlive.
  rewrite Hx in Hx'. injection Hx' as ->.
  exists yl. split; [done|]. unfold advance.
  rewrite (IsTail_eq _ _ _ Hx), (IsHead_eq _ _ _ Hx). rsimpl. rewrite Ht.
  destruct (isHead xl) eqn:E; simpl.
  - rewrite (Next_eq _ _ _ Hx), Hn. rsimpl. by rewrite (IsTail_eq _ _ _ Hy).
  - rewrite (IsDeleted_eq _ _ _ Hx). destruct Hlive as [|Hp]; [done|].
    destruct (previous xl); [|done]. rsimpl.
    rewrite (Next_eq _ _ _ Hx), Hn. rsimpl. by rewrite (IsTail_eq _ _ _ Hy).
Qed.

Lemma iterator_get_leaf h l lf s :
  h !! l = Some (OLeaf lf) -> element (Node lf) = Some s ->
  isHead lf = false -> isTail lf = false -> previous lf <> None ->
  iterator_get h (Some l) = Ok (Some s).
Proof.
  intros Hl He Hh Ht Hp. unfold iterator_get, inCollection.
  rewrite (IsHead_eq _ _ _ Hl), (IsTail_eq _ _ _ Hl), (IsDeleted_eq _ _ _ Hl).
  rsimpl. rewrite Hh, Ht. rsimpl. destruct (previous lf); [|done]. rsimpl.
  by rewrite (Value_eq _ _ _ Hl), <- He.
Qed.

(** A leaf that follows a cell of the list has its [previous] link set. *)
Lemma link_leaf h x y s :
  link h x y -> leaf_cell h y s ->
  exists yl, h !! y = Some (OLeaf yl) /\ element (Node yl) = Some s /\
             isHead yl = false /\ isTail yl = false /\ previous yl = Some x.
Proof.
  intros (xl & yl & Hx & Hy & Hn & Hp) (yl' & Hy' & He & _ & _ & _ & Hh & Ht).
  rewrite Hy in Hy'. injection Hy' as <-. exists yl.
  destruct Hp as [Hp|[_ Hp]]; [done|congruence].
Qed.

Lemma Values_loop_spec fuel0 h tl rest :
  forall x xl acc fuel,
    h !! x = Some (OLeaf xl) -> isTail xl = false ->
    (isHead xl = true \/ previous xl <> None) ->
    (exists tll, h !! tl = Some (OLeaf tll) /\ isTail tll = true) ->
    linked h (x :: rest.*1 ++ [tl]) ->
    Forall (fun e => leaf_cell h e.1 e.2) rest ->
    (length rest < fuel)%nat ->
    Values_loop fuel0 fuel h (Some x) acc = Ok (h, acc ++ (Some ∘ snd <$> rest)).
Proof.
  induction rest as [|[l s] rest IH]; intros x xl acc fuel Hx Ht Hlive Htl Hlk Hlv Hfuel;
    (destruct fuel as [|fuel]; [simpl in Hfuel; lia|]); simpl.
  - destruct Hlk as [Hlk _].
    destruct (advance_link fuel0 _ _ _ _ Hlk Hx Ht Hlive) as (yl & Hy & ->).
    destruct Htl as (tll & Htl & Htt). rewrite Htl in Hy. injection Hy as <-.
    rewrite Htt. rsimpl. by rewrite app_nil_r.
  - destruct Hlk as [Hlk Hrest]. apply Forall_cons in Hlv as [Hl Hlv]. simpl in Hl.
    destruct (link_leaf _ _ _ _ Hlk Hl) as (ll & Hll & He & Hlh & Hlt & Hlp).
    destruct (advance_link fuel0 _ _ _ _ Hlk Hx Ht Hlive) as (yl & Hy & ->).
    rewrite Hll in Hy. injection Hy as <-. rewrite Hlt. rsimpl.
    rewrite (iterator_get_leaf _ _ _ _ Hll He Hlh Hlt) by congruence. rsimpl.
    rewrite (IH l ll (acc ++ [Some s]) fuel); try done.
    + by rewrite <- app_assoc.
    + right. congruence.
    + simpl in Hfuel. lia.
Qed.

Lemma advance_times_spec fuel h tl rest :
  forall x xl n,
    h !! x = Some (OLeaf xl) -> isTail xl = false ->
    (isHead xl = true \/ previous xl <> None) ->
    linked h (x :: rest.*1 ++ [tl]) ->
    Forall (fun e => leaf_cell h e.1 e.2) rest ->
    (n <= length rest)%nat ->
    advance_times n fuel h (Some x) = Ok (h, (x :: rest.*1) !! n).
Proof.
  induction rest as [|[l s] rest IH]; intros x xl n Hx Ht Hlive Hlk Hlv Hn.
  - destruct n; [done|simpl in Hn; lia].
  - destruct n as [|n]; [done|]. simpl.
    destruct Hlk as [Hlk Hrest]. apply Forall_cons in Hlv as [Hl Hlv]. simpl in Hl.
    destruct (link_leaf _ _ _ _ Hlk Hl) as (ll & Hll & He & Hlh & Hlt & Hlp).
    destruct (advance_link fuel _ _ _ _ Hlk Hx Ht Hlive) as (yl & Hy & ->). rsimpl.
    apply (IH l ll n); try done.
    + right. congruence.
    + simpl in Hn. lia.
Qed.

Lemma head_live a h hd tl L :
  list_ok a h hd tl L ->
  exists hl, h !! hd = Some (OLeaf hl) /\ isTail hl = false /\
             (isHead hl = true \/ previous hl <> None).
Proof. intros [(hl & H1 & H2 & H3) _ _ _ _ _]. exists hl. auto. Qed.

Lemma list_leaf_cells a h hd tl L :
  list_ok a h hd tl L -> Forall (fun e => leaf_cell h e.1 e.2) L.
Proof. intros H. eapply Forall_impl; [apply (list_leaves _ _ _ _ _ H)|]. by intros x [? _]. Qed.

Lemma Values_inv a h t L fuel :
  trie_inv a h t L -> (length L < fuel)%nat ->
  Values fuel h t = Ok (h, Some ∘ snd <$> L).
Proof.
  intros Hinv Hfuel. destruct (inv_list _ _ _ _ Hinv) as (hd & tl & Hhd & Htl & Hok).
  destruct (head_live _ _ _ _ _ Hok) as (hl & Hh & Ht & Hlive).
  unfold Values. rewrite Hhd.
  rewrite (Values_loop_spec fuel h tl L hd hl [] fuel); try done.
  - destruct (list_tail _ _ _ _ _ Hok) as (tll & ? & ? & ?). eauto.
  - apply (list_linked _ _ _ _ _ Hok).
  - eapply list_leaf_cells, Hok.
Qed.

Lemma IsEmpty_inv a h t L : trie_inv a h t L -> IsEmpty t = bool_decide (L = []).
Proof.
  intros Hinv. unfold IsEmpty, Size. rewrite (inv_size _ _ _ _ Hinv).
  destruct L; [done|]. rewrite bool_decide_false by done.
  apply Z.eqb_neq. unfold len. simpl length. lia.
Qed.

Lemma Min_inv a h t L :
  trie_inv a h t L -> Min h t = Ok (snd <$> L !! 0%nat).
Proof.
  intros Hinv. unfold Min. rewrite (IsEmpty_inv _ _ _ _ Hinv).
  destruct L as [|[l s] L]; [done|]. simpl.
  destruct (inv_list _ _ _ _ Hinv) as (hd & tl & Hhd & Htl & Hok).
  pose proof (list_linked _ _ _ _ _ Hok) as [Hlk _].
  pose proof (list_leaves _ _ _ _ _ Hok) as Hlv. apply Forall_cons in Hlv as [[Hl _] _].
  destruct (link_leaf _ _ _ _ Hlk Hl) as (ll & Hll & He & _).
  destruct Hlk as (xl & yl & Hx & Hy & Hn & _).
  rewrite Hhd, (Next_eq _ _ _ Hx), Hn. rsimpl. by rewrite (Value_eq _ _ _ Hll), <- He.
Qed.

Lemma Max_inv a h t L :
  trie_inv a h t L -> Max h t = Ok (snd <$> last L).
Proof.
  intros Hinv. unfold Max. rewrite (IsEmpty_inv _ _ _ _ Hinv).
  destruct (inv_list _ _ _ _ Hinv) as (hd & tl & Hhd & Htl & Hok).
  destruct L as [|x L0] using rev_ind; [done|]. clear IHL0.
  rewrite last_snoc. rewrite bool_decide_false by (by destruct L0). simpl.
  pose proof (list_linked _ _ _ _ _ Hok) as Hlk.
  rewrite fmap_app in Hlk. simpl in Hlk.
  rewrite <- app_assoc in Hlk. simpl in Hlk.
  apply (linked_link h (hd :: L0.*1)) in Hlk.
  pose proof (list_leaves _ _ _ _ _ Hok) as Hlv. apply Forall_app in Hlv as [_ Hlv].
  apply Forall_cons in Hlv as [[Hl _] _].
  destruct Hl as (lf & Hlf & He & _ & _ & _ & Hlh & _).
  destruct Hlk as (xl & yl & Hx & Hy & Hn & Hp).
  rewrite Hlf in Hx. injection Hx as <-.
  destruct Hp as [Hp|[Hp _]]; [|congruence].
  rewrite Htl, (Previous_eq _ _ _ Hy), Hp. rsimpl. by rewrite (Value_eq _ _ _ Hlf), <- He.
Qed.

Lemma ValueWithIndex_inv a h t L fuel i :
  trie_inv a h t L ->
  ValueWithIndex fuel h t i =
  if (i <? 0) || (i >=? len L) then Ok (h, None, Some (TrieIndexOutOfBounds i))
  else Ok (h, snd <$> L !! Z.to_nat i, None).
Proof.
  intros Hinv. unfold ValueWithIndex, trie_checkBounds, Size.
  rewrite (inv_size _ _ _ _ Hinv).
  destruct ((i <? 0) || (i >=? len L)) eqn:E; [done|].
  apply orb_false_iff in E as [E1 E2]. apply Z.ltb_ge in E1.
  rewrite Z.geb_leb in E2. apply Z.leb_gt in E2. unfold len in E2.
  destruct (inv_list _ _ _ _ Hinv) as (hd & tl & Hhd & Htl & Hok).
  destruct (head_live _ _ _ _ _ Hok) as (hl & Hh & Ht & Hlive).
  rewrite Hhd.
  rewrite (advance_times_spec fuel h tl L hd hl (Z.to_nat (i + 1))); try done.
  - rsimpl. replace (Z.to_nat (i + 1)) with (S (Z.to_nat i)) by lia. simpl.
    destruct (lookup_lt_is_Some_2 L (Z.to_nat i)) as [[l s] Hls]; [lia|].
    rewrite list_lookup_fmap, Hls. simpl.
    pose proof (list_leaves _ _ _ _ _ Hok) as Hlv.
    pose proof (Forall_lookup_1 _ _ _ _ Hlv Hls) as [Hl _]. simpl in Hl.
    assert (Hlk : exists x, link h x l).
    { pose proof (list_linked _ _ _ _ _ Hok) as Hlk.
      apply list_elem_of_split_length in Hls as (l1 & l2 & -> & _).
      rewrite fmap_app in Hlk. simpl in Hlk.
      destruct l1 as [|y l1] using rev_ind.
      - exists hd. by destruct Hlk.
      - exists y.1. rewrite fmap_app, <- !app_assoc in Hlk. simpl in Hlk.
        apply (linked_link h (hd :: l1.*1)) in Hlk. done. }
    destruct Hlk as [x Hlk].
    destruct (link_leaf _ _ _ _ Hlk Hl) as (ll & Hll & He & Hlh & Hlt & Hlp).
    rewrite (iterator_get_leaf _ _ _ _ Hll He Hlh Hlt) by congruence. done.
  - apply (list_linked _ _ _ _ _ Hok).
  - eapply list_leaf_cells, Hok.
  - lia.
Qed.

(** ** Searching *)

Lemma take_S_digit (ds : list Z) k :
  (k < length ds)%nat -> take (S k) ds = take k ds ++ [digit_at ds k].
Proof.
  intros Hk. destruct (lookup_lt_is_Some_2 ds k Hk) as [d Hd].
  rewrite (take_S_r _ _ _ Hd). unfold digit_at. by rewrite Hd.
Qed.

Lemma tree_cell a h r L P p n :
  tree_ok a h r L P -> walk h r p = Some n -> exists o, h !! n = Some o.
Proof.
  intros Hok Hw. pose proof (tree_nodes _ _ _ _ _ Hok _ _ Hw) as Hn.
  unfold node_ok in Hn. destruct (h !! n); [eauto|done].
Qed.

Lemma tree_node_children a h r L P p n nd :
  tree_ok a h r L P -> walk h r p = Some n -> h !! n = Some (ONode nd) ->
  len (children nd) = a + 1.
Proof.
  intros Hok Hw Hn. pose proof (tree_nodes _ _ _ _ _ Hok _ _ Hw) as H.
  unfold node_ok in H. rewrite Hn in H. tauto.
Qed.

Lemma find_loop_spec a h r L P e :
  tree_ok a h r L P -> 0 <= a -> in_alphabet a e = true ->
  forall fuel k n s,
    pointer s = Some n -> branchPosition s = Z.of_nat k ->
    sdigitizer s = NewStringDigitizer a ->
    walk h r (take k (digits e)) = Some n ->
    (k <= length (digits e))%nat ->
    (length (digits e) - k < fuel)%nat ->
    exists res s1 k1 n1,
      find_loop fuel h e (len (digits e)) s = Ok (res, s1) /\
      pointer s1 = Some n1 /\ branchPosition s1 = Z.of_nat k1 /\
      sdigitizer s1 = NewStringDigitizer a /\
      (k1 <= length (digits e))%nat /\
      walk h r (take k1 (digits e)) = Some n1 /\
      ((res = None /\ exists lf, h !! n1 = Some (OLeaf lf)) \/
       (res = Some Prefix /\ k1 = length (digits e) /\ exists nd, h !! n1 = Some (ONode nd)) \/
       (res = Some Unmatched /\ (k1 < length (digits e))%nat /\
        (exists nd, h !! n1 = Some (ONode nd)) /\
        child_at h n1 (digit_at (digits e) k1) = None)).
Proof.
  intros Hok Ha He. induction fuel as [|fuel IH]; intros k n s Hp Hb Hd Hw Hk Hfuel; [lia|].
  destruct (tree_cell _ _ _ _ _ _ _ Hok Hw) as [o Ho].
  simpl. rewrite Hp. simpl.
  destruct o as [nd|lf].
  - rewrite (atLeaf_node _ _ _ _ Hp Ho). simpl. rewrite Hb.
    destruct (Z.of_nat k =? len (digits e)) eqn:E.
    + apply Z.eqb_eq in E. unfold len in E.
      exists (Some Prefix), s, k, n. repeat split; try done.
      right; left. repeat split; [lia|eauto].
    + apply Z.eqb_neq in E. unfold len in E.
      assert (Hk' : (k < length (digits e))%nat) by lia.
      unfold descendTo. rewrite Hd, Hb, DigitOf_digits. rsimpl.
      pose proof (tree_node_children _ _ _ _ _ _ _ _ Hok Hw Ho) as Hlen.
      pose proof (digits_range a e k He Ha) as Hrange.
      rewrite (descendToIndex_spec h s n (ONode nd)); [|done|done|simpl; lia].
      destruct (child_at h n (digit_at (digits e) k)) as [c|] eqn:Hc; rsimpl.
      * replace (digit_at (digits e) k =? childNotFound) with false
          by (symmetry; apply Z.eqb_neq; unfold childNotFound; lia).
        apply (IH (S k) c); rsimpl; try done; try lia.
        rewrite take_S_digit by done. rewrite walk_snoc, Hw. done.
      * rewrite Z.eqb_refl.
        exists (Some Unmatched), s, k, n. repeat split; try done.
        right; right. repeat split; eauto.
  - rewrite (atLeaf_leaf _ _ _ _ Hp Ho). simpl.
    exists None, s, k, n. repeat split; try done. left. eauto.
Qed.

Lemma digits_nonempty s : digits s <> [].
Proof. unfold digits. by destruct (map letter_digit (bytes s)). Qed.

Lemma digits_length_pos s : (0 < length (digits s))%nat.
Proof. pose proof (digits_nonempty s). destruct (digits s); [done|simpl; lia]. Qed.

Lemma strict_prefix_prefix p q : strict_prefix p q -> p `prefix_of` q.
Proof. intros (d & r & ->). by eexists. Qed.

Lemma strict_prefix_length p q : strict_prefix p q -> (length p < length q)%nat.
Proof. intros (d & r & ->). rewrite length_app. simpl. lia. Qed.

Lemma list_in_alphabet a h hd tl L x :
  list_ok a h hd tl L -> x ∈ L -> in_alphabet a x.2 = true.
Proof.
  intros Hok Hx. pose proof (list_leaves _ _ _ _ _ Hok) as H.
  rewrite Forall_forall in H. by apply H.
Qed.

Lemma list_leaf_cell a h hd tl L x :
  list_ok a h hd tl L -> x ∈ L -> leaf_cell h x.1 x.2.
Proof.
  intros Hok Hx. pose proof (list_leaves _ _ _ _ _ Hok) as H.
  rewrite Forall_forall in H. by apply H.
Qed.

Lemma tree_root_node a h r L P :
  tree_ok a h r L P -> exists nd, h !! r = Some (ONode nd).
Proof.
  intros Hok. pose proof (tree_nodes _ _ _ _ _ Hok [] r eq_refl) as H.
  unfold node_ok in H. destruct (h !! r) as [[nd|lf]|]; [eauto| |done].
  destruct H as (s & _ & Hs). by destruct (digits_nonempty s).
Qed.

Lemma tree_empty_root a h r d : tree_ok a h r [] [] -> child_at h r d = None.
Proof.
  intros Hok. destruct (child_at h r d) as [c|] eqn:E; [|done]. exfalso.
  assert (Hw : walk h r [d] = Some c) by (simpl; by rewrite E).
  pose proof (tree_nodes _ _ _ _ _ Hok _ _ Hw) as H. unfold node_ok in H.
  destruct (h !! c) as [[nd|lf]|]; [| |done].
  - destruct H as (_ & _ & _ & [H|(q & Hq & _)]); [done|]. by apply elem_of_nil in Hq.
  - destruct H as (s & Hs & _). by apply elem_of_nil in Hs.
Qed.

Lemma find_spec a h t L e fuel :
  trie_inv a h t L -> in_alphabet a e = true -> (length (digits e) < fuel)%nat ->
  (exists l s0 s, find fuel h t e = Ok (Matched, s) /\
                  (l, s0) ∈ L /\ digits s0 = digits e /\ pointer s = Some l /\
                  branchPosition s = Z.of_nat (length (digits e)) /\
                  sdigitizer s = NewStringDigitizer a) \/
  (exists s, find fuel h t e = Ok (Unmatched, s) /\ at_gap a h t e s /\
             forall x, x ∈ L -> key x <> digits e).
Proof.
  intros Hinv He Hfuel.
  destruct (inv_list _ _ _ _ Hinv) as (hd & tl & Hhd & Htl & Hlist).
  pose proof (inv_tree _ _ _ _ Hinv) as Htree.
  pose proof (inv_alphabet _ _ _ _ Hinv) as Ha.
  unfold find. rewrite (IsEmpty_inv _ _ _ _ Hinv).
  destruct (decide (L = [])) as [->|Hne].
  - rewrite bool_decide_true by done. right. exists (prepareSearch t).
    split; [done|]. split; [|by intros x Hx%elem_of_nil].
    split; [apply (inv_digitizer _ _ _ _ Hinv)|].
    exists 0%nat. split; [done|]. split; [apply digits_length_pos|].
    simpl. destruct (root t) as [r|]; [|done].
    destruct (tree_root_node _ _ _ _ _ Htree) as [nd Hnd].
    exists r, nd. repeat split; try done. eapply tree_empty_root, Htree.
  - rewrite bool_decide_false by done.
    destruct (root t) as [r|] eqn:Hr; [|done].
    rewrite (inv_digitizer _ _ _ _ Hinv), NumDigitsOf_digits.
    destruct (find_loop_spec a h r L _ e Htree Ha He fuel 0 r (prepareSearch t))
      as (res & s1 & k1 & n1 & -> & Hp & Hb & Hd & Hk & Hw & Hcase);
      [done|done|apply (inv_digitizer _ _ _ _ Hinv)|done|lia|lia|].
    rsimpl. pose proof (tree_nodes _ _ _ _ _ Htree _ _ Hw) as Hn. unfold node_ok in Hn.
    destruct Hcase as [[-> [lf Hlf]]|[(-> & -> & [nd Hnd])|(-> & Hlt & [nd Hnd] & Hc)]].
    + rewrite Hlf in Hn. destruct Hn as (s0 & Hs0 & Hts).
      assert (Heq : digits s0 = digits e).
      { eapply digits_prefix_free; [|done|].
        - apply (list_in_alphabet _ _ _ _ _ _ Hlist Hs0).
        - rewrite <- Hts. apply prefix_take. }
      assert (k1 = length (digits e)).
      { apply (f_equal length) in Hts. rewrite Heq, length_take in Hts. lia. }
      subst k1. rewrite Hp, Hb. simpl.
      replace (Z.of_nat (length (digits e)) =? len (digits e)) with true
        by (symmetry; apply Z.eqb_eq; done).
      simpl. left. eauto 10.
    + exfalso. rewrite Hnd in Hn. destruct Hn as (_ & _ & _ & [Hn|(q & Hq & Hpre)]).
      * rewrite firstn_all in Hn. by apply digits_nonempty in Hn.
      * rewrite firstn_all in Hpre. apply list_elem_of_fmap in Hq as (x & -> & Hx).
        pose proof (strict_prefix_length _ _ Hpre) as Hl.
        assert (Heq : digits e = key x).
        { eapply digits_prefix_free; [done| |by apply strict_prefix_prefix].
          apply (list_in_alphabet _ _ _ _ _ _ Hlist Hx). }
        rewrite Heq in Hl. lia.
    + right. exists s1. split; [done|]. split.
      * split; [done|]. exists k1. rewrite Hr. eauto 10.
      * intros [l s0] Hx Hkey. unfold key in Hkey. simpl in Hkey.
        pose proof (tree_stored _ _ _ _ _ Htree _ _ Hx) as Hws. rewrite Hkey in Hws.
        rewrite <- (take_drop (S k1) (digits e)) in Hws.
        apply walk_prefix in Hws as [m Hm].
        rewrite take_S_digit, walk_snoc, Hw, Hc in Hm by done. done.
Qed.

(** ** Frames: changes that the tree does not see *)

Lemma tree_ok_frame a h h' r L P :
  tree_ok a h r L P ->
  (forall p n o, walk h r p = Some n -> h !! n = Some o ->
     exists o', h' !! n = Some o' /\ same_node o o') ->
  tree_ok a h' r L P /\ forall p, walk h' r p = walk h r p.
Proof.
  intros Hok Hsame.
  assert (Hw : forall p, walk h' r p = walk h r p).
  { apply walk_frame. intros q n Hq.
    destruct (tree_cell _ _ _ _ _ _ _ Hok Hq) as [o Ho].
    destruct (Hsame _ _ _ Hq Ho) as (o' & Ho' & Hn & _).
    rewrite Ho, Ho'. simpl. by rewrite Hn. }
  split; [|done]. split.
  - intros l s Hl. rewrite Hw. by apply (tree_stored _ _ _ _ _ Hok).
  - intros p n Hp. rewrite Hw in Hp.
    pose proof (tree_nodes _ _ _ _ _ Hok _ _ Hp) as Hn. unfold node_ok in *.
    destruct (h !! n) as [o|] eqn:Ho; [|done].
    destruct (Hsame _ _ _ Hp Ho) as (o' & -> & Hnode & Hkind).
    destruct o as [nd|lf], o' as [nd'|lf']; try done. simpl in Hnode. by subst.
  - intros p d n Hp. rewrite Hw in Hp. rewrite Hw.
    destruct (tree_parent _ _ _ _ _ Hok _ _ _ Hp) as (o & m & Ho & Hpar & Hm).
    destruct (Hsame _ _ _ Hp Ho) as (o' & Ho' & Hnode & _).
    exists o', m. by rewrite <- Hnode.
  - destruct (tree_root _ _ _ _ _ Hok) as (o & Ho & Hpar).
    destruct (Hsame [] r o eq_refl Ho) as (o' & Ho' & Hnode & _).
    exists o'. by rewrite <- Hnode.
  - intros p q n Hp Hq. rewrite Hw in Hp, Hq. by eapply (tree_inj _ _ _ _ _ Hok).
Qed.

Lemma same_node_refl o : same_node o o.
Proof. by destruct o. Qed.

Lemma tree_ok_alloc a h r L P o :
  tree_ok a h r L P ->
  tree_ok a (h ++ [o]) r L P /\ forall p, walk (h ++ [o]) r p <> Some (length h).
Proof.
  intros Hok.
  destruct (tree_ok_frame a h (h ++ [o]) r L P Hok) as [Hok' Hw].
  { intros p n o1 _ Ho. exists o1. split; [|apply same_node_refl].
    rewrite lookup_app_l; [done|]. by eapply lookup_lt_Some. }
  split; [done|]. intros p Hp. rewrite Hw in Hp.
  destruct (tree_cell _ _ _ _ _ _ _ Hok Hp) as [o1 Ho1].
  apply lookup_lt_Some in Ho1. lia.
Qed.

(** ** Attaching a fresh child *)

Lemma attach_lookup_other h cur nd d c co x :
  x <> c -> x <> cur -> attach h cur nd d c co !! x = h !! x.
Proof. intros H1 H2. unfold attach. by rewrite !list_lookup_insert_ne. Qed.

Lemma attach_length h cur nd d c co : length (attach h cur nd d c co) = length h.
Proof. unfold attach. by rewrite !length_insert. Qed.

Section Attach.
Context {a : Z} {h : heap} {r : nat} {L : list (nat * string)} {P : list (list Z)}.
Context {pc : list Z} {cur : nat} {nd : node} {d : Z} {c : nat} {co : object}.
Hypothesis Hatt : attachable a h r L P pc cur nd d c co.

Let Hok := att_ok _ _ _ _ _ _ _ _ _ _ _ Hatt.
Let Hpc := att_pc _ _ _ _ _ _ _ _ _ _ _ Hatt.
Let Hcur := att_cur _ _ _ _ _ _ _ _ _ _ _ Hatt.
Let Hgap := att_gap _ _ _ _ _ _ _ _ _ _ _ Hatt.
Let Hd := att_d _ _ _ _ _ _ _ _ _ _ _ Hatt.
Let Hc := att_c _ _ _ _ _ _ _ _ _ _ _ Hatt.
Let Hfresh := att_fresh _ _ _ _ _ _ _ _ _ _ _ Hatt.
Let Hchildless := att_childless _ _ _ _ _ _ _ _ _ _ _ Hatt.

Local Abbreviation h' := (attach h cur nd d c co).

Lemma attach_ne : c <> cur.
Proof. intros E. apply (Hfresh pc). congruence. Qed.

Lemma attach_len : len (children nd) = a + 1.
Proof. eapply tree_node_children; eauto. Qed.

Lemma attach_slot : children nd !! Z.to_nat d = Some None.
Proof.
  pose proof attach_len as Hlen. unfold len in Hlen.
  destruct (lookup_lt_is_Some_2 (children nd) (Z.to_nat d)) as [x Hx]; [lia|].
  destruct x as [y|]; [|done].
  assert (child_at h cur d = Some y) by (apply child_at_Some; exists (ONode nd); split; [done|split; [lia|done]]).
  congruence.
Qed.

Lemma attach_lookup_c : h' !! c = Some (map_node (set_parent (Some cur)) co).
Proof.
  unfold attach. rewrite list_lookup_insert_eq; [done|].
  rewrite length_insert. by eapply lookup_lt_Some.
Qed.

Lemma attach_lookup_cur :
  h' !! cur = Some (ONode (set_children (<[Z.to_nat d := Some c]> (children nd))
                                        (numChildren nd + 1) nd)).
Proof.
  unfold attach. rewrite list_lookup_insert_ne by apply attach_ne.
  rewrite list_lookup_insert_eq; [done|]. by eapply lookup_lt_Some.
Qed.

Lemma attach_AddChildWithIndexOf :
  AddChildWithIndexOf h (Some cur) d (Some c) = Ok (None, h').
Proof.
  pose proof attach_len as Hlen. pose proof attach_slot as Hslot.
  unfold AddChildWithIndexOf. rewrite (deref_eq _ _ _ Hcur). rsimpl.
  replace (d <? 0) with false by (symmetry; apply Z.ltb_ge; lia).
  rewrite Z.geb_leb.
  replace (len (children nd) <=? d) with false by (symmetry; apply Z.leb_gt; lia).
  simpl.
  assert (Hidx : index (children nd) d = Ok None).
  { apply index_Ok. split; [lia|done]. }
  rewrite Hidx. rsimpl. rewrite Hcur. rsimpl.
  rewrite list_lookup_insert_ne by (intros E; by apply attach_ne).
  by rewrite Hc.
Qed.

Lemma attach_child_c x : child_at h' c x = None.
Proof.
  unfold child_at. rewrite attach_lookup_c.
  destruct (x <? 0); [done|].
  assert (Hch : children (node_of (map_node (set_parent (Some cur)) co)) = children (node_of co))
    by (by destruct co).
  rewrite Hch. destruct (children (node_of co) !! Z.to_nat x) as [y|] eqn:E; [|done].
  simpl. by apply Hchildless in E.
Qed.

Lemma attach_child_cur x :
  child_at h' cur x = if decide (x = d) then Some c else child_at h cur x.
Proof.
  unfold child_at. rewrite attach_lookup_cur, Hcur. rsimpl.
  pose proof attach_slot as Hslot. apply lookup_lt_Some in Hslot.
  destruct (decide (x = d)) as [->|Hne].
  - replace (d <? 0) with false by (symmetry; apply Z.ltb_ge; lia).
    by rewrite list_lookup_insert_eq.
  - destruct (x <? 0) eqn:E; [done|]. apply Z.ltb_ge in E.
    rewrite list_lookup_insert_ne; [done|]. lia.
Qed.

Lemma attach_child_other m x : m <> c -> m <> cur -> child_at h' m x = child_at h m x.
Proof. intros H1 H2. unfold child_at. by rewrite attach_lookup_other. Qed.

Lemma attach_walk_old q :
  ~ (pc ++ [d]) `prefix_of` q -> walk h' r q = walk h r q.
Proof.
  induction q as [|x q IH] using rev_ind; intros Hq; [done|].
  rewrite !walk_snoc, IH by (intros Hp; apply Hq; by apply prefix_app_r).
  destruct (walk h r q) as [m|] eqn:Hm; [|done].
  destruct (decide (m = cur)) as [->|Hne].
  - assert (q = pc) as -> by (eapply (tree_inj _ _ _ _ _ Hok); eauto).
    rewrite attach_child_cur. destruct (decide (x = d)) as [->|]; [|done].
    by destruct Hq.
  - apply attach_child_other; [|done]. intros E. apply (Hfresh q). congruence.
Qed.

Lemma attach_walk_new : walk h' r (pc ++ [d]) = Some c.
Proof.
  rewrite walk_snoc, attach_walk_old by apply prefix_snoc_not.
  rewrite Hpc, attach_child_cur. by destruct (decide (d = d)).
Qed.

Lemma attach_walk_below q : strict_prefix (pc ++ [d]) q -> walk h' r q = None.
Proof.
  intros (x & k & ->). rewrite walk_app, attach_walk_new. simpl.
  by rewrite attach_child_c.
Qed.

Lemma attach_walk_Some q n :
  walk h' r q = Some n ->
  (q = pc ++ [d] /\ n = c) \/ (~ (pc ++ [d]) `prefix_of` q /\ walk h r q = Some n).
Proof.
  intros Hq. destruct (decide ((pc ++ [d]) `prefix_of` q)) as [[k ->]|Hn].
  - destruct k as [|x k].
    + rewrite app_nil_r in *. rewrite attach_walk_new in Hq. left. split; congruence.
    + rewrite attach_walk_below in Hq by (by exists x, k). done.
  - right. split; [done|]. by rewrite <- attach_walk_old.
Qed.

Lemma attach_fresh_preserved x :
  x <> c -> (forall p, walk h r p <> Some x) -> forall p, walk h' r p <> Some x.
Proof.
  intros Hx Hu p Hp. apply attach_walk_Some in Hp as [[_ ->]|[_ Hp]]; [done|].
  by apply (Hu p).
Qed.

Lemma attach_tree_ok L' :
  (forall x, x ∈ L -> x ∈ L') ->
  (forall l s, (l, s) ∈ L' -> (l, s) ∈ L \/ (l = c /\ digits s = pc ++ [d])) ->
  node_ok a h' L' P (pc ++ [d]) c ->
  tree_ok a h' r L' P.
Proof.
  intros Hsub Hnew Hcn. split.
  - intros l s Hl. destruct (Hnew _ _ Hl) as [Hold|[-> ->]]; [|apply attach_walk_new].
    pose proof (tree_stored _ _ _ _ _ Hok _ _ Hold) as Hw.
    rewrite attach_walk_old; [done|]. intros [k Hk]. rewrite Hk in Hw.
    apply walk_prefix in Hw as [m Hm].
    rewrite walk_snoc, Hpc, Hgap in Hm. done.
  - intros q n Hq. apply attach_walk_Some in Hq as [[-> ->]|[Hnp Hq]]; [done|].
    pose proof (tree_nodes _ _ _ _ _ Hok _ _ Hq) as Hn. unfold node_ok in *.
    assert (n <> c) by (intros E; apply (Hfresh q); congruence).
    destruct (decide (n = cur)) as [->|Hne].
    + rewrite attach_lookup_cur. rewrite Hcur in Hn. rsimpl.
      destruct Hn as (H1 & H2 & H3 & H4). unfold len in *.
      rewrite length_insert, (occupied_fill _ _ _ attach_slot). repeat split; try tauto; lia.
    + rewrite attach_lookup_other by done.
      destruct (h !! n) as [[nd1|lf1]|]; try done.
      destruct Hn as (s & Hs & ->). eauto.
  - intros p x n Hp. apply attach_walk_Some in Hp as [[Heq ->]|[Hnp Hp]].
    + apply app_inj_tail in Heq as [-> ->].
      exists (map_node (set_parent (Some cur)) co), cur. split; [apply attach_lookup_c|].
      split; [by destruct co|]. rewrite attach_walk_old by apply prefix_snoc_not. done.
    + destruct (tree_parent _ _ _ _ _ Hok _ _ _ Hp) as (o & m & Ho & Hpar & Hm).
      assert (n <> c) by (intros E; apply (Hfresh (p ++ [x])); congruence).
      assert (Hwp : walk h' r p = Some m).
      { rewrite attach_walk_old; [done|]. intros Hpre. apply Hnp. by apply prefix_app_r. }
      destruct (decide (n = cur)) as [->|Hne].
      * eexists _, m. split; [apply attach_lookup_cur|]. split; [|done].
        rewrite Hcur in Ho. injection Ho as <-. done.
      * exists o, m. by rewrite attach_lookup_other.
  - destruct (tree_root _ _ _ _ _ Hok) as (o & Ho & Hpar).
    assert (r <> c) by (intros E; apply (Hfresh []); simpl; congruence).
    destruct (decide (r = cur)) as [E|Hne].
    + eexists. split; [rewrite E; apply attach_lookup_cur|].
      rewrite E, Hcur in Ho. injection Ho as <-. done.
    + exists o. by rewrite attach_lookup_other.
  - intros p q n Hp Hq.
    apply attach_walk_Some in Hp as [[-> ->]|[_ Hp]], Hq as [[-> Hn]|[_ Hq]]; try done.
    + by destruct (Hfresh q).
    + destruct (Hfresh p). congruence.
    + by eapply (tree_inj _ _ _ _ _ Hok).
Qed.
End Attach.

(** ** Growing the path of a new element *)

Lemma newNode_inner a :
  0 <= a -> newNode (a + 1) = mkNode None (replicate (Z.to_nat (a + 1)) None) 0 None false.
Proof. intros Ha. unfold newNode. destruct (a + 1 <=? 0) eqn:E; [lia|done]. Qed.

Lemma replicate_None_lookup (n i : nat) (x : option nat) :
  replicate n (@None nat) !! i = Some x -> x = None.
Proof. intros H. apply lookup_replicate in H. tauto. Qed.

Lemma take_strict_prefix (ds : list Z) k : (k < length ds)%nat -> strict_prefix (take k ds) ds.
Proof.
  intros Hk. destruct (drop k ds) as [|d rest] eqn:E.
  - apply (f_equal length) in E. rewrite length_drop in E. simpl in E. lia.
  - exists d, rest. by rewrite <- E, take_drop.
Qed.

Lemma lookup_alloc_old (h : heap) (o o1 : object) x : h !! x = Some o1 -> (h ++ [o]) !! x = Some o1.
Proof. intros H. rewrite lookup_app_l; [done|]. by eapply lookup_lt_Some. Qed.

Lemma lookup_alloc_new (h : heap) (o : object) : (h ++ [o]) !! length h = Some o.
Proof. rewrite lookup_app_r by lia. by rewrite Nat.sub_diag. Qed.

Lemma walk_alloc a h r L P o p : tree_ok a h r L P -> walk (h ++ [o]) r p = walk h r p.
Proof.
  intros Hok. destruct (tree_ok_frame a h (h ++ [o]) r L P Hok) as [_ Hw]; [|apply Hw].
  intros q n o1 _ Ho1. exists o1. split; [by apply lookup_alloc_old|apply same_node_refl].
Qed.

Lemma child_at_alloc (h : heap) o n d o1 :
  h !! n = Some o1 -> child_at (h ++ [o]) n d = child_at h n d.
Proof. intros H. apply child_at_cell. by rewrite (lookup_alloc_old _ _ _ _ H), H. Qed.

Lemma addNode_loop_spec a r L P e t leaf :
  0 <= a -> in_alphabet a e = true -> digits e ∈ P ->
  digitizer t = NewStringDigitizer a -> capacity t = a + 1 ->
  forall fuel h s k cur nd,
    tree_ok a h r L P ->
    pointer s = Some cur -> branchPosition s = Z.of_nat k ->
    walk h r (take k (digits e)) = Some cur ->
    h !! cur = Some (ONode nd) ->
    child_at h cur (digit_at (digits e) k) = None ->
    (k < length (digits e))%nat ->
    (leaf < length h)%nat ->
    (forall p, walk h r p <> Some leaf) ->
    (length (digits e) - k <= fuel)%nat ->
    exists h1 s1 cur1 nd1,
      addNode_loop fuel h t e s = Ok (h1, s1) /\
      tree_ok a h1 r L P /\
      pointer s1 = Some cur1 /\
      branchPosition s1 = Z.of_nat (length (digits e) - 1) /\
      sdigitizer s1 = sdigitizer s /\
      walk h1 r (take (length (digits e) - 1) (digits e)) = Some cur1 /\
      h1 !! cur1 = Some (ONode nd1) /\
      child_at h1 cur1 (digit_at (digits e) (length (digits e) - 1)) = None /\
      (forall p, walk h1 r p <> Some leaf) /\
      (forall x lf, h !! x = Some (OLeaf lf) -> h1 !! x = Some (OLeaf lf)) /\
      (length h <= length h1)%nat.
Proof.
  intros Ha He HP Hdig Hcap.
  induction fuel as [|fuel IH];
    intros h s k cur nd Hok Hp Hb Hw Hcur Hgap Hk Hleaf Hfresh Hfuel; [lia|].
  simpl. rewrite Hb, Hdig, NumDigitsOf_digits. unfold len.
  destruct (Z.of_nat k <? Z.of_nat (length (digits e)) - 1) eqn:E.
  - apply Z.ltb_lt in E. rewrite DigitOf_digits. rsimpl.
    rewrite Hcap, (newNode_inner a Ha), Hp.
    set (nn := mkNode None (replicate (Z.to_nat (a + 1)) None) 0 None false).
    destruct (tree_ok_alloc a h r L P (ONode nn) Hok) as [Hok1 Hfresh1].
    set (h1 := h ++ [ONode nn]) in *. set (c := length h) in *.
    set (d := digit_at (digits e) k) in *.
    assert (Hatt : attachable a h1 r L P (take k (digits e)) cur nd d c (ONode nn)).
    { split; try done.
      - unfold h1. by rewrite (walk_alloc a h r L P).
      - by apply lookup_alloc_old.
      - unfold h1. by rewrite (child_at_alloc _ _ _ _ _ Hcur).
      - apply (digits_range a e k He Ha).
      - apply lookup_alloc_new.
      - intros i x. simpl. apply replicate_None_lookup. }
    rewrite (attach_AddChildWithIndexOf Hatt). rsimpl.
    set (h2 := attach h1 cur nd d c (ONode nn)).
    assert (Hlc : leaf <> c) by (unfold c; lia).
    assert (Hok2 : tree_ok a h2 r L P).
    { apply (attach_tree_ok Hatt L); [done|by left|].
      unfold node_ok. rewrite (attach_lookup_c Hatt).
      simpl. unfold len. rewrite length_replicate, occupied_replicate.
      repeat split; try done; try lia.
      - intros H. by destruct (take k (digits e)).
      - right. exists (digits e). split; [done|].
        unfold d. rewrite <- take_S_digit by done. apply take_strict_prefix. lia. }
    destruct (IH h2 (set_position (Some c) (Z.of_nat k + 1) s) (S k) c
                (set_parent (Some cur) nn))
      as (h3 & s3 & cur3 & nd3 & Hrun & Hok3 & Hp3 & Hb3 & Hd3 & Hw3 & Hcur3 & Hgap3 &
          Hfresh3 & Hfr3 & Hlen3); try done.
    + rsimpl. lia.
    + rewrite take_S_digit by lia. apply (attach_walk_new Hatt).
    + apply (attach_lookup_c Hatt).
    + apply (attach_child_c Hatt).
    + lia.
    + unfold h2. rewrite attach_length. unfold h1. rewrite length_app. lia.
    + apply (attach_fresh_preserved Hatt); [done|].
      intros p Hp'. unfold h1 in Hp'. rewrite (walk_alloc a h r L P) in Hp' by done.
      by apply (Hfresh p).
    + lia.
    + exists h3, s3, cur3, nd3. split_and!; try done.
      * intros x lf Hx. apply Hfr3. unfold h2.
        rewrite attach_lookup_other.
        -- by apply lookup_alloc_old.
        -- apply lookup_lt_Some in Hx. unfold c. lia.
        -- intros E'. rewrite E', Hcur in Hx. done.
      * etrans; [|exact Hlen3]. unfold h2. rewrite attach_length.
        unfold h1. rewrite length_app. lia.
  - apply Z.ltb_ge in E. assert (k = (length (digits e) - 1)%nat) as -> by lia.
    exists h, s, cur, nd. split_and!; try done.
Qed.

Lemma tree_ok_weaken a h r L P P' :
  (forall q, q ∈ P -> q ∈ P') -> tree_ok a h r L P -> tree_ok a h r L P'.
Proof.
  intros Hsub [H1 H2 H3 H4 H5]. split; try done.
  intros p n Hp. specialize (H2 p n Hp). unfold node_ok in *.
  destruct (h !! n) as [[nd|lf]|]; try done.
  destruct H2 as (? & ? & ? & [?|(q & Hq & ?)]); split_and!; eauto.
Qed.

Lemma child_at_childless h n o d :
  h !! n = Some o -> (forall i x, children (node_of o) !! i = Some x -> x = None) ->
  child_at h n d = None.
Proof.
  intros Hn Hc. unfold child_at. rewrite Hn. destruct (d <? 0); [done|].
  destruct (children (node_of o) !! Z.to_nat d) as [x|] eqn:E; [|done].
  simpl. by apply Hc in E.
Qed.

Lemma tree_ok_fresh_root a (h : heap) P :
  0 <= a ->
  tree_ok a (h ++ [ONode (mkNode None (replicate (Z.to_nat (a + 1)) None) 0 None true)])
          (length h) [] P.
Proof.
  intros Ha.
  set (o := ONode (mkNode None (replicate (Z.to_nat (a + 1)) None) 0 None true)).
  assert (Hr : (h ++ [o]) !! length h = Some o) by apply lookup_alloc_new.
  assert (Hw : forall p n, walk (h ++ [o]) (length h) p = Some n -> p = [] /\ n = length h).
  { intros [|d p] n Hp; simpl in Hp; [by injection Hp as <-|].
    rewrite (child_at_childless _ _ o) in Hp; [done|done|].
    intros i x. simpl. apply replicate_None_lookup. }
  split.
  - intros l s Hl. by apply elem_of_nil in Hl.
  - intros p n Hp. apply Hw in Hp as [-> ->]. unfold node_ok. rewrite Hr. simpl.
    unfold len. rewrite length_replicate, occupied_replicate. split_and!; try done; [lia|by left].
  - intros p d n Hp. apply Hw in Hp as [Hp _]. by destruct p.
  - exists o. done.
  - intros p q n Hp Hq. apply Hw in Hp as [-> _], Hq as [-> _]. done.
Qed.

(** The result of [addNode] for a new in-alphabet element, once the search
    has stopped on the inner node [cur] at depth [k]. *)
Lemma addNode_core a r L P e t leaf lf0 fuel h s k cur nd :
  0 <= a -> in_alphabet a e = true -> digits e ∈ P ->
  digitizer t = NewStringDigitizer a -> capacity t = a + 1 ->
  tree_ok a h r L P ->
  pointer s = Some cur -> branchPosition s = Z.of_nat k ->
  walk h r (take k (digits e)) = Some cur ->
  h !! cur = Some (ONode nd) ->
  child_at h cur (digit_at (digits e) k) = None ->
  (k < length (digits e))%nat ->
  h !! leaf = Some (OLeaf lf0) -> element (Node lf0) = Some e -> children (Node lf0) = [] ->
  (forall p, walk h r p <> Some leaf) ->
  (length (digits e) <= fuel)%nat ->
  exists h1 s1 par,
    addNode fuel h t (Some leaf) s = Ok (h1, t, s1) /\
    tree_ok a h1 r ((leaf, e) :: L) P /\
    pointer s1 = Some leaf /\
    branchPosition s1 = Z.of_nat (length (digits e)) /\
    sdigitizer s1 = sdigitizer s /\
    h1 !! leaf = Some (map_node (set_parent (Some par)) (OLeaf lf0)) /\
    (forall x lf, h !! x = Some (OLeaf lf) -> x <> leaf -> h1 !! x = Some (OLeaf lf)) /\
    (length h <= length h1)%nat.
Proof.
  intros Ha He HP Hdig Hcap Hok Hp Hb Hw Hcur Hgap Hk Hleaf Hel Hch Hfresh Hfuel.
  unfold addNode. rewrite Hp. rsimpl. rewrite (Value_eq _ _ _ Hleaf). rsimpl. rewrite Hel.
  destruct (addNode_loop_spec a r L P e t leaf Ha He HP Hdig Hcap fuel h s k cur nd)
    as (h1 & s1 & cur1 & nd1 & -> & Hok1 & Hp1 & Hb1 & Hd1 & Hw1 & Hcur1 & Hgap1 &
        Hfresh1 & Hfr1 & Hlen1); try done; [by eapply lookup_lt_Some|lia|].
  rsimpl. rewrite Hdig, Hb1, DigitOf_digits, Hp1. rsimpl.
  set (k1 := (length (digits e) - 1)%nat) in *. set (d := digit_at (digits e) k1) in *.
  assert (Hleaf1 : h1 !! leaf = Some (OLeaf lf0)) by (by apply Hfr1).
  assert (Hatt : attachable a h1 r L P (take k1 (digits e)) cur1 nd1 d leaf (OLeaf lf0)).
  { split; try done.
    - apply (digits_range a e k1 He Ha).
    - intros i x. simpl. rewrite Hch. by destruct i. }
  rewrite (attach_AddChildWithIndexOf Hatt). rsimpl.
  set (h2 := attach h1 cur1 nd1 d leaf (OLeaf lf0)).
  assert (Hfull : take k1 (digits e) ++ [d] = digits e).
  { unfold d. rewrite <- take_S_digit by (unfold k1; lia).
    apply firstn_all2. unfold k1. lia. }
  exists h2, (set_position (Some leaf) (Z.of_nat k1 + 1) s1), cur1. split_and!; try done.
  - apply (attach_tree_ok Hatt).
    + intros x Hx. by right.
    + intros l s0 Hl. apply elem_of_cons in Hl as [[= -> ->]|Hl]; [right|by left].
      by rewrite Hfull.
    + unfold node_ok. rewrite (attach_lookup_c Hatt). simpl.
      exists e. split; [by left|done].
  - rsimpl. unfold k1. pose proof (digits_length_pos e). lia.
  - unfold h2. by rewrite (attach_lookup_c Hatt).
  - intros x lf Hx Hne. unfold h2. rewrite attach_lookup_other; [by apply Hfr1|done|].
    intros E. apply Hfr1 in Hx. rewrite E, Hcur1 in Hx. done.
  - unfold h2. by rewrite attach_length.
Qed.

(** ** Finding the predecessor *)

Lemma lex_ltb_inv p q :
  lex_ltb p q = true ->
  strict_prefix p q \/
  exists c y z p1 q1, p = c ++ y :: p1 /\ q = c ++ z :: q1 /\ y < z.
Proof.
  revert q. induction p as [|x p IH]; intros [|y q] H; simpl in H; try done.
  - left. by exists y, q.
  - apply orb_true_iff in H as [H|H].
    + right. exists [], x, y, p, q. split_and!; try done. lia.
    + apply andb_true_iff in H as [E H]. apply Z.eqb_eq in E as ->.
      destruct (IH _ H) as [(d & k & ->)|(c & y' & z & p1 & q1 & -> & -> & Hlt)].
      * left. by exists d, k.
      * right. exists (y :: c), y', z, p1, q1. done.
Qed.

Lemma take_app_digit (c : list Z) z q1 : take (length c) (c ++ z :: q1) = c.
Proof. by rewrite take_app_length. Qed.

Lemma digit_at_app (c : list Z) z q1 : digit_at (c ++ z :: q1) (length c) = z.
Proof. unfold digit_at. by rewrite list_lookup_middle. Qed.

(** The scan for a left sibling below index [n]. *)
Lemma descendToLeftSibling_spec h s cur nd :
  pointer s = Some cur -> h !! cur = Some (ONode nd) ->
  forall n, Z.of_nat n <= len (children nd) ->
    (exists i c, (i < n)%nat /\ child_at h cur (Z.of_nat i) = Some c /\
       (forall i', (i < i' < n)%nat -> child_at h cur (Z.of_nat i') = None) /\
       descendToLeftSibling n h s =
         Ok (set_position (Some c) (branchPosition s + 1) s, true)) \/
    ((forall i', (i' < n)%nat -> child_at h cur (Z.of_nat i') = None) /\
     descendToLeftSibling n h s = Ok (s, false)).
Proof.
  intros Hp Hcur. induction n as [|n IH]; intros Hn.
  - right. split; [lia|done].
  - simpl. rewrite (descendToIndex_spec h s cur (ONode nd)); [|done|done|simpl; lia].
    destruct (child_at h cur (Z.of_nat n)) as [c|] eqn:Hc; rsimpl.
    + replace (Z.of_nat n =? childNotFound) with false
        by (symmetry; apply Z.eqb_neq; unfold childNotFound; lia).
      simpl. left. exists n, c. split_and!; [lia|done|lia|done].
    + rewrite Z.eqb_refl. simpl.
      destruct IH as [(i & c & Hi & Hic & Hnone & ->)|[Hnone ->]]; [lia| |].
      * left. exists i, c. split_and!; [lia|done| |done].
        intros i' Hi'. destruct (decide (i' = n)) as [->|]; [done|]. apply Hnone. lia.
      * right. split; [|done]. intros i' Hi'.
        destruct (decide (i' = n)) as [->|]; [done|]. apply Hnone. lia.
Qed.

(** The scan for the highest occupied slot at or below index [i]. *)
Lemma descendToMaxIndex_spec h s cur nd :
  pointer s = Some cur -> h !! cur = Some (ONode nd) ->
  forall fuel i x c,
    Z.of_nat i < len (children nd) -> (x <= i)%nat ->
    child_at h cur (Z.of_nat x) = Some c -> (i - x < fuel)%nat ->
    exists y cy, (x <= y <= i)%nat /\ child_at h cur (Z.of_nat y) = Some cy /\
      (forall i', (y < i' <= i)%nat -> child_at h cur (Z.of_nat i') = None) /\
      descendToMaxIndex fuel h s (Z.of_nat i) =
        Ok (set_position (Some cy) (branchPosition s + 1) s).
Proof.
  intros Hp Hcur. induction fuel as [|fuel IH]; intros i x c Hi Hx Hc Hfuel; [lia|].
  simpl. rewrite (descendToIndex_spec h s cur (ONode nd)); [|done|done|simpl; lia].
  destruct (child_at h cur (Z.of_nat i)) as [ci|] eqn:Hci; rsimpl.
  - replace (Z.of_nat i =? childNotFound) with false
      by (symmetry; apply Z.eqb_neq; unfold childNotFound; lia).
    exists i, ci. split_and!; [lia|lia|done|lia|done].
  - rewrite Z.eqb_refl.
    assert (x <> i) by (intros ->; congruence).
    destruct i as [|i]; [lia|].
    replace (Z.of_nat (S i) - 1) with (Z.of_nat i) by lia.
    destruct (IH i x c) as (y & cy & Hy & Hcy & Hnone & ->); [lia|lia|done|lia|].
    exists y, cy. split_and!; [lia|lia|done| |done].
    intros i' Hi'. destruct (decide (i' = S i)) as [->|]; [done|]. apply Hnone. lia.
Qed.

Section Predecessor.
Context {a : Z} {h : heap} {r : nat} {L : list (nat * string)} {D : nat}.
Hypothesis Ha : 0 <= a.
Hypothesis Hok : tree_ok a h r L (key <$> L).
Hypothesis Hcells : forall x, x ∈ L -> leaf_cell h x.1 x.2.
Hypothesis HD : forall x, x ∈ L -> (length (key x) <= D)%nat.

Lemma stored_leaf_childless l s d : (l, s) ∈ L -> child_at h l d = None.
Proof.
  intros Hl. destruct (Hcells _ Hl) as (lf & Hlf & _ & Hch & _). simpl in *.
  apply (child_at_childless h l (OLeaf lf)); [done|].
  intros i x. simpl. rewrite Hch. by destruct i.
Qed.

Lemma stored_walk_leaf x : x ∈ L -> exists lf, walk h r (key x) = Some x.1 /\ h !! x.1 = Some (OLeaf lf).
Proof.
  intros Hx. destruct x as [l s]. destruct (Hcells _ Hx) as (lf & Hlf & _).
  exists lf. split; [|done]. by apply (tree_stored _ _ _ _ _ Hok).
Qed.

(** No stored digit sequence continues below a stored leaf. *)
Lemma stored_prefix_eq q l s x :
  walk h r q = Some l -> (l, s) ∈ L -> x ∈ L -> q `prefix_of` key x -> key x = q.
Proof.
  intros Hq Hl Hx [k Hk]. destruct k as [|y k]; [by rewrite app_nil_r in Hk|].
  exfalso. destruct (stored_walk_leaf x Hx) as (lf & Hw & _).
  rewrite Hk, walk_app, Hq in Hw. simpl in Hw.
  by rewrite (stored_leaf_childless l s y Hl) in Hw.
Qed.

(** An inner node below the root has an occupied slot. *)
Lemma inner_node_child q n nd :
  walk h r q = Some n -> h !! n = Some (ONode nd) -> q <> [] ->
  (length q < D)%nat /\
  exists x c, child_at h n (Z.of_nat x) = Some c /\ Z.of_nat x < len (children nd).
Proof.
  intros Hq Hn Hne. pose proof (tree_nodes _ _ _ _ _ Hok _ _ Hq) as H.
  unfold node_ok in H. rewrite Hn in H. destruct H as (_ & _ & _ & [H|(p & Hp & Hpre)]); [done|].
  apply list_elem_of_fmap in Hp as (x & -> & Hx).
  split.
  { pose proof (strict_prefix_length _ _ Hpre). pose proof (HD x Hx). lia. }
  destruct Hpre as (d & k & Hk).
  destruct (stored_walk_leaf x Hx) as (lf & Hw & _).
  rewrite Hk in Hw. change (d :: k) with ([d] ++ k) in Hw. rewrite app_assoc in Hw.
  apply walk_prefix in Hw as [c Hc]. rewrite walk_snoc, Hq in Hc.
  pose proof Hc as Hc'. apply child_at_Some in Hc' as (o & Ho & Hd & Hlk).
  rewrite Hn in Ho. injection Ho as <-. simpl in Hlk.
  exists (Z.to_nat d), c. rewrite Z2Nat.id by done. split; [done|].
  apply lookup_lt_Some in Hlk. unfold len. lia.
Qed.

Lemma moveToMaxDescendant_spec fuel0 :
  (Z.to_nat a < fuel0)%nat ->
  forall fuel q c s,
    walk h r q = Some c -> q <> [] ->
    pointer s = Some c -> sdigitizer s = NewStringDigitizer a ->
    (D - length q < fuel)%nat ->
    exists s' lp sp,
      moveToMaxDescendant_loop fuel0 fuel h s = Ok s' /\
      pointer s' = Some lp /\ (lp, sp) ∈ L /\ q `prefix_of` digits sp /\
      forall x, x ∈ L -> q `prefix_of` key x -> lex_ltb (digits sp) (key x) = false.
Proof.
  intros Hfuel0. induction fuel as [|fuel IH]; intros q c s Hq Hne Hp Hd Hfuel; [lia|].
  simpl. pose proof (tree_nodes _ _ _ _ _ Hok _ _ Hq) as Hn. unfold node_ok in Hn.
  destruct (h !! c) as [[nd|lf]|] eqn:Hc; [| |done].
  - rewrite (atLeaf_node _ _ _ _ Hp Hc).
    destruct (inner_node_child q c nd Hq Hc Hne) as (Hlen & x & cx & Hcx & Hx).
    destruct Hn as (Hchildren & _).
    rewrite Hd. simpl. replace (a + 1 - 1) with (Z.of_nat (Z.to_nat a)) by lia.
    destruct (descendToMaxIndex_spec h s c nd Hp Hc fuel0 (Z.to_nat a) x cx)
      as (y & cy & Hy & Hcy & Hnone & ->); [lia|lia|done|lia|].
    rsimpl.
    destruct (IH (q ++ [Z.of_nat y]) cy (set_position (Some cy) (branchPosition s + 1) s))
      as (s' & lp & sp & -> & Hp' & Hlp & Hpre & Hmax); try done.
    + by rewrite walk_snoc, Hq.
    + by destruct q.
    + rewrite length_app. simpl. lia.
    + exists s', lp, sp. split_and!; try done.
      * eapply prefix_app_l, Hpre.
      * intros x' Hx' [k Hk].
        destruct (stored_walk_leaf x' Hx') as (lf & Hw & Hlf).
        destruct k as [|z k].
        { rewrite app_nil_r in Hk. rewrite Hk, Hq in Hw. injection Hw as Hw.
          rewrite <- Hw in Hlf. congruence. }
        pose proof Hw as Hw'. rewrite Hk in Hw'.
        change (z :: k) with ([z] ++ k) in Hw'. rewrite app_assoc in Hw'.
        apply walk_prefix in Hw' as [cz Hcz]. rewrite walk_snoc, Hq in Hcz.
        pose proof Hcz as Hcz'. apply child_at_Some in Hcz' as (o & Ho & Hz & Hlk).
        rewrite Hc in Ho. injection Ho as <-. simpl in Hlk.
        apply lookup_lt_Some in Hlk.
        assert (Hzy : (Z.to_nat z <= y)%nat).
        { destruct (decide (Z.to_nat z <= y)%nat) as [|Hgt]; [done|].
          rewrite <- (Z2Nat.id z Hz) in Hcz. rewrite Hnone in Hcz; [done|].
          unfold len in Hchildren. lia. }
        destruct (decide (Z.to_nat z = y)) as [Hzy'|Hzy'].
        -- apply Hmax; [done|]. rewrite Hk, <- Hzy', Z2Nat.id by done.
           change (z :: k) with ([z] ++ k). rewrite app_assoc. by eexists.
        -- apply lex_ltb_asym. destruct Hpre as [m Hm]. rewrite Hk.
           unfold key in *. rewrite Hm, <- app_assoc. simpl.
           apply lex_ltb_diverge. lia.
  - rewrite (atLeaf_leaf _ _ _ _ Hp Hc). destruct Hn as (sp & Hsp & ->).
    exists s, c, sp. split_and!; try done.
    intros x Hx Hpre.
    rewrite (stored_prefix_eq (digits sp) c sp x Hq Hsp Hx Hpre). apply lex_ltb_irrefl.
Qed.
End Predecessor.

Section Retrace.
Context {a : Z} {h : heap} {r : nat} {L : list (nat * string)} {D : nat}.
Context {e : string}.
Hypothesis Ha : 0 <= a.
Hypothesis Hok : tree_ok a h r L (key <$> L).
Hypothesis Hcells : forall x, x ∈ L -> leaf_cell h x.1 x.2.
Hypothesis Halpha : forall x, x ∈ L -> in_alphabet a x.2 = true.
Hypothesis HD : forall x, x ∈ L -> (length (key x) <= D)%nat.
Hypothesis He : in_alphabet a e = true.

Local Abbreviation ds := (digits e).

Lemma path_inner_node k cur :
  (k < length ds)%nat -> walk h r (take k ds) = Some cur ->
  exists nd, h !! cur = Some (ONode nd) /\ len (children nd) = a + 1.
Proof.
  intros Hk Hw. pose proof (tree_nodes _ _ _ _ _ Hok _ _ Hw) as Hn. unfold node_ok in Hn.
  destruct (h !! cur) as [[nd|lf]|] eqn:Hc; [|exfalso|done].
  - exists nd. split; [done|]. tauto.
  - destruct Hn as (s & Hs & Hts).
    assert (Hpre : digits s `prefix_of` ds) by (rewrite <- Hts; apply prefix_take).
    apply (digits_prefix_free a) in Hpre; [|by apply (Halpha (cur, s))|done].
    apply (f_equal length) in Hts. rewrite Hpre, length_take in Hts. lia.
Qed.

(** The cell at the end of the path of [e] is a leaf. *)
Lemma path_end_leaf cur :
  walk h r ds = Some cur -> exists lf, h !! cur = Some (OLeaf lf).
Proof.
  intros Hw. pose proof (tree_nodes _ _ _ _ _ Hok _ _ Hw) as Hn. unfold node_ok in Hn.
  destruct (h !! cur) as [[nd|lf]|] eqn:Hc; [exfalso|by exists lf|done].
  destruct Hn as (_ & _ & _ & [Hnil|(q & Hq & Hpre)]); [by apply digits_nonempty in Hnil|].
  apply list_elem_of_fmap in Hq as (x & -> & Hx).
  pose proof (strict_prefix_length _ _ Hpre) as Hl.
  assert (Heq : digits e = key x).
  { eapply digits_prefix_free; [done|by apply Halpha|by apply strict_prefix_prefix]. }
  rewrite Heq in Hl. lia.
Qed.

Lemma retraceToLastLeftFork_spec :
  forall fuel k s cur,
    (k < fuel)%nat -> pointer s = Some cur -> branchPosition s = Z.of_nat k ->
    sdigitizer s = NewStringDigitizer a ->
    walk h r (take k ds) = Some cur -> (k <= length ds)%nat ->
    (forall j, (k < j < length ds)%nat -> no_left_fork h r e j) ->
    exists s',
      retraceToLastLeftFork fuel h s e = Ok s' /\ sdigitizer s' = NewStringDigitizer a /\
      ((exists j i c, (j < length ds)%nat /\ 0 <= i < digit_at ds j /\
          walk h r (take j ds ++ [i]) = Some c /\ pointer s' = Some c /\
          (forall i', i < i' < digit_at ds j -> walk h r (take j ds ++ [i']) = None) /\
          (forall j', (j < j' < length ds)%nat -> no_left_fork h r e j')) \/
       (pointer s' = Some r /\ forall j', (j' < length ds)%nat -> no_left_fork h r e j')).
Proof.
  induction fuel as [|fuel IH]; intros k s cur Hfuel Hp Hb Hd Hw Hk Hnl; [lia|].
  simpl.
  assert (Hup : (0 < k)%nat -> exists o m, h !! cur = Some o /\ parent (node_of o) = Some m /\
                                           walk h r (take (k - 1) ds) = Some m).
  { intros Hk0. apply (tree_parent _ _ _ _ _ Hok _ (digit_at ds (k - 1))).
    rewrite <- take_S_digit by lia. by replace (S (k - 1)) with k by lia. }
  destruct (decide (k = length ds)) as [->|Hlt].
  - (* on the leaf at the end of the path *)
    destruct (path_end_leaf cur) as (lf & Hlf); [by rewrite firstn_all in Hw|].
    rewrite (atLeaf_leaf _ _ _ _ Hp Hlf). rsimpl.
    destruct Hup as (o & m & Ho & Hpar & Hm); [apply digits_length_pos|].
    unfold atRoot. rewrite Hp, (Parent_eq _ _ _ Ho), Hpar. rsimpl.
    unfold ascend. rewrite Hp, (Parent_eq _ _ _ Ho), Hpar. rsimpl.
    destruct (IH (length ds - 1)%nat (set_position (Some m) (parentBranchPosition s) s) m)
      as (s' & -> & Hd' & Hpost); try done.
    + pose proof (digits_length_pos e). lia.
    + unfold parentBranchPosition. rsimpl. pose proof (digits_length_pos e). lia.
    + lia.
    + intros j Hj. lia.
    + exists s'. split_and!; done.
  - destruct (path_inner_node k cur) as (nd & Hcur & Hlen); [lia|done|].
    rewrite (atLeaf_node _ _ _ _ Hp Hcur). rsimpl. rewrite Hd, Hb, DigitOf_digits. rsimpl.
    pose proof (digits_range a e k He Ha) as Hrange.
    destruct (descendToLeftSibling_spec h s cur nd Hp Hcur (Z.to_nat (digit_at ds k)))
      as [(i & c & Hi & Hic & Hnone & ->)|[Hnone ->]]; [lia| |].
    + rsimpl. eexists. split; [done|]. split; [done|]. left.
      exists k, (Z.of_nat i), c. split_and!; try done; try lia.
      * by rewrite walk_snoc, Hw.
      * intros i' Hi'. rewrite walk_snoc, Hw.
        rewrite <- (Z2Nat.id i') by lia. apply Hnone. lia.
    + rsimpl.
      assert (Hnk : no_left_fork h r e k).
      { intros i' Hi'. rewrite walk_snoc, Hw.
        rewrite <- (Z2Nat.id i') by lia. apply Hnone. lia. }
      destruct (decide (k = 0)%nat) as [->|Hk0].
      * simpl in Hw. injection Hw as <-.
        destruct (tree_root _ _ _ _ _ Hok) as (o & Ho & Hpar).
        unfold atRoot. rewrite Hp, (Parent_eq _ _ _ Ho), Hpar. rsimpl.
        exists s. split_and!; try done. right. split; [done|].
        intros j' Hj'. destruct (decide (j' = 0)%nat) as [->|]; [done|]. apply Hnl. lia.
      * destruct Hup as (o & m & Ho & Hpar & Hm); [lia|].
        unfold atRoot. rewrite Hp, (Parent_eq _ _ _ Ho), Hpar. rsimpl.
        unfold ascend. rewrite Hp, (Parent_eq _ _ _ Ho), Hpar. rsimpl.
        destruct (IH (k - 1)%nat (set_position (Some m) (parentBranchPosition s) s) m)
          as (s' & -> & Hd' & Hpost); try done.
        -- lia.
        -- unfold parentBranchPosition. rsimpl. lia.
        -- lia.
        -- intros j Hj. destruct (decide (j = k)) as [->|]; [done|]. apply Hnl. lia.
        -- exists s'. split_and!; done.
Qed.
End Retrace.

Section MoveToPredecessor.
Context {a : Z} {h : heap} {r : nat} {L : list (nat * string)} {D : nat}.
Context {e : string}.
Hypothesis Ha : 0 <= a.
Hypothesis Hok : tree_ok a h r L (key <$> L).
Hypothesis Hcells : forall x, x ∈ L -> leaf_cell h x.1 x.2.
Hypothesis Halpha : forall x, x ∈ L -> in_alphabet a x.2 = true.
Hypothesis HD : forall x, x ∈ L -> (length (key x) <= D)%nat.
Hypothesis He : in_alphabet a e = true.

Local Abbreviation ds := (digits e).

Lemma stored_fork x c0 y p1 :
  x ∈ L -> key x = c0 ++ y :: p1 -> 0 <= y /\ exists c, walk h r (c0 ++ [y]) = Some c.
Proof.
  intros Hx Hk. destruct (stored_walk_leaf (h:=h) Hok Hcells x Hx) as (lf & Hw & _).
  rewrite Hk in Hw. change (y :: p1) with ([y] ++ p1) in Hw. rewrite app_assoc in Hw.
  apply walk_prefix in Hw as [c Hc]. split; [|eauto].
  rewrite walk_snoc in Hc. destruct (walk h r c0); [|done].
  apply child_at_Some in Hc as (_ & _ & Hy & _). done.
Qed.

Lemma stored_not_strict_prefix x : x ∈ L -> ~ strict_prefix (key x) ds.
Proof.
  intros Hx Hpre. pose proof (strict_prefix_length _ _ Hpre) as Hlen.
  assert (Heq : key x = ds).
  { eapply digits_prefix_free; [by apply Halpha|done|by apply strict_prefix_prefix]. }
  rewrite Heq in Hlen. lia.
Qed.

(** Below a fork of the path of [e] only smaller elements are stored. *)
Lemma fork_is_less j i sp :
  (j < length ds)%nat -> i < digit_at ds j ->
  (take j ds ++ [i]) `prefix_of` digits sp -> lex_ltb (digits sp) ds = true.
Proof.
  intros Hj Hi [m Hm]. rewrite Hm, <- app_assoc. simpl.
  rewrite <- (take_drop (S j) ds) at 2. rewrite take_S_digit, <- app_assoc by done. simpl.
  by apply lex_ltb_diverge.
Qed.

Lemma fork_is_greatest j i sp x :
  (j < length ds)%nat -> 0 <= i < digit_at ds j ->
  (take j ds ++ [i]) `prefix_of` digits sp ->
  (forall i', i < i' < digit_at ds j -> walk h r (take j ds ++ [i']) = None) ->
  (forall j', (j < j' < length ds)%nat -> no_left_fork h r e j') ->
  (forall x, x ∈ L -> (take j ds ++ [i]) `prefix_of` key x -> lex_ltb (digits sp) (key x) = false) ->
  x ∈ L -> lex_ltb (key x) ds = true -> lex_ltb (digits sp) (key x) = false.
Proof.
  intros Hj Hi Hpre Hbetween Habove Hmax Hx Hlt.
  destruct (lex_ltb_inv _ _ Hlt) as [Hsp|(c0 & y & z & p1 & q1 & Hkx & Hds & Hyz)].
  { by destruct (stored_not_strict_prefix x Hx). }
  destruct (stored_fork x c0 y p1 Hx Hkx) as (Hy & c & Hc).
  assert (Htake : take (length c0) ds = c0) by (rewrite Hds; apply take_app_digit).
  assert (Hdig : digit_at ds (length c0) = z) by (rewrite Hds; apply digit_at_app).
  assert (Hlen0 : (length c0 < length ds)%nat).
  { rewrite Hds, length_app. simpl. lia. }
  destruct (lt_eq_lt_dec (length c0) j) as [[Hlt0|Heq0]|Hgt0].
  - (* the element left the path of [e] above the fork *)
    apply lex_ltb_asym. destruct Hpre as [m Hm]. rewrite Hm, Hkx.
    assert (Hsplit : take j ds = c0 ++ z :: take (j - length c0 - 1) q1).
    { rewrite Hds at 1. rewrite take_app_ge by lia.
      destruct (j - length c0)%nat as [|n] eqn:E; [lia|]. simpl. by rewrite Nat.sub_0_r. }
    rewrite Hsplit, <- !app_assoc. simpl. by apply lex_ltb_diverge.
  - subst j. rewrite Htake, Hdig in *.
    destruct (Z.lt_total y i) as [Hyi|[->|Hyi]].
    + apply lex_ltb_asym. destruct Hpre as [m Hm]. rewrite Hm, Hkx, <- app_assoc. simpl.
      by apply lex_ltb_diverge.
    + apply Hmax; [done|]. rewrite Hkx. change (i :: p1) with ([i] ++ p1).
      rewrite app_assoc. by eexists.
    + rewrite Hbetween in Hc by lia. done.
  - exfalso. pose proof (Habove (length c0)) as Hnl. unfold no_left_fork in Hnl.
    rewrite Htake, Hdig in Hnl. rewrite Hnl in Hc; [done|lia|lia].
Qed.

Lemma no_fork_is_least x :
  (forall j', (j' < length ds)%nat -> no_left_fork h r e j') ->
  x ∈ L -> lex_ltb (key x) ds = false.
Proof.
  intros Hnl Hx. destruct (lex_ltb (key x) ds) eqn:Hlt; [exfalso|done].
  destruct (lex_ltb_inv _ _ Hlt) as [Hsp|(c0 & y & z & p1 & q1 & Hkx & Hds & Hyz)].
  { by destruct (stored_not_strict_prefix x Hx). }
  destruct (stored_fork x c0 y p1 Hx Hkx) as (Hy & c & Hc).
  assert (Htake : take (length c0) ds = c0) by (rewrite Hds; apply take_app_digit).
  assert (Hdig : digit_at ds (length c0) = z) by (rewrite Hds; apply digit_at_app).
  assert (Hlen0 : (length c0 < length ds)%nat).
  { rewrite Hds, length_app. simpl. lia. }
  pose proof (Hnl (length c0) Hlen0) as H0. unfold no_left_fork in H0.
  rewrite Htake, Hdig in H0. rewrite H0 in Hc; [done|lia].
Qed.

(** From where a search for [e] has stopped (on the leaf of an element with
    the digits of [e], or on the inner node that lacks the next digit),
    [moveToPredecessor] finds the greatest stored element below [e], or
    reports that there is none. *)
Lemma moveToPredecessor_spec fuel s k cur res :
  pointer s = Some cur -> branchPosition s = Z.of_nat k ->
  sdigitizer s = NewStringDigitizer a ->
  walk h r (take k ds) = Some cur -> (k <= length ds)%nat ->
  (forall j, (k < j < length ds)%nat -> no_left_fork h r e j) ->
  res = Matched \/ res = Unmatched ->
  (length ds < fuel)%nat -> (D < fuel)%nat -> (Z.to_nat a < fuel)%nat ->
  (exists s', moveToPredecessor fuel h e s res = Ok (false, s') /\
              forall x, x ∈ L -> lex_ltb (key x) ds = false) \/
  (exists s' lp sp, moveToPredecessor fuel h e s res = Ok (true, s') /\
     pointer s' = Some lp /\ (lp, sp) ∈ L /\ lex_ltb (digits sp) ds = true /\
     forall x, x ∈ L -> lex_ltb (key x) ds = true -> lex_ltb (digits sp) (key x) = false).
Proof.
  intros Hp Hb Hd Hw Hk Hnlf Hres Hf1 Hf2 Hf3. unfold moveToPredecessor.
  assert (Hguard : searchResult_eqb res Greater || searchResult_eqb res Extension = false)
    by (by destruct Hres as [->| ->]).
  assert (Hgreater : searchResult_eqb res Greater = false) by (by destruct Hres as [->| ->]).
  rewrite Hguard, andb_false_r, Hgreater. cbn [negb].
  destruct (retraceToLastLeftFork_spec (h:=h) Ha Hok Halpha He fuel k s cur)
    as (s1 & -> & Hd1 & [(j & i & c & Hj & Hi & Hc & Hp1 & Hbetween & Habove)|[Hp1 Hnl]]);
    try done; [lia| |].
  - rsimpl. destruct (tree_parent _ _ _ _ _ Hok _ _ _ Hc) as (o & m & Ho & Hpar & _).
    unfold atRoot. rewrite Hp1, (Parent_eq _ _ _ Ho), Hpar. rsimpl.
    assert (Hne : take j ds ++ [i] <> []) by (by destruct (take j ds)).
    destruct (moveToMaxDescendant_spec (h:=h) (D:=D) Ha Hok Hcells HD fuel Hf3
                fuel (take j ds ++ [i]) c s1 Hc Hne Hp1 Hd1)
      as (s' & lp & sp & Hrun & Hp' & Hlp & Hpre & Hmax); [lia|].
    right.
    assert (Hrun' : (if negb (atLeaf h s1)
                    then let* s2 := moveToMaxDescendant fuel h s1 in Ok (true, s2)
                    else Ok (true, s1)) = Ok (true, s')).
    { unfold moveToMaxDescendant. destruct (atLeaf h s1) eqn:Hat; simpl.
      - destruct fuel as [|fuel']; [lia|]. simpl in Hrun. rewrite Hat in Hrun. congruence.
      - by rewrite Hrun. }
    rewrite Hrun'. exists s', lp, sp. split_and!; try done.
    + apply (fork_is_less j i); [done|lia|done].
    + intros x Hx Hlt. by apply (fork_is_greatest j i sp x).
  - rsimpl. destruct (tree_root _ _ _ _ _ Hok) as (o & Ho & Hpar).
    unfold atRoot. rewrite Hp1, (Parent_eq _ _ _ Ho), Hpar. rsimpl.
    left. eexists. split; [done|]. intros x Hx. by apply no_fork_is_least.
Qed.
End MoveToPredecessor.

(** ** Changing the order list *)

Lemma same_but_links_refl o : same_but_links o o.
Proof. by destruct o. Qed.

Lemma same_but_links_node o o' : same_but_links o o' -> same_node o o'.
Proof.
  unfold same_node. destruct o, o'; simpl; intuition congruence.
Qed.

Lemma tree_ok_links a h h' r L P :
  tree_ok a h r L P -> links_changed h h' ->
  tree_ok a h' r L P /\ forall p, walk h' r p = walk h r p.
Proof.
  intros Hok Hch. apply (tree_ok_frame a h h' r L P Hok).
  intros p n o _ Ho. destruct (Hch _ _ Ho) as (o' & Ho' & Hs).
  exists o'. split; [done|by apply same_but_links_node].
Qed.

Lemma leaf_cell_links h h' l s : leaf_cell h l s -> links_changed h h' -> leaf_cell h' l s.
Proof.
  intros (lf & Hlf & He & Hc & Hn & Hr & Hh & Ht) Hch.
  destruct (Hch _ _ Hlf) as ([nd|lf'] & Ho' & Hs); [done|].
  destruct Hs as (Hnode & Hhd & Htl). exists lf'.
  rewrite <- Hnode, <- Hhd, <- Htl. done.
Qed.

Lemma linked_snoc_cons h l1 x l2 :
  linked h (l1 ++ x :: l2) <-> linked h (l1 ++ [x]) /\ linked h (x :: l2).
Proof.
  induction l1 as [|y l1 IH]; simpl; [tauto|].
  destruct l1 as [|z l1]; simpl in *; [tauto|]. rewrite IH. tauto.
Qed.

Lemma fwd_same_eq h h' x : h' !! x = h !! x -> fwd_same h h' x.
Proof. intros E xl Hx. exists xl. by rewrite E. Qed.

Lemma bwd_same_eq h h' x : h' !! x = h !! x -> bwd_same h h' x.
Proof. intros E xl Hx. exists xl. by rewrite E. Qed.

Lemma link_frame h h' x y : link h x y -> fwd_same h h' x -> bwd_same h h' y -> link h' x y.
Proof.
  intros (xl & yl & Hx & Hy & Hn & Hp) Hfx Hby.
  destruct (Hfx _ Hx) as (xl' & Hx' & Hn' & Hh').
  destruct (Hby _ Hy) as (yl' & Hy' & Hp' & Ht').
  exists xl', yl'. rewrite Hn', Hp', Hh', Ht'. done.
Qed.

Lemma linked_frame_snoc h h' A p :
  linked h (A ++ [p]) -> (forall x, x ∈ A -> h' !! x = h !! x) -> bwd_same h h' p ->
  linked h' (A ++ [p]).
Proof.
  induction A as [|x A IH]; intros Hl HA Hp; [done|].
  assert (Hx : h' !! x = h !! x) by (apply HA; by left).
  destruct A as [|y A]; simpl in *.
  - split; [|done]. destruct Hl as [Hl _].
    apply (link_frame h h'); [done|by apply fwd_same_eq|done].
  - destruct Hl as [Hl Hrest]. split.
    + apply (link_frame h h'); [done|by apply fwd_same_eq|].
      apply bwd_same_eq, HA. right; by left.
    + apply IH; [done| |done]. intros z Hz. apply HA. by right.
Qed.

Lemma linked_frame_cons h h' n B :
  linked h (n :: B) -> fwd_same h h' n -> (forall x, x ∈ B -> h' !! x = h !! x) ->
  linked h' (n :: B).
Proof.
  revert n. induction B as [|y B IH]; intros n Hl Hn HB; [done|].
  simpl in *. destruct Hl as [Hl Hrest]. split.
  - apply (link_frame h h'); [done|done|]. apply bwd_same_eq, HB. by left.
  - apply IH; [done| |].
    + apply fwd_same_eq, HB. by left.
    + intros z Hz. apply HB. by right.
Qed.

Lemma AddAfter_spec h leaf p n lf pl nl :
  h !! leaf = Some (OLeaf lf) -> h !! p = Some (OLeaf pl) -> h !! n = Some (OLeaf nl) ->
  next pl = Some n -> leaf <> p -> leaf <> n -> p <> n ->
  exists h',
    AddAfter h (Some leaf) (Some p) = Ok h' /\ length h' = length h /\
    h' !! leaf = Some (OLeaf (set_previous (Some p) (set_next (Some n) lf))) /\
    h' !! p = Some (OLeaf (set_next (Some leaf) pl)) /\
    h' !! n = Some (OLeaf (set_previous (Some leaf) nl)) /\
    forall x, x <> leaf -> x <> p -> x <> n -> h' !! x = h !! x.
Proof.
  intros Hleaf Hp Hn Hnext H1 H2 H3.
  pose proof (lookup_lt_Some _ _ _ Hleaf) as Hl1.
  pose proof (lookup_lt_Some _ _ _ Hp) as Hl2.
  pose proof (lookup_lt_Some _ _ _ Hn) as Hl3.
  set (h1 := <[leaf := OLeaf (set_next (Some n) lf)]> h).
  set (h2 := <[p := OLeaf (set_next (Some leaf) pl)]> h1).
  set (h3 := <[leaf := OLeaf (set_previous (Some p) (set_next (Some n) lf))]> h2).
  set (h4 := <[n := OLeaf (set_previous (Some leaf) nl)]> h3).
  assert (E1 : h1 !! p = Some (OLeaf pl)) by (unfold h1; by rewrite list_lookup_insert_ne).
  assert (E2 : h2 !! leaf = Some (OLeaf (set_next (Some n) lf))).
  { unfold h2. rewrite list_lookup_insert_ne by done. unfold h1.
    by rewrite list_lookup_insert_eq. }
  assert (E3 : h3 !! leaf = Some (OLeaf (set_previous (Some p) (set_next (Some n) lf)))).
  { unfold h3. rewrite list_lookup_insert_eq; [done|]. unfold h2, h1.
    by rewrite !length_insert. }
  assert (E4 : h3 !! n = Some (OLeaf nl)).
  { unfold h3, h2, h1. by rewrite !list_lookup_insert_ne. }
  exists h4. split_and!.
  - unfold AddAfter. rewrite (Next_eq _ _ _ Hp), Hnext. rsimpl.
    rewrite (SetNext_eq _ _ _ _ Hleaf). rsimpl. fold h1.
    rewrite (SetNext_eq _ _ _ _ E1). rsimpl. fold h2.
    rewrite (SetPrevious_eq _ _ _ _ E2). rsimpl. fold h3.
    rewrite (Next_eq _ _ _ E3). rsimpl.
    by rewrite (SetPrevious_eq _ _ _ _ E4).
  - unfold h4, h3, h2, h1. by rewrite !length_insert.
  - unfold h4. by rewrite list_lookup_insert_ne.
  - unfold h4, h3. rewrite !list_lookup_insert_ne by done. unfold h2.
    rewrite list_lookup_insert_eq; [done|]. unfold h1. by rewrite length_insert.
  - unfold h4. rewrite list_lookup_insert_eq; [done|]. unfold h3, h2, h1.
    by rewrite !length_insert.
  - intros x Hx1 Hx2 Hx3. unfold h4, h3, h2, h1. by rewrite !list_lookup_insert_ne.
Qed.

Lemma splice_linked h h' A p n B leaf lf pl nl :
  linked h (A ++ p :: n :: B) -> NoDup (A ++ p :: n :: B) -> leaf ∉ A ++ p :: n :: B ->
  h !! p = Some (OLeaf pl) -> h !! n = Some (OLeaf nl) ->
  h' !! leaf = Some (OLeaf (set_previous (Some p) (set_next (Some n) lf))) ->
  h' !! p = Some (OLeaf (set_next (Some leaf) pl)) ->
  h' !! n = Some (OLeaf (set_previous (Some leaf) nl)) ->
  (forall x, x <> leaf -> x <> p -> x <> n -> h' !! x = h !! x) ->
  linked h' (A ++ p :: leaf :: n :: B).
Proof.
  intros Hl Hnd Hnin Hp Hn Hleaf' Hp' Hn' Hother.
  apply linked_snoc_cons in Hl as [HA HB].
  apply NoDup_app in Hnd as (_ & HAdis & Hnd).
  apply NoDup_cons in Hnd as [HpB Hnd]. apply NoDup_cons in Hnd as [HnB _].
  rewrite !elem_of_app, !elem_of_cons in Hnin.
  apply linked_snoc_cons. split.
  - apply (linked_frame_snoc h); [done| |].
    + intros x Hx. apply Hother.
      * intros ->. apply Hnin. by left.
      * intros ->. apply (HAdis p Hx). by left.
      * intros ->. apply (HAdis n Hx). right; by left.
    + intros yl Hy. rewrite Hp in Hy. injection Hy as <-. eexists. split; [exact Hp'|done].
  - simpl. split; [|split].
    + exists (set_next (Some leaf) pl), (set_previous (Some p) (set_next (Some n) lf)).
      split_and!; try done. by left.
    + exists (set_previous (Some p) (set_next (Some n) lf)), (set_previous (Some leaf) nl).
      split_and!; try done. by left.
    + apply (linked_frame_cons h); [by destruct HB| |].
      * intros xl Hx. rewrite Hn in Hx. injection Hx as <-. eexists. split; [exact Hn'|done].
      * intros x Hx. apply Hother.
        -- intros ->. apply Hnin. right; right; by right.
        -- intros ->. apply HpB. by right.
        -- intros ->. by apply HnB.
Qed.

Lemma links_changed_3 h h' x1 x2 x3 :
  (forall x, x <> x1 -> x <> x2 -> x <> x3 -> h' !! x = h !! x) ->
  (forall o, h !! x1 = Some o -> exists o', h' !! x1 = Some o' /\ same_but_links o o') ->
  (forall o, h !! x2 = Some o -> exists o', h' !! x2 = Some o' /\ same_but_links o o') ->
  (forall o, h !! x3 = Some o -> exists o', h' !! x3 = Some o' /\ same_but_links o o') ->
  links_changed h h'.
Proof.
  intros Hother H1 H2 H3 x o Hx.
  destruct (decide (x = x1)) as [->|?]; [by apply H1|].
  destruct (decide (x = x2)) as [->|?]; [by apply H2|].
  destruct (decide (x = x3)) as [->|?]; [by apply H3|].
  exists o. rewrite Hother by done. split; [done|apply same_but_links_refl].
Qed.

Lemma list_ok_cell a h hd tl L x :
  list_ok a h hd tl L -> x ∈ hd :: L.*1 ++ [tl] -> exists xl, h !! x = Some (OLeaf xl).
Proof.
  intros Hok Hx. apply elem_of_cons in Hx as [->|Hx].
  { destruct (list_head _ _ _ _ _ Hok) as (hl & ? & _). eauto. }
  apply elem_of_app in Hx as [Hx|Hx].
  - apply list_elem_of_fmap in Hx as (y & -> & Hy).
    destruct (list_leaf_cell _ _ _ _ _ _ Hok Hy) as (lf & ? & _). eauto.
  - apply list_elem_of_singleton in Hx as ->.
    destruct (list_tail _ _ _ _ _ Hok) as (tll & ? & _). eauto.
Qed.

(** Splicing the cell of a new element into the order list, between the
    elements below it and the elements above it. *)
Lemma splice_list_ok a h hd tl L1 L2 A p leaf lf e :
  list_ok a h hd tl (L1 ++ L2) ->
  hd :: L1.*1 = A ++ [p] ->
  h !! leaf = Some (OLeaf lf) -> leaf_cell h leaf e -> in_alphabet a e = true ->
  leaf ∉ hd :: (L1 ++ L2).*1 ++ [tl] ->
  Forall (fun x => lex_ltb (key x) (digits e) = true) L1 ->
  Forall (fun y => lex_ltb (digits e) (key y) = true) L2 ->
  exists h',
    AddAfter h (Some leaf) (Some p) = Ok h' /\
    list_ok a h' hd tl (L1 ++ (leaf, e) :: L2) /\
    links_changed h h' /\ length h' = length h.
Proof.
  intros Hok HA Hleaf Hcell He Hnin Hlow Hhigh.
  assert (Hchain : hd :: (L1 ++ L2).*1 ++ [tl] = A ++ p :: (L2.*1 ++ [tl])).
  { rewrite fmap_app, <- app_assoc, app_comm_cons, HA, <- app_assoc. done. }
  destruct (L2.*1 ++ [tl]) as [|n B] eqn:HB; [by destruct (L2.*1)|].
  pose proof (list_linked _ _ _ _ _ Hok) as Hl. rewrite Hchain in Hl.
  pose proof (list_nodup _ _ _ _ _ Hok) as Hnd. rewrite Hchain in Hnd.
  pose proof Hnin as Hnin'. rewrite Hchain in Hnin'.
  assert (Hp : exists pl, h !! p = Some (OLeaf pl)).
  { apply (list_ok_cell _ _ _ _ _ _ Hok). rewrite Hchain. apply elem_of_app. right. by left. }
  assert (Hn : exists nl, h !! n = Some (OLeaf nl)).
  { apply (list_ok_cell _ _ _ _ _ _ Hok). rewrite Hchain. apply elem_of_app. right.
    right. by left. }
  destruct Hp as [pl Hp], Hn as [nl Hn].
  assert (Hnext : next pl = Some n).
  { apply linked_link in Hl. destruct Hl as (xl & yl & Hx & _ & Hnx & _). congruence. }
  assert (Hlp : leaf <> p).
  { intros ->. apply Hnin'. apply elem_of_app. right. by left. }
  assert (Hln : leaf <> n).
  { intros ->. apply Hnin'. apply elem_of_app. right. right. by left. }
  assert (Hpn : p <> n).
  { intros ->. apply NoDup_app in Hnd as (_ & _ & Hnd). apply NoDup_cons in Hnd as [Hnd _].
    apply Hnd. by left. }
  destruct (AddAfter_spec h leaf p n lf pl nl Hleaf Hp Hn Hnext Hlp Hln Hpn)
    as (h' & Hrun & Hlen & Hleaf' & Hp' & Hn' & Hother).
  assert (Hch : links_changed h h').
  { apply (links_changed_3 h h' leaf p n Hother); intros o Ho; eexists; (split; [eassumption|]).
    - rewrite Hleaf in Ho. by injection Ho as <-.
    - rewrite Hp in Ho. by injection Ho as <-.
    - rewrite Hn in Ho. by injection Ho as <-. }
  exists h'. split_and!; try done.
  assert (Hchain' : hd :: (L1 ++ (leaf, e) :: L2).*1 ++ [tl] = A ++ p :: leaf :: n :: B).
  { rewrite fmap_app, fmap_cons, <- app_assoc, app_comm_cons, HA, <- !app_assoc. simpl.
    by rewrite HB. }
  split.
  - destruct (list_head _ _ _ _ _ Hok) as (hl & Hh & Hh1 & Hh2).
    destruct (Hch _ _ Hh) as ([nd|hl'] & Hh' & Hs); [done|].
    destruct Hs as (_ & E1 & E2). exists hl'. by rewrite <- E1, <- E2.
  - destruct (list_tail _ _ _ _ _ Hok) as (tll & Ht & Ht1 & Ht2).
    destruct (Hch _ _ Ht) as ([nd|tl'] & Ht' & Hs); [done|].
    destruct Hs as (_ & E1 & E2). exists tl'. by rewrite <- E1, <- E2.
  - rewrite Hchain'. by apply (splice_linked h h' A p n B leaf lf pl nl).
  - rewrite Hchain'.
    assert (Hperm : A ++ p :: leaf :: n :: B ≡ₚ leaf :: (A ++ p :: n :: B)).
    { change (p :: leaf :: n :: B) with ([p] ++ leaf :: n :: B).
      change (p :: n :: B) with ([p] ++ n :: B).
      rewrite !app_assoc. by rewrite <- Permutation_middle. }
    rewrite Hperm. apply NoDup_cons. done.
  - pose proof (list_leaves _ _ _ _ _ Hok) as Hlv.
    apply Forall_app in Hlv as [Hlv1 Hlv2].
    apply Forall_app. split; [|apply Forall_cons; split].
    + eapply Forall_impl; [exact Hlv1|]. intros x [Hx ?]. split; [|done].
      by apply (leaf_cell_links h).
    + split; [|done]. by apply (leaf_cell_links h).
    + eapply Forall_impl; [exact Hlv2|]. intros x [Hx ?]. split; [|done].
      by apply (leaf_cell_links h).
  - pose proof (list_sorted _ _ _ _ _ Hok) as Hs.
    apply StronglySorted_app in Hs as (H12 & H1 & H2).
    apply StronglySorted_app. split_and!; try done.
    + intros x1 x2 Hx1 Hx2. apply elem_of_cons in Hx2 as [->|Hx2]; [|by apply H12].
      rewrite Forall_forall in Hlow. by apply Hlow.
    + apply StronglySorted_cons. split; [|done]. done.
Qed.

(** ** Insertion keeps the invariant *)

Lemma linked_frame_eq h h' ls :
  linked h ls -> (forall x, x ∈ ls -> h' !! x = h !! x) -> linked h' ls.
Proof.
  intros Hl Heq. destruct ls as [|n B]; [done|].
  apply (linked_frame_cons h); [done| |].
  - apply fwd_same_eq, Heq. by left.
  - intros x Hx. apply Heq. by right.
Qed.

Lemma leaf_cell_frame h h' l s :
  leaf_cell h l s -> (forall x lf, h !! x = Some (OLeaf lf) -> h' !! x = Some (OLeaf lf)) ->
  leaf_cell h' l s.
Proof. intros (lf & Hlf & H) Heq. exists lf. split; [by apply Heq|done]. Qed.

Lemma list_ok_frame a h h' hd tl L :
  list_ok a h hd tl L ->
  (forall x lf, h !! x = Some (OLeaf lf) -> h' !! x = Some (OLeaf lf)) ->
  list_ok a h' hd tl L.
Proof.
  intros Hok Heq. split.
  - destruct (list_head _ _ _ _ _ Hok) as (hl & Hh & ?). exists hl. split; [by apply Heq|done].
  - destruct (list_tail _ _ _ _ _ Hok) as (tll & Ht & ?). exists tll. split; [by apply Heq|done].
  - apply (linked_frame_eq h); [apply (list_linked _ _ _ _ _ Hok)|].
    intros x Hx. destruct (list_ok_cell _ _ _ _ _ _ Hok Hx) as (xl & Hxl).
    by rewrite Hxl, (Heq _ _ Hxl).
  - apply (list_nodup _ _ _ _ _ Hok).
  - eapply Forall_impl; [apply (list_leaves _ _ _ _ _ Hok)|].
    intros x [Hx ?]. split; [|done]. by apply (leaf_cell_frame h).
  - apply (list_sorted _ _ _ _ _ Hok).
Qed.

Lemma tree_ok_perm a h r L L' P P' :
  (forall x, x ∈ L <-> x ∈ L') -> (forall q, q ∈ P <-> q ∈ P') ->
  tree_ok a h r L P -> tree_ok a h r L' P'.
Proof.
  intros HL HP [H1 H2 H3 H4 H5]. split; try done.
  - intros l s Hl. apply H1. by apply HL.
  - intros p n Hp. specialize (H2 p n Hp). unfold node_ok in *.
    destruct (h !! n) as [[nd|lf]|]; try done.
    + destruct H2 as (? & ? & ? & [?|(q & Hq & ?)]); split_and!; try done; [by left|].
      right. exists q. split; [by apply HP|done].
    + destruct H2 as (s & Hs & ?). exists s. split; [by apply HL|done].
Qed.

Lemma addNode_nil_root fuel h t n s rn :
  pointer s = None -> newRootNode (capacity t) = Ok rn ->
  addNode fuel h t n s =
  addNode fuel (h ++ [ONode rn]) (set_root (Some (length h)) t) n
          (set_pointer (Some (length h)) s).
Proof. intros Hp Hr. unfold addNode. rewrite Hp, Hr. reflexivity. Qed.

Lemma insert_unfold fuel h t e s :
  IsPrefixFree (digitizer t) = true ->
  find fuel h t e = Ok (Unmatched, s) ->
  insert fuel h t e =
  let leaf := length h in
  let h1 := h ++ [OLeaf newLeafNode] in
  let* h2 := SetValue h1 (Some leaf) (Some e) in
  let* (h3, t1, s1) := addNode fuel h2 t (Some leaf) s in
  let* (b, s2) := moveToPredecessor fuel h3 e s1 Matched in
  let* h4 := (if b then AddAfter h3 (Some leaf) (pointer s2)
              else AddAfter h3 (Some leaf) (head t1)) in
  Ok (h4, set_size (size t1 + 1) t1, Some leaf, None).
Proof. intros Hpf Hf. unfold insert. rewrite Hf, Hpf. reflexivity. Qed.

Lemma insert_Matched fuel h t e s :
  find fuel h t e = Ok (Matched, s) ->
  insert fuel h t e = Ok (h, t, None, Some (PrefixViolation e)).
Proof. intros Hf. unfold insert. rewrite Hf. reflexivity. Qed.

Lemma key_length_le L x : x ∈ L -> (length (key x) <= max_list (length ∘ key <$> L))%nat.
Proof.
  intros Hx. apply max_list_elem_of_le. apply list_elem_of_fmap. by exists x.
Qed.

Lemma set_root_same t r : root t = Some r -> set_root (Some r) t = t.
Proof. destruct t. simpl. by intros ->. Qed.

Lemma SetValue_new_leaf (h : heap) e :
  SetValue (h ++ [OLeaf newLeafNode]) (Some (length h)) (Some e) =
  Ok (h ++ [OLeaf (mkLeafNode (set_element (Some e) (newNode 0)) None None false false)]).
Proof.
  unfold SetValue. rewrite (store_eq _ _ _ _ (lookup_alloc_new h _)). f_equal.
  replace (length h) with (length h + 0)%nat at 1 by lia.
  by rewrite insert_app_r.
Qed.

(** The path of a new element: what [addNode] leaves behind. *)
Lemma addNode_new a h t L e s fuel :
  trie_inv a h t L -> in_alphabet a e = true -> at_gap a h t e s ->
  (length (digits e) <= fuel)%nat ->
  exists h3 r s1 par,
    addNode fuel
      (h ++ [OLeaf (mkLeafNode (set_element (Some e) (newNode 0)) None None false false)])
      t (Some (length h)) s = Ok (h3, set_root (Some r) t, s1) /\
    (root t = None \/ root t = Some r) /\
    tree_ok a h3 r ((length h, e) :: L) (key <$> ((length h, e) :: L)) /\
    pointer s1 = Some (length h) /\
    branchPosition s1 = Z.of_nat (length (digits e)) /\
    sdigitizer s1 = NewStringDigitizer a /\
    h3 !! length h =
      Some (map_node (set_parent (Some par))
              (OLeaf (mkLeafNode (set_element (Some e) (newNode 0)) None None false false))) /\
    (forall x lf, h !! x = Some (OLeaf lf) -> h3 !! x = Some (OLeaf lf)) /\
    (length h < length h3)%nat.
Proof.
  intros Hinv He (Hd & k & Hb & Hk & Hgap) Hfuel.
  pose proof (inv_alphabet _ _ _ _ Hinv) as Ha.
  pose proof (inv_digitizer _ _ _ _ Hinv) as Hdig.
  pose proof (inv_capacity _ _ _ _ Hinv) as Hcap.
  pose proof (inv_tree _ _ _ _ Hinv) as Htree.
  set (lf0 := mkLeafNode (set_element (Some e) (newNode 0)) None None false false).
  set (leaf := length h). set (h2 := h ++ [OLeaf lf0]).
  assert (Hleaf2 : h2 !! leaf = Some (OLeaf lf0)) by apply lookup_alloc_new.
  destruct (root t) as [r|] eqn:Hr.
  - destruct Hgap as (cur & nd & Hp & Hw & Hcur & Hc).
    destruct (tree_ok_alloc a h r L _ (OLeaf lf0) Htree) as [Hok2 Hfresh2]. fold h2 in Hok2, Hfresh2.
    destruct (addNode_core a r L (key <$> ((leaf, e) :: L)) e t leaf lf0 fuel h2 s k cur nd)
      as (h3 & s1 & par & Hrun & Hok3 & Hp1 & Hb1 & Hd1 & Hleaf3 & Hfr & Hlen); try done.
    + rewrite fmap_cons. by left.
    + eapply tree_ok_weaken; [|exact Hok2]. intros q Hq. rewrite fmap_cons. by right.
    + unfold h2. by rewrite (walk_alloc a h r L (key <$> L)).
    + by apply lookup_alloc_old.
    + unfold h2. by rewrite (child_at_alloc _ _ _ _ _ Hcur).
    + exists h3, r, s1, par. rewrite (set_root_same t r Hr). split_and!; try done.
      * by right.
      * congruence.
      * intros x lf Hx. apply Hfr; [by apply lookup_alloc_old|].
        apply lookup_lt_Some in Hx. unfold leaf. lia.
      * unfold h2 in Hlen. rewrite length_app in Hlen. simpl in Hlen. lia.
  - destruct Hgap as [Hp ->]. subst L.
    set (rn := mkNode None (replicate (Z.to_nat (a + 1)) None) 0 None true).
    assert (Hrn : newRootNode (capacity t) = Ok rn).
    { unfold newRootNode. rewrite Hcap. destruct (a + 1 <? 0) eqn:E; [lia|done]. }
    rewrite (addNode_nil_root fuel h2 t (Some leaf) s rn Hp Hrn).
    set (r := length h2). set (h3 := h2 ++ [ONode rn]).
    pose proof (tree_ok_fresh_root a h2 (key <$> [(leaf, e)]) Ha) as Hok3.
    fold rn in Hok3. fold h3 r in Hok3.
    destruct (addNode_core a r [] (key <$> [(leaf, e)]) e (set_root (Some r) t) leaf lf0 fuel h3
                (set_pointer (Some r) s) 0 r rn)
      as (h4 & s1 & par & Hrun & Hok4 & Hp1 & Hb1 & Hd1 & Hleaf4 & Hfr & Hlen); try done.
    + by left.
    + apply lookup_alloc_new.
    + apply (child_at_childless h3 r (ONode rn)); [apply lookup_alloc_new|].
      intros i x. simpl. apply replicate_None_lookup.
    + by apply lookup_alloc_old.
    + intros p Hp'. pose proof (tree_nodes _ _ _ _ _ Hok3 _ _ Hp') as Hn.
      unfold node_ok in Hn. unfold h3 in Hn. rewrite (lookup_alloc_old _ _ _ _ Hleaf2) in Hn.
      destruct Hn as (s0 & Hs0 & _). by apply elem_of_nil in Hs0.
    + exists h4, r, s1, par. split_and!; try done.
      * by left.
      * by rewrite Hd1.
      * intros x lf Hx. apply Hfr.
        -- unfold h3, h2. by do 2 apply lookup_alloc_old.
        -- apply lookup_lt_Some in Hx. unfold leaf. lia.
      * unfold h3, h2 in Hlen. rewrite !length_app in Hlen. simpl in Hlen. lia.
Qed.

Lemma lex_gt_of_not_le p q : p <> q -> lex_ltb p q = false -> lex_ltb q p = true.
Proof. intros Hne Hlt. destruct (lex_ltb_total p q) as [H|[H|H]]; [congruence|done|done]. Qed.

Lemma chain_allocated a h hd tl L x :
  list_ok a h hd tl L -> x ∈ hd :: L.*1 ++ [tl] -> (x < length h)%nat.
Proof.
  intros Hok Hx. destruct (list_ok_cell _ _ _ _ _ _ Hok Hx) as (xl & Hxl).
  by eapply lookup_lt_Some.
Qed.

Lemma insert_new a h t L e fuel s :
  trie_inv a h t L -> in_alphabet a e = true ->
  find fuel h t e = Ok (Unmatched, s) -> at_gap a h t e s ->
  (forall x, x ∈ L -> key x <> digits e) ->
  (fuel_for a L e <= fuel)%nat ->
  exists h' t' L1 L2,
    insert fuel h t e = Ok (h', t', Some (length h), None) /\
    L = L1 ++ L2 /\
    trie_inv a h' t' (L1 ++ (length h, e) :: L2) /\
    Forall (fun x => lex_ltb (key x) (digits e) = true) L1 /\
    Forall (fun y => lex_ltb (digits e) (key y) = true) L2.
Proof.
  intros Hinv He Hfind Hgap Hnew Hfuel. unfold fuel_for in Hfuel.
  pose proof (inv_alphabet _ _ _ _ Hinv) as Ha.
  pose proof (inv_digitizer _ _ _ _ Hinv) as Hdig.
  destruct (inv_list _ _ _ _ Hinv) as (hd & tl & Hhd & Htl & Hlist).
  rewrite (insert_unfold fuel h t e s); [|by rewrite Hdig|done]. cbv zeta.
  rewrite SetValue_new_leaf. rsimpl.
  destruct (addNode_new a h t L e s fuel Hinv He Hgap)
    as (h3 & r & s1 & par & -> & Hroot & Hok3 & Hp1 & Hb1 & Hd1 & Hleaf3 & Hfr & Hlen3); [lia|].
  rsimpl. set (leaf := length h) in *. set (Lt := (leaf, e) :: L) in *.
  assert (Hcells : forall x, x ∈ Lt -> leaf_cell h3 x.1 x.2).
  { intros x Hx. apply elem_of_cons in Hx as [->|Hx].
    - eexists. split; [exact Hleaf3|]. done.
    - apply (leaf_cell_frame h); [|done]. apply (list_leaf_cell _ _ _ _ _ _ Hlist Hx). }
  assert (Hlist3 : list_ok a h3 hd tl L) by (by apply (list_ok_frame a h)).
  assert (Hnin : leaf ∉ hd :: ([] ++ L).*1 ++ [tl]).
  { intros Hin. apply (chain_allocated _ _ _ _ _ _ Hlist) in Hin. unfold leaf in Hin. lia. }
  assert (Hleafcell : leaf_cell h3 leaf e) by (apply (Hcells (leaf, e)); by left).
  assert (Hfinish : forall h4 L1 L2, L = L1 ++ L2 ->
            list_ok a h4 hd tl (L1 ++ (leaf, e) :: L2) -> links_changed h3 h4 ->
            trie_inv a h4 (set_size (size (set_root (Some r) t) + 1) (set_root (Some r) t))
                     (L1 ++ (leaf, e) :: L2)).
  { intros h4 L1 L2 HL Hlist4 Hch. split; simpl; try done.
    - apply (inv_capacity _ _ _ _ Hinv).
    - rewrite (inv_size _ _ _ _ Hinv), HL. unfold len. rewrite !length_app. simpl. lia.
    - eauto.
    - destruct (tree_ok_links a h3 h4 r Lt _ Hok3 Hch) as [Hok4 _].
      eapply tree_ok_perm; [| |exact Hok4].
      + intros x. unfold Lt. rewrite HL. rewrite !elem_of_app, !elem_of_cons, !elem_of_app. tauto.
      + intros q. unfold Lt. rewrite HL.
        rewrite !fmap_app, !fmap_cons, !elem_of_app, !elem_of_cons, !fmap_app, !elem_of_app. tauto. }
  assert (HfuelD : (max_list (length ∘ key <$> Lt) < fuel)%nat).
  { unfold Lt. rewrite fmap_cons. simpl. unfold key at 1. simpl. lia. }
  assert (Halpha3 : forall x, x ∈ Lt -> in_alphabet a x.2 = true).
  { intros x Hx. apply elem_of_cons in Hx as [->|Hx]; [done|].
    apply (list_in_alphabet _ _ _ _ _ _ Hlist Hx). }
  assert (Hwleaf : walk h3 r (take (length (digits e)) (digits e)) = Some leaf).
  { rewrite firstn_all. apply (tree_stored _ _ _ _ _ Hok3). by left. }
  assert (Hnlf : forall j, (length (digits e) < j < length (digits e))%nat ->
                           no_left_fork h3 r e j) by (intros j Hj; lia).
  destruct (moveToPredecessor_spec (h:=h3) (D:=max_list (length ∘ key <$> Lt))
              Ha Hok3 Hcells Halpha3 (key_length_le Lt) He fuel s1 (length (digits e)) leaf
              Matched Hp1 Hb1 Hd1 Hwleaf (le_n _) Hnlf (or_introl eq_refl))
    as [(s2 & -> & Hleast)|(s2 & lp & sp & -> & Hp2 & Hlp & Hlt & Hgreatest)].
  1-3: try done; try lia.
  - (* no smaller element: the new leaf goes right after the head *)
    rsimpl. rewrite Hhd.
    destruct (splice_list_ok a h3 hd tl [] L [] hd leaf _ e Hlist3 eq_refl Hleaf3 Hleafcell He Hnin)
      as (h4 & -> & Hlist4 & Hch & Hlen4).
    + constructor.
    + apply Forall_forall. intros y Hy. apply lex_gt_of_not_le; [by apply Hnew|].
      apply Hleast. by right.
    + rsimpl. exists h4. eexists. exists [], L. split_and!; try done.
      * by apply (Hfinish h4 [] L).
      * apply Forall_forall. intros y Hy. apply lex_gt_of_not_le; [by apply Hnew|].
        apply Hleast. by right.
  - (* the new leaf goes right after its predecessor *)
    rsimpl. rewrite Hp2.
    assert (HlpL : (lp, sp) ∈ L).
    { apply elem_of_cons in Hlp as [[= -> ->]|Hlp]; [|done].
      by rewrite lex_ltb_irrefl in Hlt. }
    destruct (list_elem_of_split _ _ HlpL) as (L1 & L2 & HL).
    pose proof (list_sorted _ _ _ _ _ Hlist) as Hsorted. rewrite HL in Hsorted.
    apply StronglySorted_app in Hsorted as (H12 & H1 & H2).
    apply StronglySorted_cons in H2 as [Hsp2 H2].
    assert (Hlow : Forall (fun x => lex_ltb (key x) (digits e) = true) (L1 ++ [(lp, sp)])).
    { apply Forall_app. split; [|by repeat constructor].
      apply Forall_forall. intros x Hx.
      apply (lex_ltb_trans _ (key (lp, sp))); [|done]. apply H12; [done|by left]. }
    assert (Hhigh : Forall (fun y => lex_ltb (digits e) (key y) = true) L2).
    { apply Forall_forall. intros y Hy.
      assert (HyL : y ∈ L) by (rewrite HL; apply elem_of_app; right; by right).
      apply lex_gt_of_not_le; [by apply Hnew|].
      destruct (lex_ltb (key y) (digits e)) eqn:E; [|done].
      rewrite Forall_forall in Hsp2. specialize (Hsp2 y Hy).
      assert (Hg : lex_ltb (digits sp) (key y) = false) by (apply Hgreatest; [by right|done]).
      unfold key in Hsp2 at 1. simpl in Hsp2. congruence. }
    assert (HL' : L = (L1 ++ [(lp, sp)]) ++ L2) by (by rewrite <- app_assoc).
    rewrite HL' in Hlist3, Hnin.
    assert (HA : hd :: (L1 ++ [(lp, sp)]).*1 = (hd :: L1.*1) ++ [lp]) by (by rewrite fmap_app).
    destruct (splice_list_ok a h3 hd tl (L1 ++ [(lp, sp)]) L2 (hd :: L1.*1) lp leaf _ e
                Hlist3 HA Hleaf3 Hleafcell He Hnin Hlow Hhigh)
      as (h4 & -> & Hlist4 & Hch & Hlen4).
    rsimpl. exists h4. eexists. exists (L1 ++ [(lp, sp)]), L2. split_and!; try done.
    by apply (Hfinish h4 (L1 ++ [(lp, sp)]) L2).
Qed.

(** ** A new trie, and [Add] *)

Lemma NewTrie_inv a h0 h t :
  0 <= a -> NewTrie h0 a = Ok (h, t) -> trie_inv a h t [] /\ root t = None.
Proof.
  intros Ha Hnew. unfold NewTrie, newTrie, newTrieWithDigitizer, alloc in Hnew.
  set (hd := length h0) in *. set (h1 := h0 ++ [OLeaf newHeadNode]) in *.
  set (tl := length h1) in *. set (h2 := h1 ++ [OLeaf newTailNode]) in *.
  assert (Htl : tl = S hd) by (unfold tl, h1, hd; rewrite length_app; simpl; lia).
  assert (E1 : h2 !! hd = Some (OLeaf newHeadNode)).
  { unfold h2. apply lookup_alloc_old. apply lookup_alloc_new. }
  rewrite (SetNext_eq _ _ _ _ E1) in Hnew. rsimpl.
  set (h3 := <[hd := OLeaf (set_next (Some tl) newHeadNode)]> h2) in *.
  assert (E2 : h3 !! tl = Some (OLeaf newTailNode)).
  { unfold h3. rewrite list_lookup_insert_ne by lia. apply lookup_alloc_new. }
  rewrite (SetNext_eq _ _ _ _ E2) in Hnew. rsimpl. injection Hnew as <- <-.
  set (h4 := <[tl := OLeaf (set_next (Some hd) newTailNode)]> h3).
  assert (E3 : h4 !! hd = Some (OLeaf (set_next (Some tl) newHeadNode))).
  { unfold h4. rewrite list_lookup_insert_ne by lia. unfold h3.
    rewrite list_lookup_insert_eq; [done|]. by eapply lookup_lt_Some. }
  assert (E4 : h4 !! tl = Some (OLeaf (set_next (Some hd) newTailNode))).
  { unfold h4. rewrite list_lookup_insert_eq; [done|]. by eapply lookup_lt_Some. }
  split; [|done]. split; simpl; try done.
  exists hd, tl. split_and!; try done. split; simpl.
  - eexists. split; [exact E3|done].
  - eexists. split; [exact E4|done].
  - split; [|done]. do 2 eexists. split_and!; [exact E3|exact E4|done|]. right. done.
  - apply NoDup_cons. split; [|apply NoDup_singleton].
    intros H%list_elem_of_singleton. lia.
  - constructor.
  - constructor.
Qed.

(** What [Add] does to a trie that satisfies the invariant: a duplicate (up
    to case) is refused and nothing changes; any other string over the
    alphabet is inserted at its place in the order. *)
Lemma Add_inv a h t L e fuel :
  trie_inv a h t L -> in_alphabet a e = true -> (fuel_for a L e <= fuel)%nat ->
  ((exists x, x ∈ L /\ key x = digits e) /\
   Add fuel h t e = Ok (h, t, Some (PrefixViolation e))) \/
  ((forall x, x ∈ L -> key x <> digits e) /\
   exists h' t' L1 L2,
     Add fuel h t e = Ok (h', t', None) /\ L = L1 ++ L2 /\
     trie_inv a h' t' (L1 ++ (length h, e) :: L2) /\
     Forall (fun x => lex_ltb (key x) (digits e) = true) L1 /\
     Forall (fun y => lex_ltb (digits e) (key y) = true) L2).
Proof.
  intros Hinv He Hfuel. unfold Add.
  destruct (find_spec a h t L e fuel Hinv He) as
    [(l & s0 & s & Hfind & Hl & Hkey & _)|(s & Hfind & Hgap & Hnew)].
  { unfold fuel_for in Hfuel. lia. }
  - left. split; [by exists (l, s0)|].
    by rewrite (insert_Matched fuel h t e s Hfind).
  - right. split; [done|].
    destruct (insert_new a h t L e fuel s Hinv He Hfind Hgap Hnew Hfuel)
      as (h' & t' & L1 & L2 & -> & HL & Hinv' & Hlow & Hhigh).
    exists h', t', L1, L2. done.
Qed.

(** ** Detaching a child without children *)

Section Detach.
Context {a : Z} {h : heap} {r : nat} {L : list (nat * string)} {P : list (list Z)}.
Context {pc : list Z} {cur : nat} {nd : node} {d : Z} {c : nat}.
Hypothesis Hdet : detachable a h r L P pc cur nd d c.

Let Hok := det_ok _ _ _ _ _ _ _ _ _ _ Hdet.
Let Hpc := det_pc _ _ _ _ _ _ _ _ _ _ Hdet.
Let Hcur := det_cur _ _ _ _ _ _ _ _ _ _ Hdet.
Let Hchild := det_child _ _ _ _ _ _ _ _ _ _ Hdet.
Let Hchildless := det_childless _ _ _ _ _ _ _ _ _ _ Hdet.

Local Abbreviation h' := (detach h cur nd d).

Lemma detach_slot : 0 <= d /\ children nd !! Z.to_nat d = Some (Some c).
Proof.
  pose proof Hchild as H. apply child_at_Some in H as (o & Ho & Hd & Hlk).
  rewrite Hcur in Ho. injection Ho as <-. done.
Qed.

Lemma detach_lookup_cur :
  h' !! cur = Some (ONode (set_children (<[Z.to_nat d := None]> (children nd))
                                        (numChildren nd - 1) nd)).
Proof. unfold detach. rewrite list_lookup_insert_eq; [done|]. by eapply lookup_lt_Some. Qed.

Lemma detach_RemoveChildWithIndexOf :
  RemoveChildWithIndexOf h (Some cur) d = Ok (true, h').
Proof.
  destruct detach_slot as [Hd Hslot]. pose proof (lookup_lt_len _ _ _ Hslot) as Hlt.
  rewrite Z2Nat.id in Hlt by done.
  unfold RemoveChildWithIndexOf, checkBounds. rewrite (deref_eq _ _ _ Hcur). rsimpl.
  replace (d <? 0) with false by (symmetry; apply Z.ltb_ge; lia).
  rewrite Z.gtb_ltb.
  replace (len (children nd) <? d) with false by (symmetry; apply Z.ltb_ge; lia).
  simpl.
  assert (Hidx : index (children nd) d = Ok (Some c)).
  { apply index_Ok. split; [lia|done]. }
  rewrite Hidx. rsimpl. by rewrite Hcur.
Qed.

Lemma detach_child_cur x :
  child_at h' cur x = if decide (x = d) then None else child_at h cur x.
Proof.
  destruct detach_slot as [Hd Hslot]. apply lookup_lt_Some in Hslot.
  unfold child_at. rewrite detach_lookup_cur, Hcur. rsimpl.
  destruct (decide (x = d)) as [->|Hne].
  - replace (d <? 0) with false by (symmetry; apply Z.ltb_ge; lia).
    by rewrite list_lookup_insert_eq.
  - destruct (x <? 0) eqn:E; [done|]. apply Z.ltb_ge in E.
    rewrite list_lookup_insert_ne; [done|]. lia.
Qed.

Lemma detach_walk_old q :
  ~ (pc ++ [d]) `prefix_of` q -> walk h' r q = walk h r q.
Proof.
  induction q as [|x q IH] using rev_ind; intros Hq; [done|].
  rewrite !walk_snoc, IH by (intros Hp; apply Hq; by apply prefix_app_r).
  destruct (walk h r q) as [m|] eqn:Hm; [|done].
  destruct (decide (m = cur)) as [->|Hne].
  - assert (q = pc) as -> by (eapply (tree_inj _ _ _ _ _ Hok); eauto).
    rewrite detach_child_cur. destruct (decide (x = d)) as [->|]; [|done].
    by destruct Hq.
  - unfold child_at, detach. by rewrite list_lookup_insert_ne.
Qed.

Lemma detach_walk_gone q : (pc ++ [d]) `prefix_of` q -> walk h' r q = None.
Proof.
  intros [k ->]. rewrite walk_app, walk_snoc.
  rewrite detach_walk_old by apply prefix_snoc_not.
  rewrite Hpc, detach_child_cur. by destruct (decide (d = d)).
Qed.

Lemma detach_walk_Some q n :
  walk h' r q = Some n -> ~ (pc ++ [d]) `prefix_of` q /\ walk h r q = Some n.
Proof.
  intros Hq. destruct (decide ((pc ++ [d]) `prefix_of` q)) as [Hp|Hn].
  - by rewrite detach_walk_gone in Hq.
  - split; [done|]. by rewrite <- detach_walk_old.
Qed.

Lemma detach_tree_ok L' :
  (forall x, x ∈ L' -> x ∈ L) ->
  (forall l s, (l, s) ∈ L -> (l, s) ∈ L' \/ (pc ++ [d]) `prefix_of` digits s) ->
  (forall l s, (l, s) ∈ L' -> ~ (pc ++ [d]) `prefix_of` digits s) ->
  tree_ok a h' r L' P.
Proof.
  intros Hsub Hcover Hkeep. destruct detach_slot as [Hd Hslot]. split.
  - intros l s Hl. rewrite detach_walk_old by (by eapply Hkeep).
    apply (tree_stored _ _ _ _ _ Hok). by apply Hsub.
  - intros q n Hq. apply detach_walk_Some in Hq as [Hnp Hq].
    pose proof (tree_nodes _ _ _ _ _ Hok _ _ Hq) as Hn. unfold node_ok in *.
    destruct (decide (n = cur)) as [->|Hne].
    + rewrite detach_lookup_cur. rewrite Hcur in Hn. rsimpl.
      destruct Hn as (H1 & H2 & H3 & H4). unfold len in *.
      rewrite length_insert, (occupied_clear _ _ _ Hslot). split_and!; try tauto; lia.
    + unfold detach. rewrite list_lookup_insert_ne by done.
      destruct (h !! n) as [[nd1|lf1]|]; try done.
      destruct Hn as (s & Hs & ->). exists s. split; [|done].
      destruct (Hcover _ _ Hs) as [?|?]; [done|]. by destruct Hnp.
  - intros p x n Hp. apply detach_walk_Some in Hp as [Hnp Hp].
    destruct (tree_parent _ _ _ _ _ Hok _ _ _ Hp) as (o & m & Ho & Hpar & Hm).
    assert (Hwp : walk h' r p = Some m).
    { rewrite detach_walk_old; [done|]. intros Hpre. apply Hnp. by apply prefix_app_r. }
    destruct (decide (n = cur)) as [->|Hne].
    + eexists _, m. split; [apply detach_lookup_cur|]. split; [|done].
      rewrite Hcur in Ho. injection Ho as <-. done.
    + exists o, m. unfold detach. by rewrite list_lookup_insert_ne.
  - destruct (tree_root _ _ _ _ _ Hok) as (o & Ho & Hpar).
    destruct (decide (r = cur)) as [E|Hne].
    + eexists. split; [rewrite E; apply detach_lookup_cur|].
      rewrite E, Hcur in Ho. injection Ho as <-. done.
    + exists o. unfold detach. by rewrite list_lookup_insert_ne.
  - intros p q n Hp Hq.
    apply detach_walk_Some in Hp as [_ Hp], Hq as [_ Hq].
    by eapply (tree_inj _ _ _ _ _ Hok).
Qed.
End Detach.

(** ** Taking a cell out of the order list *)

Lemma LeafNode_Remove_spec h l p n lf pl nl :
  h !! l = Some (OLeaf lf) -> h !! p = Some (OLeaf pl) -> h !! n = Some (OLeaf nl) ->
  previous lf = Some p -> next lf = Some n -> p <> l -> n <> l -> p <> n ->
  exists h',
    LeafNode_Remove h (Some l) = Ok h' /\ length h' = length h /\
    h' !! p = Some (OLeaf (set_next (Some n) pl)) /\
    h' !! n = Some (OLeaf (set_previous (Some p) nl)) /\
    h' !! l = Some (OLeaf (set_previous None lf)) /\
    forall k, k <> l -> k <> p -> k <> n -> h' !! k = h !! k.
Proof.
  intros Hl Hp Hn Hprev Hnext Hpl Hnl Hpn.
  pose proof (lookup_lt_Some _ _ _ Hl) as Hlt.
  pose proof (lookup_lt_Some _ _ _ Hp) as Hpt.
  pose proof (lookup_lt_Some _ _ _ Hn) as Hnt.
  set (h1 := <[p := OLeaf (set_next (Some n) pl)]> h).
  set (h2 := <[n := OLeaf (set_previous (Some p) nl)]> h1).
  set (h3 := <[l := OLeaf (set_previous None lf)]> h2).
  assert (Hl1 : h1 !! l = Some (OLeaf lf)).
  { unfold h1. by rewrite list_lookup_insert_ne. }
  assert (Hn1 : h1 !! n = Some (OLeaf nl)).
  { unfold h1. by rewrite list_lookup_insert_ne. }
  assert (Hl2 : h2 !! l = Some (OLeaf lf)).
  { unfold h2. by rewrite list_lookup_insert_ne. }
  exists h3. split_and!.
  - unfold LeafNode_Remove. rewrite (deref_leaf_eq _ _ _ Hl). rsimpl.
    rewrite Hprev, Hnext, (SetNext_eq _ _ _ _ Hp). rsimpl. fold h1.
    rewrite (deref_leaf_eq _ _ _ Hl1). rsimpl.
    rewrite Hprev, Hnext, (SetPrevious_eq _ _ _ _ Hn1). rsimpl. fold h2.
    by rewrite (markDeleted_eq _ _ _ Hl2).
  - unfold h3, h2, h1. by rewrite !length_insert.
  - unfold h3, h2. rewrite !list_lookup_insert_ne by done. unfold h1.
    by rewrite list_lookup_insert_eq.
  - unfold h3. rewrite list_lookup_insert_ne by done. unfold h2.
    rewrite list_lookup_insert_eq; [done|]. unfold h1. by rewrite length_insert.
  - unfold h3. rewrite list_lookup_insert_eq; [done|]. unfold h2, h1.
    by rewrite !length_insert.
  - intros k H1 H2 H3. unfold h3, h2, h1. by rewrite !list_lookup_insert_ne.
Qed.

Lemma cons_snoc {A : Type} (x : A) (l : list A) : exists l' y, x :: l = l' ++ [y].
Proof.
  revert x. induction l as [|z l IH]; intros x.
  - by exists [], x.
  - destruct (IH z) as (l' & y & E). exists (x :: l'), y. by rewrite E.
Qed.

Lemma unsplice_list_ok a h hd tl L1 L2 l s0 :
  list_ok a h hd tl (L1 ++ (l, s0) :: L2) ->
  exists h',
    LeafNode_Remove h (Some l) = Ok h' /\
    list_ok a h' hd tl (L1 ++ L2) /\
    links_changed h h' /\ length h' = length h /\
    tombstone h' l ((L2.*1 ++ [tl]) !! 0%nat).
Proof.
  intros Hok.
  destruct (cons_snoc hd (L1.*1)) as (A & p & HA).
  assert (HB : exists n B, L2.*1 ++ [tl] = n :: B).
  { destruct (L2.*1) as [|n B]; simpl; eauto. }
  destruct HB as (n & B & HB).
  assert (Hchain : hd :: (L1 ++ (l, s0) :: L2).*1 ++ [tl] = A ++ p :: l :: n :: B).
  { rewrite fmap_app, fmap_cons, <- app_assoc, app_comm_cons, HA, <- !app_assoc. simpl.
    by rewrite HB. }
  assert (Hchain' : hd :: (L1 ++ L2).*1 ++ [tl] = A ++ p :: n :: B).
  { rewrite fmap_app, <- app_assoc, app_comm_cons, HA, <- !app_assoc. simpl. by rewrite HB. }
  pose proof (list_linked _ _ _ _ _ Hok) as Hl. rewrite Hchain in Hl.
  pose proof (list_nodup _ _ _ _ _ Hok) as Hnd. rewrite Hchain in Hnd.
  assert (Hperm : A ++ p :: l :: n :: B ≡ₚ l :: (A ++ p :: n :: B)).
  { change (p :: l :: n :: B) with ([p] ++ l :: n :: B).
    change (p :: n :: B) with ([p] ++ n :: B).
    rewrite !app_assoc. by rewrite <- Permutation_middle. }
  rewrite Hperm in Hnd. apply NoDup_cons in Hnd as [Hlnin Hnd'].
  pose proof Hnd' as Hnd. apply NoDup_app in Hnd as (_ & HAdis & Hnd).
  apply NoDup_cons in Hnd as [HpB Hnd]. apply NoDup_cons in Hnd as [HnB _].
  rewrite !elem_of_app, !elem_of_cons in Hlnin.
  apply linked_snoc_cons in Hl as [HlA HlB]. simpl in HlB.
  destruct HlB as (Hpl & Hln & HlB).
  destruct Hpl as (pl & lf & Hp & Hlf & Hpnext & Hlprev).
  destruct Hln as (lf' & nl & Hlf' & Hn & Hlnext & Hnprev).
  rewrite Hlf in Hlf'. injection Hlf' as <-.
  assert (Hcell : leaf_cell h l s0 /\ in_alphabet a s0 = true).
  { pose proof (list_leaves _ _ _ _ _ Hok) as Hlv. rewrite Forall_forall in Hlv.
    apply (Hlv (l, s0)). apply elem_of_app. right. by left. }
  destruct Hcell as [(lf' & Hlf' & _ & _ & _ & _ & Hhd & Htl) _].
  rewrite Hlf in Hlf'. injection Hlf' as <-.
  assert (Hprev : previous lf = Some p).
  { destruct Hlprev as [?|[_ ?]]; [done|congruence]. }
  assert (Hpl : p <> l) by (intros ->; apply Hlnin; right; by left).
  assert (Hnl : n <> l) by (intros ->; apply Hlnin; right; right; by left).
  assert (Hpn : p <> n) by (intros ->; apply HpB; by left).
  destruct (LeafNode_Remove_spec h l p n lf pl nl Hlf Hp Hn Hprev Hlnext Hpl Hnl Hpn)
    as (h' & Hrun & Hlen & Hp' & Hn' & Hl' & Hother).
  assert (Hch : links_changed h h').
  { apply (links_changed_3 h h' l p n Hother); intros o Ho; eexists; (split; [eassumption|]).
    - rewrite Hlf in Ho. by injection Ho as <-.
    - rewrite Hp in Ho. by injection Ho as <-.
    - rewrite Hn in Ho. by injection Ho as <-. }
  exists h'. split_and!; try done.
  2:{ eexists. split; [exact Hl'|]. rewrite HB. by split_and!. }
  split.
  - destruct (list_head _ _ _ _ _ Hok) as (hl & Hh & Hh1 & Hh2).
    destruct (Hch _ _ Hh) as ([nd|hl'] & Hh' & Hs); [done|].
    destruct Hs as (_ & E1 & E2). exists hl'. by rewrite <- E1, <- E2.
  - destruct (list_tail _ _ _ _ _ Hok) as (tll & Ht & Ht1 & Ht2).
    destruct (Hch _ _ Ht) as ([nd|tl'] & Ht' & Hs); [done|].
    destruct Hs as (_ & E1 & E2). exists tl'. by rewrite <- E1, <- E2.
  - rewrite Hchain'. apply linked_snoc_cons. split.
    + apply (linked_frame_snoc h); [done| |].
      * intros x Hx. apply Hother.
        -- intros ->. apply Hlnin. by left.
        -- intros ->. apply (HAdis p Hx). by left.
        -- intros ->. apply (HAdis n Hx). right; by left.
      * intros yl Hy. rewrite Hp in Hy. injection Hy as <-. eexists. split; [exact Hp'|done].
    + simpl. split.
      * exists (set_next (Some n) pl), (set_previous (Some p) nl). split_and!; try done.
        by left.
      * apply (linked_frame_cons h); [done| |].
        -- intros xl Hx. rewrite Hn in Hx. injection Hx as <-. eexists.
           split; [exact Hn'|done].
        -- intros x Hx. apply Hother.
           ++ intros ->. apply Hlnin. right; right; by right.
           ++ intros ->. apply HpB. by right.
           ++ intros ->. by apply HnB.
  - by rewrite Hchain'.
  - pose proof (list_leaves _ _ _ _ _ Hok) as Hlv.
    apply Forall_app in Hlv as [Hlv1 Hlv2]. apply Forall_cons in Hlv2 as [_ Hlv2].
    apply Forall_app. split.
    + eapply Forall_impl; [exact Hlv1|]. intros x [Hx ?]. split; [|done].
      by apply (leaf_cell_links h).
    + eapply Forall_impl; [exact Hlv2|]. intros x [Hx ?]. split; [|done].
      by apply (leaf_cell_links h).
  - pose proof (list_sorted _ _ _ _ _ Hok) as Hs.
    apply StronglySorted_app in Hs as (H12 & H1 & H2).
    apply StronglySorted_cons in H2 as [_ H2].
    apply StronglySorted_app. split_and!; try done.
    intros x1 x2 Hx1 Hx2. apply H12; [done|by right].
Qed.

(** ** Pruning the path of a removed element *)

Lemma take_take_app (ds : list Z) j k :
  (j <= k)%nat -> take k ds = take j ds ++ drop j (take k ds).
Proof.
  intros Hjk. rewrite <- (take_drop j (take k ds)) at 1. f_equal.
  rewrite take_take. f_equal. lia.
Qed.

Lemma strict_prefix_take (ds q : list Z) j k d rest :
  (j <= k)%nat -> q = take k ds ++ d :: rest -> strict_prefix (take j ds) q.
Proof.
  intros Hjk ->. rewrite (take_take_app ds j k Hjk), <- app_assoc.
  destruct (drop j (take k ds)) as [|x r0]; simpl; by eexists _, _.
Qed.

Lemma strict_prefix_is_take (p q : list Z) :
  strict_prefix p q -> p = take (length p) q /\ (length p < length q)%nat.
Proof.
  intros (d & k & ->). rewrite take_app_length. split; [done|].
  rewrite length_app. simpl. lia.
Qed.

Section Pruning.
Context {a : Z} {r : nat} {L' : list (nat * string)} {P : list (list Z)}.
Context {t : trie} {s0 : string}.
Hypothesis Ha : 0 <= a.
Hypothesis Hdig : digitizer t = NewStringDigitizer a.
Hypothesis Hs0 : in_alphabet a s0 = true.
Hypothesis Halpha : forall x, x ∈ L' -> in_alphabet a x.2 = true.
Hypothesis Hfresh : forall x, x ∈ L' -> key x <> digits s0.
Hypothesis HP : forall q, q ∈ P -> q = digits s0 \/ q ∈ key <$> L'.

Local Abbreviation ds := (digits s0).

(** The cells on the path of the removed element, above its leaf, are
    inner nodes. *)
Lemma pruned_path_inner h L k n :
  tree_ok a h r L P -> (forall x, x ∈ L -> x ∈ L' \/ key x = ds) ->
  (k < length ds)%nat -> walk h r (take k ds) = Some n ->
  exists nd, h !! n = Some (ONode nd) /\ numChildren nd = occupied (children nd) /\
             (isRoot nd = true <-> k = 0%nat).
Proof.
  intros Hok Hsub Hk Hw. pose proof (tree_nodes _ _ _ _ _ Hok _ _ Hw) as Hn.
  unfold node_ok in Hn. destruct (h !! n) as [[nd|lf]|]; [| |done].
  - exists nd. destruct Hn as (_ & Hnum & Hroot & _). split_and!; try done.
    rewrite Hroot. split.
    + intros E. apply (f_equal length) in E. rewrite length_take in E. simpl in E. lia.
    + by intros ->.
  - exfalso. destruct Hn as (s & Hs & E).
    assert (Hlen : length (digits s) = length ds).
    { destruct (Hsub _ Hs) as [Hin|Hkey]; [|unfold key in Hkey; simpl in Hkey; congruence].
      assert (Hpre : digits s `prefix_of` ds) by (rewrite <- E; apply prefix_take).
      apply (digits_prefix_free a) in Hpre; [congruence|by apply (Halpha (n, s))|done]. }
    rewrite <- E, length_take in Hlen. lia.
Qed.

Lemma remove_loop_spec k :
  forall fuel h n,
    (k < fuel)%nat -> (k < length ds)%nat ->
    tree_ok a h r L' P ->
    walk h r (take k ds) = Some n -> walk h r (take (S k) ds) = None ->
    exists h' k' n',
      remove_loop fuel h t s0 (Z.of_nat k) (Some n) = Ok h' /\
      tree_ok a h' r L' P /\ (k' <= k)%nat /\
      walk h' r (take k' ds) = Some n' /\ walk h' r (take (S k') ds) = None /\
      (k' = 0%nat \/ exists d c, child_at h' n' d = Some c) /\
      (forall x lf, h !! x = Some (OLeaf lf) -> h' !! x = Some (OLeaf lf)).
Proof.
  induction k as [|k IH]; intros fuel h n Hfuel Hk Hok Hw Hgone;
    (destruct fuel as [|f]; [lia|]);
    destruct (pruned_path_inner h L' _ n Hok (fun _ H => or_introl H) Hk Hw) as (nd & Hn & Hnum & Hroot).
  - exists h, 0%nat, n. simpl. rewrite (IsRoot_eq _ _ _ Hn). rsimpl.
    replace (isRoot nd) with true by (symmetry; by apply Hroot).
    split_and!; try done. by left.
  - assert (Hnr : isRoot nd = false).
    { destruct (isRoot nd); [|done]. by destruct Hroot as [Hroot _]; specialize (Hroot eq_refl). }
    cbn [remove_loop]. rewrite (IsRoot_eq _ _ _ Hn). rsimpl. rewrite Hnr.
    rewrite (HasChildren_eq _ _ _ Hn). rsimpl.
    destruct (numChildren nd >? 0) eqn:Hpos.
    + exists h, (S k), n. split_and!; try done. right.
      rewrite Z.gtb_ltb in Hpos. apply Z.ltb_lt in Hpos. rewrite Hnum in Hpos.
      apply occupied_pos in Hpos as (i & c & Hic). exists (Z.of_nat i), c.
      apply child_at_Some. exists (ONode nd). rewrite Nat2Z.id. split_and!; [done|lia|done].
    + rewrite Z.gtb_ltb in Hpos. apply Z.ltb_ge in Hpos. rewrite Hnum in Hpos.
      assert (Hzero : forall i x, children nd !! i = Some x -> x = None).
      { intros i [c|] Hi; [|done]. exfalso.
        assert (0 < occupied (children nd)) by (apply occupied_pos; eauto). lia. }
      assert (Hchildless : forall x, child_at h n x = None).
      { intros x. by apply (child_at_childless h n (ONode nd)). }
      assert (Hk' : (k < length ds)%nat) by lia.
      pose proof Hw as Hw'. rewrite (take_S_digit ds k Hk') in Hw'.
      destruct (tree_parent _ _ _ _ _ Hok _ _ _ Hw') as (o & m & Ho & Hpar & Hm).
      rewrite Hn in Ho. injection Ho as <-. simpl in Hpar.
      rewrite (Parent_eq _ _ _ Hn). rsimpl. rewrite Hpar.
      replace (Z.of_nat (S k) - 1) with (Z.of_nat k) by lia.
      rewrite Hdig, DigitOf_digits. rsimpl.
      destruct (pruned_path_inner h L' _ m Hok (fun _ H => or_introl H) Hk' Hm) as (ndm & Hndm & _).
      assert (Hcm : child_at h m (digit_at ds k) = Some n).
      { rewrite walk_snoc, Hm in Hw'. done. }
      pose proof (mk_detachable a h r L' P (take k ds) m ndm (digit_at ds k) n
                    Hok Hm Hndm Hcm Hchildless) as Hdet.
      rewrite (detach_RemoveChildWithIndexOf Hdet). rsimpl.
      set (h1 := detach h m ndm (digit_at ds k)).
      assert (Hok1 : tree_ok a h1 r L' P).
      { apply (detach_tree_ok Hdet); [done|by left|].
        intros l s Hl [rest Hpre]. rewrite <- take_S_digit in Hpre by done.
        pose proof (tree_stored _ _ _ _ _ Hok _ _ Hl) as Hwl.
        rewrite Hpre, walk_app, Hw in Hwl. destruct rest as [|y rest].
        - rewrite app_nil_r in Hpre.
          assert (Hp : digits s `prefix_of` ds) by (rewrite Hpre; apply prefix_take).
          apply (digits_prefix_free a) in Hp; [|by apply (Halpha (l, s))|done].
          by apply (Hfresh (l, s)).
        - simpl in Hwl. by rewrite Hchildless in Hwl. }
      assert (Hw1 : walk h1 r (take k ds) = Some m).
      { unfold h1. rewrite (detach_walk_old Hdet); [done|]. apply prefix_snoc_not. }
      assert (Hg1 : walk h1 r (take (S k) ds) = None).
      { unfold h1. apply (detach_walk_gone Hdet). by rewrite <- take_S_digit. }
      destruct (IH f h1 m) as (h' & k' & n' & Hrun & Hok' & Hle & Hw2 & Hg2 & Hstop & Hfr);
        [lia|lia|done|done|done|].
      exists h', k', n'. split_and!; try done; [lia|].
      intros x lf Hx. apply Hfr. unfold h1, detach.
      rewrite list_lookup_insert_ne; [done|]. intros ->. congruence.
Qed.

(** Once pruning has stopped, every remaining inner node lies on the path
    of a remaining element. *)
Lemma pruned_justified h k n :
  tree_ok a h r L' P -> (k < length ds)%nat ->
  walk h r (take k ds) = Some n -> walk h r (take (S k) ds) = None ->
  (k = 0%nat \/ exists d c, child_at h n d = Some c) ->
  tree_ok a h r L' (key <$> L').
Proof.
  intros Hok Hk Hw Hgone Hstop. destruct Hok as [H1 H2 H3 H4 H5]. split; try done.
  intros p m Hp. pose proof (H2 p m Hp) as Hm. unfold node_ok in *.
  destruct (h !! m) as [[nd|lf]|]; try done.
  destruct Hm as (E1 & E2 & E3 & [Hnil|(q & Hq & Hpre)]); split_and!; try done; [by left|].
  destruct (HP q Hq) as [->|Hin]; [|right; by exists q].
  apply strict_prefix_is_take in Hpre as [Ep Hlen].
  assert (Hjk : (length p <= k)%nat).
  { destruct (decide (length p <= k)%nat) as [|Hgt]; [done|]. exfalso.
    rewrite Ep, (take_take_app ds (S k) (length p)), walk_app, Hgone in Hp by lia. done. }
  destruct Hstop as [->|(d & c & Hc)].
  { left. destruct p; [done|simpl in Hjk; lia]. }
  right.
  assert (Hwc : walk h r (take k ds ++ [d]) = Some c) by (by rewrite walk_snoc, Hw).
  assert (Hd : d <> digit_at ds k).
  { intros ->. rewrite <- take_S_digit in Hwc by done. congruence. }
  pose proof (H2 _ _ Hwc) as Hcn.
  destruct (h !! c) as [[ndc|lfc]|]; [| |done].
  - destruct Hcn as (_ & _ & _ & [Hnil|(q' & Hq' & Hpre')]); [by destruct (take k ds)|].
    destruct Hpre' as (x & rest & Eq'). rewrite <- app_assoc in Eq'. simpl in Eq'.
    destruct (HP q' Hq') as [Eds|Hin'].
    + exfalso. apply Hd. unfold digit_at.
      rewrite <- Eds, Eq', lookup_app_r by (rewrite length_take; lia).
      rewrite length_take. replace (k - k `min` length ds)%nat with 0%nat by lia. done.
    + exists q'. split; [done|]. rewrite Ep. by eapply strict_prefix_take.
  - destruct Hcn as (s & Hs & Es). exists (digits s). split.
    + apply list_elem_of_fmap. by exists (c, s).
    + rewrite Ep. rewrite <- Es. eapply (strict_prefix_take ds _ _ k d []); [done|done].
Qed.
End Pruning.

(** ** [Remove] keeps the invariant *)

Lemma sorted_middle_fresh (L1 L2 : list (nat * string)) x0 :
  StronglySorted (fun x y => lex_ltb (key x) (key y) = true) (L1 ++ x0 :: L2) ->
  forall x, x ∈ L1 ++ L2 -> key x <> key x0.
Proof.
  intros Hs x Hx E. apply StronglySorted_app in Hs as (H12 & _ & H2).
  apply StronglySorted_cons in H2 as [H2 _]. rewrite Forall_forall in H2.
  apply elem_of_app in Hx as [Hx|Hx].
  - specialize (H12 x x0 Hx). rewrite E, lex_ltb_irrefl in H12.
    by specialize (H12 ltac:(by left)).
  - specialize (H2 x Hx). by rewrite E, lex_ltb_irrefl in H2.
Qed.

Lemma remove_inv a h t L1 l s0 L2 fuel :
  trie_inv a h t (L1 ++ (l, s0) :: L2) -> (length (digits s0) < fuel)%nat ->
  exists h' t',
    remove fuel h t (Some l) = Ok (h', t') /\ trie_inv a h' t' (L1 ++ L2) /\
    tail t' = tail t /\ head t' = head t /\
    forall tl, tail t = Some tl -> tombstone h' l ((L2.*1 ++ [tl]) !! 0%nat).
Proof.
  intros Hinv Hfuel. set (L := L1 ++ (l, s0) :: L2) in *. set (L' := L1 ++ L2).
  set (ds := digits s0) in *.
  assert (Hin : (l, s0) ∈ L) by (apply elem_of_app; right; by left).
  destruct (inv_list _ _ _ _ Hinv) as (hd & tl & Hhd & Htl & Hlist).
  pose proof (inv_digitizer _ _ _ _ Hinv) as Hdig.
  pose proof (inv_alphabet _ _ _ _ Hinv) as Ha.
  pose proof (inv_tree _ _ _ _ Hinv) as Htree.
  destruct (root t) as [r|] eqn:Hroot; [|by destruct L1].
  assert (Hs0 : in_alphabet a s0 = true) by apply (list_in_alphabet _ _ _ _ _ _ Hlist Hin).
  assert (Halpha : forall x, x ∈ L' -> in_alphabet a x.2 = true).
  { intros x Hx. apply (list_in_alphabet _ _ _ _ _ _ Hlist).
    apply elem_of_app in Hx as [?|?]; apply elem_of_app; [by left|right; by right]. }
  assert (Hfresh : forall x, x ∈ L' -> key x <> ds).
  { apply (sorted_middle_fresh L1 L2 (l, s0)), (list_sorted _ _ _ _ _ Hlist). }
  assert (Hsub : forall x, x ∈ L -> x ∈ L' \/ key x = ds).
  { intros x Hx. apply elem_of_app in Hx as [Hx|Hx].
    - left. apply elem_of_app. by left.
    - apply elem_of_cons in Hx as [->|Hx]; [by right|]. left. apply elem_of_app. by right. }
  pose proof (list_leaf_cell _ _ _ _ _ _ Hlist Hin) as Hcell. simpl in Hcell.
  destruct Hcell as (lf & Hlf & _).
  destruct (unsplice_list_ok a h hd tl L1 L2 l s0 Hlist)
    as (h1 & Hrun1 & Hlist1 & Hch & Hlen1 & Htomb).
  destruct (tree_ok_links a h h1 r L (key <$> L) Htree Hch) as [Htree1 _].
  pose proof (leaf_cell_links h h1 l s0 (list_leaf_cell _ _ _ _ _ _ Hlist Hin) Hch) as Hcell1.
  destruct Hcell1 as (lf1 & Hlf1 & Hel & Hchildren & Hnum & Hisroot & _).
  pose proof (digits_length_pos s0) as Hpos. fold ds in Hpos.
  destruct (length ds) as [|k] eqn:Hlen; [lia|].
  assert (Hk : (k < length ds)%nat) by lia.
  assert (Hds : ds = take k ds ++ [digit_at ds k]).
  { rewrite <- take_S_digit by done. rewrite <- Hlen. by rewrite firstn_all. }
  pose proof (tree_stored _ _ _ _ _ Htree1 _ _ Hin) as Hwl. fold ds in Hwl.
  pose proof Hwl as Hwl'. rewrite Hds in Hwl'.
  destruct (tree_parent _ _ _ _ _ Htree1 _ _ _ Hwl') as (o & m & Ho & Hpar & Hm).
  rewrite Hlf1 in Ho. injection Ho as <-. simpl in Hpar.
  destruct (pruned_path_inner (s0 := s0) Hs0 Halpha h1 L k m Htree1 Hsub Hk Hm)
    as (ndm & Hndm & _).
  assert (Hcm : child_at h1 m (digit_at ds k) = Some l).
  { rewrite walk_snoc, Hm in Hwl'. done. }
  assert (Hchildless : forall x, child_at h1 l x = None).
  { intros x. apply (child_at_childless h1 l (OLeaf lf1)); [done|].
    intros i y. simpl. rewrite Hchildren. by destruct i. }
  pose proof (mk_detachable a h1 r L (key <$> L) (take k ds) m ndm (digit_at ds k) l
                Htree1 Hm Hndm Hcm Hchildless) as Hdet.
  set (h2 := detach h1 m ndm (digit_at ds k)).
  assert (Htree2 : tree_ok a h2 r L' (key <$> L)).
  { apply (detach_tree_ok Hdet).
    - intros x Hx. apply elem_of_app in Hx as [?|?]; apply elem_of_app; [by left|right; by right].
    - intros l' s Hl'. destruct (Hsub _ Hl') as [?|Hkey]; [by left|]. right.
      unfold key in Hkey. simpl in Hkey. rewrite Hkey, <- Hds. done.
    - intros l' s Hl' Hpre. rewrite <- Hds in Hpre.
      apply (digits_prefix_free a) in Hpre; [|done|by apply (Halpha (l', s))].
      by apply (Hfresh (l', s)). }
  assert (Hw2 : walk h2 r (take k ds) = Some m).
  { unfold h2. rewrite (detach_walk_old Hdet); [done|]. apply prefix_snoc_not. }
  assert (Hg2 : walk h2 r (take (S k) ds) = None).
  { unfold h2. apply (detach_walk_gone Hdet). by rewrite <- take_S_digit. }
  destruct fuel as [|f]; [lia|].
  destruct (remove_loop_spec (r := r) (P := key <$> L) Hdig Hs0 Halpha Hfresh k f h2 m)
    as (h' & k' & n' & Hrun & Hok' & Hle & Hw3 & Hg3 & Hstop & Hfr); [lia|done|done|done|done|].
  assert (HP : forall q, q ∈ key <$> L -> q = digits s0 \/ q ∈ key <$> L').
  { intros q Hq. apply list_elem_of_fmap in Hq as (x & -> & Hx).
    destruct (Hsub _ Hx) as [?|?]; [right|by left]. apply list_elem_of_fmap. by exists x. }
  assert (Hk' : (k' < length (digits s0))%nat) by (fold ds; lia).
  pose proof (pruned_justified HP h' k' n' Hok' Hk' Hw3 Hg3 Hstop) as Htree'.
  assert (Hleaf : forall x xl, h1 !! x = Some (OLeaf xl) -> h' !! x = Some (OLeaf xl)).
  { intros x xl Hx. apply Hfr. unfold h2, detach.
    rewrite list_lookup_insert_ne; [done|]. intros ->. congruence. }
  exists h', (set_size (size t - 1) t). split; [|split; [|split_and!; try done]].
  3:{ intros tl' Htl'. rewrite Htl in Htl'. injection Htl' as <-.
      destruct Htomb as (lft & Hlft & Htm). exists lft. split; [by apply Hleaf|done]. }
  - unfold remove. rewrite (deref_eq _ _ _ Hlf). rsimpl. rewrite Hrun1. rsimpl.
    rewrite (Value_eq _ _ _ Hlf1). rsimpl. rewrite Hel.
    rewrite Hdig, NumDigitsOf_digits. fold ds. unfold len. rewrite Hlen.
    cbn [remove_loop]. rewrite (IsRoot_eq _ _ _ Hlf1). rsimpl. rewrite Hisroot.
    rewrite (HasChildren_eq _ _ _ Hlf1). rsimpl. rewrite Hnum. simpl.
    rewrite (Parent_eq _ _ _ Hlf1). rsimpl. rewrite Hpar.
    replace (Z.of_nat (S k) - 1) with (Z.of_nat k) by lia.
    rewrite Hdig, DigitOf_digits. rsimpl. fold ds.
    rewrite (detach_RemoveChildWithIndexOf Hdet). rsimpl. fold h2.
    by rewrite Hrun.
  - split; simpl; try done.
    + rewrite (inv_capacity _ _ _ _ Hinv). done.
    + rewrite (inv_size _ _ _ _ Hinv). unfold len, L, L'. rewrite !length_app. simpl. lia.
    + exists hd, tl. split_and!; try done.
      by apply (list_ok_frame a h1).
    + by rewrite Hroot.
Qed.

Lemma Remove_inv a h t L e fuel :
  trie_inv a h t L -> in_alphabet a e = true -> (length (digits e) < fuel)%nat ->
  ((forall x, x ∈ L -> key x <> digits e) /\ Remove fuel h t e = Ok (h, t, false)) \/
  (exists h' t' L1 l s0 L2,
     L = L1 ++ (l, s0) :: L2 /\ digits s0 = digits e /\
     Remove fuel h t e = Ok (h', t', true) /\ trie_inv a h' t' (L1 ++ L2)).
Proof.
  intros Hinv He Hfuel. unfold Remove. rewrite (IsEmpty_inv _ _ _ _ Hinv).
  destruct (bool_decide (L = [])) eqn:HL.
  { apply bool_decide_eq_true in HL as ->. left. split; [|done]. intros x Hx.
    by apply elem_of_nil in Hx. }
  destruct (find_spec a h t L e fuel Hinv He Hfuel)
    as [(l & s0 & s & Hfind & Hin & Hds & Hptr & _)|(s & Hfind & _ & Hnone)].
  - right. rewrite Hfind. rsimpl. rewrite Hptr.
    apply list_elem_of_split in Hin as (L1 & L2 & ->).
    destruct (remove_inv a h t L1 l s0 L2 fuel Hinv) as (h' & t' & Hrun & Hinv' & _).
    { by rewrite Hds. }
    exists h', t', L1, l, s0, L2. rewrite Hrun. done.
  - left. rewrite Hfind. done.
Qed.

(** ** [Clear] empties the trie *)

Lemma advance_front fuel h i n nl :
  at_front h i n -> h !! n = Some (OLeaf nl) -> isHead nl = false ->
  (isTail nl = true \/ previous nl <> None) ->
  advance (S (S fuel)) h (Some i) = Ok (h, Some n, negb (isTail nl)).
Proof.
  intros (il & Hi & Ht & Hn & Hpos) Hnl Hnh Hlive. unfold advance.
  rewrite (IsTail_eq _ _ _ Hi), (IsHead_eq _ _ _ Hi). rsimpl. rewrite Ht.
  destruct Hpos as [Hh|[Hh Hp]]; rewrite Hh; rsimpl.
  - rewrite (Next_eq _ _ _ Hi), Hn. rsimpl. by rewrite (IsTail_eq _ _ _ Hnl).
  - assert (Hskip : skipRemovedElements (S fuel) h (Some n) = Ok (h, Some n)).
    { rewrite skipRemovedElements_S.
      rewrite (IsHead_eq _ _ _ Hnl), (IsTail_eq _ _ _ Hnl), (IsDeleted_eq _ _ _ Hnl).
      rsimpl. rewrite Hnh. destruct (isTail nl); [done|].
      destruct Hlive as [|Hlive]; [done|]. by destruct (previous nl). }
    assert (Hid : <[i := OLeaf (set_next (Some n) il)]> h = h).
    { apply list_insert_id. rewrite Hi. do 2 f_equal. symmetry. by apply set_next_same. }
    rewrite (IsDeleted_eq _ _ _ Hi), Hp. rsimpl. rewrite skipRemovedElements_S.
    rewrite (IsHead_eq _ _ _ Hi), (IsTail_eq _ _ _ Hi), (IsDeleted_eq _ _ _ Hi).
    rsimpl. rewrite Ht, Hh, Hp. rsimpl.
    rewrite (Next_eq _ _ _ Hi). rsimpl. rewrite Hn.
    rewrite (rbind_eq _ _ _ Hskip).
    rewrite (SetNext_eq _ _ _ _ Hi). rsimpl. rewrite Hid.
    rewrite (Next_eq _ _ _ Hi). rsimpl. rewrite Hn.
    by rewrite (IsTail_eq _ _ _ Hnl).
Qed.

Lemma Clear_loop_inv a L :
  forall fuel0 fuel h t i tl,
    trie_inv a h t L -> tail t = Some tl ->
    (forall n, (L.*1 ++ [tl]) !! 0%nat = Some n -> at_front h i n) ->
    (forall x, x ∈ L -> (length (key x) < S (S fuel0))%nat) -> (length L < fuel)%nat ->
    exists h' t',
      Clear_loop (S (S fuel0)) fuel h t (Some i) = Ok (h', t') /\ trie_inv a h' t' [].
Proof.
  induction L as [|[l s] L IH]; intros fuel0 fuel h t i tl Hinv Htl Hfront Hkeys Hfuel;
    (destruct fuel as [|fuel]; [simpl in Hfuel; lia|]);
    destruct (inv_list _ _ _ _ Hinv) as (hd & tl' & Hhd & Htl' & Hlist);
    rewrite Htl in Htl'; injection Htl' as <-.
  - destruct (list_tail _ _ _ _ _ Hlist) as (tll & Ht & Hth & Htt).
    cbn [Clear_loop].
    rewrite (advance_front fuel0 h i tl tll (Hfront tl eq_refl) Ht Hth); [|by left].
    rsimpl. rewrite Htt. simpl. by exists h, t.
  - assert (Hin : (l, s) ∈ (l, s) :: L) by (by left).
    pose proof (list_linked _ _ _ _ _ Hlist) as Hlk. simpl in Hlk. destruct Hlk as [Hlk _].
    destruct (link_leaf _ _ _ _ Hlk (list_leaf_cell _ _ _ _ _ _ Hlist Hin))
      as (ll & Hll & He & Hlh & Hlt & Hlp).
    cbn [Clear_loop].
    rewrite (advance_front fuel0 h i l ll (Hfront l eq_refl) Hll Hlh);
      [|right; by rewrite Hlp].
    rsimpl. rewrite Hlt. simpl. unfold iterator_remove, inCollection.
    rewrite (IsHead_eq _ _ _ Hll), (IsTail_eq _ _ _ Hll), (IsDeleted_eq _ _ _ Hll).
    rsimpl. rewrite Hlh, Hlt, Hlp. rsimpl.
    destruct (remove_inv a h t [] l s L (S (S fuel0)) Hinv (Hkeys _ Hin))
      as (h1 & t1 & Hrun & Hinv1 & Htl1 & _ & Htomb).
    rewrite Hrun. rsimpl.
    apply (IH fuel0 fuel h1 t1 l tl Hinv1); [by rewrite Htl1| | |simpl in Hfuel; lia].
    + intros n Hn. destruct (Htomb tl Htl) as (lf & Hlf & Hp & Hnx & Hh & Ht).
      exists lf. split_and!; try done; [by rewrite Hnx|by right].
    + intros x Hx. apply Hkeys. by right.
Qed.

Lemma Clear_inv a h t L fuel :
  trie_inv a h t L ->
  (max_list (length ∘ key <$> L) + length L + 2 <= fuel)%nat ->
  exists h' t', Clear fuel h t = Ok (h', t') /\ trie_inv a h' t' [].
Proof.
  intros Hinv Hfuel. destruct (inv_list _ _ _ _ Hinv) as (hd & tl & Hhd & Htl & Hlist).
  destruct fuel as [|[|fuel0]]; [lia|lia|]. unfold Clear. rewrite Hhd.
  apply (Clear_loop_inv a L fuel0 (S (S fuel0)) h t hd tl Hinv Htl); [| |lia].
  - intros n Hn. destruct (list_head _ _ _ _ _ Hlist) as (hl & Hh & Hhh & Hht).
    pose proof (list_linked _ _ _ _ _ Hlist) as Hlk.
    destruct (L.*1 ++ [tl]) as [|n' B] eqn:E; [done|]. simpl in Hn. injection Hn as ->.
    destruct Hlk as [(xl & yl & Hx & _ & Hnx & _) _].
    rewrite Hh in Hx. injection Hx as <-. exists hl. split_and!; try done. by left.
  - intros x Hx. pose proof (key_length_le L x Hx). lia.
Qed.

(** Every state of a trie satisfies the invariant. *)
Lemma reachable_inv a h t : reachable a h t -> exists L, trie_inv a h t L.
Proof.
  induction 1 as [h0 h t Ha Hnew|h t e h' t' err _ [L IH] He [n Hrun]
                  |h t e h' t' b _ [L IH] He [n Hrun]
                  |h t h' t' _ [L IH] [n Hrun]].
  - exists []. by apply (NewTrie_inv a h0).
  - specialize (Hrun (n `max` fuel_for a L e)%nat ltac:(lia)).
    destruct (Add_inv a h t L e (n `max` fuel_for a L e)%nat IH He ltac:(lia))
      as [[_ Hdup]|(_ & h1 & t1 & L1 & L2 & Hadd & _ & Hinv & _)].
    + rewrite Hdup in Hrun. injection Hrun as <- <- _. by exists L.
    + rewrite Hadd in Hrun. injection Hrun as <- <- _. by eexists.
  - specialize (Hrun (n `max` S (length (digits e)))%nat ltac:(lia)).
    destruct (Remove_inv a h t L e (n `max` S (length (digits e)))%nat IH He ltac:(lia))
      as [[_ Hno]|(h1 & t1 & L1 & l & s0 & L2 & _ & _ & Hrem & Hinv)].
    + rewrite Hno in Hrun. injection Hrun as <- <- _. by exists L.
    + rewrite Hrem in Hrun. injection Hrun as <- <- _. by eexists.
  - set (m := (max_list (length ∘ key <$> L) + length L + 2)%nat).
    specialize (Hrun (n `max` m)%nat ltac:(lia)).
    destruct (Clear_inv a h t L (n `max` m)%nat IH ltac:(lia)) as (h1 & t1 & Hclear & Hinv).
    rewrite Hclear in Hrun. injection Hrun as <- <-. by exists [].
Qed.

(** ** The digit order and the order of strings *)

Lemma digits_cons c s : digits (String c s) = letter_digit c :: digits s.
Proof. reflexivity. Qed.

Lemma in_alphabet_cons a c s :
  in_alphabet a (String c s) = letter_ok a c && in_alphabet a s.
Proof. reflexivity. Qed.

Lemma ci_ltb_digits a s1 s2 :
  in_alphabet a s1 = true -> in_alphabet a s2 = true ->
  ci_ltb s1 s2 = lex_ltb (digits s1) (digits s2).
Proof.
  revert s2. induction s1 as [|x s1 IH]; intros [|y s2] H1 H2.
  - done.
  - rewrite in_alphabet_cons in H2. apply andb_true_iff in H2 as [Hy _].
    apply letter_ok_digit in Hy. rewrite digits_cons. simpl.
    replace (0 <? letter_digit y) with true by (symmetry; apply Z.ltb_lt; lia). done.
  - rewrite in_alphabet_cons in H1. apply andb_true_iff in H1 as [Hx _].
    apply letter_ok_digit in Hx. rewrite digits_cons. simpl.
    replace (letter_digit x <? 0) with false by (symmetry; apply Z.ltb_ge; lia).
    replace (letter_digit x =? 0) with false by (symmetry; apply Z.eqb_neq; lia). done.
  - rewrite in_alphabet_cons in H1, H2.
    apply andb_true_iff in H1 as [Hx H1]. apply andb_true_iff in H2 as [Hy H2].
    apply letter_ok_byte in Hx as [Ex _]. apply letter_ok_byte in Hy as [Ey _].
    rewrite !digits_cons. simpl. rewrite Ex, Ey, (IH s2 H1 H2).
    destruct (byte_of (toLower x) <? byte_of (toLower y)) eqn:E1.
    + apply Z.ltb_lt in E1.
      replace (byte_of (toLower x) - 96 <? byte_of (toLower y) - 96) with true
        by (symmetry; apply Z.ltb_lt; lia). done.
    + apply Z.ltb_ge in E1.
      replace (byte_of (toLower x) - 96 <? byte_of (toLower y) - 96) with false
        by (symmetry; apply Z.ltb_ge; lia). simpl.
      destruct (byte_of (toLower x) =? byte_of (toLower y)) eqn:E2.
      * apply Z.eqb_eq in E2. rewrite E2, Z.eqb_refl. done.
      * apply Z.eqb_neq in E2.
        replace (byte_of (toLower x) - 96 =? byte_of (toLower y) - 96) with false
          by (symmetry; apply Z.eqb_neq; lia). done.
Qed.

Lemma byte_of_inj c1 c2 : byte_of c1 = byte_of c2 -> c1 = c2.
Proof.
  unfold byte_of. intros H. apply Nat2Z.inj in H.
  rewrite <- (ascii_nat_embedding c1), <- (ascii_nat_embedding c2). by rewrite H.
Qed.

Lemma digits_ci_eq a s1 s2 :
  in_alphabet a s1 = true -> in_alphabet a s2 = true ->
  digits s1 = digits s2 <-> ci_eq s1 s2.
Proof.
  unfold ci_eq. revert s2. induction s1 as [|x s1 IH]; intros [|y s2] H1 H2.
  - done.
  - rewrite in_alphabet_cons in H2. apply andb_true_iff in H2 as [Hy _].
    apply letter_ok_digit in Hy. rewrite digits_cons. simpl. split; [|done].
    intros H. injection H as H _. lia.
  - rewrite in_alphabet_cons in H1. apply andb_true_iff in H1 as [Hx _].
    apply letter_ok_digit in Hx. rewrite digits_cons. simpl. split; [|done].
    intros H. injection H as H _. lia.
  - rewrite in_alphabet_cons in H1, H2.
    apply andb_true_iff in H1 as [Hx H1]. apply andb_true_iff in H2 as [Hy H2].
    apply letter_ok_byte in Hx as [Ex _]. apply letter_ok_byte in Hy as [Ey _].
    rewrite !digits_cons. simpl. split.
    + intros H. injection H as Hd Hr. f_equal; [|by apply (IH s2)].
      apply byte_of_inj. lia.
    + intros H. injection H as Hc Hr. f_equal; [|by apply (IH s2)].
      unfold letter_digit. by rewrite Hc.
Qed.

Lemma sort_insert_spec e (l1 l2 : list string) :
  Forall (fun x => ci_ltb e x = false) l1 ->
  Forall (fun y => ci_ltb e y = true) l2 ->
  sort_insert e (l1 ++ l2) = l1 ++ e :: l2.
Proof.
  intros H1 H2. induction H1 as [|x l1 Hx _ IH]; simpl.
  - destruct H2 as [|y l2 Hy _]; simpl; [done|]. by rewrite Hy.
  - by rewrite Hx, IH.
Qed.

Lemma sort_insert_Permutation e l : sort_insert e l ≡ₚ e :: l.
Proof.
  induction l as [|x l IH]; simpl; [done|].
  destruct (ci_ltb e x); [done|]. rewrite IH. apply Permutation_swap.
Qed.

Lemma ci_sort_Permutation l : ci_sort l ≡ₚ l.
Proof.
  unfold ci_sort. rewrite <- (app_nil_r l) at 2. generalize (@nil string).
  induction l as [|x l IH]; intros acc; simpl; [done|].
  rewrite IH, sort_insert_Permutation. symmetry. apply Permutation_middle.
Qed.

(** The element list after an insertion, in terms of strings. *)
Lemma inserted_values a h hd tl (L1 L2 : list (nat * string)) l e :
  list_ok a h hd tl (L1 ++ (l, e) :: L2) ->
  Forall (fun x => lex_ltb (key x) (digits e) = true) L1 ->
  Forall (fun y => lex_ltb (digits e) (key y) = true) L2 ->
  (L1 ++ (l, e) :: L2).*2 = sort_insert e (L1 ++ L2).*2.
Proof.
  intros Hok Hlow Hhigh. rewrite !fmap_app, fmap_cons. simpl. symmetry.
  assert (He : in_alphabet a e = true).
  { apply (list_in_alphabet _ _ _ _ _ (l, e) Hok). apply elem_of_app. right. by left. }
  apply sort_insert_spec.
  - apply Forall_fmap, Forall_forall. intros x Hx. simpl.
    rewrite Forall_forall in Hlow.
    rewrite (ci_ltb_digits a); [|done|].
    + apply lex_ltb_asym. by apply Hlow.
    + apply (list_in_alphabet _ _ _ _ _ x Hok). apply elem_of_app. by left.
  - apply Forall_fmap, Forall_forall. intros y Hy. simpl.
    rewrite Forall_forall in Hhigh.
    rewrite (ci_ltb_digits a); [by apply Hhigh|done|].
    apply (list_in_alphabet _ _ _ _ _ y Hok). apply elem_of_app. right. by right.
Qed.

(** ** A run of insertions *)

Lemma max_list_bound (l : list nat) M : (forall x, x ∈ l -> (x <= M)%nat) -> (max_list l <= M)%nat.
Proof.
  induction l as [|x l IH]; intros H; simpl; [lia|].
  assert (x <= M)%nat by (apply H; by left).
  assert (max_list l <= M)%nat by (apply IH; intros y Hy; apply H; by right). lia.
Qed.

Lemma fuel_for_bound a L e M :
  (forall x, x ∈ L -> (length (key x) <= M)%nat) -> (length (digits e) <= M)%nat ->
  (fuel_for a L e <= 2 * M + Z.to_nat a + length L + 2)%nat.
Proof.
  intros HL He. unfold fuel_for.
  assert (max_list (length ∘ key <$> L) <= M)%nat; [|lia].
  apply max_list_bound. intros n Hn. apply list_elem_of_fmap in Hn as (x & -> & Hx).
  by apply HL.
Qed.

Lemma sorted_fold_Permutation ss acc :
  fold_left (fun acc s => sort_insert s acc) ss acc ≡ₚ ss ++ acc.
Proof.
  revert acc. induction ss as [|x ss IH]; intros acc; simpl; [done|].
  rewrite IH, sort_insert_Permutation. symmetry. apply Permutation_middle.
Qed.

Lemma AddAll_inv a ss :
  forall h t L M fuel,
    trie_inv a h t L -> Forall (fun s => in_alphabet a s = true) ss ->
    (forall x, x ∈ L -> (length (key x) <= M)%nat) ->
    Forall (fun e => (length (digits e) <= M)%nat) ss ->
    (2 * M + Z.to_nat a + length L + length ss + 2 <= fuel)%nat ->
    exists h' t' err,
      AddAll fuel h t ss = Ok (h', t', err) /\
      (err = None ->
       exists L', trie_inv a h' t' L' /\
                  L'.*2 = fold_left (fun acc s => sort_insert s acc) ss (L.*2)).
Proof.
  induction ss as [|e ss IH]; intros h t L M fuel Hinv Hss HL HM Hfuel.
  { exists h, t, None. split; [done|]. intros _. by exists L. }
  apply Forall_cons in Hss as [He Hss]. apply Forall_cons in HM as [HeM HM].
  simpl in Hfuel. pose proof (fuel_for_bound a L e M HL HeM) as Hb.
  destruct (Add_inv a h t L e fuel Hinv He ltac:(lia))
    as [[_ Hdup]|(_ & h1 & t1 & L1 & L2 & Hadd & -> & Hinv1 & Hlow & Hhigh)].
  - exists h, t, (Some (PrefixViolation e)). cbn [AddAll]. rewrite Hdup. by split.
  - destruct (IH h1 t1 (L1 ++ (length h, e) :: L2) M fuel Hinv1 Hss)
      as (h' & t' & err & Hrun & Hres).
    + intros x Hx. apply elem_of_app in Hx as [Hx|Hx].
      * apply HL, elem_of_app. by left.
      * apply elem_of_cons in Hx as [->|Hx]; [done|]. apply HL, elem_of_app. by right.
    + done.
    + rewrite length_app in *. simpl in *. lia.
    + exists h', t', err. cbn [AddAll]. rewrite Hadd. rsimpl. split; [done|].
      intros Herr. destruct (Hres Herr) as (L' & HinvL' & HL'). exists L'. split; [done|].
      rewrite HL'. simpl. f_equal.
      destruct (inv_list _ _ _ _ Hinv1) as (hd & tl & _ & _ & Hlist).
      by apply (inserted_values a h1 hd tl).
Qed.

Lemma NewTrie_Ok a h0 : exists h t, NewTrie h0 a = Ok (h, t).
Proof.
  unfold NewTrie, newTrie, newTrieWithDigitizer, alloc.
  set (hd := length h0). set (h1 := h0 ++ [OLeaf newHeadNode]).
  set (tl := length h1). set (h2 := h1 ++ [OLeaf newTailNode]).
  assert (Htl : tl = S hd) by (unfold tl, h1, hd; rewrite length_app; simpl; lia).
  assert (E1 : h2 !! hd = Some (OLeaf newHeadNode)).
  { unfold h2. apply lookup_alloc_old. apply lookup_alloc_new. }
  rewrite (SetNext_eq _ _ _ _ E1). rsimpl.
  set (h3 := <[hd := OLeaf (set_next (Some tl) newHeadNode)]> h2).
  assert (E2 : h3 !! tl = Some (OLeaf newTailNode)).
  { unfold h3. rewrite list_lookup_insert_ne by lia. apply lookup_alloc_new. }
  rewrite (SetNext_eq _ _ _ _ E2). rsimpl. by eexists _, _.
Qed.

Lemma Values_strings a h t L fuel :
  trie_inv a h t L -> (length L < fuel)%nat -> Values fuel h t = Ok (h, Some <$> L.*2).
Proof.
  intros Hinv Hfuel. rewrite (Values_inv a h t L fuel Hinv Hfuel).
  by rewrite <- list_fmap_compose.
Qed.

(** C1 (as amended): on a fresh trie of alphabet size [a >= 0], after the
    insertion by [Add] of strings over the alphabet (ASCII letters that are,
    in lower case, among the first [a] letters from 'a' on), run as [AddAll]
    does and none of which returned an error, [Values] is the
    case-insensitive lexicographic sort of the inserted strings and [Size]
    is their number.  The run itself returns once it has enough fuel. *)
Theorem Values_sorted_after_insertions (a : Z) (h0 : heap) (ss : list string) :
  0 <= a -> Forall (fun s => in_alphabet a s = true) ss ->
  exists h t,
    NewTrie h0 a = Ok (h, t) /\
    exists n, forall fuel, (n <= fuel)%nat ->
      exists h1 t1 err,
        AddAll fuel h t ss = Ok (h1, t1, err) /\
        (err = None ->
         Values fuel h1 t1 = Ok (h1, Some <$> ci_sort ss) /\ Size t1 = len ss).
Proof.
  intros Ha Hss. destruct (NewTrie_Ok a h0) as (h & t & Hnew). exists h, t. split; [done|].
  destruct (NewTrie_inv a h0 h t Ha Hnew) as [Hinv _].
  set (M := max_list (length ∘ digits <$> ss)).
  exists (2 * M + Z.to_nat a + length ss + 2)%nat. intros fuel Hfuel.
  destruct (AddAll_inv a ss h t [] M fuel Hinv Hss) as (h1 & t1 & err & Hrun & Hres).
  { intros x Hx. by apply elem_of_nil in Hx. }
  { apply Forall_forall. intros e He. apply max_list_elem_of_le.
    apply list_elem_of_fmap. by exists e. }
  { simpl. lia. }
  exists h1, t1, err. split; [done|]. intros Herr.
  destruct (Hres Herr) as (L' & Hinv' & HL'). simpl in HL'. fold (ci_sort ss) in HL'.
  assert (Hlen : length L' = length ss).
  { rewrite <- (length_fmap snd L'), HL'. apply Permutation_length, ci_sort_Permutation. }
  split.
  - rewrite <- HL'. apply (Values_strings a); [done|lia].
  - unfold Size. rewrite (inv_size _ _ _ _ Hinv'). unfold len. by rewrite Hlen.
Qed.

Lemma Values_sorted_after_insertions_witness :
  filled 32 4 ["BA"; "ab"; "a"; "dab"]
    (fun h t err => let* (_, vs) := Values 32 h t in Ok (err, Size t, vs))
  = Ok (None, 4, [Some "a"; Some "ab"; Some "BA"; Some "dab"]) /\
  exists h t,
    NewTrie [] 4 = Ok (h, t) /\
    exists n, forall fuel, (n <= fuel)%nat ->
      exists h1 t1 err,
        AddAll fuel h t ["BA"; "ab"; "a"; "dab"] = Ok (h1, t1, err) /\
        (err = None ->
         Values fuel h1 t1 = Ok (h1, Some <$> ci_sort ["BA"; "ab"; "a"; "dab"]) /\
         Size t1 = len ["BA"; "ab"; "a"; "dab"]).
Proof.
  split; [vm_compute; reflexivity|].
  apply (Values_sorted_after_insertions 4 [] ["BA"; "ab"; "a"; "dab"]); [lia|].
  repeat constructor.
Defined.

(** ** Every state of a trie *)

Lemma returns_from {A : Type} (run : nat -> result A) (x : A) n :
  (forall k, run (n + k)%nat = Ok x) -> returns run x.
Proof.
  intros H. exists n. intros fuel Hf. replace fuel with (n + (fuel - n))%nat by lia. apply H.
Qed.

Lemma sample_reachable :
  exists h t, sample_run 32 = Ok (h, t) /\ reachable 4 h t.
Proof.
  eexists. eexists. split; [vm_compute; reflexivity|].
  eapply (reachable_Remove 4 _ _ "ba");
    [eapply (reachable_Add 4 _ _ "abc");
      [eapply (reachable_Add 4 _ _ "ba");
        [eapply (reachable_Add 4 _ _ "ab");
          [eapply (reachable_NewTrie 4 []); [lia|lazy; reflexivity]
          |reflexivity|apply (returns_from _ _ 32); intros k; lazy; reflexivity]
        |reflexivity|apply (returns_from _ _ 32); intros k; lazy; reflexivity]
      |reflexivity|apply (returns_from _ _ 32); intros k; lazy; reflexivity]
    |reflexivity|apply (returns_from _ _ 32); intros k; lazy; reflexivity].
Qed.

(** C9: in every state of a trie (made by [NewTrie], then changed by [Add]
    and [Remove] of strings over the alphabet and by [Clear]), [Values]
    returns, once it has enough fuel and without changing the store, a list
    [vals] such that: if the trie is empty, [vals] is empty and [Min] and
    [Max] return nil; if it is not, [Min] returns the first and [Max] the
    last element of [vals]. *)
Theorem Min_Max_are_first_and_last_of_Values (a : Z) (h : heap) (t : trie) :
  reachable a h t ->
  exists vals : list (option string),
    returns (fun fuel => Values fuel h t) (h, vals) /\
    (IsEmpty t = true -> vals = [] /\ Min h t = Ok None /\ Max h t = Ok None) /\
    (IsEmpty t = false ->
     exists lo hi, vals !! 0%nat = Some lo /\ last vals = Some hi /\
                   Min h t = Ok lo /\ Max h t = Ok hi).
Proof.
  intros Hr. destruct (reachable_inv a h t Hr) as [L Hinv].
  exists (Some <$> L.*2). split_and!.
  - exists (S (length L)). intros fuel Hf. apply (Values_strings a); [done|lia].
  - rewrite (IsEmpty_inv _ _ _ _ Hinv). intros HL. apply bool_decide_eq_true in HL.
    rewrite (Min_inv _ _ _ _ Hinv), (Max_inv _ _ _ _ Hinv). by rewrite HL.
  - rewrite (IsEmpty_inv _ _ _ _ Hinv). intros HL. apply bool_decide_eq_false in HL.
    rewrite (Min_inv _ _ _ _ Hinv), (Max_inv _ _ _ _ Hinv).
    exists (L.*2 !! 0%nat), (last L.*2).
    rewrite !fmap_last, !list_lookup_fmap. split_and!; try done.
    + destruct L; done.
    + destruct L as [|y L0] using rev_ind; [done|]. by rewrite last_snoc.
Qed.

Lemma Min_Max_are_first_and_last_of_Values_witness :
  match sample_run 32 with
  | Ok (h, t) =>
      reachable 4 h t /\
      exists vals : list (option string),
        returns (fun fuel => Values fuel h t) (h, vals) /\
        (IsEmpty t = true -> vals = [] /\ Min h t = Ok None /\ Max h t = Ok None) /\
        (IsEmpty t = false ->
         exists lo hi, vals !! 0%nat = Some lo /\ last vals = Some hi /\
                       Min h t = Ok lo /\ Max h t = Ok hi)
  | _ => False
  end.
Proof.
  destruct sample_reachable as (h & t & E & Hr). rewrite E. split; [done|].
  apply (Min_Max_are_first_and_last_of_Values 4 h t Hr).
Defined.

(** C10: in every state of a trie (made by [NewTrie], then changed by
    [Add] and [Remove] of strings over the alphabet and by [Clear]) and for
    every integer [i], [ValueWithIndex i] returns element [i] (counted from
    0) of the list that [Values] returns, with a nil error, when
    [0 <= i < Size]; and it returns no element and an index-out-of-bounds
    error when [i < 0] or [Size <= i].  [Size] is the length of that
    list. *)
Theorem ValueWithIndex_is_element_of_Values (a : Z) (h : heap) (t : trie) (i : Z) :
  reachable a h t ->
  exists vals : list (option string),
    returns (fun fuel => Values fuel h t) (h, vals) /\ Size t = len vals /\
    forall fuel,
      (0 <= i < Size t ->
       exists v, vals !! Z.to_nat i = Some v /\
                 ValueWithIndex fuel h t i = Ok (h, v, None)) /\
      (i < 0 \/ Size t <= i ->
       ValueWithIndex fuel h t i = Ok (h, None, Some (TrieIndexOutOfBounds i))).
Proof.
  intros Hr. destruct (reachable_inv a h t Hr) as [L Hinv].
  exists (Some <$> L.*2). split_and!.
  - exists (S (length L)). intros fuel Hf. apply (Values_strings a); [done|lia].
  - unfold Size. rewrite (inv_size _ _ _ _ Hinv). unfold len. by rewrite !length_fmap.
  - intros fuel. rewrite (ValueWithIndex_inv a h t L fuel i Hinv). unfold Size.
    rewrite (inv_size _ _ _ _ Hinv). split.
    + intros Hi.
      replace (i <? 0) with false by (symmetry; apply Z.ltb_ge; lia).
      rewrite Z.geb_leb.
      replace (len L <=? i) with false by (symmetry; apply Z.leb_gt; lia). simpl.
      exists (L.*2 !! Z.to_nat i). split; [|by rewrite list_lookup_fmap].
      rewrite list_lookup_fmap.
      destruct (lookup_lt_is_Some_2 L.*2 (Z.to_nat i)) as [s Hs].
      { rewrite length_fmap. unfold len in Hi. lia. }
      by rewrite Hs.
    + intros Hi. rewrite Z.geb_leb.
      destruct Hi as [Hi|Hi].
      * replace (i <? 0) with true by (symmetry; apply Z.ltb_lt; lia). done.
      * replace (len L <=? i) with true by (symmetry; apply Z.leb_le; lia).
        by rewrite orb_true_r.
Qed.

Lemma ValueWithIndex_is_element_of_Values_witness :
  match sample_run 32 with
  | Ok (h, t) =>
      reachable 4 h t /\
      exists vals : list (option string),
        returns (fun fuel => Values fuel h t) (h, vals) /\ Size t = len vals /\
        forall fuel,
          (0 <= 1 < Size t ->
           exists v, vals !! Z.to_nat 1 = Some v /\
                     ValueWithIndex fuel h t 1 = Ok (h, v, None)) /\
          (1 < 0 \/ Size t <= 1 ->
           ValueWithIndex fuel h t 1 = Ok (h, None, Some (TrieIndexOutOfBounds 1)))
  | _ => False
  end.
Proof.
  destruct sample_reachable as (h & t & E & Hr). rewrite E. split; [done|].
  apply (ValueWithIndex_is_element_of_Values 4 h t 1 Hr).
Defined.

(** C2 (as amended): in every state of a trie of alphabet size [a] (made
    by [NewTrie], then changed by [Add] and [Remove] of strings over the
    alphabet and by [Clear]) and for every string [s] over the alphabet,
    [Add s] returns a PrefixViolation
    error exactly when [s] equals an already stored string up to the case
    of its letters, and then leaves the trie, hence [Size] and [Values], as
    they were.  In every other case, also when [s] is a strict prefix or a
    strict extension of stored strings, [Add s] returns no error, [Size]
    grows by one and [s] joins [Values] at its place in the order. *)
Theorem Add_rejects_exactly_duplicates (a : Z) (h : heap) (t : trie) (s : string) :
  reachable a h t -> in_alphabet a s = true ->
  exists (vs : list string) (n : nat),
    forall fuel, (n <= fuel)%nat ->
      Values fuel h t = Ok (h, Some <$> vs) /\
      (((exists s', s' ∈ vs /\ ci_eq s' s) /\
        Add fuel h t s = Ok (h, t, Some (PrefixViolation s))) \/
       ((forall s', s' ∈ vs -> ~ ci_eq s' s) /\
        exists h' t',
          Add fuel h t s = Ok (h', t', None) /\ Size t' = Size t + 1 /\
          Values fuel h' t' = Ok (h', Some <$> sort_insert s vs))).
Proof.
  intros Hr Hs. destruct (reachable_inv a h t Hr) as [L Hinv].
  destruct (inv_list _ _ _ _ Hinv) as (hd & tl & _ & _ & Hlist).
  exists L.*2, (fuel_for a L s `max` (length L + 2))%nat. intros fuel Hfuel.
  split; [apply (Values_strings a); [done|lia]|].
  destruct (Add_inv a h t L s fuel Hinv Hs ltac:(lia))
    as [[(x & Hx & Hkey) Hdup]|(Hfresh & h1 & t1 & L1 & L2 & Hadd & HL & Hinv1 & Hlow & Hhigh)].
  - left. split; [|done]. exists x.2. split.
    + apply list_elem_of_fmap. by exists x.
    + apply (digits_ci_eq a); [by apply (list_in_alphabet _ _ _ _ _ x Hlist)|done|done].
  - right. split.
    + intros s' Hs' Heq. apply list_elem_of_fmap in Hs' as (x & -> & Hx).
      apply (Hfresh x Hx). unfold key.
      apply (digits_ci_eq a); [by apply (list_in_alphabet _ _ _ _ _ x Hlist)|done|done].
    + exists h1, t1. split_and!; [done| |].
      * unfold Size. rewrite (inv_size _ _ _ _ Hinv1), (inv_size _ _ _ _ Hinv), HL.
        unfold len. rewrite !length_app. simpl. lia.
      * destruct (inv_list _ _ _ _ Hinv1) as (hd1 & tl1 & _ & _ & Hlist1).
        rewrite HL, <- (inserted_values a h1 hd1 tl1 L1 L2 (length h) s Hlist1 Hlow Hhigh).
        apply (Values_strings a); [done|].
        rewrite HL in Hfuel. rewrite !length_app in *. simpl in *. lia.
Qed.

Lemma Add_rejects_exactly_duplicates_witness :
  match sample_run 32 with
  | Ok (h, t) =>
      (reachable 4 h t /\ in_alphabet 4 "a" = true) /\
      Values 32 h t = Ok (h, [Some "ab"; Some "abc"]) /\
      (exists h' t', Add 32 h t "a" = Ok (h', t', None)) /\
      Add 32 h t "AB" = Ok (h, t, Some (PrefixViolation "AB")) /\
      exists (vs : list string) (n : nat),
        forall fuel, (n <= fuel)%nat ->
          Values fuel h t = Ok (h, Some <$> vs) /\
          (((exists s', s' ∈ vs /\ ci_eq s' "a") /\
            Add fuel h t "a" = Ok (h, t, Some (PrefixViolation "a"))) \/
           ((forall s', s' ∈ vs -> ~ ci_eq s' "a") /\
            exists h' t',
              Add fuel h t "a" = Ok (h', t', None) /\ Size t' = Size t + 1 /\
              Values fuel h' t' = Ok (h', Some <$> sort_insert "a" vs)))
  | _ => False
  end.
Proof.
  destruct sample_reachable as (h & t & E & Hr). rewrite E.
  pose proof E as E'. vm_compute in E'. injection E' as <- <-.
  split_and!; [done|done|vm_compute; reflexivity|by eexists _, _; vm_compute
              |vm_compute; reflexivity|].
  apply (Add_rejects_exactly_duplicates 4 _ _ "a" Hr). done.
Defined.

(** * Further properties of the trie *)

(** ** The order of the stored strings *)

Lemma ci_ltb_irrefl_eq a s1 s2 :
  in_alphabet a s1 = true -> in_alphabet a s2 = true ->
  ci_eq s1 s2 -> ci_ltb s1 s2 = false.
Proof.
  intros H1 H2 Heq. rewrite (ci_ltb_digits a) by done.
  apply (digits_ci_eq a) in Heq; [|done|done]. rewrite Heq. apply lex_ltb_irrefl.
Qed.

Lemma list_ok_strings_sorted a h hd tl L :
  list_ok a h hd tl L ->
  StronglySorted (fun x y => ci_ltb x y = true) L.*2 /\
  Forall (fun s => in_alphabet a s = true) L.*2.
Proof.
  intros Hok. pose proof (list_sorted _ _ _ _ _ Hok) as Hs.
  assert (Ha : Forall (fun x => in_alphabet a x.2 = true) L).
  { eapply Forall_impl; [apply (list_leaves _ _ _ _ _ Hok)|]. by intros x [_ ?]. }
  split; [|by apply Forall_fmap].
  clear Hok. induction Hs as [|x L Hs IH Hx]; [constructor|].
  apply Forall_cons in Ha as [Hax Ha]. rewrite fmap_cons. constructor; [by apply IH|].
  apply Forall_fmap, Forall_forall. intros y Hy. simpl.
  rewrite Forall_forall in Hx, Ha.
  rewrite (ci_ltb_digits a); [by apply Hx|done|by apply Ha].
Qed.

Lemma sorted_keys_NoDup (L : list (nat * string)) :
  StronglySorted (fun x y => lex_ltb (key x) (key y) = true) L -> NoDup (key <$> L).
Proof.
  induction 1 as [|x L Hs IH Hx]; [constructor|].
  rewrite fmap_cons. apply NoDup_cons. split; [|done].
  intros Hin. apply list_elem_of_fmap in Hin as (y & Hk & Hy).
  rewrite Forall_forall in Hx. specialize (Hx y Hy). by rewrite Hk, lex_ltb_irrefl in Hx.
Qed.

(** In a list without two equal keys, an element is found at one place only. *)
Lemma split_unique (L1 L2 M1 M2 : list (nat * string)) x y :
  NoDup (key <$> (L1 ++ x :: L2)) -> L1 ++ x :: L2 = M1 ++ y :: M2 -> key x = key y ->
  L1 = M1 /\ x = y /\ L2 = M2.
Proof.
  revert M1. induction L1 as [|z L1 IH]; intros M1 Hnd Heq Hk.
  - destruct M1 as [|w M1]; simpl in Heq.
    + by injection Heq as -> ->.
    + injection Heq as -> ->. exfalso.
      change (NoDup (key <$> w :: (M1 ++ y :: M2))) in Hnd.
      rewrite fmap_cons in Hnd. apply NoDup_cons in Hnd as [Hnin _]. apply Hnin.
      rewrite Hk. apply list_elem_of_fmap. exists y. split; [done|].
      apply elem_of_app. right. by left.
  - destruct M1 as [|w M1]; simpl in Heq.
    + injection Heq as -> <-. exfalso.
      change (NoDup (key <$> y :: (L1 ++ x :: L2))) in Hnd.
      rewrite fmap_cons in Hnd. apply NoDup_cons in Hnd as [Hnin _]. apply Hnin.
      rewrite <- Hk. apply list_elem_of_fmap. exists x. split; [done|].
      apply elem_of_app. right. by left.
    + injection Heq as -> Heq.
      change (NoDup (key <$> w :: (L1 ++ x :: L2))) in Hnd.
      rewrite fmap_cons in Hnd. apply NoDup_cons in Hnd as [_ Hnd].
      destruct (IH M1 Hnd Heq Hk) as (-> & -> & ->). done.
Qed.

Lemma stored_string a h hd tl L s :
  list_ok a h hd tl L -> in_alphabet a s = true ->
  (exists x, x ∈ L /\ key x = digits s) <-> (exists s', s' ∈ L.*2 /\ ci_eq s' s).
Proof.
  intros Hok Hs. split.
  - intros (x & Hx & Hk). exists x.2. split; [apply list_elem_of_fmap; by exists x|].
    apply (digits_ci_eq a); [by apply (list_in_alphabet _ _ _ _ _ x Hok)|done|done].
  - intros (s' & Hs' & Heq). apply list_elem_of_fmap in Hs' as (x & -> & Hx).
    exists x. split; [done|]. unfold key.
    apply (digits_ci_eq a); [by apply (list_in_alphabet _ _ _ _ _ x Hok)|done|done].
Qed.

Lemma Contains_inv a h t L e fuel :
  trie_inv a h t L -> in_alphabet a e = true -> (length (digits e) < fuel)%nat ->
  ((exists x, x ∈ L /\ key x = digits e) /\ Contains fuel h t e = Ok true) \/
  ((forall x, x ∈ L -> key x <> digits e) /\ Contains fuel h t e = Ok false).
Proof.
  intros Hinv He Hfuel. unfold Contains.
  destruct (find_spec a h t L e fuel Hinv He Hfuel)
    as [(l & s0 & s & Hfind & Hin & Hds & _)|(s & Hfind & _ & Hnone)].
  - left. split; [by exists (l, s0)|].
    rewrite (IsEmpty_inv _ _ _ _ Hinv), bool_decide_false; [by rewrite Hfind|].
    intros ->. by apply elem_of_nil in Hin.
  - right. split; [done|]. destruct (IsEmpty t); [done|]. by rewrite Hfind.
Qed.
(** ** What the operations do to the stored strings *)

(** In every state of a trie the list of [Values] is strictly increasing in
    the case-insensitive order, so no two stored strings are equal up to
    case; every stored string is over the alphabet, and [Size] is the
    length of the list. *)
Theorem Values_strictly_sorted (a : Z) (h : heap) (t : trie) :
  reachable a h t ->
  exists vs : list string,
    returns (fun fuel => Values fuel h t) (h, Some <$> vs) /\
    StronglySorted (fun x y => ci_ltb x y = true) vs /\
    (forall i j x y, vs !! i = Some x -> vs !! j = Some y -> ci_eq x y -> i = j) /\
    Forall (fun s => in_alphabet a s = true) vs /\
    Size t = len vs.
Proof.
  intros Hr. destruct (reachable_inv a h t Hr) as [L Hinv].
  destruct (inv_list _ _ _ _ Hinv) as (hd & tl & _ & _ & Hlist).
  destruct (list_ok_strings_sorted a h hd tl L Hlist) as [Hsorted Halpha].
  exists L.*2. split_and!; try done.
  - exists (S (length L)). intros fuel Hf. apply (Values_strings a); [done|lia].
  - intros i j x y Hi Hj Heq.
    rewrite list_lookup_fmap in Hi, Hj.
    destruct (L !! i) as [xi|] eqn:Ei; [|done]. destruct (L !! j) as [xj|] eqn:Ej; [|done].
    simpl in Hi, Hj. injection Hi as <-. injection Hj as <-.
    pose proof (sorted_keys_NoDup L (list_sorted _ _ _ _ _ Hlist)) as Hnd.
    apply (NoDup_lookup _ i j (key xi) Hnd); rewrite list_lookup_fmap.
    + by rewrite Ei.
    + rewrite Ej. simpl. f_equal. unfold key. symmetry.
      apply (digits_ci_eq a); [| |done].
      * apply (list_in_alphabet _ _ _ _ _ xi Hlist). by eapply list_elem_of_lookup_2.
      * apply (list_in_alphabet _ _ _ _ _ xj Hlist). by eapply list_elem_of_lookup_2.
  - unfold Size. rewrite (inv_size _ _ _ _ Hinv). unfold len. by rewrite length_fmap.
Qed.

(** In every state of a trie and for every string [s] over the alphabet,
    [Contains s] is true exactly when one of the stored strings equals [s]
    up to case. *)
Theorem Contains_iff_stored (a : Z) (h : heap) (t : trie) (s : string) :
  reachable a h t -> in_alphabet a s = true ->
  exists (vs : list string) (n : nat),
    forall fuel, (n <= fuel)%nat ->
      Values fuel h t = Ok (h, Some <$> vs) /\
      exists b, Contains fuel h t s = Ok b /\
                (b = true <-> exists s', s' ∈ vs /\ ci_eq s' s).
Proof.
  intros Hr Hs. destruct (reachable_inv a h t Hr) as [L Hinv].
  destruct (inv_list _ _ _ _ Hinv) as (hd & tl & _ & _ & Hlist).
  exists L.*2, (S (length (digits s)) `max` S (length L))%nat. intros fuel Hfuel.
  split; [apply (Values_strings a); [done|lia]|].
  destruct (Contains_inv a h t L s fuel Hinv Hs ltac:(lia)) as [[Hin ->]|[Hnin ->]].
  - exists true. split; [done|]. split; [|done]. intros _.
    by apply (stored_string a h hd tl L s Hlist Hs).
  - exists false. split; [done|]. split; [done|]. intros Hin.
    apply (stored_string a h hd tl L s Hlist Hs) in Hin as (x & Hx & Hk).
    by destruct (Hnin x Hx).
Qed.

(** In every state of a trie and for every string [s] over the alphabet,
    [Remove s] returns false and leaves the trie as it is when no stored
    string equals [s] up to case; otherwise it returns true, takes exactly
    that string out of [Values], leaving the others in their order, and
    decrements [Size]. *)
Theorem Remove_takes_out_the_equal_string (a : Z) (h : heap) (t : trie) (s : string) :
  reachable a h t -> in_alphabet a s = true ->
  exists (vs : list string) (n : nat),
    forall fuel, (n <= fuel)%nat ->
      Values fuel h t = Ok (h, Some <$> vs) /\
      (((forall s', s' ∈ vs -> ~ ci_eq s' s) /\ Remove fuel h t s = Ok (h, t, false)) \/
       (exists v1 s0 v2 h' t',
          vs = v1 ++ s0 :: v2 /\ ci_eq s0 s /\
          Remove fuel h t s = Ok (h', t', true) /\ Size t' = Size t - 1 /\
          Values fuel h' t' = Ok (h', Some <$> (v1 ++ v2)))).
Proof.
  intros Hr Hs. destruct (reachable_inv a h t Hr) as [L Hinv].
  destruct (inv_list _ _ _ _ Hinv) as (hd & tl & _ & _ & Hlist).
  exists L.*2, (S (length (digits s)) `max` S (length L))%nat. intros fuel Hfuel.
  split; [apply (Values_strings a); [done|lia]|].
  destruct (Remove_inv a h t L s fuel Hinv Hs ltac:(lia))
    as [[Hnin Hrun]|(h' & t' & L1 & l & s0 & L2 & HL & Hds & Hrun & Hinv')].
  - left. split; [|done]. intros s' Hs' Heq.
    destruct (proj2 (stored_string a h hd tl L s Hlist Hs)) as (x & Hx & Hk); [by exists s'|].
    by destruct (Hnin x Hx).
  - right. exists L1.*2, s0, L2.*2, h', t'. split_and!; try done.
    + by rewrite HL, fmap_app, fmap_cons.
    + apply (digits_ci_eq a); [|done|done].
      apply (list_in_alphabet _ _ _ _ _ (l, s0) Hlist). rewrite HL.
      apply elem_of_app. right. by left.
    + unfold Size. rewrite (inv_size _ _ _ _ Hinv'), (inv_size _ _ _ _ Hinv), HL.
      unfold len. rewrite !length_app. simpl. lia.
    + rewrite <- fmap_app. apply (Values_strings a); [done|].
      rewrite HL in Hfuel. rewrite !length_app in *. simpl in *. lia.
Qed.

(** From every state of a trie that [NewTrie], [Add] and [Remove] of
    strings over the alphabet and [Clear] lead to, [Clear] returns and
    leaves the trie empty: [Size] is 0, [Values] is the empty list, [Min]
    and [Max] return nil.  (A trie that was given a string outside its
    alphabet is not such a state.) *)
Theorem Clear_empties_the_trie (a : Z) (h : heap) (t : trie) :
  reachable a h t ->
  exists n, forall fuel, (n <= fuel)%nat ->
    exists h' t',
      Clear fuel h t = Ok (h', t') /\
      Size t' = 0 /\ IsEmpty t' = true /\ Values fuel h' t' = Ok (h', []) /\
      Min h' t' = Ok None /\ Max h' t' = Ok None.
Proof.
  intros Hr. destruct (reachable_inv a h t Hr) as [L Hinv].
  exists (max_list (length ∘ key <$> L) + length L + 2)%nat. intros fuel Hfuel.
  destruct (Clear_inv a h t L fuel Hinv Hfuel) as (h' & t' & Hrun & Hinv').
  exists h', t'. split_and!; try done.
  - unfold Size. by rewrite (inv_size _ _ _ _ Hinv').
  - by rewrite (IsEmpty_inv _ _ _ _ Hinv').
  - rewrite (Values_strings a h' t' [] fuel Hinv'); [done|simpl; lia].
  - by rewrite (Min_inv _ _ _ _ Hinv').
  - by rewrite (Max_inv _ _ _ _ Hinv').
Qed.

(** In every state of a trie and for every string [s] over the alphabet:
    after [Add s], whatever it returned, [Contains s] is true; after
    [Remove s], whatever it returned, [Contains s] is false. *)
Theorem Contains_after_Add_and_Remove (a : Z) (h : heap) (t : trie) (s : string) :
  reachable a h t -> in_alphabet a s = true ->
  exists n, forall fuel, (n <= fuel)%nat ->
    (exists h' t' err, Add fuel h t s = Ok (h', t', err) /\ Contains fuel h' t' s = Ok true) /\
    (exists h' t' b, Remove fuel h t s = Ok (h', t', b) /\ Contains fuel h' t' s = Ok false).
Proof.
  intros Hr Hs. destruct (reachable_inv a h t Hr) as [L Hinv].
  exists (fuel_for a L s). intros fuel Hfuel.
  assert (Hlen : (length (digits s) < fuel)%nat) by (unfold fuel_for in Hfuel; lia).
  split.
  - destruct (Add_inv a h t L s fuel Hinv Hs Hfuel)
      as [[Hin Hrun]|(_ & h1 & t1 & L1 & L2 & Hrun & HL & Hinv1 & _)].
    + exists h, t, (Some (PrefixViolation s)). split; [done|].
      destruct (Contains_inv a h t L s fuel Hinv Hs Hlen) as [[_ ?]|[Hnin _]]; [done|].
      destruct Hin as (x & Hx & Hk). by destruct (Hnin x Hx).
    + exists h1, t1, None. split; [done|].
      destruct (Contains_inv a h1 t1 _ s fuel Hinv1 Hs Hlen) as [[_ ?]|[Hnin _]]; [done|].
      exfalso. apply (Hnin (length h, s)); [|done]. apply elem_of_app. right. by left.
  - destruct (Remove_inv a h t L s fuel Hinv Hs Hlen)
      as [[Hnin Hrun]|(h' & t' & L1 & l & s0 & L2 & HL & Hds & Hrun & Hinv')].
    + exists h, t, false. split; [done|].
      destruct (Contains_inv a h t L s fuel Hinv Hs Hlen) as [[Hin _]|[_ ?]]; [|done].
      destruct Hin as (x & Hx & Hk). by destruct (Hnin x Hx).
    + exists h', t', true. split; [done|].
      destruct (Contains_inv a h' t' _ s fuel Hinv' Hs Hlen) as [[Hin _]|[_ ?]]; [|done].
      exfalso. destruct Hin as (x & Hx & Hk).
      destruct (inv_list _ _ _ _ Hinv) as (hd & tl & _ & _ & Hlist).
      pose proof (list_sorted _ _ _ _ _ Hlist) as Hsorted. rewrite HL in Hsorted.
      apply (sorted_middle_fresh L1 L2 (l, s0) Hsorted x Hx). unfold key at 2. simpl.
      by rewrite Hds.
Qed.

(** Round trip: in every state of a trie, adding a string over the alphabet
    that is not stored yet (up to case) and removing it again gives back
    the same [Values] and the same [Size]. *)
Theorem Add_then_Remove_restores_Values (a : Z) (h : heap) (t : trie) (s : string)
  (vs : list string) :
  reachable a h t -> in_alphabet a s = true ->
  returns (fun fuel => Values fuel h t) (h, Some <$> vs) ->
  (forall s', s' ∈ vs -> ~ ci_eq s' s) ->
  exists n, forall fuel, (n <= fuel)%nat ->
    exists h1 t1 h2 t2,
      Add fuel h t s = Ok (h1, t1, None) /\
      Remove fuel h1 t1 s = Ok (h2, t2, true) /\
      Size t2 = Size t /\ Values fuel h2 t2 = Ok (h2, Some <$> vs).
Proof.
  intros Hr Hs [nv Hvals] Hfresh. destruct (reachable_inv a h t Hr) as [L Hinv].
  destruct (inv_list _ _ _ _ Hinv) as (hd & tl & _ & _ & Hlist).
  assert (Hvs : vs = L.*2).
  { specialize (Hvals (nv `max` S (length L))%nat ltac:(lia)).
    rewrite (Values_strings a h t L) in Hvals by (done || lia).
    injection Hvals as Hvals. symmetry.
    revert Hvals. generalize (L.*2). clear. intros l. revert l.
    induction vs as [|v vs IH]; intros [|x l] H; try done.
    injection H as -> H. f_equal. by apply IH. }
  exists (fuel_for a L s `max` (length L + 2))%nat. intros fuel Hfuel.
  assert (Hlen : (length (digits s) < fuel)%nat) by (unfold fuel_for in Hfuel; lia).
  destruct (Add_inv a h t L s fuel Hinv Hs ltac:(lia))
    as [[Hin _]|(_ & h1 & t1 & L1 & L2 & Hadd & HL & Hinv1 & _)].
  { exfalso. apply (stored_string a h hd tl L s Hlist Hs) in Hin as (s' & Hs' & Heq).
    apply (Hfresh s'); [by rewrite Hvs|done]. }
  destruct (Remove_inv a h1 t1 _ s fuel Hinv1 Hs Hlen)
    as [[Hnin _]|(h2 & t2 & M1 & l & s0 & M2 & HM & Hds & Hrem & Hinv2)].
  { exfalso. apply (Hnin (length h, s)); [|done]. apply elem_of_app. right. by left. }
  destruct (inv_list _ _ _ _ Hinv1) as (hd1 & tl1 & _ & _ & Hlist1).
  destruct (split_unique L1 L2 M1 M2 (length h, s) (l, s0)) as (<- & _ & <-).
  { apply sorted_keys_NoDup, (list_sorted _ _ _ _ _ Hlist1). }
  { done. }
  { unfold key. simpl. by rewrite Hds. }
  exists h1, t1, h2, t2. split_and!; try done.
  - unfold Size. rewrite (inv_size _ _ _ _ Hinv2), (inv_size _ _ _ _ Hinv), HL. done.
  - rewrite Hvs, HL. apply (Values_strings a); [done|]. rewrite HL in Hfuel. lia.
Qed.
(** ** [Predecessor] and [Successor] *)

Lemma gap_no_left_fork h r e k n :
  walk h r (take k (digits e)) = Some n -> (k < length (digits e))%nat ->
  child_at h n (digit_at (digits e) k) = None ->
  forall j, (k < j < length (digits e))%nat -> no_left_fork h r e j.
Proof.
  intros Hw Hk Hc j Hj i _.
  assert (Hgone : walk h r (take (S k) (digits e)) = None).
  { by rewrite take_S_digit, walk_snoc, Hw. }
  rewrite (take_take_app (digits e) (S k) j), <- app_assoc, walk_app, Hgone by lia. done.
Qed.

(** The value of the cell that follows a stored element in the order list. *)
Lemma next_value a h hd tl L1 l s0 L2 :
  list_ok a h hd tl (L1 ++ (l, s0) :: L2) ->
  (let* successor := Next h (Some l) in
   let* tl := IsTail h successor in
   if negb tl then Value h successor else Ok None) = Ok (L2.*2 !! 0%nat).
Proof.
  intros Hok. pose proof (list_linked _ _ _ _ _ Hok) as Hlk.
  rewrite fmap_app, fmap_cons, <- app_assoc in Hlk. simpl in Hlk.
  destruct L2 as [|[l2 s2] L2].
  - simpl in Hlk. apply (linked_link h (hd :: L1.*1)) in Hlk.
    destruct Hlk as (xl & yl & Hx & Hy & Hn & _).
    destruct (list_tail _ _ _ _ _ Hok) as (tll & Ht & _ & Htt).
    rewrite Hy in Ht. injection Ht as ->.
    rewrite (Next_eq _ _ _ Hx), Hn. rsimpl. rewrite (IsTail_eq _ _ _ Hy), Htt. done.
  - simpl in Hlk. apply (linked_link h (hd :: L1.*1)) in Hlk.
    assert (Hcell : leaf_cell h l2 s2).
    { apply (list_leaf_cell _ _ _ _ _ (l2, s2) Hok). apply elem_of_app. right. right. by left. }
    destruct (link_leaf _ _ _ _ Hlk Hcell) as (yl & Hy & He & _ & Hyt & _).
    destruct Hlk as (xl & yl' & Hx & _ & Hn & _).
    rewrite (Next_eq _ _ _ Hx), Hn. rsimpl. rewrite (IsTail_eq _ _ _ Hy), Hyt. rsimpl.
    rewrite (Value_eq _ _ _ Hy). simpl. by rewrite He.
Qed.

Lemma moveToPredecessor_after_find a h t L e fuel :
  trie_inv a h t L -> L <> [] -> in_alphabet a e = true -> (fuel_for a L e <= fuel)%nat ->
  exists res s,
    find fuel h t e = Ok (res, s) /\
    ((res = Matched /\ exists x, x ∈ L /\ key x = digits e) \/
     (res = Unmatched /\ forall x, x ∈ L -> key x <> digits e)) /\
    ((exists s', moveToPredecessor fuel h e s res = Ok (false, s') /\
                 forall x, x ∈ L -> lex_ltb (key x) (digits e) = false) \/
     (exists s' lp sp, moveToPredecessor fuel h e s res = Ok (true, s') /\
        pointer s' = Some lp /\ (lp, sp) ∈ L /\ lex_ltb (digits sp) (digits e) = true /\
        forall x, x ∈ L -> lex_ltb (key x) (digits e) = true ->
                  lex_ltb (digits sp) (key x) = false)).
Proof.
  intros Hinv HL He Hfuel. unfold fuel_for in Hfuel.
  pose proof (inv_alphabet _ _ _ _ Hinv) as Ha.
  destruct (inv_list _ _ _ _ Hinv) as (hd & tl & _ & _ & Hlist).
  pose proof (inv_tree _ _ _ _ Hinv) as Htree.
  destruct (root t) as [r|] eqn:Hroot; [|done].
  assert (Hcells : forall x, x ∈ L -> leaf_cell h x.1 x.2)
    by (intros x Hx; apply (list_leaf_cell _ _ _ _ _ _ Hlist Hx)).
  assert (Halpha : forall x, x ∈ L -> in_alphabet a x.2 = true)
    by (intros x Hx; apply (list_in_alphabet _ _ _ _ _ _ Hlist Hx)).
  destruct (find_spec a h t L e fuel Hinv He ltac:(lia))
    as [(l & s0 & s & Hfind & Hin & Hds & Hp & Hb & Hd)|(s & Hfind & Hgap & Hnone)].
  - exists Matched, s. split; [done|]. split; [left; split; [done|by exists (l, s0)]|].
    apply (moveToPredecessor_spec (h:=h) (r:=r) (L:=L) (D:=max_list (length ∘ key <$> L))
             Ha Htree Hcells Halpha (key_length_le L) He fuel s (length (digits e)) l);
      try done; try lia.
    + rewrite firstn_all, <- Hds. by apply (tree_stored _ _ _ _ _ Htree).
    + by left.
  - exists Unmatched, s. split; [done|]. split; [by right|].
    destruct Hgap as (Hd & k & Hb & Hk & Hgap). rewrite Hroot in Hgap.
    destruct Hgap as (n & nd & Hp & Hw & Hn & Hc).
    apply (moveToPredecessor_spec (h:=h) (r:=r) (L:=L) (D:=max_list (length ∘ key <$> L))
             Ha Htree Hcells Halpha (key_length_le L) He fuel s k n);
      try done; try lia.
    + by apply (gap_no_left_fork h r e k n).
    + by right.
Qed.

Lemma Predecessor_inv a h t L e fuel :
  trie_inv a h t L -> in_alphabet a e = true -> (fuel_for a L e <= fuel)%nat ->
  ((forall x, x ∈ L -> lex_ltb (key x) (digits e) = false) /\
   Predecessor fuel h t e = Ok None) \/
  (exists lp sp, (lp, sp) ∈ L /\ lex_ltb (digits sp) (digits e) = true /\
     (forall x, x ∈ L -> lex_ltb (key x) (digits e) = true ->
                lex_ltb (digits sp) (key x) = false) /\
     Predecessor fuel h t e = Ok (Some sp)).
Proof.
  intros Hinv He Hfuel. unfold Predecessor. rewrite (IsEmpty_inv _ _ _ _ Hinv).
  destruct (decide (L = [])) as [->|HL].
  { left. split; [by intros x Hx%elem_of_nil|done]. }
  rewrite bool_decide_false by done. cbn [negb].
  destruct (moveToPredecessor_after_find a h t L e fuel Hinv HL He Hfuel)
    as (res & s & -> & _ & [(s' & Hrun & Hleast)|(s' & lp & sp & Hrun & Hp & Hlp & Hlt & Hmax)]);
    rsimpl; rewrite Hrun; rsimpl.
  - by left.
  - right. exists lp, sp. split_and!; try done.
    destruct (inv_list _ _ _ _ Hinv) as (hd & tl & _ & _ & Hlist).
    destruct (list_leaf_cell _ _ _ _ _ _ Hlist Hlp) as (lf & Hlf & Hel & _).
    simpl in Hlf, Hel. rewrite Hp, (Value_eq _ _ _ Hlf). simpl. by rewrite Hel.
Qed.

Lemma Successor_inv a h t L e fuel :
  trie_inv a h t L -> in_alphabet a e = true -> (fuel_for a L e <= fuel)%nat ->
  (exists L1 l s0 L2, L = L1 ++ (l, s0) :: L2 /\ digits s0 = digits e /\
                      Successor fuel h t e = Ok (L2.*2 !! 0%nat)) \/
  ((forall x, x ∈ L -> key x <> digits e) /\
   ((exists L1 lp sp L2, L = L1 ++ (lp, sp) :: L2 /\
       lex_ltb (digits sp) (digits e) = true /\
       Forall (fun y => lex_ltb (digits e) (key y) = true) L2 /\
       Successor fuel h t e = Ok (L2.*2 !! 0%nat)) \/
    ((forall x, x ∈ L -> lex_ltb (digits e) (key x) = true) /\
     Successor fuel h t e = Ok None))).
Proof.
  intros Hinv He Hfuel. unfold Successor. rewrite (IsEmpty_inv _ _ _ _ Hinv).
  destruct (decide (L = [])) as [->|HL].
  { right. split; [by intros x Hx%elem_of_nil|]. right. split; [by intros x Hx%elem_of_nil|done]. }
  rewrite bool_decide_false by done. cbn [negb].
  destruct (inv_list _ _ _ _ Hinv) as (hd & tl & Hhd & Htl & Hlist).
  assert (Hlen : (length (digits e) < fuel)%nat) by (unfold fuel_for in Hfuel; lia).
  destruct (find_spec a h t L e fuel Hinv He Hlen)
    as [(l & s0 & s & Hfind & Hin & Hds & Hp & _)|(s & Hfind & _ & Hnone)].
  - left. apply list_elem_of_split in Hin as (L1 & L2 & ->).
    exists L1, l, s0, L2. split_and!; try done.
    rewrite Hfind. rsimpl. change (searchResult_eqb Matched Matched) with true. cbv iota.
    rewrite Hp. by apply (next_value a h hd tl L1 l s0 L2).
  - right. split; [done|].
    destruct (moveToPredecessor_after_find a h t L e fuel Hinv HL He Hfuel)
      as (res & s1 & Hfind1 & _ & Hmove).
    rewrite Hfind in Hfind1. injection Hfind1 as <- <-.
    rewrite Hfind. rsimpl. change (searchResult_eqb Unmatched Matched) with false. cbv iota.
    destruct Hmove as [(s' & Hrun & Hleast)|(s' & lp & sp & Hrun & Hp & Hlp & Hlt & Hmax)];
      rewrite Hrun; rsimpl.
    + right. split.
      * intros x Hx. destruct (lex_ltb_total (digits e) (key x)) as [?|[Heq|Hgt]]; [done| |].
        -- by destruct (Hnone x Hx).
        -- by rewrite (Hleast x Hx) in Hgt.
      * rewrite Htl. destruct (list_tail _ _ _ _ _ Hlist) as (tll & Ht & _ & Htt).
        by rewrite (IsTail_eq _ _ _ Ht), Htt.
    + left. apply list_elem_of_split in Hlp as (L1 & L2 & ->).
      exists L1, lp, sp, L2. split_and!; try done.
      * pose proof (list_sorted _ _ _ _ _ Hlist) as Hs.
        apply StronglySorted_app in Hs as (_ & _ & Hs).
        apply StronglySorted_cons in Hs as [Hs _]. rewrite Forall_forall in Hs.
        apply Forall_forall. intros y Hy.
        assert (HyL : y ∈ L1 ++ (lp, sp) :: L2) by (apply elem_of_app; right; by right).
        destruct (lex_ltb_total (digits e) (key y)) as [?|[Heq|Hgt]]; [done| |].
        -- by destruct (Hnone y HyL).
        -- specialize (Hmax y HyL Hgt). specialize (Hs y Hy). unfold key at 1 in Hs.
           simpl in Hs. congruence.
      * rewrite Hp. by apply (next_value a h hd tl L1 lp sp L2).
Qed.

(** In every state of a trie and for every string [e] over the alphabet,
    stored or not, [Predecessor e] returns the greatest stored string that
    is below [e] in the case-insensitive order, and nil when no stored
    string is below [e]. *)
Theorem Predecessor_is_greatest_below (a : Z) (h : heap) (t : trie) (e : string) :
  reachable a h t -> in_alphabet a e = true ->
  exists (vs : list string) (n : nat),
    forall fuel, (n <= fuel)%nat ->
      Values fuel h t = Ok (h, Some <$> vs) /\
      (((forall x, x ∈ vs -> ci_ltb x e = false) /\ Predecessor fuel h t e = Ok None) \/
       (exists sp, sp ∈ vs /\ ci_ltb sp e = true /\
          (forall x, x ∈ vs -> ci_ltb x e = true -> ci_ltb sp x = false) /\
          Predecessor fuel h t e = Ok (Some sp))).
Proof.
  intros Hr He. destruct (reachable_inv a h t Hr) as [L Hinv].
  destruct (inv_list _ _ _ _ Hinv) as (hd & tl & _ & _ & Hlist).
  assert (Halpha : forall x, x ∈ L -> in_alphabet a x.2 = true)
    by (intros x Hx; apply (list_in_alphabet _ _ _ _ _ _ Hlist Hx)).
  exists L.*2, (fuel_for a L e). intros fuel Hfuel.
  split; [apply (Values_strings a); [done|unfold fuel_for in Hfuel; lia]|].
  destruct (Predecessor_inv a h t L e fuel Hinv He Hfuel)
    as [[Hleast Hrun]|(lp & sp & Hlp & Hlt & Hmax & Hrun)].
  - left. split; [|done]. intros s Hs. apply list_elem_of_fmap in Hs as (x & -> & Hx).
    rewrite (ci_ltb_digits a); [by apply Hleast|by apply Halpha|done].
  - right. exists sp. split_and!; try done.
    + apply list_elem_of_fmap. by exists (lp, sp).
    + rewrite (ci_ltb_digits a); [done|by apply (Halpha (lp, sp))|done].
    + intros s Hs Hse. apply list_elem_of_fmap in Hs as (x & -> & Hx).
      rewrite (ci_ltb_digits a) in Hse; [|by apply Halpha|done].
      rewrite (ci_ltb_digits a); [by apply Hmax|by apply (Halpha (lp, sp))|by apply Halpha].
Qed.

(** In every state of a trie and for every string [e] over the alphabet:
    when a stored string equals [e] up to case, [Successor e] returns the
    string that follows it in [Values] (nil after the last one); when [e]
    is not stored but some stored string is below it, [Successor e] returns
    the string that follows the greatest such string, which is the least
    stored string above [e] (nil if there is none); and when [e] is not
    stored and every stored string is above it, [Successor e] returns
    nil. *)
Theorem Successor_follows_position (a : Z) (h : heap) (t : trie) (e : string) :
  reachable a h t -> in_alphabet a e = true ->
  exists (vs : list string) (n : nat),
    forall fuel, (n <= fuel)%nat ->
      Values fuel h t = Ok (h, Some <$> vs) /\
      ((exists v1 s0 v2, vs = v1 ++ s0 :: v2 /\ ci_eq s0 e /\
                         Successor fuel h t e = Ok (v2 !! 0%nat)) \/
       ((forall s', s' ∈ vs -> ~ ci_eq s' e) /\
        ((exists v1 sp v2, vs = v1 ++ sp :: v2 /\ ci_ltb sp e = true /\
                           Forall (fun y => ci_ltb e y = true) v2 /\
                           Successor fuel h t e = Ok (v2 !! 0%nat)) \/
         ((forall x, x ∈ vs -> ci_ltb e x = true) /\
          Successor fuel h t e = Ok None)))).
Proof.
  intros Hr He. destruct (reachable_inv a h t Hr) as [L Hinv].
  destruct (inv_list _ _ _ _ Hinv) as (hd & tl & _ & _ & Hlist).
  assert (Halpha : forall x, x ∈ L -> in_alphabet a x.2 = true)
    by (intros x Hx; apply (list_in_alphabet _ _ _ _ _ _ Hlist Hx)).
  exists L.*2, (fuel_for a L e). intros fuel Hfuel.
  split; [apply (Values_strings a); [done|unfold fuel_for in Hfuel; lia]|].
  destruct (Successor_inv a h t L e fuel Hinv He Hfuel)
    as [(L1 & l & s0 & L2 & HL & Hds & Hrun)
       |[Hnone [(L1 & lp & sp & L2 & HL & Hlt & Hhigh & Hrun)|[Hall Hrun]]]].
  - left. exists L1.*2, s0, L2.*2. split_and!; try done.
    + by rewrite HL, fmap_app, fmap_cons.
    + apply (digits_ci_eq a); [|done|done]. apply (Halpha (l, s0)). rewrite HL.
      apply elem_of_app. right. by left.
  - right. split.
    { intros s' Hs' Heq.
      destruct (proj2 (stored_string a h hd tl L e Hlist He)) as (x & Hx & Hk); [by exists s'|].
      by destruct (Hnone x Hx). }
    left. exists L1.*2, sp, L2.*2. split_and!; try done.
    + by rewrite HL, fmap_app, fmap_cons.
    + rewrite (ci_ltb_digits a); [done| |done]. apply (Halpha (lp, sp)). rewrite HL.
      apply elem_of_app. right. by left.
    + apply Forall_fmap, Forall_forall. intros y Hy. simpl.
      rewrite Forall_forall in Hhigh.
      rewrite (ci_ltb_digits a); [by apply Hhigh|done|]. apply Halpha. rewrite HL.
      apply elem_of_app. right. by right.
  - right. split.
    { intros s' Hs' Heq.
      destruct (proj2 (stored_string a h hd tl L e Hlist He)) as (x & Hx & Hk); [by exists s'|].
      by destruct (Hnone x Hx). }
    right. split; [|done]. intros s Hs. apply list_elem_of_fmap in Hs as (x & -> & Hx).
    rewrite (ci_ltb_digits a); [by apply Hall|done|by apply Halpha].
Qed.


(** ** The properties on a sample state *)

Lemma sample_values :
  exists h t, sample_run 32 = Ok (h, t) /\ reachable 4 h t /\
              returns (fun fuel => Values fuel h t) (h, Some <$> ["ab"; "abc"]).
Proof.
  destruct sample_reachable as (h & t & E & Hr). exists h, t. split_and!; [exact E|exact Hr|].
  vm_compute in E. injection E as <- <-.
  apply (returns_from _ _ 32). intros k. vm_compute. reflexivity.
Qed.

Lemma Values_strictly_sorted_witness :
  match sample_run 32 with
  | Ok (h, t) =>
      reachable 4 h t /\
      exists vs : list string,
        returns (fun fuel => Values fuel h t) (h, Some <$> vs) /\
        StronglySorted (fun x y => ci_ltb x y = true) vs /\
        (forall i j x y, vs !! i = Some x -> vs !! j = Some y -> ci_eq x y -> i = j) /\
        Forall (fun s => in_alphabet 4 s = true) vs /\
        Size t = len vs
  | _ => False
  end.
Proof.
  destruct sample_reachable as (h & t & E & Hr). rewrite E. clear E. split; [exact Hr|].
  apply (Values_strictly_sorted 4 h t Hr).
Defined.

Lemma Contains_iff_stored_witness :
  sample_query (fun h t => Contains 32 h t "AB") = Ok true /\
  match sample_run 32 with
  | Ok (h, t) =>
      (reachable 4 h t /\ in_alphabet 4 "AB" = true) /\
      exists (vs : list string) (n : nat),
        forall fuel, (n <= fuel)%nat ->
          Values fuel h t = Ok (h, Some <$> vs) /\
          exists b, Contains fuel h t "AB" = Ok b /\
                    (b = true <-> exists s', s' ∈ vs /\ ci_eq s' "AB")
  | _ => False
  end.
Proof.
  split; [vm_compute; reflexivity|].
  destruct sample_reachable as (h & t & E & Hr). rewrite E. clear E.
  split; [split; [exact Hr|reflexivity]|].
  apply (Contains_iff_stored 4 h t "AB" Hr). reflexivity.
Defined.

Lemma Remove_takes_out_the_equal_string_witness :
  sample_query (fun h t => let* (h', t', b) := Remove 32 h t "ab" in
                           let* (_, vs) := Values 32 h' t' in Ok (b, Size t', vs))
  = Ok (true, 1, [Some "abc"]) /\
  match sample_run 32 with
  | Ok (h, t) =>
      (reachable 4 h t /\ in_alphabet 4 "ab" = true) /\
      exists (vs : list string) (n : nat),
        forall fuel, (n <= fuel)%nat ->
          Values fuel h t = Ok (h, Some <$> vs) /\
          (((forall s', s' ∈ vs -> ~ ci_eq s' "ab") /\
            Remove fuel h t "ab" = Ok (h, t, false)) \/
           (exists v1 s0 v2 h' t',
              vs = v1 ++ s0 :: v2 /\ ci_eq s0 "ab" /\
              Remove fuel h t "ab" = Ok (h', t', true) /\ Size t' = Size t - 1 /\
              Values fuel h' t' = Ok (h', Some <$> (v1 ++ v2))))
  | _ => False
  end.
Proof.
  split; [vm_compute; reflexivity|].
  destruct sample_reachable as (h & t & E & Hr). rewrite E. clear E.
  split; [split; [exact Hr|reflexivity]|].
  apply (Remove_takes_out_the_equal_string 4 h t "ab" Hr). reflexivity.
Defined.

Lemma Clear_empties_the_trie_witness :
  match sample_run 32 with
  | Ok (h, t) =>
      reachable 4 h t /\
      exists n, forall fuel, (n <= fuel)%nat ->
        exists h' t',
          Clear fuel h t = Ok (h', t') /\
          Size t' = 0 /\ IsEmpty t' = true /\ Values fuel h' t' = Ok (h', []) /\
          Min h' t' = Ok None /\ Max h' t' = Ok None
  | _ => False
  end.
Proof.
  destruct sample_reachable as (h & t & E & Hr). rewrite E. clear E. split; [exact Hr|].
  apply (Clear_empties_the_trie 4 h t Hr).
Defined.

Lemma Contains_after_Add_and_Remove_witness :
  match sample_run 32 with
  | Ok (h, t) =>
      (reachable 4 h t /\ in_alphabet 4 "ba" = true) /\
      exists n, forall fuel, (n <= fuel)%nat ->
        (exists h' t' err,
           Add fuel h t "ba" = Ok (h', t', err) /\ Contains fuel h' t' "ba" = Ok true) /\
        (exists h' t' b,
           Remove fuel h t "ba" = Ok (h', t', b) /\ Contains fuel h' t' "ba" = Ok false)
  | _ => False
  end.
Proof.
  destruct sample_reachable as (h & t & E & Hr). rewrite E. clear E.
  split; [split; [exact Hr|reflexivity]|].
  apply (Contains_after_Add_and_Remove 4 h t "ba" Hr). reflexivity.
Defined.

Lemma Add_then_Remove_restores_Values_witness :
  match sample_run 32 with
  | Ok (h, t) =>
      (reachable 4 h t /\ in_alphabet 4 "ba" = true /\
       returns (fun fuel => Values fuel h t) (h, Some <$> ["ab"; "abc"]) /\
       (forall s', s' ∈ ["ab"; "abc"] -> ~ ci_eq s' "ba")) /\
      exists n, forall fuel, (n <= fuel)%nat ->
        exists h1 t1 h2 t2,
          Add fuel h t "ba" = Ok (h1, t1, None) /\
          Remove fuel h1 t1 "ba" = Ok (h2, t2, true) /\
          Size t2 = Size t /\ Values fuel h2 t2 = Ok (h2, Some <$> ["ab"; "abc"])
  | _ => False
  end.
Proof.
  destruct sample_values as (h & t & E & Hr & Hv). rewrite E. clear E.
  assert (Hf : forall s', s' ∈ ["ab"; "abc"] -> ~ ci_eq s' "ba").
  { intros s' Hs'. apply elem_of_cons in Hs' as [->|Hs']; [by vm_compute|].
    apply elem_of_cons in Hs' as [->|Hs']; [by vm_compute|]. by apply elem_of_nil in Hs'. }
  split; [split_and!; [exact Hr|reflexivity|exact Hv|exact Hf]|].
  apply (Add_then_Remove_restores_Values 4 h t "ba" ["ab"; "abc"] Hr eq_refl Hv Hf).
Defined.

Lemma Predecessor_is_greatest_below_witness :
  sample_query (fun h t => Predecessor 32 h t "b") = Ok (Some "abc") /\
  sample_query (fun h t => Predecessor 32 h t "abc") = Ok (Some "ab") /\
  sample_query (fun h t => Predecessor 32 h t "ab") = Ok None /\
  match sample_run 32 with
  | Ok (h, t) =>
      (reachable 4 h t /\ in_alphabet 4 "b" = true) /\
      exists (vs : list string) (n : nat),
        forall fuel, (n <= fuel)%nat ->
          Values fuel h t = Ok (h, Some <$> vs) /\
          (((forall x, x ∈ vs -> ci_ltb x "b" = false) /\
            Predecessor fuel h t "b" = Ok None) \/
           (exists sp, sp ∈ vs /\ ci_ltb sp "b" = true /\
              (forall x, x ∈ vs -> ci_ltb x "b" = true -> ci_ltb sp x = false) /\
              Predecessor fuel h t "b" = Ok (Some sp)))
  | _ => False
  end.
Proof.
  split_and!; [vm_compute; reflexivity|vm_compute; reflexivity|vm_compute; reflexivity|].
  destruct sample_reachable as (h & t & E & Hr). rewrite E. clear E.
  split; [split; [exact Hr|reflexivity]|].
  apply (Predecessor_is_greatest_below 4 h t "b" Hr). reflexivity.
Defined.

Lemma Successor_follows_position_witness :
  sample_query (fun h t => Successor 32 h t "a") = Ok None /\
  sample_query (fun h t => Successor 32 h t "ab") = Ok (Some "abc") /\
  sample_query (fun h t => Successor 32 h t "abb") = Ok (Some "abc") /\
  match sample_run 32 with
  | Ok (h, t) =>
      (reachable 4 h t /\ in_alphabet 4 "a" = true) /\
      exists (vs : list string) (n : nat),
        forall fuel, (n <= fuel)%nat ->
          Values fuel h t = Ok (h, Some <$> vs) /\
          ((exists v1 s0 v2, vs = v1 ++ s0 :: v2 /\ ci_eq s0 "a" /\
                             Successor fuel h t "a" = Ok (v2 !! 0%nat)) \/
           ((forall s', s' ∈ vs -> ~ ci_eq s' "a") /\
            ((exists v1 sp v2, vs = v1 ++ sp :: v2 /\ ci_ltb sp "a" = true /\
                               Forall (fun y => ci_ltb "a" y = true) v2 /\
                               Successor fuel h t "a" = Ok (v2 !! 0%nat)) \/
             ((forall x, x ∈ vs -> ci_ltb "a" x = true) /\
              Successor fuel h t "a" = Ok None))))
  | _ => False
  end.
Proof.
  split_and!; [vm_compute; reflexivity|vm_compute; reflexivity|vm_compute; reflexivity|].
  destruct sample_reachable as (h & t & E & Hr). rewrite E. clear E.
  split; [split; [exact Hr|reflexivity]|].
  apply (Successor_follows_position 4 h t "a" Hr). reflexivity.
Defined.

(** ** A letter just past the alphabet *)

Lemma find_panics_one_past a h t L c rest fuel :
  trie_inv a h t L -> L <> [] -> letter_digit c = a + 1 ->
  find (S fuel) h t (String c rest) = Panic.
Proof.
  intros Hinv HL Hc. pose proof (inv_tree _ _ _ _ Hinv) as Htree.
  destruct (root t) as [r|] eqn:Hroot; [|done].
  destruct (tree_root_node _ _ _ _ _ Htree) as [nd Hnd].
  assert (Hw : walk h r [] = Some r) by done.
  pose proof (tree_node_children _ _ _ _ _ _ _ _ Htree Hw Hnd) as Hlen.
  unfold find. rewrite (IsEmpty_inv _ _ _ _ Hinv), bool_decide_false by done.
  cbn [find_loop]. unfold prepareSearch. rsimpl. rewrite Hroot. cbn [is_nil negb andb].
  rewrite (atLeaf_node h r (mkSearchContext (Some r) (digitizer t) 0 0) nd eq_refl Hnd).
  cbn [negb]. rewrite (inv_digitizer _ _ _ _ Hinv), NumDigitsOf_digits.
  replace (0 =? len (digits (String c rest))) with false.
  2:{ symmetry. apply Z.eqb_neq. pose proof (digits_length_pos (String c rest)).
      unfold len. lia. }
  unfold descendTo. rsimpl.
  change 0 with (Z.of_nat 0) at 1. rewrite (DigitOf_digits a (String c rest) 0). rsimpl.
  change (digit_at (digits (String c rest)) 0) with (letter_digit c). rewrite Hc.
  unfold descendToIndex, ChildWithIndexOf. rsimpl.
  rewrite (deref_eq _ _ _ Hnd). rsimpl. unfold checkBounds. rewrite Hlen.
  replace (a + 1 <? 0) with false
    by (symmetry; apply Z.ltb_ge; pose proof (inv_alphabet _ _ _ _ Hinv); lia).
  rewrite Z.gtb_ltb, Z.ltb_irrefl. cbn [orb]. rewrite <- Hlen, index_at_len. done.
Qed.

(** In every non-empty state of a trie of alphabet size [a] that [NewTrie],
    [Add] and [Remove] of strings over the alphabet and [Clear] lead to, a
    string whose first byte is an ASCII byte (below 128, where [strings.ToLower] works
    byte by byte) and is the one just past the alphabet (its digit is
    [a + 1], the number of child slots) makes the search index a node's
    children out of range: [Contains], [Add], [Remove], [Predecessor] and
    [Successor] all panic. *)
Theorem operations_panic_one_letter_past_the_alphabet (a : Z) (h : heap) (t : trie)
  (c : ascii) (rest : string) (fuel : nat) :
  reachable a h t -> IsEmpty t = false -> byte_of c < 128 -> letter_digit c = a + 1 ->
  Contains (S fuel) h t (String c rest) = Panic /\
  Add (S fuel) h t (String c rest) = Panic /\
  Remove (S fuel) h t (String c rest) = Panic /\
  Predecessor (S fuel) h t (String c rest) = Panic /\
  Successor (S fuel) h t (String c rest) = Panic.
Proof.
  intros Hr He _ Hc. destruct (reachable_inv a h t Hr) as [L Hinv].
  assert (HL : L <> []).
  { intros ->. rewrite (IsEmpty_inv _ _ _ _ Hinv) in He. done. }
  pose proof (find_panics_one_past a h t L c rest fuel Hinv HL Hc) as Hfind.
  unfold Contains, Add, insert, Remove, Predecessor, Successor.
  rewrite He, Hfind. done.
Qed.

(** ** Nodes *)

(** [AddChildWithIndexOf] on a free slot in range stores the child, makes
    the node its parent and counts it: afterwards [ChildWithIndexOf]
    returns the child at that index and what it returned before at every
    other index, and [HasChildren] is true. *)
Theorem AddChildWithIndexOf_then_ChildWithIndexOf (h : heap) (n c : nat) (o oc : object)
  (i : Z) :
  h !! n = Some o -> h !! c = Some oc -> n <> c ->
  0 <= i < len (children (node_of o)) ->
  children (node_of o) !! Z.to_nat i = Some None ->
  0 <= numChildren (node_of o) ->
  exists h',
    AddChildWithIndexOf h (Some n) i (Some c) = Ok (None, h') /\
    ChildWithIndexOf h' (Some n) i = Ok (Some c, None) /\
    Parent h' (Some c) = Ok (Some n) /\
    HasChildren h' (Some n) = Ok true /\
    forall j, j <> i -> ChildWithIndexOf h' (Some n) j = ChildWithIndexOf h (Some n) j.
Proof.
  intros Hn Hc Hnc Hi Hslot Hnum.
  pose proof (lookup_lt_Some _ _ _ Hn) as Hln. pose proof (lookup_lt_Some _ _ _ Hc) as Hlc.
  set (o1 := map_node (set_children (<[Z.to_nat i := Some c]> (children (node_of o)))
                                    (numChildren (node_of o) + 1)) o).
  set (h1 := <[n := o1]> h).
  set (h2 := <[c := map_node (set_parent (Some n)) oc]> h1).
  assert (Hc1 : h1 !! c = Some oc) by (unfold h1; by rewrite list_lookup_insert_ne).
  assert (Hn2 : h2 !! n = Some o1).
  { unfold h2. rewrite list_lookup_insert_ne by done. unfold h1.
    by rewrite list_lookup_insert_eq. }
  assert (Hc2 : h2 !! c = Some (map_node (set_parent (Some n)) oc)).
  { unfold h2. rewrite list_lookup_insert_eq; [done|]. unfold h1. by rewrite length_insert. }
  assert (Hch : children (node_of o1) = <[Z.to_nat i := Some c]> (children (node_of o))).
  { unfold o1. by destruct o. }
  assert (Hnm : numChildren (node_of o1) = numChildren (node_of o) + 1).
  { unfold o1. by destruct o. }
  exists h2. split_and!.
  - unfold AddChildWithIndexOf. rewrite (deref_eq _ _ _ Hn). rsimpl.
    replace (i <? 0) with false by (symmetry; apply Z.ltb_ge; lia).
    rewrite Z.geb_leb.
    replace (len (children (node_of o)) <=? i) with false by (symmetry; apply Z.leb_gt; lia).
    cbn [orb].
    assert (Hidx : index (children (node_of o)) i = Ok None) by (by apply index_Ok).
    rewrite Hidx. rsimpl. rewrite (store_eq _ _ _ _ Hn). rsimpl. fold o1 h1.
    unfold SetParent. by rewrite (store_eq _ _ _ _ Hc1).
  - unfold ChildWithIndexOf, checkBounds. rewrite (deref_eq _ _ _ Hn2). rsimpl.
    rewrite Hch. unfold len in *. rewrite length_insert.
    replace (i <? 0) with false by (symmetry; apply Z.ltb_ge; lia).
    rewrite Z.gtb_ltb.
    replace (Z.of_nat (length (children (node_of o))) <? i) with false
      by (symmetry; apply Z.ltb_ge; lia).
    cbn [orb].
    assert (Hidx : index (<[Z.to_nat i := Some c]> (children (node_of o))) i = Ok (Some c)).
    { apply index_Ok. unfold len. rewrite length_insert. split; [lia|].
      apply list_lookup_insert_eq. lia. }
    by rewrite Hidx.
  - rewrite (Parent_eq _ _ _ Hc2). by destruct oc.
  - rewrite (HasChildren_eq _ _ _ Hn2), Hnm. f_equal. rewrite Z.gtb_ltb. apply Z.ltb_lt. lia.
  - intros j Hj. unfold ChildWithIndexOf, checkBounds.
    rewrite (deref_eq _ _ _ Hn2), (deref_eq _ _ _ Hn). rsimpl.
    rewrite Hch. unfold len, index, len. rewrite length_insert.
    destruct ((j <? 0) || (j >? Z.of_nat (length (children (node_of o))))) eqn:E; [done|].
    apply orb_false_iff in E as [E1 E2]. rewrite E1. apply Z.ltb_ge in E1. cbn [orb].
    destruct (Z.of_nat (length (children (node_of o))) <=? j); [done|].
    rewrite list_lookup_insert_ne; [done|]. lia.
Qed.

(** [AddChildWithIndexOf] refuses an index out of range (also the index
    equal to the number of slots) and an occupied slot: it returns an
    error and leaves the store as it is. *)
Theorem AddChildWithIndexOf_refuses (h : heap) (n : nat) (o : object) (i : Z) (child : ptr) :
  h !! n = Some o ->
  (i < 0 \/ len (children (node_of o)) <= i ->
   AddChildWithIndexOf h (Some n) i child
   = Ok (Some (NodeIndexOutOfBounds (len (children (node_of o))) i), h)) /\
  (forall c, 0 <= i -> children (node_of o) !! Z.to_nat i = Some (Some c) ->
   AddChildWithIndexOf h (Some n) i child = Ok (Some (ChildExists i), h)).
Proof.
  intros Hn. split.
  - intros Hi. unfold AddChildWithIndexOf. rewrite (deref_eq _ _ _ Hn). rsimpl.
    rewrite Z.geb_leb.
    replace ((i <? 0) || (len (children (node_of o)) <=? i)) with true; [done|].
    symmetry. apply orb_true_iff. destruct Hi; [left; by apply Z.ltb_lt|right; by apply Z.leb_le].
  - intros c Hi Hslot. pose proof (lookup_lt_len _ _ _ Hslot) as Hlt.
    rewrite Z2Nat.id in Hlt by done.
    unfold AddChildWithIndexOf. rewrite (deref_eq _ _ _ Hn). rsimpl.
    replace (i <? 0) with false by (symmetry; apply Z.ltb_ge; lia).
    rewrite Z.geb_leb.
    replace (len (children (node_of o)) <=? i) with false by (symmetry; apply Z.leb_gt; lia).
    cbn [orb].
    assert (Hidx : index (children (node_of o)) i = Ok (Some c)) by (by apply index_Ok).
    by rewrite Hidx.
Qed.

(** [RemoveChildWithIndexOf] on an occupied slot returns true and empties
    the slot: afterwards [ChildWithIndexOf] returns nil there and a second
    removal returns false.  It does not touch the removed child, whose
    parent link still names the node.  On an empty slot, a negative index
    or an index beyond the number of slots it returns false and changes
    nothing. *)
Theorem RemoveChildWithIndexOf_then_ChildWithIndexOf (h : heap) (n : nat) (o : object) (i : Z) :
  h !! n = Some o ->
  (forall c, 0 <= i -> children (node_of o) !! Z.to_nat i = Some (Some c) ->
   exists h',
     RemoveChildWithIndexOf h (Some n) i = Ok (true, h') /\
     ChildWithIndexOf h' (Some n) i = Ok (None, None) /\
     RemoveChildWithIndexOf h' (Some n) i = Ok (false, h') /\
     (c <> n -> Parent h' (Some c) = Parent h (Some c))) /\
  ((0 <= i /\ children (node_of o) !! Z.to_nat i = Some None) \/
   i < 0 \/ len (children (node_of o)) < i ->
   RemoveChildWithIndexOf h (Some n) i = Ok (false, h)).
Proof.
  intros Hn. pose proof (lookup_lt_Some _ _ _ Hn) as Hln. split.
  - intros c Hi Hslot. pose proof (lookup_lt_len _ _ _ Hslot) as Hlt.
    rewrite Z2Nat.id in Hlt by done.
    set (o1 := map_node (set_children (<[Z.to_nat i := None]> (children (node_of o)))
                                      (numChildren (node_of o) - 1)) o).
    set (h1 := <[n := o1]> h).
    assert (Hn1 : h1 !! n = Some o1) by (unfold h1; by rewrite list_lookup_insert_eq).
    assert (Hch : children (node_of o1) = <[Z.to_nat i := None]> (children (node_of o))).
    { unfold o1. by destruct o. }
    assert (Hb : forall l : list ptr, length l = length (children (node_of o)) ->
                   (i <? 0) || (i >? len l) = false).
    { intros l Hl. unfold len. rewrite Hl. apply orb_false_iff. split; [apply Z.ltb_ge; lia|].
      rewrite Z.gtb_ltb. apply Z.ltb_ge. unfold len in Hlt. lia. }
    assert (Hidx1 : index (<[Z.to_nat i := None]> (children (node_of o))) i = Ok None).
    { apply index_Ok. unfold len in *. rewrite length_insert. split; [lia|].
      apply list_lookup_insert_eq. lia. }
    exists h1. split_and!.
    + unfold RemoveChildWithIndexOf, checkBounds. rewrite (deref_eq _ _ _ Hn). rsimpl.
      rewrite (Hb _ eq_refl).
      assert (Hidx : index (children (node_of o)) i = Ok (Some c)) by (by apply index_Ok).
      rewrite Hidx. rsimpl. by rewrite (store_eq _ _ _ _ Hn).
    + unfold ChildWithIndexOf, checkBounds. rewrite (deref_eq _ _ _ Hn1). rsimpl.
      rewrite Hch, (Hb _ (length_insert _ _ _)), Hidx1. done.
    + unfold RemoveChildWithIndexOf, checkBounds. rewrite (deref_eq _ _ _ Hn1). rsimpl.
      rewrite Hch, (Hb _ (length_insert _ _ _)), Hidx1. done.
    + intros Hcn. unfold Parent, deref, h1. by rewrite list_lookup_insert_ne.
  - intros Hcase. unfold RemoveChildWithIndexOf, checkBounds.
    rewrite (deref_eq _ _ _ Hn). rsimpl.
    destruct Hcase as [[Hi Hslot]|[Hi|Hi]].
    + pose proof (lookup_lt_len _ _ _ Hslot) as Hlt. rewrite Z2Nat.id in Hlt by done.
      replace (i <? 0) with false by (symmetry; apply Z.ltb_ge; lia).
      rewrite Z.gtb_ltb.
      replace (len (children (node_of o)) <? i) with false by (symmetry; apply Z.ltb_ge; lia).
      cbn [orb].
      assert (Hidx : index (children (node_of o)) i = Ok None) by (by apply index_Ok).
      by rewrite Hidx.
    + replace (i <? 0) with true by (symmetry; apply Z.ltb_lt; lia). done.
    + rewrite Z.gtb_ltb.
      replace (len (children (node_of o)) <? i) with true by (symmetry; apply Z.ltb_lt; lia).
      by rewrite orb_true_r.
Qed.

(** ** Leaves *)

Lemma set_next_twice p q lf : set_next p (set_next q lf) = set_next p lf.
Proof. by destruct lf. Qed.

Lemma set_previous_same lf p : previous lf = p -> set_previous p lf = lf.
Proof. intros <-. by destruct lf. Qed.

Lemma set_previous_twice p q lf : set_previous p (set_previous q lf) = set_previous p lf.
Proof. by destruct lf. Qed.

(** Round trip on the order list: [l.AddAfter(p)] links the leaf [l]
    between [p] and the successor [n] of [p], whatever the [previous] link
    of [n] was; [l.Remove()] then gives [p] back exactly the cell it had,
    leaves [n] with its [previous] link on [p] and nothing else of it
    changed, changes no other cell than [l], and leaves [l] marked as
    deleted with its [next] link on [n].  So [n] gets back exactly the cell
    it had when its [previous] link was [p] before; the tail of a fresh
    trie, whose [previous] link is nil, ends with its [previous] link on
    the head. *)
Theorem AddAfter_then_Remove_restores_links (h : heap) (l p n : nat) (lf pl nl : leafNode) :
  h !! l = Some (OLeaf lf) -> h !! p = Some (OLeaf pl) -> h !! n = Some (OLeaf nl) ->
  next pl = Some n -> l <> p -> l <> n -> p <> n ->
  exists h1 h2,
    AddAfter h (Some l) (Some p) = Ok h1 /\
    Next h1 (Some p) = Ok (Some l) /\ Previous h1 (Some l) = Ok (Some p) /\
    Next h1 (Some l) = Ok (Some n) /\ Previous h1 (Some n) = Ok (Some l) /\
    LeafNode_Remove h1 (Some l) = Ok h2 /\
    h2 !! p = Some (OLeaf pl) /\
    Next h2 (Some p) = Ok (Some n) /\
    Previous h2 (Some n) = Ok (Some p) /\
    Next h2 (Some n) = Next h (Some n) /\ Value h2 (Some n) = Value h (Some n) /\
    IsHead h2 (Some n) = IsHead h (Some n) /\ IsTail h2 (Some n) = IsTail h (Some n) /\
    (previous nl = Some p -> h2 !! n = Some (OLeaf nl)) /\
    (previous nl = None ->
     IsDeleted h (Some n) = Ok true /\ IsDeleted h2 (Some n) = Ok false) /\
    IsDeleted h2 (Some l) = Ok true /\ Next h2 (Some l) = Ok (Some n) /\
    forall k, k <> l -> k <> n -> h2 !! k = h !! k.
Proof.
  intros Hl Hp Hn Hnext Hlp Hln Hpn.
  destruct (AddAfter_spec h l p n lf pl nl Hl Hp Hn Hnext Hlp Hln Hpn)
    as (h1 & Hrun1 & Hlen1 & Hl1 & Hp1 & Hn1 & Hother1).
  destruct (LeafNode_Remove_spec h1 l p n _ _ _ Hl1 Hp1 Hn1 eq_refl eq_refl)
    as (h2 & Hrun2 & Hlen2 & Hp2 & Hn2 & Hl2 & Hother2); try done; try congruence.
  rewrite set_next_twice in Hp2. rewrite set_previous_twice in Hn2.
  assert (Hp2' : h2 !! p = Some (OLeaf pl)).
  { rewrite Hp2. do 2 f_equal. by apply set_next_same. }
  exists h1, h2. split_and!; try done.
  - by rewrite (Next_eq _ _ _ Hp1).
  - by rewrite (Previous_eq _ _ _ Hl1).
  - by rewrite (Next_eq _ _ _ Hl1).
  - by rewrite (Previous_eq _ _ _ Hn1).
  - by rewrite (Next_eq _ _ _ Hp2'), Hnext.
  - by rewrite (Previous_eq _ _ _ Hn2).
  - by rewrite (Next_eq _ _ _ Hn2), (Next_eq _ _ _ Hn).
  - by rewrite (Value_eq _ _ _ Hn2), (Value_eq _ _ _ Hn).
  - by rewrite (IsHead_eq _ _ _ Hn2), (IsHead_eq _ _ _ Hn).
  - by rewrite (IsTail_eq _ _ _ Hn2), (IsTail_eq _ _ _ Hn).
  - intros Hprev. rewrite Hn2. do 2 f_equal. by apply set_previous_same.
  - intros Hprev. split.
    + by rewrite (IsDeleted_eq _ _ _ Hn), Hprev.
    + by rewrite (IsDeleted_eq _ _ _ Hn2).
  - by rewrite (IsDeleted_eq _ _ _ Hl2).
  - by rewrite (Next_eq _ _ _ Hl2).
  - intros k Hk Hkn. destruct (decide (k = p)) as [->|Hkp].
    { by rewrite Hp2', Hp. }
    rewrite Hother2 by done. by apply Hother1.
Qed.

(** A leaf cannot be removed twice: after [l.Remove()] the [previous] link
    of [l] is nil, and a second [l.Remove()] calls a method on that nil
    link and panics.  The iterator's [remove] tests [inCollection] first
    and leaves a removed leaf alone. *)
Theorem LeafNode_Remove_twice_panics (h : heap) (t : trie) (l p n : nat)
  (lf pl nl : leafNode) (fuel : nat) :
  h !! l = Some (OLeaf lf) -> h !! p = Some (OLeaf pl) -> h !! n = Some (OLeaf nl) ->
  previous lf = Some p -> next lf = Some n -> isHead lf = false -> isTail lf = false ->
  p <> l -> n <> l -> p <> n ->
  exists h',
    LeafNode_Remove h (Some l) = Ok h' /\
    LeafNode_Remove h' (Some l) = Panic /\
    iterator_remove fuel h' t (Some l) = Ok (h', t).
Proof.
  intros Hl Hp Hn Hprev Hnext Hhd Htl Hpl Hnl Hpn.
  destruct (LeafNode_Remove_spec h l p n lf pl nl Hl Hp Hn Hprev Hnext Hpl Hnl Hpn)
    as (h' & Hrun & _ & _ & _ & Hl' & _).
  exists h'. split_and!; [done| |].
  - unfold LeafNode_Remove. rewrite (deref_leaf_eq _ _ _ Hl'). done.
  - unfold iterator_remove, inCollection.
    rewrite (IsHead_eq _ _ _ Hl'), (IsTail_eq _ _ _ Hl'), (IsDeleted_eq _ _ _ Hl').
    rsimpl. rewrite Hhd, Htl. done.
Qed.

(** ** The string digitizer *)

Lemma letters_agree (b1 b2 : list Z) :
  Forall (fun d => 1 <= d) b1 -> Forall (fun d => 1 <= d) b2 ->
  (forall k, (k <= length b1)%nat -> digit_at (b1 ++ [0]) k = digit_at (b2 ++ [0]) k) ->
  b1 = b2.
Proof.
  intros H1. revert b2. induction H1 as [|x b1 Hx _ IH]; intros b2 H2 Hag.
  - destruct H2 as [|y b2 Hy _]; [done|]. specialize (Hag 0%nat ltac:(simpl; lia)).
    unfold digit_at in Hag. simpl in Hag. lia.
  - destruct H2 as [|y b2 Hy H2].
    + specialize (Hag 0%nat ltac:(simpl; lia)). unfold digit_at in Hag. simpl in Hag. lia.
    + pose proof (Hag 0%nat ltac:(simpl; lia)) as H0. unfold digit_at in H0. simpl in H0.
      subst y. f_equal. apply IH; [done|]. intros k Hk.
      apply (Hag (S k)). simpl. lia.
Qed.

(** The string digitizer is prefix free, as [IsPrefixFree] says: for two
    strings over the alphabet, the digits of the second agree with all the
    digits of the first, terminator included, exactly when the strings are
    equal up to case.  So the digit sequence of no string is a proper
    prefix of that of another. *)
Theorem stringDigitizer_is_prefix_free (a : Z) (s1 s2 : string) :
  in_alphabet a s1 = true -> in_alphabet a s2 = true ->
  IsPrefixFree (NewStringDigitizer a) = true /\
  ((forall p, 0 <= p < NumDigitsOf (NewStringDigitizer a) s1 ->
              DigitOf (NewStringDigitizer a) s1 p = DigitOf (NewStringDigitizer a) s2 p)
   <-> ci_eq s1 s2).
Proof.
  intros H1 H2. split; [done|]. split.
  - intros Hag. apply (digits_ci_eq a); [done|done|]. unfold digits. f_equal.
    apply letters_agree.
    + eapply Forall_impl; [apply (in_alphabet_digits a s1 H1)|]. simpl. lia.
    + eapply Forall_impl; [apply (in_alphabet_digits a s2 H2)|]. simpl. lia.
    + intros k Hk. rewrite length_map, bytes_length in Hk.
      specialize (Hag (Z.of_nat k)). rewrite !DigitOf_digits in Hag.
      assert (Hin : 0 <= Z.of_nat k < NumDigitsOf (NewStringDigitizer a) s1).
      { simpl. unfold stringDigitizer_NumDigitsOf, strlen. lia. }
      specialize (Hag Hin). by injection Hag.
  - intros Heq p Hp. apply (digits_ci_eq a) in Heq; [|done|done].
    rewrite <- (Z2Nat.id p) by lia. by rewrite !DigitOf_digits, Heq.
Qed.

(** The digits of a string over the alphabet: at a place inside the string
    a digit from 1 to the alphabet size, below [Base]; at every place from
    the length on the terminator 0; at a negative place the byte access
    panics. *)
Theorem DigitOf_by_place (a : Z) (s : string) (p : Z) :
  in_alphabet a s = true ->
  (0 <= p < strlen s ->
   exists d, DigitOf (NewStringDigitizer a) s p = Ok d /\
             1 <= d <= a /\ d < Base (NewStringDigitizer a)) /\
  (strlen s <= p -> DigitOf (NewStringDigitizer a) s p = Ok 0) /\
  (p < 0 -> DigitOf (NewStringDigitizer a) s p = Panic) /\
  NumDigitsOf (NewStringDigitizer a) s = strlen s + 1.
Proof.
  intros Hs. split_and!.
  - intros Hp. rewrite <- (Z2Nat.id p) by lia. rewrite DigitOf_digits.
    eexists. split; [done|].
    assert (Hlt : (Z.to_nat p < length (map letter_digit (bytes s)))%nat).
    { rewrite length_map, bytes_length. unfold strlen in Hp. lia. }
    destruct (lookup_lt_is_Some_2 _ _ Hlt) as [d Hd].
    pose proof (Forall_lookup_1 _ _ _ _ (in_alphabet_digits _ _ Hs) Hd) as Hr. simpl in Hr.
    unfold digit_at, digits. rewrite lookup_app_l by done. rewrite Hd. simpl. lia.
  - intros Hp. simpl. unfold stringDigitizer_DigitOf.
    replace (p >=? strlen s) with true; [done|]. symmetry. rewrite Z.geb_leb. by apply Z.leb_le.
  - intros Hp. simpl. unfold stringDigitizer_DigitOf, byteAt.
    replace (p >=? strlen s) with false.
    2:{ symmetry. rewrite Z.geb_leb. apply Z.leb_gt. unfold strlen. lia. }
    replace (p <? 0) with true by (symmetry; by apply Z.ltb_lt). done.
  - done.
Qed.

Lemma sample_not_empty :
  exists h t, sample_run 32 = Ok (h, t) /\ reachable 4 h t /\ IsEmpty t = false.
Proof.
  destruct sample_reachable as (h & t & E & Hr). exists h, t. split_and!; [exact E|exact Hr|].
  vm_compute in E. by injection E as <- <-.
Qed.

Lemma operations_panic_one_letter_past_the_alphabet_witness :
  match sample_run 32 with
  | Ok (h, t) =>
      (reachable 4 h t /\ IsEmpty t = false /\ byte_of "e"%char < 128 /\
       letter_digit "e"%char = 4 + 1) /\
      Contains 1 h t "e" = Panic /\ Add 1 h t "e" = Panic /\ Remove 1 h t "e" = Panic /\
      Predecessor 1 h t "e" = Panic /\ Successor 1 h t "e" = Panic
  | _ => False
  end.
Proof.
  destruct sample_not_empty as (h & t & E & Hr & He). rewrite E. clear E.
  split; [split_and!; [exact Hr|exact He|reflexivity|reflexivity]|].
  apply (operations_panic_one_letter_past_the_alphabet 4 h t "e"%char "" 0 Hr He);
    reflexivity.
Defined.

Lemma AddChildWithIndexOf_then_ChildWithIndexOf_witness :
  exists h',
    AddChildWithIndexOf node_example (Some 0%nat) 2 (Some 1%nat) = Ok (None, h') /\
    ChildWithIndexOf h' (Some 0%nat) 2 = Ok (Some 1%nat, None) /\
    Parent h' (Some 1%nat) = Ok (Some 0%nat) /\
    HasChildren h' (Some 0%nat) = Ok true.
Proof.
  destruct (AddChildWithIndexOf_then_ChildWithIndexOf node_example 0 1
              (ONode (newNode 5)) (OLeaf newLeafNode) 2)
    as (h' & H1 & H2 & H3 & H4 & _);
    [reflexivity|reflexivity|lia|vm_compute; split; congruence|reflexivity|simpl; lia|].
  exists h'. repeat split; assumption.
Defined.

Lemma AddChildWithIndexOf_refuses_witness :
  AddChildWithIndexOf node_example (Some 0%nat) 5 (Some 1%nat)
  = Ok (Some (NodeIndexOutOfBounds 5 5), node_example) /\
  AddChildWithIndexOf node_example (Some 0%nat) (-1) (Some 1%nat)
  = Ok (Some (NodeIndexOutOfBounds 5 (-1)), node_example).
Proof.
  destruct (AddChildWithIndexOf_refuses node_example 0 (ONode (newNode 5)) 5 (Some 1%nat)
              eq_refl) as [H1 _].
  destruct (AddChildWithIndexOf_refuses node_example 0 (ONode (newNode 5)) (-1) (Some 1%nat)
              eq_refl) as [H2 _].
  split; [apply H1; right; vm_compute; congruence|apply H2; left; lia].
Defined.

Lemma RemoveChildWithIndexOf_then_ChildWithIndexOf_witness :
  RemoveChildWithIndexOf node_example (Some 0%nat) 2 = Ok (false, node_example) /\
  RemoveChildWithIndexOf node_example (Some 0%nat) 6 = Ok (false, node_example).
Proof.
  destruct (RemoveChildWithIndexOf_then_ChildWithIndexOf node_example 0 (ONode (newNode 5)) 2
              eq_refl) as [_ H1].
  destruct (RemoveChildWithIndexOf_then_ChildWithIndexOf node_example 0 (ONode (newNode 5)) 6
              eq_refl) as [_ H2].
  split; [apply H1; left; split; [lia|reflexivity]|apply H2; right; right; vm_compute; reflexivity].
Defined.

Lemma AddAfter_then_Remove_restores_links_witness :
  exists h1 h2,
    AddAfter link_example (Some 3%nat) (Some 0%nat) = Ok h1 /\
    Next h1 (Some 0%nat) = Ok (Some 3%nat) /\
    LeafNode_Remove h1 (Some 3%nat) = Ok h2 /\
    Next h2 (Some 0%nat) = Ok (Some 2%nat) /\
    Previous h2 (Some 2%nat) = Ok (Some 0%nat) /\
    IsDeleted h2 (Some 3%nat) = Ok true /\
    forall k, k <> 3%nat -> k <> 2%nat -> h2 !! k = link_example !! k.
Proof.
  destruct (AddAfter_then_Remove_restores_links link_example 3 0 2 _ _ _
              eq_refl eq_refl eq_refl eq_refl)
    as (h1 & h2 & H1 & H2 & _ & _ & _ & H3 & _ & H4 & H5 & _ & _ & _ & _ & _ & _ & H6 & _ & H7);
    [lia|lia|lia|].
  exists h1, h2. repeat split; assumption.
Defined.

Lemma LeafNode_Remove_twice_panics_witness :
  exists h',
    LeafNode_Remove tombstone_example (Some 2%nat) = Ok h' /\
    LeafNode_Remove h' (Some 2%nat) = Panic.
Proof.
  destruct (LeafNode_Remove_twice_panics tombstone_example
              (mkTrie None (Some 0%nat) (Some 1%nat) (NewStringDigitizer 4) 5 5 1)
              2 0 1 _ _ _ 0 eq_refl eq_refl eq_refl eq_refl eq_refl eq_refl eq_refl)
    as (h' & H1 & H2 & _); [lia|lia|lia|].
  exists h'. split; assumption.
Defined.

Lemma stringDigitizer_is_prefix_free_witness :
  (in_alphabet 4 "ab" = true /\ in_alphabet 4 "AB" = true) /\
  ((forall p, 0 <= p < NumDigitsOf (NewStringDigitizer 4) "ab" ->
              DigitOf (NewStringDigitizer 4) "ab" p = DigitOf (NewStringDigitizer 4) "AB" p)
   <-> ci_eq "ab" "AB").
Proof.
  split; [split; reflexivity|].
  apply (stringDigitizer_is_prefix_free 4 "ab" "AB"); reflexivity.
Defined.

Lemma DigitOf_by_place_witness :
  in_alphabet 4 "ab" = true /\
  DigitOf (NewStringDigitizer 4) "ab" 1 = Ok 2 /\
  DigitOf (NewStringDigitizer 4) "ab" 2 = Ok 0 /\
  DigitOf (NewStringDigitizer 4) "ab" (-1) = Panic.
Proof.
  split; [reflexivity|].
  destruct (DigitOf_by_place 4 "ab" 1 eq_refl) as ((d & H1 & _) & _); [vm_compute; split; congruence|].
  destruct (DigitOf_by_place 4 "ab" 2 eq_refl) as (_ & H2 & _).
  destruct (DigitOf_by_place 4 "ab" (-1) eq_refl) as (_ & _ & H3 & _).
  split_and!; [vm_compute; reflexivity|apply H2; vm_compute; congruence|apply H3; lia].
Defined.

(** * The prefix queries *)

(** ** Filters of sorted lists *)

Lemma filter_none {A : Type} (P : A -> Prop) `{!forall x, Decision (P x)} (l : list A) :
  (forall x, x ∈ l -> ~ P x) -> filter P l = [].
Proof.
  induction l as [|y l IH]; intros Hno; [done|].
  rewrite filter_cons_False by (apply Hno; by left).
  apply IH. intros x Hx. apply Hno. by right.
Qed.

Lemma filter_sorted_split {A : Type} (R : A -> A -> Prop) (P Q1 Q2 : A -> Prop)
  `{!forall x, Decision (P x), !forall x, Decision (Q1 x), !forall x, Decision (Q2 x)}
  (l : list A) :
  StronglySorted R l ->
  (forall x, P x <-> Q1 x \/ Q2 x) ->
  (forall x y, x ∈ l -> y ∈ l -> Q2 x -> Q1 y -> R x y -> False) ->
  (forall x, Q1 x -> Q2 x -> False) ->
  filter P l = filter Q1 l ++ filter Q2 l.
Proof.
  intros Hs HP Hord Hdis. induction Hs as [|x l Hs IH Hall]; [done|].
  rewrite !filter_cons. rewrite Forall_forall in Hall.
  assert (IH' : filter P l = filter Q1 l ++ filter Q2 l).
  { apply IH. intros x' y' Hx' Hy'. apply Hord; by right. }
  destruct (decide (Q1 x)) as [Hq1|Hq1].
  - rewrite decide_True by (apply HP; by left).
    rewrite decide_False by (intros Hq2; by apply (Hdis x)).
    simpl. by rewrite IH'.
  - destruct (decide (Q2 x)) as [Hq2|Hq2].
    + rewrite decide_True by (apply HP; by right).
      assert (Hnil : filter Q1 l = []).
      { apply filter_none. intros y Hy Hq. apply (Hord x y); [by left|by right|done|done|by apply Hall]. }
      rewrite IH', Hnil. done.
    + rewrite decide_False by (rewrite HP; tauto). done.
Qed.

Lemma filter_unique_key {A B : Type} `{!EqDecision B} (f : A -> B) (l : list A) x0 :
  NoDup (f <$> l) -> x0 ∈ l -> filter (fun x => f x = f x0) l = [x0].
Proof.
  induction l as [|y l IH]; intros Hnd Hx; [by apply elem_of_nil in Hx|].
  rewrite fmap_cons in Hnd. apply NoDup_cons in Hnd as [Hy Hnd].
  rewrite filter_cons. apply elem_of_cons in Hx as [->|Hx].
  - rewrite decide_True by done. f_equal.
    apply filter_none. intros z Hz Heq.
    apply Hy. rewrite <- Heq. apply list_elem_of_fmap. by exists z.
  - rewrite decide_False; [by apply IH|].
    intros Heq. apply Hy. rewrite Heq. apply list_elem_of_fmap. by exists x0.
Qed.

Lemma filter_fmap_snd {A B : Type} (P : A * B -> Prop) (Q : B -> Prop)
  `{!forall x, Decision (P x), !forall x, Decision (Q x)} (l : list (A * B)) :
  (forall x, P x <-> Q x.2) -> (filter P l).*2 = filter Q (l.*2).
Proof.
  intros HPQ. induction l as [|x l IH]; [done|].
  rewrite fmap_cons, !filter_cons.
  destruct (decide (P x)) as [Hp|Hp].
  - rewrite decide_True by (by apply HPQ). by rewrite fmap_cons, IH.
  - rewrite decide_False by (by rewrite <- HPQ). done.
Qed.

(** ** The elements below a node *)

Lemma filter_iff_in {A : Type} (P Q : A -> Prop)
  `{!forall x, Decision (P x), !forall x, Decision (Q x)} (l : list A) :
  (forall x, x ∈ l -> P x <-> Q x) -> filter P l = filter Q l.
Proof.
  induction l as [|y l IH]; intros Hpq; [done|].
  rewrite !filter_cons.
  assert (Hy : P y <-> Q y) by (apply Hpq; by left).
  rewrite IH by (intros x Hx; apply Hpq; by right).
  destruct (decide (P y)), (decide (Q y)); tauto.
Qed.

Section Subtree.
Context {a : Z} {h : heap} {r : nat} {L : list (nat * string)} {D : nat}.
Hypothesis Ha : 0 <= a.
Hypothesis Hok : tree_ok a h r L (key <$> L).
Hypothesis Hcells : forall x, x ∈ L -> leaf_cell h x.1 x.2.
Hypothesis Halpha : forall x, x ∈ L -> in_alphabet a x.2 = true.
Hypothesis HD : forall x, x ∈ L -> (length (key x) <= D)%nat.
Hypothesis Hsorted : StronglySorted (fun x y => lex_ltb (key x) (key y) = true) L.

Lemma walk_length q n : walk h r q = Some n -> (length q <= D)%nat.
Proof.
  intros Hw. destruct (decide (q = [])) as [->|Hq]; [simpl; lia|].
  pose proof (tree_nodes _ _ _ _ _ Hok _ _ Hw) as Hn. unfold node_ok in Hn.
  destruct (h !! n) as [[nd|lf]|] eqn:E; [| |done].
  - pose proof (inner_node_child (D := D) Hok Hcells HD q n nd Hw E Hq) as [Hl _]. lia.
  - destruct Hn as (s & Hs & ->). apply (HD _ Hs).
Qed.

Lemma below_leaf q l s : walk h r q = Some l -> (l, s) ∈ L -> below L q = [(l, s)].
Proof.
  intros Hw Hl. unfold below.
  assert (Hq : q = key (l, s)).
  { apply (tree_inj _ _ _ _ _ Hok _ _ l); [done|]. by apply (tree_stored _ _ _ _ _ Hok). }
  rewrite (filter_iff_in _ (fun x => key x = key (l, s))).
  - apply filter_unique_key; [|done]. by apply sorted_keys_NoDup.
  - intros x Hx. split.
    + intros Hpre. rewrite <- Hq. by apply (stored_prefix_eq Hok Hcells q l s x).
    + intros ->. by rewrite Hq.
Qed.

Lemma below_none q n j :
  walk h r q = Some n -> child_at h n j = None -> below L (q ++ [j]) = [].
Proof.
  intros Hw Hc. apply filter_none. intros x Hx [k Hk].
  destruct (stored_walk_leaf Hok Hcells x Hx) as (lf & Hwx & _).
  rewrite Hk, <- app_assoc, walk_app, Hw in Hwx. simpl in Hwx. by rewrite Hc in Hwx.
Qed.

Lemma below_upto_0 q : below_upto L q 0 = [].
Proof.
  apply filter_none. intros x Hx [_ Hlt].
  pose proof (digits_range a x.2 (length q) (Halpha x Hx) Ha). unfold key in Hlt. lia.
Qed.

Lemma below_upto_full q : below_upto L q (a + 1) = below L q.
Proof.
  apply filter_iff_in. intros x Hx.
  pose proof (digits_range a x.2 (length q) (Halpha x Hx) Ha). unfold key. split; [tauto|].
  intros Hp. split; [done|lia].
Qed.

Lemma next_digit q n nd x :
  walk h r q = Some n -> h !! n = Some (ONode nd) -> x ∈ L -> q `prefix_of` key x ->
  exists rest, key x = q ++ digit_at (key x) (length q) :: rest.
Proof.
  intros Hw Hn Hx [k Hk]. destruct k as [|d k].
  - exfalso. rewrite app_nil_r in Hk.
    destruct (stored_walk_leaf Hok Hcells x Hx) as (lf & Hwx & Hlf).
    rewrite Hk, Hw in Hwx. injection Hwx as ->. by rewrite Hn in Hlf.
  - exists k. rewrite Hk at 2. by rewrite digit_at_app.
Qed.

Lemma below_upto_S q n nd j :
  walk h r q = Some n -> h !! n = Some (ONode nd) -> 0 <= j ->
  below_upto L q (j + 1) = below_upto L q j ++ below L (q ++ [j]).
Proof.
  intros Hw Hn Hj. unfold below_upto, below.
  rewrite (filter_iff_in (fun x => (q ++ [j]) `prefix_of` key x)
             (fun x => q `prefix_of` key x /\ digit_at (key x) (length q) = j)).
  2:{ intros x Hx. split.
      - intros [k Hk]. rewrite <- app_assoc in Hk. simpl in Hk. split.
        + by exists (j :: k).
        + by rewrite Hk, digit_at_app.
      - intros [Hp Hd]. destruct (next_digit q n nd x Hw Hn Hx Hp) as [rest Hr].
        exists rest. rewrite <- app_assoc. simpl. by rewrite <- Hd. }
  apply (filter_sorted_split (fun x y => lex_ltb (key x) (key y) = true)); [done| | |].
  - intros x. split; [intros [Hp Hlt]|intros [[Hp Hlt]|[Hp Heq]]].
    + destruct (decide (digit_at (key x) (length q) = j)); [by right|left; split; [done|lia]].
    + split; [done|lia].
    + split; [done|lia].
  - intros x y Hx Hy [Hpx Hdx] [Hpy Hdy] Hlt.
    destruct (next_digit q n nd x Hw Hn Hx Hpx) as [rx Hrx].
    destruct (next_digit q n nd y Hw Hn Hy Hpy) as [ry Hry].
    rewrite Hdx in Hrx.
    assert (Hgt : lex_ltb (key y) (key x) = true).
    { rewrite Hrx, Hry. by apply lex_ltb_diverge. }
    apply lex_ltb_asym in Hgt. congruence.
  - intros x [_ H1] [_ H2]. lia.
Qed.

Lemma ascend_child q j n c s :
  walk h r q = Some n -> walk h r (q ++ [j]) = Some c -> pointer s = Some n ->
  ascend h (set_position (Some c) (branchPosition s + 1) s) = Ok (s, branchPosition s).
Proof.
  intros Hw Hc Hp. destruct (tree_parent _ _ _ _ _ Hok _ _ _ Hc) as (o & m & Ho & Hpar & Hm).
  rewrite Hw in Hm. injection Hm as <-.
  unfold ascend, parentBranchPosition. rsimpl. rewrite (Parent_eq _ _ _ Ho), Hpar. rsimpl.
  unfold set_position. rsimpl. rewrite Z.add_simpl_r. rewrite <- Hp. by destruct s.
Qed.

Lemma elementsInSubtree_spec fuel :
  forall q n s col,
    walk h r q = Some n -> pointer s = Some n -> sdigitizer s = NewStringDigitizer a ->
    (D < fuel + length q)%nat ->
    elementsInSubtree fuel h s col = Ok (s, col ++ (Some <$> (below L q).*2)).
Proof.
  induction fuel as [|f IH]; intros q n s col Hw Hp Hdig Hfuel.
  { pose proof (walk_length q n Hw). lia. }
  pose proof (tree_nodes _ _ _ _ _ Hok _ _ Hw) as Hn. unfold node_ok in Hn.
  cbn [elementsInSubtree]. unfold atLeaf. rewrite Hp.
  destruct (h !! n) as [[nd|lf]|] eqn:E; [| |done].
  - destruct Hn as (Hlen & _).
    rewrite Hdig. cbn [Base NewStringDigitizer].
    assert (Hloop : forall m j, 0 <= j -> j + Z.of_nat m <= a + 1 ->
      for_range m j
        (fun i st =>
           let* (s1, r0) := descendToIndex h (fst st) i in
           if negb (r0 =? childNotFound) then
             let* (s2, c2) := elementsInSubtree f h s1 (snd st) in
             let* (s3, _) := ascend h s2 in
             Ok (s3, c2)
           else Ok (s1, snd st))
        (s, col ++ (Some <$> (below_upto L q j).*2))
      = Ok (s, col ++ (Some <$> (below_upto L q (j + Z.of_nat m)).*2))).
    { induction m as [|m IHm]; intros j Hj Hjm.
      { simpl. by rewrite Z.add_0_r. }
      cbn [for_range]. rsimpl.
      rewrite (descendToIndex_spec h s n (ONode nd) j Hp E) by (simpl; lia).
      destruct (child_at h n j) as [c|] eqn:Ec; rsimpl.
      - assert (Hne : (j =? childNotFound) = false) by (apply Z.eqb_neq; unfold childNotFound; lia).
        rewrite Hne. rsimpl.
        assert (Hc : walk h r (q ++ [j]) = Some c) by (by rewrite walk_snoc, Hw).
        rewrite (IH (q ++ [j]) c); [|done|done|done|rewrite length_app; simpl; lia].
        rsimpl. rewrite (ascend_child q j n c s Hw Hc Hp). rsimpl.
        rewrite <- app_assoc, <- fmap_app, <- fmap_app.
        rewrite <- (below_upto_S q n nd j Hw E Hj).
        replace (j + Z.of_nat (S m)) with (j + 1 + Z.of_nat m) by lia.
        apply IHm; lia.
      - unfold childNotFound. simpl.
        pose proof (below_upto_S q n nd j Hw E Hj) as HS.
        rewrite (below_none q n j Hw Ec), app_nil_r in HS. rewrite <- HS.
        replace (j + Z.of_nat (S m)) with (j + 1 + Z.of_nat m) by lia.
        apply IHm; lia. }
    specialize (Hloop (Z.to_nat (a + 1)) 0).
    rewrite below_upto_0 in Hloop. simpl in Hloop. rewrite app_nil_r in Hloop.
    rewrite Hloop by lia. rewrite Z.add_0_l, Z2Nat.id by lia. by rewrite below_upto_full.
  - destruct Hn as (s0 & Hs0 & Hq).
    destruct (Hcells _ Hs0) as (lf' & Hlf & Hel & _). simpl in Hlf, Hel.
    rewrite (Value_eq _ _ _ Hlf). rsimpl. rewrite Hel.
    by rewrite (below_leaf q n s0 Hw Hs0).
Qed.

End Subtree.

(** ** Where the search leaves the context *)

Lemma ChildWithIndexOf_first a h n nd :
  0 <= a -> h !! n = Some (ONode nd) -> len (children nd) = a + 1 ->
  ChildWithIndexOf h (Some n) 0 = Ok (child_at h n 0, None).
Proof.
  intros Ha Hn Hlen. unfold ChildWithIndexOf, checkBounds, child_at.
  rewrite (deref_eq _ _ _ Hn), Hn. rsimpl. rewrite Z.gtb_ltb.
  replace (len (children nd) <? 0) with false by (symmetry; apply Z.ltb_ge; lia).
  simpl.
  assert (Hlt : (0 < length (children nd))%nat) by (unfold len in Hlen; lia).
  destruct (lookup_lt_is_Some_2 _ _ Hlt) as [c Hc].
  assert (Hidx : index (children nd) 0 = Ok c).
  { apply index_Ok. split; [unfold len in *; lia|done]. }
  rewrite Hidx. change (Z.to_nat 0) with 0%nat. rewrite Hc. done.
Qed.

Lemma letter_digit_pos a e k :
  in_alphabet a e = true -> (S k < length (digits e))%nat -> 1 <= digit_at (digits e) k.
Proof.
  intros He Hk. unfold digits in *. rewrite length_app in Hk. simpl in Hk.
  unfold digit_at. rewrite lookup_app_l by lia.
  destruct (lookup_lt_is_Some_2 (map letter_digit (bytes e)) k) as [d Hd]; [lia|].
  rewrite Hd. simpl.
  pose proof (Forall_lookup_1 _ _ _ _ (in_alphabet_digits _ _ He) Hd). simpl in *. lia.
Qed.

Lemma walk_first h r ds n k :
  walk h r (take (S k) ds) = Some n -> (k < length ds)%nat ->
  exists c, child_at h r (digit_at ds 0) = Some c.
Proof.
  intros Hw Hk. destruct ds as [|d ds]; [simpl in Hk; lia|].
  simpl in Hw. unfold digit_at. simpl.
  destruct (child_at h r d) as [c|]; [eauto|done].
Qed.

(** Where the prefix queries stand after [find] and the step back over the
    terminator: on the node at depth [k] of the path of [e], the deepest
    one the stored elements reach. *)
Lemma prefix_query_context a h t L e fuel :
  trie_inv a h t L -> L <> [] -> in_alphabet a e = true ->
  (length (digits e) < fuel)%nat ->
  exists r res s, root t = Some r /\ tree_ok a h r L (key <$> L) /\
    find fuel h t e = Ok (res, s) /\
    ((child_at h r (digit_at (digits e) 0) = None /\
      processedEndOfString h s e = Panic) \/
     (exists c b s1 k n,
        child_at h r (digit_at (digits e) 0) = Some c /\
        processedEndOfString h s e = Ok b /\
        (if b then ascend h s = Ok (s1, branchPosition s1) /\ res = Matched
         else s1 = s /\ res = Unmatched) /\
        pointer s1 = Some n /\ sdigitizer s1 = NewStringDigitizer a /\
        branchPosition s1 = Z.of_nat k /\ walk h r (take k (digits e)) = Some n /\
        (S k <= length (digits e))%nat /\
        (exists x, x ∈ L /\ take k (digits e) `prefix_of` key x) /\
        (if b then S k = length (digits e)
         else child_at h n (digit_at (digits e) k) = None))).
Proof.
  intros Hinv HL He Hfuel.
  destruct (inv_list _ _ _ _ Hinv) as (hd & tl & Hhd & Htl & Hlist).
  pose proof (inv_tree _ _ _ _ Hinv) as Htree.
  pose proof (inv_alphabet _ _ _ _ Hinv) as Ha.
  destruct (root t) as [r|] eqn:Hr; [|done].
  assert (Hcells : forall x, x ∈ L -> leaf_cell h x.1 x.2).
  { intros x Hx. apply (list_leaf_cell _ _ _ _ _ _ Hlist Hx). }
  assert (Halpha : forall x, x ∈ L -> in_alphabet a x.2 = true).
  { intros x Hx. apply (list_in_alphabet _ _ _ _ _ _ Hlist Hx). }
  exists r.
  destruct (find_spec a h t L e fuel Hinv He Hfuel)
    as [(l & s0 & s & Hfind & Hl & Hdig & Hp & Hb & Hsd)|(s & Hfind & Hgap & Hno)].
  - exists Matched, s. split_and!; try done. right.
    pose proof (tree_stored _ _ _ _ _ Htree _ _ Hl) as Hw. rewrite Hdig in Hw.
    set (q := map letter_digit (bytes e)).
    assert (Hds : digits e = q ++ [0]) by done.
    assert (Hq : take (length q) (digits e) = q) by (by rewrite Hds, take_app_length).
    assert (Hlen : length (digits e) = S (length q)).
    { rewrite Hds, length_app. simpl. lia. }
    pose proof Hw as Hw'. rewrite Hds in Hw'.
    destruct (tree_parent _ _ _ _ _ Htree _ _ _ Hw') as (o & par & Ho & Hpar & Hwq).
    destruct (path_inner_node (e := e) Htree Halpha He (length q) par)
      as (nd & Hnd & Hndl); [lia|by rewrite Hq|].
    assert (Hc0 : child_at h par 0 = Some l).
    { rewrite walk_snoc, Hwq in Hw'. done. }
    destruct (Hcells _ Hl) as (lf & Hlf & _ & _ & _ & Hnr & _). simpl in Hlf, Hnr.
    rewrite Hlf in Ho. injection Ho as <-. simpl in Hpar.
    destruct (walk_first h r (digits e) l (length q)) as [c Hc]; [|lia|].
    { by rewrite <- Hlen, firstn_all. }
    exists c, true, (set_position (Some par) (branchPosition s - 1) s), (length q), par.
    split_and!; try done.
    + unfold processedEndOfString. rewrite Hp, (Parent_eq _ _ _ Hlf). simpl. rewrite Hpar.
      rsimpl. rewrite (ChildWithIndexOf_first a h par nd Ha Hnd Hndl), Hc0. rsimpl.
      rewrite Hsd. cbn [IsPrefixFree NewStringDigitizer].
      rewrite (IsRoot_eq _ _ _ Hlf). simpl. rewrite Hnr. simpl. by rewrite Nat.eqb_refl.
    + unfold ascend, parentBranchPosition. rewrite Hp, (Parent_eq _ _ _ Hlf). simpl.
      by rewrite Hpar.
    + simpl. rewrite Hb, Hlen. lia.
    + by rewrite Hq.
    + lia.
    + exists (l, s0). split; [done|]. unfold key. simpl. rewrite Hdig. apply prefix_take.
  - exists Unmatched, s. split_and!; try done.
    destruct Hgap as (Hsd & k & Hb & Hk & Hgap). rewrite Hr in Hgap.
    destruct Hgap as (n & nd & Hp & Hw & Hnd & Hc).
    destruct k as [|k].
    + left. simpl in Hw. injection Hw as <-. split; [done|].
      destruct (tree_root _ _ _ _ _ Htree) as (o & Ho & Hpar).
      unfold processedEndOfString. rewrite Hp, (Parent_eq _ _ _ Ho), Hpar. done.
    + right. pose proof Hw as Hw'. rewrite take_S_digit in Hw' by lia.
      destruct (tree_parent _ _ _ _ _ Htree _ _ _ Hw') as (o & par & Ho & Hpar & Hwq).
      rewrite Hnd in Ho. injection Ho as <-. simpl in Hpar.
      destruct (path_inner_node (e := e) Htree Halpha He k par)
        as (pnd & Hpnd & Hpndl); [lia|done|].
      destruct (walk_first h r (digits e) n k Hw) as [c Hc0]; [lia|].
      exists c, false, s, (S k), n. split_and!; try done.
      * unfold processedEndOfString. rewrite Hp, (Parent_eq _ _ _ Hnd). simpl. rewrite Hpar.
        rsimpl. rewrite (ChildWithIndexOf_first a h par pnd Ha Hpnd Hpndl). rsimpl.
        rewrite Hsd. cbn [IsPrefixFree NewStringDigitizer].
        rewrite (IsRoot_eq _ _ _ Hnd). simpl.
        assert (Hde : DeepEqual (child_at h par 0) (Some n) = false).
        { destruct (child_at h par 0) as [c0|] eqn:Ec0; [|done]. simpl.
          apply Nat.eqb_neq. intros ->.
          assert (Hw0 : walk h r (take k (digits e) ++ [0]) = Some n)
            by (by rewrite walk_snoc, Hwq).
          pose proof (tree_inj _ _ _ _ _ Htree _ _ _ Hw' Hw0) as Heq.
          apply app_inj_tail in Heq as [_ Heq].
          pose proof (letter_digit_pos a e k He Hk). lia. }
        rewrite Hde. by rewrite andb_false_r.
      * pose proof (tree_nodes _ _ _ _ _ Htree _ _ Hw) as Hn. unfold node_ok in Hn.
        rewrite Hnd in Hn. destruct Hn as (_ & _ & _ & [Hnil|(q & Hq & Hpre)]).
        { apply (f_equal length) in Hnil. rewrite length_take in Hnil.
          change (length (@nil Z)) with 0%nat in Hnil. lia. }
        apply list_elem_of_fmap in Hq as (x & -> & Hx).
        exists x. split; [done|]. by apply strict_prefix_prefix.
Qed.

Lemma take_prefix_mono {A : Type} (l : list A) j k : (j <= k)%nat -> take j l `prefix_of` take k l.
Proof.
  intros Hjk. replace (take j l) with (take j (take k l))
    by (rewrite take_take; f_equal; lia).
  apply prefix_take.
Qed.

Lemma first_digit_stored a h r L d :
  tree_ok a h r L (key <$> L) ->
  (exists c, child_at h r d = Some c) <-> (exists x, x ∈ L /\ digit_at (key x) 0 = d).
Proof.
  intros Hok. split.
  - intros [c Hc]. assert (Hw : walk h r [d] = Some c) by (simpl; by rewrite Hc).
    pose proof (tree_nodes _ _ _ _ _ Hok _ _ Hw) as Hn. unfold node_ok in Hn.
    destruct (h !! c) as [[nd|lf]|]; [| |done].
    + destruct Hn as (_ & _ & _ & [Hnil|(q & Hq & d' & rest & ->)]); [done|].
      apply list_elem_of_fmap in Hq as (x & Hkx & Hx). exists x. split; [done|].
      by rewrite <- Hkx.
    + destruct Hn as (s & Hs & Hds). exists (c, s). split; [done|].
      unfold key. simpl. by rewrite <- Hds.
  - intros ([l s] & Hx & Hd). pose proof (tree_stored _ _ _ _ _ Hok _ _ Hx) as Hw.
    unfold key in Hd. simpl in Hd. destruct (digits s) as [|d0 ds] eqn:E.
    { by apply digits_nonempty in E. }
    unfold digit_at in Hd. simpl in Hd, Hw. subst d0.
    destruct (child_at h r d) as [c|]; [eauto|done].
Qed.

Lemma Completions_inv a h t L e fuel col :
  trie_inv a h t L -> in_alphabet a e = true -> (fuel_for a L e <= fuel)%nat ->
  (L = [] -> Completions fuel h t e col = Ok col) /\
  (L <> [] -> (forall x, x ∈ L -> digit_at (key x) 0 <> digit_at (digits e) 0) ->
   Completions fuel h t e col = Panic) /\
  ((exists x, x ∈ L /\ digit_at (key x) 0 = digit_at (digits e) 0) ->
   Completions fuel h t e col =
   Ok (col ++ (Some <$> (below L (map letter_digit (bytes e))).*2))).
Proof.
  intros Hinv He Hfuel. unfold Completions. rewrite (IsEmpty_inv _ _ _ _ Hinv).
  split; [intros ->; by rewrite bool_decide_true|].
  destruct (decide (L = [])) as [->|HL].
  { split; [done|]. intros (x & Hx & _). by apply elem_of_nil in Hx. }
  rewrite bool_decide_false by done. cbn [negb].
  destruct (inv_list _ _ _ _ Hinv) as (hd & tl & Hhd & Htl & Hlist).
  pose proof (inv_alphabet _ _ _ _ Hinv) as Ha.
  assert (Hcells : forall x, x ∈ L -> leaf_cell h x.1 x.2).
  { intros x Hx. apply (list_leaf_cell _ _ _ _ _ _ Hlist Hx). }
  assert (Halpha : forall x, x ∈ L -> in_alphabet a x.2 = true).
  { intros x Hx. apply (list_in_alphabet _ _ _ _ _ _ Hlist Hx). }
  pose proof (list_sorted _ _ _ _ _ Hlist) as Hsorted.
  unfold fuel_for in Hfuel.
  destruct (prefix_query_context a h t L e fuel Hinv HL He)
    as (r & res & s & Hr & Htree & Hfind & Hq); [lia|].
  rewrite Hfind. rsimpl. rewrite (inv_digitizer _ _ _ _ Hinv), NumDigitsOf_digits.
  cbn [IsPrefixFree NewStringDigitizer].
  pose proof (first_digit_stored a h r L (digit_at (digits e) 0) Htree) as Hfirst.
  destruct Hq as [[Hnone ->]|(c & b & s1 & k & n & Hc & -> & Hb & Hp & Hsd & Hbp & Hw & Hk & _ & Hend)].
  { split; [done|]. intros Hex. apply Hfirst in Hex as [c Hc]. congruence. }
  split.
  { intros _ Hno. exfalso. destruct Hfirst as [Hfirst _].
    destruct Hfirst as (x & Hx & Hd); [eauto|]. by apply (Hno x). }
  intros _.
  set (q := map letter_digit (bytes e)).
  assert (Hds : digits e = q ++ [0]) by done.
  assert (Hlen : length (digits e) = S (length q)).
  { rewrite Hds, length_app. simpl. lia. }
  assert (Hsub : elementsInSubtree fuel h s1 col
                 = Ok (s1, col ++ (Some <$> (below L (take k (digits e))).*2))).
  { apply (elementsInSubtree_spec (D := max_list (length ∘ key <$> L)) Ha Htree Hcells Halpha
             (key_length_le L) Hsorted fuel _ n); try done. lia. }
  rsimpl. destruct b.
  - destruct Hb as [-> ->]. rsimpl.
    change (searchResult_eqb Matched Prefix) with false.
    change (searchResult_eqb Matched Matched) with true. cbn [orb].
    rewrite Hsub. rsimpl. assert (k = length q) as -> by lia.
    by rewrite Hds, take_app_length.
  - destruct Hb as [-> ->]. rsimpl.
    change (searchResult_eqb Unmatched Prefix) with false.
    change (searchResult_eqb Unmatched Matched) with false. cbn [orb].
    rewrite Hbp. unfold len. rewrite Hlen.
    destruct (decide (k = length q)) as [->|Hne].
    + replace (Z.of_nat (length q) =? Z.of_nat (S (length q)) - 1) with true
        by (symmetry; apply Z.eqb_eq; lia).
      rewrite Hsub. rsimpl. by rewrite Hds, take_app_length.
    + replace (Z.of_nat k =? Z.of_nat (S (length q)) - 1) with false
        by (symmetry; apply Z.eqb_neq; lia).
      assert (Hnil : below L q = []).
      { apply filter_none. intros x Hx Hpre.
        destruct (stored_walk_leaf Htree Hcells x Hx) as (lf & Hwx & _).
        assert (Hpk : take (S k) (digits e) `prefix_of` key x).
        { etrans; [|exact Hpre]. rewrite Hds, take_app_le by lia. apply prefix_take. }
        destruct Hpk as [rest Hrest]. rewrite Hrest in Hwx.
        apply walk_prefix in Hwx as [m Hm].
        rewrite take_S_digit, walk_snoc, Hw, Hend in Hm by lia. done. }
      rewrite Hnil. simpl. by rewrite app_nil_r.
Qed.

Lemma LongestCommonPrefix_inv a h t L e fuel col :
  trie_inv a h t L -> in_alphabet a e = true -> (fuel_for a L e <= fuel)%nat ->
  (L = [] -> LongestCommonPrefix fuel h t e col = Ok col) /\
  (L <> [] -> (forall x, x ∈ L -> digit_at (key x) 0 <> digit_at (digits e) 0) ->
   LongestCommonPrefix fuel h t e col = Panic) /\
  ((exists x, x ∈ L /\ digit_at (key x) 0 = digit_at (digits e) 0) ->
   exists k, (S k <= length (digits e))%nat /\
     LongestCommonPrefix fuel h t e col =
     Ok (col ++ (Some <$> (below L (take k (digits e))).*2)) /\
     (exists x, x ∈ L /\ take k (digits e) `prefix_of` key x) /\
     (forall j x, x ∈ L -> (S j <= length (digits e))%nat ->
                  take j (digits e) `prefix_of` key x -> (j <= k)%nat)).
Proof.
  intros Hinv He Hfuel. unfold LongestCommonPrefix. rewrite (IsEmpty_inv _ _ _ _ Hinv).
  split; [intros ->; by rewrite bool_decide_true|].
  destruct (decide (L = [])) as [->|HL].
  { split; [done|]. intros (x & Hx & _). by apply elem_of_nil in Hx. }
  rewrite bool_decide_false by done. cbn [negb].
  destruct (inv_list _ _ _ _ Hinv) as (hd & tl & Hhd & Htl & Hlist).
  pose proof (inv_alphabet _ _ _ _ Hinv) as Ha.
  assert (Hcells : forall x, x ∈ L -> leaf_cell h x.1 x.2).
  { intros x Hx. apply (list_leaf_cell _ _ _ _ _ _ Hlist Hx). }
  assert (Halpha : forall x, x ∈ L -> in_alphabet a x.2 = true).
  { intros x Hx. apply (list_in_alphabet _ _ _ _ _ _ Hlist Hx). }
  pose proof (list_sorted _ _ _ _ _ Hlist) as Hsorted.
  unfold fuel_for in Hfuel.
  destruct (prefix_query_context a h t L e fuel Hinv HL He)
    as (r & res & s & Hr & Htree & Hfind & Hq); [lia|].
  rewrite Hfind. rsimpl.
  pose proof (first_digit_stored a h r L (digit_at (digits e) 0) Htree) as Hfirst.
  destruct Hq as [[Hnone ->]|(c & b & s1 & k & n & Hc & -> & Hb & Hp & Hsd & Hbp & Hw & Hk & Hsome & Hend)].
  { split; [done|]. intros Hex. apply Hfirst in Hex as [c Hc]. congruence. }
  split.
  { intros _ Hno. exfalso. destruct Hfirst as [Hfirst _].
    destruct Hfirst as (x & Hx & Hd); [eauto|]. by apply (Hno x). }
  intros _. exists k. split; [done|].
  assert (Hsub : elementsInSubtree fuel h s1 col
                 = Ok (s1, col ++ (Some <$> (below L (take k (digits e))).*2))).
  { apply (elementsInSubtree_spec (D := max_list (length ∘ key <$> L)) Ha Htree Hcells Halpha
             (key_length_le L) Hsorted fuel _ n); try done. lia. }
  split; [|split; [done|]].
  - rsimpl. destruct b.
    + destruct Hb as [-> _]. rsimpl. by rewrite Hsub.
    + destruct Hb as [-> _]. rsimpl. by rewrite Hsub.
  - intros j x Hx Hj Hpre. destruct b; [lia|].
    destruct (decide (j <= k)%nat) as [|Hgt]; [done|]. exfalso.
    destruct (stored_walk_leaf Htree Hcells x Hx) as (lf & Hwx & _).
    assert (Hpk : take (S k) (digits e) `prefix_of` key x).
    { etrans; [|exact Hpre]. apply take_prefix_mono. lia. }
    destruct Hpk as [rest Hrest]. rewrite Hrest in Hwx.
    apply walk_prefix in Hwx as [m Hm].
    rewrite take_S_digit, walk_snoc, Hw, Hend in Hm by lia. done.
Qed.

(** ** In terms of the stored strings *)

Lemma in_alphabet_Forall a s :
  in_alphabet a s = true -> Forall (fun c => letter_ok a c = true) (bytes s).
Proof.
  unfold in_alphabet. induction (bytes s) as [|c l IH]; simpl; intros H; [constructor|].
  apply andb_true_iff in H as [H1 H2]. constructor; auto.
Qed.

Lemma letter_digit_lower a c d :
  letter_ok a c = true -> letter_ok a d = true ->
  letter_digit c = letter_digit d <-> toLower c = toLower d.
Proof.
  intros Hc Hd. apply letter_ok_byte in Hc as [Ec _]. apply letter_ok_byte in Hd as [Ed _].
  split.
  - intros H. apply byte_of_inj. lia.
  - intros H. unfold letter_digit. by rewrite H.
Qed.

Lemma prefix_letters a (bp bs : list ascii) :
  Forall (fun c => letter_ok a c = true) bp -> Forall (fun c => letter_ok a c = true) bs ->
  map letter_digit bp `prefix_of` (map letter_digit bs ++ [0]) <->
  map toLower bp `prefix_of` map toLower bs.
Proof.
  intros Hp. revert bs. induction Hp as [|c bp Hc Hp IH]; intros bs Hs.
  { simpl. split; intros _; apply prefix_nil. }
  destruct Hs as [|d bs Hd Hs]; simpl.
  - split.
    + intros H. apply prefix_cons_inv_1 in H. apply letter_ok_digit in Hc. lia.
    + intros H. by apply prefix_nil_not in H.
  - split.
    + intros H. pose proof (prefix_cons_inv_1 _ _ _ _ H) as H1.
      apply prefix_cons_inv_2 in H. apply prefix_cons_alt.
      * by apply (letter_digit_lower a).
      * by apply IH.
    + intros H. pose proof (prefix_cons_inv_1 _ _ _ _ H) as H1.
      apply prefix_cons_inv_2 in H. apply prefix_cons_alt.
      * by apply (letter_digit_lower a).
      * by apply IH.
Qed.

Lemma shares_prefix_digits a p s k :
  in_alphabet a p = true -> in_alphabet a s = true -> (S k <= length (digits p))%nat ->
  take k (digits p) `prefix_of` digits s <-> shares_prefix k p s.
Proof.
  intros Hp Hs Hk. unfold shares_prefix, lower, digits in *.
  rewrite length_app, length_map in Hk. simpl in Hk.
  rewrite take_app_le by (rewrite length_map; lia).
  change (take k (map letter_digit (bytes p))) with (take k (letter_digit <$> bytes p)).
  change (take k (map toLower (bytes p))) with (take k (toLower <$> bytes p)).
  rewrite <- !fmap_take.
  apply (prefix_letters a); [|by apply in_alphabet_Forall].
  apply Forall_take. by apply in_alphabet_Forall.
Qed.

Lemma same_first_letter_digits a s p :
  in_alphabet a s = true -> in_alphabet a p = true ->
  digit_at (digits s) 0 = digit_at (digits p) 0 <-> same_first_letter s p.
Proof.
  intros Hs Hp. apply in_alphabet_Forall in Hs, Hp.
  unfold same_first_letter, lower, digits, digit_at.
  destruct Hs as [|c bs Hc _], Hp as [|d bp Hd _]; simpl.
  - done.
  - apply letter_ok_digit in Hd. split; [lia|done].
  - apply letter_ok_digit in Hc. split; [lia|done].
  - rewrite (letter_digit_lower a c d Hc Hd). split; [by intros ->|by intros [= ->]].
Qed.

Lemma below_strings a L p k :
  (forall x, x ∈ L -> in_alphabet a x.2 = true) -> in_alphabet a p = true ->
  (S k <= length (digits p))%nat ->
  (below L (take k (digits p))).*2 = filter (shares_prefix k p) L.*2.
Proof.
  intros Halpha Hp Hk. unfold below.
  rewrite (filter_iff_in _ (fun x => shares_prefix k p x.2)).
  - by apply filter_fmap_snd.
  - intros x Hx. unfold key. apply (shares_prefix_digits a); auto.
Qed.

Lemma stored_first_letter a (L : list (nat * string)) p :
  (forall x, x ∈ L -> in_alphabet a x.2 = true) -> in_alphabet a p = true ->
  (exists x, x ∈ L /\ digit_at (key x) 0 = digit_at (digits p) 0) <->
  (exists s, s ∈ L.*2 /\ same_first_letter s p).
Proof.
  intros Halpha Hp. split.
  - intros (x & Hx & Hd). exists x.2. split; [apply list_elem_of_fmap; by exists x|].
    apply (same_first_letter_digits a); auto.
  - intros (s & Hs & Hf). apply list_elem_of_fmap in Hs as (x & -> & Hx).
    exists x. split; [done|]. apply (same_first_letter_digits a); auto.
Qed.

(** In every state of a trie and for every string [p] over the alphabet:
    on an empty trie [Completions p] returns the collection it was given;
    when some stored string begins with the same letter as [p] (or [p] is
    empty and the empty string is stored) it appends to the collection the
    stored strings that begin with [p] up to case, in the order of
    [Values], and nothing when there is none; and on a trie that is not
    empty and holds no string with the first letter of [p], it panics. *)
Theorem Completions_appends_the_completions (a : Z) (h : heap) (t : trie) (p : string) :
  reachable a h t -> in_alphabet a p = true ->
  exists (vs : list string) (n : nat),
    forall fuel, (n <= fuel)%nat ->
      Values fuel h t = Ok (h, Some <$> vs) /\
      forall col,
        (vs = [] -> Completions fuel h t p col = Ok col) /\
        ((exists s, s ∈ vs /\ same_first_letter s p) ->
         Completions fuel h t p col =
         Ok (col ++ (Some <$> filter (shares_prefix (length (bytes p)) p) vs))) /\
        (vs <> [] -> (forall s, s ∈ vs -> ~ same_first_letter s p) ->
         Completions fuel h t p col = Panic).
Proof.
  intros Hr Hp. destruct (reachable_inv a h t Hr) as [L Hinv].
  destruct (inv_list _ _ _ _ Hinv) as (hd & tl & _ & _ & Hlist).
  assert (Halpha : forall x, x ∈ L -> in_alphabet a x.2 = true)
    by (intros x Hx; apply (list_in_alphabet _ _ _ _ _ _ Hlist Hx)).
  exists L.*2, (fuel_for a L p). intros fuel Hfuel.
  split; [apply (Values_strings a); [done|unfold fuel_for in Hfuel; lia]|].
  intros col.
  destruct (Completions_inv a h t L p fuel col Hinv Hp Hfuel) as (Hempty & Hpanic & Hsome).
  assert (Hlen : length (digits p) = S (length (bytes p))).
  { unfold digits. rewrite length_app, length_map. simpl. lia. }
  split_and!.
  - intros HL. apply Hempty. by apply fmap_nil_inv in HL.
  - intros Hex. apply (stored_first_letter a L p Halpha Hp) in Hex.
    rewrite (Hsome Hex). do 3 f_equal.
    rewrite <- (below_strings a L p) by (auto; lia).
    f_equal. f_equal. unfold digits. rewrite take_app_length'; [done|by rewrite length_map].
  - intros HL Hno. apply Hpanic.
    + intros ->. by apply HL.
    + intros x Hx Hd. apply (Hno x.2).
      * apply list_elem_of_fmap. by exists x.
      * by apply (same_first_letter_digits a); auto.
Qed.

(** In every state of a trie and for every string [p] over the alphabet:
    on an empty trie [LongestCommonPrefix p] returns the collection it was
    given; when some stored string begins with the same letter as [p] (or
    [p] is empty and the empty string is stored) it appends the stored
    strings that share the longest prefix with [p]: those that begin with
    the first [k] bytes of [p] up to case, in the order of [Values], for
    the greatest [k] for which there are any; and on a trie that is not
    empty and holds no string with the first letter of [p], it panics. *)
Theorem LongestCommonPrefix_appends_the_closest (a : Z) (h : heap) (t : trie) (p : string) :
  reachable a h t -> in_alphabet a p = true ->
  exists (vs : list string) (n : nat),
    forall fuel, (n <= fuel)%nat ->
      Values fuel h t = Ok (h, Some <$> vs) /\
      forall col,
        (vs = [] -> LongestCommonPrefix fuel h t p col = Ok col) /\
        ((exists s, s ∈ vs /\ same_first_letter s p) ->
         exists k, (k <= length (bytes p))%nat /\
           LongestCommonPrefix fuel h t p col =
           Ok (col ++ (Some <$> filter (shares_prefix k p) vs)) /\
           filter (shares_prefix k p) vs <> [] /\
           (forall j s, s ∈ vs -> (j <= length (bytes p))%nat ->
                        shares_prefix j p s -> (j <= k)%nat)) /\
        (vs <> [] -> (forall s, s ∈ vs -> ~ same_first_letter s p) ->
         LongestCommonPrefix fuel h t p col = Panic).
Proof.
  intros Hr Hp. destruct (reachable_inv a h t Hr) as [L Hinv].
  destruct (inv_list _ _ _ _ Hinv) as (hd & tl & _ & _ & Hlist).
  assert (Halpha : forall x, x ∈ L -> in_alphabet a x.2 = true)
    by (intros x Hx; apply (list_in_alphabet _ _ _ _ _ _ Hlist Hx)).
  exists L.*2, (fuel_for a L p). intros fuel Hfuel.
  split; [apply (Values_strings a); [done|unfold fuel_for in Hfuel; lia]|].
  intros col.
  destruct (LongestCommonPrefix_inv a h t L p fuel col Hinv Hp Hfuel)
    as (Hempty & Hpanic & Hsome).
  assert (Hlen : length (digits p) = S (length (bytes p))).
  { unfold digits. rewrite length_app, length_map. simpl. lia. }
  split_and!.
  - intros HL. apply Hempty. by apply fmap_nil_inv in HL.
  - intros Hex. apply (stored_first_letter a L p Halpha Hp) in Hex.
    destruct (Hsome Hex) as (k & Hk & Hrun & (x & Hx & Hpre) & Hmax).
    exists k. split_and!.
    + lia.
    + rewrite Hrun. by rewrite (below_strings a L p k Halpha Hp Hk).
    + intros Hnil. apply (filter_nil_not_elem_of _ _ x.2) in Hnil.
      * apply Hnil. apply list_elem_of_fmap. by exists x.
      * apply (shares_prefix_digits a); auto.
    + intros j s Hs Hj Hsh. apply list_elem_of_fmap in Hs as (y & -> & Hy).
      apply (Hmax j y Hy); [lia|]. apply (shares_prefix_digits a); auto. lia.
  - intros HL Hno. apply Hpanic.
    + intros ->. by apply HL.
    + intros x Hx Hd. apply (Hno x.2).
      * apply list_elem_of_fmap. by exists x.
      * by apply (same_first_letter_digits a); auto.
Qed.

Lemma Completions_appends_the_completions_witness :
  sample_query (fun h t => Completions 32 h t "ab" []) = Ok [Some "ab"; Some "abc"] /\
  sample_query (fun h t => Completions 32 h t "AC" [Some "x"]) = Ok [Some "x"] /\
  sample_query (fun h t => Completions 32 h t "b" []) = Panic /\
  match sample_run 32 with
  | Ok (h, t) =>
      (reachable 4 h t /\ in_alphabet 4 "ab" = true) /\
      exists (vs : list string) (n : nat),
        forall fuel, (n <= fuel)%nat ->
          Values fuel h t = Ok (h, Some <$> vs) /\
          forall col,
            (vs = [] -> Completions fuel h t "ab" col = Ok col) /\
            ((exists s, s ∈ vs /\ same_first_letter s "ab") ->
             Completions fuel h t "ab" col =
             Ok (col ++ (Some <$> filter (shares_prefix (length (bytes "ab")) "ab") vs))) /\
            (vs <> [] -> (forall s, s ∈ vs -> ~ same_first_letter s "ab") ->
             Completions fuel h t "ab" col = Panic)
  | _ => False
  end.
Proof.
  split_and!; [vm_compute; reflexivity|vm_compute; reflexivity|vm_compute; reflexivity|].
  destruct sample_reachable as (h & t & E & Hr). rewrite E. clear E.
  split; [split; [exact Hr|reflexivity]|].
  apply (Completions_appends_the_completions 4 h t "ab" Hr). reflexivity.
Defined.

Lemma LongestCommonPrefix_appends_the_closest_witness :
  sample_query (fun h t => LongestCommonPrefix 32 h t "abd" []) = Ok [Some "ab"; Some "abc"] /\
  sample_query (fun h t => LongestCommonPrefix 32 h t "abcd" []) = Ok [Some "abc"] /\
  sample_query (fun h t => LongestCommonPrefix 32 h t "b" []) = Panic /\
  match sample_run 32 with
  | Ok (h, t) =>
      (reachable 4 h t /\ in_alphabet 4 "abd" = true) /\
      exists (vs : list string) (n : nat),
        forall fuel, (n <= fuel)%nat ->
          Values fuel h t = Ok (h, Some <$> vs) /\
          forall col,
            (vs = [] -> LongestCommonPrefix fuel h t "abd" col = Ok col) /\
            ((exists s, s ∈ vs /\ same_first_letter s "abd") ->
             exists k, (k <= length (bytes "abd"))%nat /\
               LongestCommonPrefix fuel h t "abd" col =
               Ok (col ++ (Some <$> filter (shares_prefix k "abd") vs)) /\
               filter (shares_prefix k "abd") vs <> [] /\
               (forall j s, s ∈ vs -> (j <= length (bytes "abd"))%nat ->
                            shares_prefix j "abd" s -> (j <= k)%nat)) /\
            (vs <> [] -> (forall s, s ∈ vs -> ~ same_first_letter s "abd") ->
             LongestCommonPrefix fuel h t "abd" col = Panic)
  | _ => False
  end.
Proof.
  split_and!; [vm_compute; reflexivity|vm_compute; reflexivity|vm_compute; reflexivity|].
  destruct sample_reachable as (h & t & E & Hr). rewrite E. clear E.
  split; [split; [exact Hr|reflexivity]|].
  apply (LongestCommonPrefix_appends_the_closest 4 h t "abd" Hr). reflexivity.
Defined.

(** * The iterator and the removal of its element *)

(** A stored element's cell is live: it follows a cell of the order list. *)
Lemma stored_cell_live a h hd tl L1 l s0 L2 :
  list_ok a h hd tl (L1 ++ (l, s0) :: L2) ->
  exists lf, h !! l = Some (OLeaf lf) /\ element (Node lf) = Some s0 /\
             isHead lf = false /\ isTail lf = false /\ previous lf <> None.
Proof.
  intros Hlist.
  assert (Hin : (l, s0) ∈ L1 ++ (l, s0) :: L2) by (apply elem_of_app; right; by left).
  pose proof (list_linked _ _ _ _ _ Hlist) as Hlk.
  destruct (cons_snoc hd L1.*1) as (A & p & E).
  assert (Heq : hd :: (L1 ++ (l, s0) :: L2).*1 ++ [tl] = A ++ p :: l :: (L2.*1 ++ [tl])).
  { rewrite fmap_app, fmap_cons, <- app_assoc, app_comm_cons, E, <- app_assoc. done. }
  rewrite Heq in Hlk. apply linked_link in Hlk.
  destruct (link_leaf _ _ _ _ Hlk (list_leaf_cell _ _ _ _ _ _ Hlist Hin))
    as (lf & Hlf & He & Hh & Ht & Hp).
  exists lf. split_and!; try done. by rewrite Hp.
Qed.

(** The iterator that stands on a stored element removes it, is then
    outside the collection, and advances to the element that followed. *)
Lemma iterator_remove_inv a h t L1 l s0 L2 fuel :
  trie_inv a h t (L1 ++ (l, s0) :: L2) -> (length (digits s0) < fuel)%nat ->
  (2 <= fuel)%nat ->
  iterator_get h (Some l) = Ok (Some s0) /\
  exists h' t' p,
    iterator_remove fuel h t (Some l) = Ok (h', t') /\ trie_inv a h' t' (L1 ++ L2) /\
    iterator_get h' (Some l) = Ok None /\
    advance fuel h' (Some l) = Ok (h', p, bool_decide (L2 <> [])) /\
    iterator_get h' p = Ok (L2.*2 !! 0%nat).
Proof.
  intros Hinv Hfuel H2.
  destruct (inv_list _ _ _ _ Hinv) as (hd & tl & Hhd & Htl & Hlist).
  destruct (stored_cell_live _ _ _ _ _ _ _ _ Hlist) as (lf & Hlf & He & Hh & Ht & Hp).
  split; [by apply (iterator_get_leaf h l lf s0)|].
  destruct (remove_inv a h t L1 l s0 L2 fuel Hinv Hfuel)
    as (h' & t' & Hrun & Hinv' & Htl' & Hhd' & Htomb).
  destruct (Htomb tl Htl) as (dl & Hdl & Hdp & Hdn & Hdh & Hdt).
  destruct (inv_list _ _ _ _ Hinv') as (hd2 & tl2 & Hhd2 & Htl2 & Hlist').
  rewrite Hhd', Hhd in Hhd2. injection Hhd2 as <-.
  rewrite Htl', Htl in Htl2. injection Htl2 as <-.
  assert (Hget : iterator_get h' (Some l) = Ok None).
  { unfold iterator_get, inCollection.
    rewrite (IsHead_eq _ _ _ Hdl), (IsTail_eq _ _ _ Hdl), (IsDeleted_eq _ _ _ Hdl).
    rsimpl. rewrite Hdh, Hdt. rsimpl. by rewrite Hdp. }
  assert (Hrem : iterator_remove fuel h t (Some l) = Ok (h', t')).
  { unfold iterator_remove, inCollection.
    rewrite (IsHead_eq _ _ _ Hlf), (IsTail_eq _ _ _ Hlf), (IsDeleted_eq _ _ _ Hlf).
    rsimpl. rewrite Hh, Ht. rsimpl. destruct (previous lf); [|done]. by rsimpl. }
  destruct fuel as [|[|fuel]]; [lia|lia|].
  destruct L2 as [|[l2 s2] L2].
  - simpl in Hdn. destruct (list_tail _ _ _ _ _ Hlist') as (tll & Htll & Hth & Htt).
    exists h', t', (Some tl). split_and!; try done.
    + rewrite (advance_front fuel h' l tl tll); [by rewrite Htt| |done|done|by left].
      exists dl. split_and!; try done. by right.
    + unfold iterator_get, inCollection.
      rewrite (IsHead_eq _ _ _ Htll), (IsTail_eq _ _ _ Htll). rsimpl.
      rewrite Hth, Htt. by rsimpl.
  - simpl in Hdn.
    destruct (stored_cell_live _ _ _ _ _ _ _ _ Hlist') as (nl & Hnl & Hne & Hnh & Hnt & Hnp).
    exists h', t', (Some l2). split_and!; try done.
    + rewrite (advance_front fuel h' l l2 nl); [by rewrite Hnt| |done|done|by right].
      exists dl. split_and!; try done. by right.
    + simpl. by apply (iterator_get_leaf h' l2 nl s2).
Qed.

(** In every state of a trie, for a stored string [s'] and a string [s]
    equal to it up to case: [find s] stops on the cell of [s'], and the
    iterator on that cell reads [s'].  When that iterator removes its
    element, the trie holds the other strings in their order; the iterator
    is then outside the collection, and [advance] takes it to the string
    that followed [s'], reporting the end when there was none. *)
Theorem iterator_outlives_its_element (a : Z) (h : heap) (t : trie) (s : string) :
  reachable a h t -> in_alphabet a s = true ->
  exists (vs : list string) (n : nat),
    forall fuel, (n <= fuel)%nat ->
      Values fuel h t = Ok (h, Some <$> vs) /\
      forall v1 s' v2, vs = v1 ++ s' :: v2 -> ci_eq s' s ->
        exists ctx h' t' p,
          find fuel h t s = Ok (Matched, ctx) /\
          iterator_get h (pointer ctx) = Ok (Some s') /\
          iterator_remove fuel h t (pointer ctx) = Ok (h', t') /\
          Values fuel h' t' = Ok (h', Some <$> (v1 ++ v2)) /\
          iterator_get h' (pointer ctx) = Ok None /\
          advance fuel h' (pointer ctx) = Ok (h', p, bool_decide (v2 <> [])) /\
          iterator_get h' p = Ok (v2 !! 0%nat).
Proof.
  intros Hr Hs. destruct (reachable_inv a h t Hr) as [L Hinv].
  destruct (inv_list _ _ _ _ Hinv) as (hd & tl & _ & _ & Hlist).
  exists L.*2, (S (S (length (digits s))) `max` S (length L))%nat. intros fuel Hfuel.
  split; [apply (Values_strings a); [done|lia]|].
  intros v1 s' v2 Hvs Heq.
  destruct (find_spec a h t L s fuel Hinv Hs ltac:(lia))
    as [(l & s0 & ctx & Hfind & Hin & Hds & Hptr & _)|(ctx & _ & _ & Hnone)].
  2:{ exfalso.
      destruct (proj2 (stored_string a h hd tl L s Hlist Hs)) as (x & Hx & Hk).
      - exists s'. split; [|done]. rewrite Hvs. apply elem_of_app. right. by left.
      - by apply (Hnone x). }
  apply list_elem_of_split in Hin as (L1 & L2 & HL).
  assert (Hsplit : L1.*2 = v1 /\ s0 = s' /\ L2.*2 = v2).
  { apply fmap_app_inv in Hvs as (M1 & M & -> & HM & HLM).
    symmetry in HM. apply fmap_cons_inv in HM as (y & M2 & -> & -> & ->).
    assert (Hy : in_alphabet a y.2 = true).
    { apply (list_in_alphabet _ _ _ _ _ y Hlist). rewrite HLM.
      apply elem_of_app. right. by left. }
    destruct (split_unique L1 L2 M1 M2 (l, s0) y) as (-> & <- & ->); try done.
    - rewrite <- HL. apply sorted_keys_NoDup, (list_sorted _ _ _ _ _ Hlist).
    - by rewrite <- HL.
    - unfold key. simpl. rewrite Hds. symmetry. by apply (digits_ci_eq a). }
  destruct Hsplit as (<- & <- & <-).
  rewrite HL in Hinv.
  destruct (iterator_remove_inv a h t L1 l s0 L2 fuel Hinv)
    as (Hget & h' & t' & p & Hrem & Hinv' & Hget' & Hadv & Hnext); [rewrite Hds; lia|lia|].
  exists ctx, h', t', p. rewrite Hptr. split_and!; try done.
  - rewrite <- fmap_app. apply (Values_strings a); [done|].
    rewrite HL in Hfuel. rewrite !length_app in *. simpl in *. lia.
  - rewrite Hadv. do 2 f_equal. destruct L2; done.
Qed.

Lemma iterator_outlives_its_element_witness :
  sample_query (fun h t =>
    let* (r, ctx) := find 32 h t "AB" in
    let* was := iterator_get h (pointer ctx) in
    let* (h1, t1) := iterator_remove 32 h t (pointer ctx) in
    let* now := iterator_get h1 (pointer ctx) in
    let* (h2, p, b) := advance 32 h1 (pointer ctx) in
    let* v := iterator_get h2 p in
    Ok (r, was, now, b, v))
  = Ok (Matched, Some "ab", None, true, Some "abc") /\
  match sample_run 32 with
  | Ok (h, t) =>
      (reachable 4 h t /\ in_alphabet 4 "AB" = true) /\
      exists (vs : list string) (n : nat),
        forall fuel, (n <= fuel)%nat ->
          Values fuel h t = Ok (h, Some <$> vs) /\
          forall v1 s' v2, vs = v1 ++ s' :: v2 -> ci_eq s' "AB" ->
            exists ctx h' t' p,
              find fuel h t "AB" = Ok (Matched, ctx) /\
              iterator_get h (pointer ctx) = Ok (Some s') /\
              iterator_remove fuel h t (pointer ctx) = Ok (h', t') /\
              Values fuel h' t' = Ok (h', Some <$> (v1 ++ v2)) /\
              iterator_get h' (pointer ctx) = Ok None /\
              advance fuel h' (pointer ctx) = Ok (h', p, bool_decide (v2 <> [])) /\
              iterator_get h' p = Ok (v2 !! 0%nat)
  | _ => False
  end.
Proof.
  split; [vm_compute; reflexivity|].
  destruct sample_reachable as (h & t & E & Hr). rewrite E. clear E.
  split; [split; [exact Hr|reflexivity]|].
  apply (iterator_outlives_its_element 4 h t "AB" Hr). reflexivity.
Defined.

(** * [AddAll] and the first stored string *)

Lemma AddAll_app fuel ss1 rest :
  forall h t,
    AddAll fuel h t (ss1 ++ rest) =
    let* (h1, t1, err) := AddAll fuel h t ss1 in
    match err with
    | Some _ => Ok (h1, t1, err)
    | None => AddAll fuel h1 t1 rest
    end.
Proof.
  induction ss1 as [|s ss1 IH]; intros h t; [done|].
  cbn [app AddAll]. destruct (Add fuel h t s) as [[[h1 t1] [err|]]| |]; try done.
  rsimpl. apply IH.
Qed.

(** A run of [AddAll] over strings none of which equals, up to case, a
    stored string or an earlier string of the run: every insertion
    succeeds. *)
Lemma AddAll_fresh a ss :
  forall h t L M fuel,
    trie_inv a h t L -> Forall (fun s => in_alphabet a s = true) ss ->
    (forall x, x ∈ L -> (length (key x) <= M)%nat) ->
    Forall (fun e => (length (digits e) <= M)%nat) ss ->
    (2 * M + Z.to_nat a + length L + length ss + 2 <= fuel)%nat ->
    (forall i s, ss !! i = Some s -> forall s', s' ∈ L.*2 ++ take i ss -> ~ ci_eq s' s) ->
    exists h' t' L',
      AddAll fuel h t ss = Ok (h', t', None) /\ trie_inv a h' t' L' /\
      L'.*2 = fold_left (fun acc s => sort_insert s acc) ss (L.*2).
Proof.
  induction ss as [|e ss IH]; intros h t L M fuel Hinv Hss HL HM Hfuel Hfresh.
  { by exists h, t, L. }
  apply Forall_cons in Hss as [He Hss]. apply Forall_cons in HM as [HeM HM].
  simpl in Hfuel. pose proof (fuel_for_bound a L e M HL HeM) as Hb.
  destruct (inv_list _ _ _ _ Hinv) as (hd0 & tl0 & _ & _ & Hlist0).
  destruct (Add_inv a h t L e fuel Hinv He ltac:(lia))
    as [[Hdup _]|(_ & h1 & t1 & L1 & L2 & Hadd & -> & Hinv1 & Hlow & Hhigh)].
  { exfalso. apply (stored_string a h hd0 tl0 L e Hlist0 He) in Hdup as (s' & Hs' & Heq).
    apply (Hfresh 0%nat e eq_refl s'); [|done]. simpl. by rewrite app_nil_r. }
  destruct (inv_list _ _ _ _ Hinv1) as (hd & tl & _ & _ & Hlist).
  pose proof (inserted_values a h1 hd tl L1 L2 (length h) e Hlist Hlow Hhigh) as Hvals.
  destruct (IH h1 t1 (L1 ++ (length h, e) :: L2) M fuel Hinv1 Hss)
    as (h' & t' & L' & Hrun & Hinv' & HL').
  - intros x Hx. apply elem_of_app in Hx as [Hx|Hx].
    + apply HL, elem_of_app. by left.
    + apply elem_of_cons in Hx as [->|Hx]; [done|]. apply HL, elem_of_app. by right.
  - done.
  - rewrite length_app in *. simpl in *. lia.
  - intros i s Hi s' Hs'. apply (Hfresh (S i) s Hi s').
    rewrite Hvals in Hs'. apply elem_of_app in Hs' as [Hs'|Hs'].
    + rewrite sort_insert_Permutation in Hs'. apply elem_of_cons in Hs' as [->|Hs'].
      * apply elem_of_app. right. simpl. by left.
      * apply elem_of_app. by left.
    + apply elem_of_app. right. simpl. by right.
  - exists h', t', L'. cbn [AddAll]. rewrite Hadd. rsimpl. split_and!; try done.
    rewrite HL'. simpl. by rewrite Hvals.
Qed.

(** [AddAll] is not atomic.  In every state of a trie that [NewTrie], [Add]
    and [Remove] of strings over the alphabet and [Clear] lead to, let the
    strings [ss1], [d] and [ss2] be over the alphabet, let no string of [ss1] equal,
    up to case, a stored string or an earlier string of [ss1], and let [d]
    equal, up to case, a stored string or a string of [ss1].  Then [AddAll]
    of [ss1 ++ d :: ss2] returns, with the prefix violation of [d], and
    leaves the trie as [AddAll] of [ss1] alone does: the strings of [ss1]
    are inserted at their places, [Size] has grown by their number, and
    neither [d] nor a string of [ss2] is inserted. *)
Theorem AddAll_stops_at_the_first_stored_string (a : Z) (h : heap) (t : trie)
  (ss1 : list string) (d : string) (ss2 : list string) (vs : list string) :
  reachable a h t -> Forall (fun s => in_alphabet a s = true) (ss1 ++ d :: ss2) ->
  returns (fun fuel => Values fuel h t) (h, Some <$> vs) ->
  (forall i s, ss1 !! i = Some s -> forall s', s' ∈ vs ++ take i ss1 -> ~ ci_eq s' s) ->
  (exists s', s' ∈ vs ++ ss1 /\ ci_eq s' d) ->
  exists n, forall fuel, (n <= fuel)%nat ->
    exists h1 t1,
      AddAll fuel h t ss1 = Ok (h1, t1, None) /\
      AddAll fuel h t (ss1 ++ d :: ss2) = Ok (h1, t1, Some (PrefixViolation d)) /\
      Size t1 = Size t + len ss1 /\
      Values fuel h1 t1 =
        Ok (h1, Some <$> fold_left (fun acc s => sort_insert s acc) ss1 vs).
Proof.
  intros Hr Hall [nv Hvals] Hfresh Hdup. destruct (reachable_inv a h t Hr) as [L Hinv].
  assert (Hvs : vs = L.*2).
  { specialize (Hvals (nv `max` S (length L))%nat ltac:(lia)).
    rewrite (Values_strings a h t L) in Hvals by (done || lia).
    injection Hvals as Hvals. symmetry.
    revert Hvals. generalize (L.*2). clear. intros l. revert l.
    induction vs as [|v vs IH]; intros [|x l] H; try done.
    injection H as -> H. f_equal. by apply IH. }
  subst vs.
  apply Forall_app in Hall as [Hss1 Hrest]. apply Forall_cons in Hrest as [Hd _].
  set (M := Nat.max (Nat.max (max_list (length ∘ key <$> L))
                             (max_list (length ∘ digits <$> ss1)))
                    (length (digits d))).
  assert (HLM : forall x, x ∈ L -> (length (key x) <= M)%nat).
  { intros x Hx. pose proof (key_length_le L x Hx). lia. }
  assert (HsM : forall s, s ∈ ss1 -> (length (digits s) <= M)%nat).
  { intros s Hs. assert (length (digits s) <= max_list (length ∘ digits <$> ss1))%nat; [|lia].
    apply max_list_elem_of_le. apply list_elem_of_fmap. by exists s. }
  exists (2 * M + Z.to_nat a + length L + length ss1 + 3)%nat. intros fuel Hfuel.
  destruct (AddAll_fresh a ss1 h t L M fuel Hinv Hss1 HLM)
    as (h1 & t1 & L' & Hrun & Hinv' & HL'); [|lia|done|].
  { apply Forall_forall. intros s Hs. by apply HsM. }
  assert (Hlen : length L' = (length ss1 + length L)%nat).
  { rewrite <- (length_fmap snd L'), HL', sorted_fold_Permutation, length_app.
    by rewrite length_fmap. }
  assert (HL'M : forall x, x ∈ L' -> (length (key x) <= M)%nat).
  { intros x Hx. assert (Hin : x.2 ∈ L'.*2) by (apply list_elem_of_fmap; by exists x).
    rewrite HL', sorted_fold_Permutation in Hin. apply elem_of_app in Hin as [Hin|Hin].
    - by apply HsM.
    - apply list_elem_of_fmap in Hin as (y & Hy & HyL). unfold key. rewrite Hy.
      by apply HLM. }
  exists h1, t1. split_and!.
  - done.
  - rewrite AddAll_app, Hrun. rsimpl. cbn [AddAll].
    assert (HdM : (length (digits d) <= M)%nat) by lia.
    pose proof (fuel_for_bound a L' d M HL'M HdM) as Hb.
    destruct (inv_list _ _ _ _ Hinv') as (hd & tl & _ & _ & Hlist').
    destruct (Add_inv a h1 t1 L' d fuel Hinv' Hd ltac:(lia))
      as [[_ Hadd]|(Hnone & _)]; [by rewrite Hadd|].
    exfalso. destruct Hdup as (s' & Hs' & Heq).
    destruct (proj2 (stored_string a h1 hd tl L' d Hlist' Hd)) as (x & Hx & Hk).
    + exists s'. split; [|done]. rewrite HL', sorted_fold_Permutation.
      apply elem_of_app in Hs' as [Hs'|Hs']; apply elem_of_app; [by right|by left].
    + by apply (Hnone x).
  - unfold Size. rewrite (inv_size _ _ _ _ Hinv'), (inv_size _ _ _ _ Hinv).
    unfold len. lia.
  - rewrite <- HL'. apply (Values_strings a); [done|lia].
Qed.

Lemma AddAll_stops_at_the_first_stored_string_witness :
  sample_query (fun h t =>
    let* (h1, t1, err) := AddAll 32 h t ["b"; "AB"; "c"] in
    let* (_, vs) := Values 32 h1 t1 in
    Ok (err, Size t1, vs))
  = Ok (Some (PrefixViolation "AB"), 3, [Some "ab"; Some "abc"; Some "b"]) /\
  match sample_run 32 with
  | Ok (h, t) =>
      (reachable 4 h t /\
       Forall (fun s => in_alphabet 4 s = true) (["b"] ++ "AB" :: ["c"]) /\
       returns (fun fuel => Values fuel h t) (h, Some <$> ["ab"; "abc"]) /\
       (forall i s, ["b"] !! i = Some s ->
                    forall s', s' ∈ ["ab"; "abc"] ++ take i ["b"] -> ~ ci_eq s' s) /\
       (exists s', s' ∈ ["ab"; "abc"] ++ ["b"] /\ ci_eq s' "AB")) /\
      exists n, forall fuel, (n <= fuel)%nat ->
        exists h1 t1,
          AddAll fuel h t ["b"] = Ok (h1, t1, None) /\
          AddAll fuel h t (["b"] ++ "AB" :: ["c"])
          = Ok (h1, t1, Some (PrefixViolation "AB")) /\
          Size t1 = Size t + len ["b"] /\
          Values fuel h1 t1 =
            Ok (h1, Some <$> fold_left (fun acc s => sort_insert s acc) ["b"]
                                       ["ab"; "abc"])
  | _ => False
  end.
Proof.
  split; [vm_compute; reflexivity|].
  destruct sample_values as (h & t & E & Hr & Hv). rewrite E. clear E.
  assert (Hall : Forall (fun s => in_alphabet 4 s = true) (["b"] ++ "AB" :: ["c"])).
  { repeat constructor. }
  assert (Hfresh : forall i s, ["b"] !! i = Some s ->
            forall s', s' ∈ ["ab"; "abc"] ++ take i ["b"] -> ~ ci_eq s' s).
  { intros [|i] s Hi s' Hs' Heq; [|done]. injection Hi as <-. simpl in Hs'.
    apply elem_of_cons in Hs' as [->|Hs']; [vm_compute in Heq; discriminate|].
    apply elem_of_cons in Hs' as [->|Hs']; [vm_compute in Heq; discriminate|].
    by apply elem_of_nil in Hs'. }
  assert (Hdup : exists s', s' ∈ ["ab"; "abc"] ++ ["b"] /\ ci_eq s' "AB").
  { exists "ab". split; [by left|reflexivity]. }
  split; [split_and!; [exact Hr|exact Hall|exact Hv|exact Hfresh|exact Hdup]|].
  apply (AddAll_stops_at_the_first_stored_string 4 h t ["b"] "AB" ["c"] ["ab"; "abc"]
           Hr Hall Hv Hfresh Hdup).
Defined.
